(** * Concurrent data structures: lock-free queue, hash map, thread pool

    A shallow embedding of [include/concurrent/lockfree_queue.hpp],
    [include/concurrent/lockfree_hashmap.hpp] and
    [include/concurrent/thread_pool.hpp].

    Memory is explicit.  A [Node*] is an [option loc] ([None] is [nullptr]),
    the objects created by [new] live in finite maps from addresses to
    objects, [delete] removes the binding, and a load or store through a
    null or dangling pointer is undefined behaviour ([UB]).  Loops of the
    source that are not bounded by their data take a fuel argument and
    answer [OutOfFuel] when it runs out. *)

From Stdlib Require Import ZArith List Lia Bool.
From stdpp Require Import base option list numbers gmap.

(** ** Addresses, results, machine integers *)

Abbreviation loc := positive.
Abbreviation ptr := (option loc).

Inductive result (A : Type) : Type :=
| Ok (a : A)
| UB
| OutOfFuel.
Arguments Ok {A} a.
Arguments UB {A}.
Arguments OutOfFuel {A}.

#[global] Instance result_ret : MRet result := fun A a => Ok a.
#[global] Instance result_bind : MBind result := fun A B f m =>
  match m with
  | Ok a => f a
  | UB => UB
  | OutOfFuel => OutOfFuel
  end.

(** Reading the object an address holds; a missing binding is a dangling
    pointer. *)
Definition deref {A} (h : gmap loc A) (p : ptr) : result A :=
  match p with
  | None => UB
  | Some l => match h !! l with Some a => Ok a | None => UB end
  end.

(** [size_t] is a 64-bit unsigned integer. *)
Definition SIZE_BITS : Z := 64.
Definition wrap (z : Z) : Z := z mod 2 ^ SIZE_BITS.

(** [std::atomic<T>::compare_exchange_weak(expected, desired)] on an object
    holding [obj]: the new content of the object, the new content of
    [expected], and the outcome.  The weak form may fail although the
    comparison succeeds; [spurious] says whether this call does. *)
Definition compare_exchange_weak {A} `{EqDecision A}
    (spurious : bool) (obj expected desired : A) : bool * A * A :=
  if spurious then (false, obj, obj)
  else if decide (obj = expected) then (true, desired, expected)
  else (false, obj, obj).
#[global] Arguments compare_exchange_weak : simpl never.

(** ** Singly linked chains in a heap

    [linked nxt p es] says that the addresses and objects [es] form the
    chain that starts at pointer [p] and follows the [nxt] field up to the
    null pointer; [chain] adds that the heap holds these objects. *)

Section Chain.
Context {N : Type} (nxt : N → ptr).

Fixpoint linked (p : ptr) (es : list (loc * N)) : Prop :=
  match es with
  | [] => p = None
  | (l, nd) :: es' => p = Some l ∧ linked (nxt nd) es'
  end.

Definition held (ns : gmap loc N) (es : list (loc * N)) : Prop :=
  ∀ l nd, (l, nd) ∈ es → ns !! l = Some nd.

Definition chain (ns : gmap loc N) (p : ptr) (es : list (loc * N)) : Prop :=
  linked p es ∧ held ns es.

End Chain.

(** ** The lock-free queue *)

Module Queue.
Section Queue.
Context {T : Type}.

Record Node := mkNode { data : ptr; next : ptr }.

(** [nodes] holds the [Node] objects, [cells] the [T] objects made by
    [new T(std::move(item))]. *)
Record LockFreeQueue := mkQueue {
  nodes : gmap loc Node;
  cells : gmap loc T;
  head_ : ptr;
  tail_ : ptr }.

Definition allocate_node (ns : gmap loc Node) : loc * gmap loc Node :=
  let l := fresh (dom ns) in (l, <[l := mkNode None None]> ns).

Definition deallocate_node (ns : gmap loc Node) (p : ptr) : result (gmap loc Node) :=
  match p with
  | None => Ok ns
  | Some l => match ns !! l with Some _ => Ok (delete l ns) | None => UB end
  end.

Definition store_data (ns : gmap loc Node) (p : ptr) (d : ptr) : result (gmap loc Node) :=
  nd ← deref ns p;
  match p with
  | Some l => Ok (<[l := mkNode d (next nd)]> ns)
  | None => UB
  end.

Definition store_next (ns : gmap loc Node) (p : ptr) (n : ptr) : result (gmap loc Node) :=
  nd ← deref ns p;
  match p with
  | Some l => Ok (<[l := mkNode (data nd) n]> ns)
  | None => UB
  end.

(** [LockFreeQueue()] *)
Definition new_queue : LockFreeQueue :=
  let '(dummy, ns) := allocate_node ∅ in
  {| nodes := ns; cells := ∅; head_ := Some dummy; tail_ := Some dummy |}.

(** [bool enqueue(T item)] *)
Definition enqueue (q : LockFreeQueue) (item : T) : result (bool * LockFreeQueue) :=
  let '(new_node, ns) := allocate_node (nodes q) in
  let d := fresh (dom (cells q)) in
  let cs := <[d := item]> (cells q) in
  ns ← store_data ns (Some new_node) (Some d);
  ns ← store_next ns (Some new_node) None;
  let prev_tail := tail_ q in
  ns ← store_next ns prev_tail (Some new_node);
  Ok (true, {| nodes := ns; cells := cs; head_ := head_ q; tail_ := Some new_node |}).

(** [std::optional<T> dequeue()] of [lockfree_queue.hpp]: the head is
    advanced by a plain store and the old dummy node is freed at once.  The
    [data] pointer of the new head keeps the address of the deleted
    object. *)
Definition dequeue (q : LockFreeQueue) : result (option T * LockFreeQueue) :=
  let head := head_ q in
  hnode ← deref (nodes q) head;
  let next := next hnode in
  match next with
  | None => Ok (None, q)
  | Some _ =>
    nx ← deref (nodes q) next;
    let data := data nx in
    match data with
    | None => Ok (None, q)
    | Some d =>
      res ← deref (cells q) data;
      let cs := delete d (cells q) in
      ns ← deallocate_node (nodes q) head;
      Ok (Some res, {| nodes := ns; cells := cs; head_ := next; tail_ := tail_ q |})
    end
  end.

(** [std::optional<T> dequeue()] of the second copy of the queue: the head
    is advanced by [compare_exchange_weak] in a retry loop, the [data]
    pointer of the new head is cleared, and no node is freed.  [sp] lists
    the spurious failures of the successive compare-exchanges. *)
Fixpoint dequeue_cas (fuel : nat) (sp : list bool) (q : LockFreeQueue)
    : result (option T * LockFreeQueue) :=
  match fuel with
  | O => OutOfFuel
  | S fuel' =>
    let head := head_ q in
    hnode ← deref (nodes q) head;
    let next := next hnode in
    match next with
    | None => Ok (None, q)
    | Some _ =>
      nx ← deref (nodes q) next;
      let data := data nx in
      match data with
      | None => Ok (None, q)
      | Some d =>
        let '(ok, new_head, _) :=
          compare_exchange_weak (List.hd false sp) (head_ q) head next in
        if ok then
          res ← deref (cells q) data;
          let cs := delete d (cells q) in
          ns ← store_data (nodes q) next None;
          Ok (Some res, {| nodes := ns; cells := cs; head_ := new_head; tail_ := tail_ q |})
        else
          dequeue_cas fuel' (List.tl sp)
            {| nodes := nodes q; cells := cells q; head_ := new_head; tail_ := tail_ q |}
      end
    end
  end.

(** [bool empty() const] *)
Definition empty (q : LockFreeQueue) : result bool :=
  hnode ← deref (nodes q) (head_ q);
  Ok (bool_decide (next hnode = None)).

(** The loop of [approximate_size]: [count] is a [size_t]. *)
Fixpoint approximate_size_loop (fuel : nat) (ns : gmap loc Node)
    (current : ptr) (count : Z) : result Z :=
  match current with
  | None => Ok count
  | Some _ =>
    match fuel with
    | O => OutOfFuel
    | S fuel' =>
      cur ← deref ns current;
      let next := next cur in
      count' ← match next with
               | None => Ok count
               | Some _ =>
                 nx ← deref ns next;
                 Ok (match data nx with Some _ => wrap (count + 1) | None => count end)
               end;
      approximate_size_loop fuel' ns next count'
    end
  end.

(** [size_t approximate_size() const] *)
Definition approximate_size (fuel : nat) (q : LockFreeQueue) : result Z :=
  approximate_size_loop fuel (nodes q) (head_ q) 0.

(** *** Operation sequences of one thread *)

Inductive op :=
| Enqueue (item : T)
| Dequeue (sp : list bool)
| Empty
| ApproximateSize.

Inductive ret :=
| REnqueue (b : bool)
| RDequeue (o : option T)
| REmpty (b : bool)
| RSize (n : Z).

(** One call on the queue of [lockfree_queue.hpp]. *)
Definition step_store (fuel : nat) (q : LockFreeQueue) (o : op)
    : result (ret * LockFreeQueue) :=
  match o with
  | Enqueue v => '(b, q') ← enqueue q v; Ok (REnqueue b, q')
  | Dequeue _ => '(r, q') ← dequeue q; Ok (RDequeue r, q')
  | Empty => b ← empty q; Ok (REmpty b, q)
  | ApproximateSize => n ← approximate_size fuel q; Ok (RSize n, q)
  end.

(** One call on the second copy of the queue. *)
Definition step_cas (fuel : nat) (q : LockFreeQueue) (o : op)
    : result (ret * LockFreeQueue) :=
  match o with
  | Enqueue v => '(b, q') ← enqueue q v; Ok (REnqueue b, q')
  | Dequeue sp => '(r, q') ← dequeue_cas fuel sp q; Ok (RDequeue r, q')
  | Empty => b ← empty q; Ok (REmpty b, q)
  | ApproximateSize => n ← approximate_size fuel q; Ok (RSize n, q)
  end.

Fixpoint run (step : LockFreeQueue → op → result (ret * LockFreeQueue))
    (q : LockFreeQueue) (ops : list op) : result (list ret * LockFreeQueue) :=
  match ops with
  | [] => Ok ([], q)
  | o :: ops' =>
    '(r, q') ← step q o;
    '(rs, q'') ← run step q' ops';
    Ok (r :: rs, q'')
  end.

Fixpoint enqueue_all (q : LockFreeQueue) (items : list T) : result LockFreeQueue :=
  match items with
  | [] => Ok q
  | v :: items' => '(_, q') ← enqueue q v; enqueue_all q' items'
  end.

Fixpoint dequeue_n (n : nat) (q : LockFreeQueue) : result (list (option T) * LockFreeQueue) :=
  match n with
  | O => Ok ([], q)
  | S n' =>
    '(r, q') ← dequeue q;
    '(rs, q'') ← dequeue_n n' q';
    Ok (r :: rs, q'')
  end.

(** The spurious failures of a sequence stay below the fuel, and so does
    its length (which bounds the number of nodes a traversal meets). *)
Definition fuel_covers (fuel : nat) (ops : list op) : Prop :=
  length ops < fuel ∧
  Forall (λ o, match o with Dequeue sp => length sp < fuel | _ => True end) ops.

(** *** The first-in first-out queue the operations implement *)

Definition fifo_step (l : list T) (o : op) : ret * list T :=
  match o with
  | Enqueue v => (REnqueue true, l ++ [v])
  | Dequeue _ => (RDequeue (head l), tail l)
  | Empty => (REmpty (match l with [] => true | _ => false end), l)
  | ApproximateSize => (RSize (wrap (Z.of_nat (length l))), l)
  end.

Fixpoint fifo_run (l : list T) (ops : list op) : list ret * list T :=
  match ops with
  | [] => ([], l)
  | o :: ops' =>
    let '(r, l') := fifo_step l o in
    let '(rs, l'') := fifo_run l' ops' in
    (r :: rs, l'')
  end.

(** *** Representation invariant

    The nodes reachable from [head_] are [es]: the dummy node first, then
    one node per queued element whose [data] points to a live cell holding
    it.  [tail_] points to the last node.  Nothing is said about the dummy
    node's [data], nor about nodes of the heap outside the chain. *)

Definition payload (cs : gmap loc T) (d : ptr) (v : T) : Prop :=
  ∃ c, d = Some c ∧ cs !! c = Some v.

(** The [data] pointers of the nodes behind the dummy node. *)
Definition datas (es : list (loc * Node)) : list ptr :=
  (λ e, data e.2) <$> tail es.

Record repr (q : LockFreeQueue) (es : list (loc * Node)) (vs : list T) : Prop := {
  repr_chain : chain next (nodes q) (head_ q) es;
  repr_tail : tail_ q = fst <$> last es;
  repr_nodup : NoDup es.*1;
  repr_payload : Forall2 (payload (cells q)) (datas es) vs;
  repr_cells : NoDup (datas es) }.

Definition wf (q : LockFreeQueue) (vs : list T) : Prop :=
  ∃ es, es ≠ [] ∧ repr q es vs.

(** *** The destructor *)

(** [if (data) delete data;] for a [T*]: deleting an object that is not
    there is undefined. *)
Definition delete_cell (cs : gmap loc T) (d : ptr) : result (gmap loc T) :=
  match d with
  | None => Ok cs
  | Some c => match cs !! c with Some _ => Ok (delete c cs) | None => UB end
  end.

(** The loop of [~LockFreeQueue()] from [current]; it returns what is left
    of the two heaps. *)
Fixpoint destroy_loop (fuel : nat) (ns : gmap loc Node) (cs : gmap loc T)
    (current : ptr) : result (gmap loc Node * gmap loc T) :=
  match current with
  | None => Ok (ns, cs)
  | Some _ =>
    match fuel with
    | O => OutOfFuel
    | S fuel' =>
      cur ← deref ns current;
      let next := next cur in
      let data := data cur in
      cs ← delete_cell cs data;
      ns ← deallocate_node ns current;
      destroy_loop fuel' ns cs next
    end
  end.

(** [~LockFreeQueue()] *)
Definition destroy (fuel : nat) (q : LockFreeQueue)
    : result (gmap loc Node * gmap loc T) :=
  destroy_loop fuel (nodes q) (cells q) (head_ q).

(** *** Counting calls and objects *)

Definition is_enqueue (o : op) : bool :=
  match o with Enqueue _ => true | _ => false end.

(** A [dequeue] that returned an element. *)
Definition is_served (r : ret) : bool :=
  match r with RDequeue (Some _) => true | _ => false end.

Definition enqueued (ops : list op) : nat := length (List.filter is_enqueue ops).
Definition served (rs : list ret) : nat := length (List.filter is_served rs).

(** The node [head_] points to. *)
Definition head_node (q : LockFreeQueue) : option Node :=
  match head_ q with
  | Some h => nodes q !! h
  | None => None
  end.

(** The heap of a queue with content [vs]: one node per element, the dummy
    node and [g] nodes that are out of the chain; one cell per element. *)
Record accounted (q : LockFreeQueue) (vs : list T) (g : nat) : Prop := {
  acc_wf : wf q vs;
  acc_nodes : base.size (nodes q) = S (length vs) + g;
  acc_cells : base.size (cells q) = length vs }.

(** The queue of [lockfree_queue.hpp] after [d] dequeues that returned an
    element: no node is out of the chain, and the dummy node has a [data]
    pointer as soon as one element was dequeued. *)
Definition store_inv (q : LockFreeQueue) (vs : list T) (d : nat) : Prop :=
  accounted q vs 0 ∧
  ∃ hn, head_node q = Some hn ∧ (data hn = None ↔ d = 0).

(** The second copy of the queue after [d] dequeues that returned an
    element: [d] nodes are out of the chain and the dummy node has no
    [data] pointer. *)
Definition cas_inv (q : LockFreeQueue) (vs : list T) (d : nat) : Prop :=
  accounted q vs d ∧
  ∃ hn, head_node q = Some hn ∧ data hn = None.

End Queue.
Arguments Node : clear implicits.
Arguments LockFreeQueue : clear implicits.
Arguments op : clear implicits.
Arguments ret : clear implicits.
End Queue.

(** ** Several threads on the queue *)

Module QueueThreads.
Import Queue.
Section QueueThreads.
Context {T : Type}.

(** *** The second copy of the queue, one atomic action at a time

    A thread runs one call.  The points between which other threads may
    run are the accesses to the shared objects: in [enqueue] the
    allocations (with the stores into the node no other thread knows yet),
    the exchange on [tail_] and the store into the [next] field of the
    previous tail; in [dequeue] the load of [head_], of [head->next], of
    [next->data], the compare-exchange on [head_], the move out of the
    object, its deletion, and the store of the null pointer. *)

Inductive call :=
| CallEnqueue (item : T)
| CallDequeue.

Inductive queue_pc :=
| QAllocate (item : T)
| QExchange (new_node : loc)
| QLink (prev_tail : ptr) (new_node : loc)
| QEnqueued (b : bool)
| QHead
| QNext (head : ptr)
| QData (head next : ptr)
| QCas (head next data : ptr)
| QMove (next data : ptr)
| QDelete (next data : ptr) (result : T)
| QClear (next : ptr) (result : T)
| QDequeued (r : option T).

Definition queue_step (spurious : bool) (pc : queue_pc) (q : LockFreeQueue T)
    : result (queue_pc * LockFreeQueue T) :=
  match pc with
  | QAllocate item =>
    let '(new_node, ns) := allocate_node (nodes q) in
    let d := fresh (dom (cells q)) in
    let cs := <[d := item]> (cells q) in
    ns ← store_data ns (Some new_node) (Some d);
    ns ← store_next ns (Some new_node) None;
    Ok (QExchange new_node,
        {| nodes := ns; cells := cs; head_ := head_ q; tail_ := tail_ q |})
  | QExchange new_node =>
    let prev_tail := tail_ q in
    Ok (QLink prev_tail new_node,
        {| nodes := nodes q; cells := cells q; head_ := head_ q;
           tail_ := Some new_node |})
  | QLink prev_tail new_node =>
    ns ← store_next (nodes q) prev_tail (Some new_node);
    Ok (QEnqueued true,
        {| nodes := ns; cells := cells q; head_ := head_ q; tail_ := tail_ q |})
  | QEnqueued b => Ok (QEnqueued b, q)
  | QHead => Ok (QNext (head_ q), q)
  | QNext head =>
    hnode ← deref (nodes q) head;
    let next := next hnode in
    match next with
    | None => Ok (QDequeued None, q)
    | Some _ => Ok (QData head next, q)
    end
  | QData head next =>
    nx ← deref (nodes q) next;
    let data := data nx in
    match data with
    | None => Ok (QDequeued None, q)
    | Some _ => Ok (QCas head next data, q)
    end
  | QCas head next data =>
    let '(ok, new_head, _) :=
      compare_exchange_weak spurious (head_ q) head next in
    Ok (if ok then QMove next data else QHead,
        {| nodes := nodes q; cells := cells q; head_ := new_head; tail_ := tail_ q |})
  | QMove next data =>
    res ← deref (cells q) data;
    Ok (QDelete next data res, q)
  | QDelete next data res =>
    cs ← delete_cell (cells q) data;
    Ok (QClear next res,
        {| nodes := nodes q; cells := cs; head_ := head_ q; tail_ := tail_ q |})
  | QClear next res =>
    ns ← store_data (nodes q) next None;
    Ok (QDequeued (Some res),
        {| nodes := ns; cells := cells q; head_ := head_ q; tail_ := tail_ q |})
  | QDequeued r => Ok (QDequeued r, q)
  end.

(** The threads take turns as the schedule says, one atomic action per
    turn; the flag of a turn says whether a compare-exchange made in it
    fails spuriously.  A turn of a thread that does not exist changes
    nothing. *)
Fixpoint race (schedule : list (nat * bool)) (ts : list queue_pc)
    (q : LockFreeQueue T) : result (list queue_pc * LockFreeQueue T) :=
  match schedule with
  | [] => Ok (ts, q)
  | (tid, spurious) :: schedule' =>
    match ts !! tid with
    | None => race schedule' ts q
    | Some pc =>
      '(pc', q') ← queue_step spurious pc q;
      race schedule' (<[tid := pc']> ts) q'
    end
  end.

Definition start (c : call) : queue_pc :=
  match c with
  | CallEnqueue item => QAllocate item
  | CallDequeue => QHead
  end.

Definition returned (pc : queue_pc) : Prop :=
  match pc with
  | QEnqueued _ | QDequeued _ => True
  | _ => False
  end.

(** The item a call enqueues, the element a call has dequeued. *)
Definition item_of (c : call) : option T :=
  match c with
  | CallEnqueue item => Some item
  | CallDequeue => None
  end.

Definition dequeued_by (pc : queue_pc) : option T :=
  match pc with
  | QDequeued r => r
  | _ => None
  end.

Definition items (calls : list call) : list T := omap item_of calls.
Definition dequeued (ts : list queue_pc) : list T := omap dequeued_by ts.

(** *** Invariant of the threads

    [ls] lists the nodes in the order of the exchanges on [tail_], the
    first [k] of them are behind [head_]; [vs] lists the elements in the
    same order (element [j] is in node [S j]); [owner] lists the threads
    whose compare-exchange took the first [k] elements, [sent] the threads
    that made the exchanges; [co] says whose each live element object is:
    a thread's, or still the queue's. *)

Record ghost := mkGhost {
  g_ls : list loc;
  g_k : nat;
  g_vs : list T;
  g_owner : list nat;
  g_sent : list nat;
  g_co : gmap loc (nat + nat) }.

(** Whose the element objects of a quiescent queue are. *)
Definition queue_owns (cl : list loc) : gmap loc (nat + nat) :=
  list_to_map (zip cl (inr <$> seq 0 (length cl))).

Definition enqueuing (pc : queue_pc) : Prop :=
  match pc with
  | QAllocate _ | QExchange _ | QLink _ _ | QEnqueued _ => True
  | _ => False
  end.

Definition owning (pc : queue_pc) : Prop :=
  match pc with
  | QMove _ _ | QDelete _ _ _ | QClear _ _ | QDequeued (Some _) => True
  | _ => False
  end.

Definition kind_ok (c : option call) (pc : queue_pc) : Prop :=
  match c with
  | Some (CallEnqueue _) => enqueuing pc
  | Some CallDequeue => ¬ enqueuing pc
  | None => False
  end.

Definition thread_ok (calls : list call) (g : ghost) (q : LockFreeQueue T)
    (t : nat) (pc : queue_pc) : Prop :=
  match pc with
  | QAllocate v => calls !! t = Some (CallEnqueue v) ∧ (t ∉ g_sent g)
  | QExchange new =>
    ∃ v c, calls !! t = Some (CallEnqueue v) ∧ (t ∉ g_sent g) ∧
           nodes q !! new = Some (mkNode (Some c) None) ∧ (new ∉ g_ls g) ∧
           g_co g !! c = Some (inl t) ∧ cells q !! c = Some v
  | QLink prev new =>
    t ∈ g_sent g ∧
    ∃ i l, prev = Some l ∧ g_ls g !! i = Some l ∧ g_ls g !! S i = Some new
  | QEnqueued b => b = true ∧ t ∈ g_sent g
  | QHead => t ∉ g_owner g
  | QNext h =>
    (t ∉ g_owner g) ∧ ∃ i l, i ≤ g_k g ∧ h = Some l ∧ g_ls g !! i = Some l
  | QData h n =>
    (t ∉ g_owner g) ∧
    ∃ i l l', i ≤ g_k g ∧ h = Some l ∧ g_ls g !! i = Some l ∧
              n = Some l' ∧ g_ls g !! S i = Some l'
  | QCas h n d =>
    (t ∉ g_owner g) ∧
    ∃ i l l', i ≤ g_k g ∧ h = Some l ∧ g_ls g !! i = Some l ∧
              n = Some l' ∧ g_ls g !! S i = Some l' ∧
              (i = g_k g → ∃ nd, nodes q !! l' = Some nd ∧ data nd = d)
  | QMove n d =>
    ∃ j l c v, g_owner g !! j = Some t ∧ n = Some l ∧ g_ls g !! S j = Some l ∧
               d = Some c ∧ g_co g !! c = Some (inl t) ∧
               cells q !! c = Some v ∧ g_vs g !! j = Some v
  | QDelete n d r =>
    ∃ j l c, g_owner g !! j = Some t ∧ n = Some l ∧ g_ls g !! S j = Some l ∧
             d = Some c ∧ g_co g !! c = Some (inl t) ∧
             cells q !! c = Some r ∧ g_vs g !! j = Some r
  | QClear n r =>
    ∃ j l, g_owner g !! j = Some t ∧ n = Some l ∧ g_ls g !! S j = Some l ∧
           g_vs g !! j = Some r
  | QDequeued (Some r) => ∃ j, g_owner g !! j = Some t ∧ g_vs g !! j = Some r
  | QDequeued None => t ∉ g_owner g
  end.

Record Race (calls : list call) (vs0 : list T) (ts : list queue_pc)
    (q : LockFreeQueue T) (g : ghost) : Prop := {
  race_nodup : NoDup (g_ls g);
  race_length : length (g_ls g) = S (length (g_vs g));
  race_head : ∃ l, head_ q = Some l ∧ g_ls g !! g_k g = Some l;
  race_tail : tail_ q = last (g_ls g);
  race_nodes : ∀ i l, g_ls g !! i = Some l →
    ∃ nd, nodes q !! l = Some nd ∧
          (next nd = g_ls g !! S i ∨
           next nd = None ∧ ∃ t l', ts !! t = Some (QLink (Some l) l'));
  race_data : ∀ j l, g_k g ≤ j → g_ls g !! S j = Some l →
    ∃ nd c v, nodes q !! l = Some nd ∧ data nd = Some c ∧
              g_co g !! c = Some (inr j) ∧ cells q !! c = Some v ∧
              g_vs g !! j = Some v;
  race_live : ∀ c o, g_co g !! c = Some o → is_Some (cells q !! c);
  race_owner : NoDup (g_owner g) ∧ length (g_owner g) = g_k g;
  race_owning : ∀ j t, g_owner g !! j = Some t →
    ∃ pc, ts !! t = Some pc ∧ owning pc;
  race_sent : NoDup (g_sent g) ∧
    ∃ order, g_vs g = vs0 ++ order ∧ length (g_sent g) = length order ∧
      ∀ j t, g_sent g !! j = Some t →
        ∃ v, calls !! t = Some (CallEnqueue v) ∧ order !! j = Some v;
  race_kind : ∀ t pc, ts !! t = Some pc → kind_ok (calls !! t) pc;
  race_threads : ∀ t pc, ts !! t = Some pc → thread_ok calls g q t pc;
  race_calls : length ts = length calls }.

(** *** A thread that runs alone

    The number of turns after which a thread has returned when no other
    thread moves and no compare-exchange fails spuriously: a thread whose
    [head] is no longer [head_] fails its compare-exchange once and starts
    again. *)
Definition budget (q : LockFreeQueue T) (pc : queue_pc) : nat :=
  match pc with
  | QAllocate _ => 3
  | QExchange _ => 2
  | QLink _ _ => 1
  | QEnqueued _ => 0
  | QHead => 7
  | QNext h => if decide (h = head_ q) then 6 else 10
  | QData h _ => if decide (h = head_ q) then 5 else 9
  | QCas h _ _ => if decide (h = head_ q) then 4 else 8
  | QMove _ _ => 3
  | QDelete _ _ _ => 2
  | QClear _ _ => 1
  | QDequeued _ => 0
  end.

(** Thread 1 loads [head_]; thread 0 runs its call to the end; thread 1
    goes on. *)
Definition overtaking_schedule : list (nat * bool) :=
  (1, false) :: replicate 7 (0, false) ++ [(1, false); (1, false)].

(** Thread 0 allocates and exchanges [tail_]; thread 1 runs its call to
    the end; thread 2 runs its call to the end. *)
Definition stalling_schedule : list (nat * bool) :=
  replicate 2 (0, false) ++ replicate 3 (1, false) ++ replicate 7 (2, false).

(** *** [dequeue] of [lockfree_queue.hpp], one atomic action at a time

    The points between which other threads may run: the load of [head_],
    of [head->next], of [next->data], the move out of the object, its
    deletion, the store to [head_] and the deallocation of the old dummy
    node. *)

Inductive store_pc :=
| SHead
| SNext (head : ptr)
| SData (head next : ptr)
| SMove (head next data : ptr)
| SDelete (head next data : ptr) (result : T)
| SStore (head next : ptr) (result : T)
| SFree (head : ptr) (result : T)
| SDequeued (r : option T).

Definition dequeue_step (pc : store_pc) (q : LockFreeQueue T)
    : result (store_pc * LockFreeQueue T) :=
  match pc with
  | SHead => Ok (SNext (head_ q), q)
  | SNext head =>
    hnode ← deref (nodes q) head;
    let next := next hnode in
    match next with
    | None => Ok (SDequeued None, q)
    | Some _ => Ok (SData head next, q)
    end
  | SData head next =>
    nx ← deref (nodes q) next;
    let data := data nx in
    match data with
    | None => Ok (SDequeued None, q)
    | Some _ => Ok (SMove head next data, q)
    end
  | SMove head next data =>
    res ← deref (cells q) data;
    Ok (SDelete head next data res, q)
  | SDelete head next data res =>
    cs ← delete_cell (cells q) data;
    Ok (SStore head next res,
        {| nodes := nodes q; cells := cs; head_ := head_ q; tail_ := tail_ q |})
  | SStore head next res =>
    Ok (SFree head res,
        {| nodes := nodes q; cells := cells q; head_ := next; tail_ := tail_ q |})
  | SFree head res =>
    ns ← deallocate_node (nodes q) head;
    Ok (SDequeued (Some res),
        {| nodes := ns; cells := cells q; head_ := head_ q; tail_ := tail_ q |})
  | SDequeued r => Ok (SDequeued r, q)
  end.

Fixpoint race_store (schedule : list nat) (ts : list store_pc)
    (q : LockFreeQueue T) : result (list store_pc * LockFreeQueue T) :=
  match schedule with
  | [] => Ok (ts, q)
  | tid :: schedule' =>
    match ts !! tid with
    | None => race_store schedule' ts q
    | Some pc =>
      '(pc', q') ← dequeue_step pc q;
      race_store schedule' (<[tid := pc']> ts) q'
    end
  end.

(** Both threads load [head_], [head->next] and [next->data]; thread 0
    moves the element out and deletes it; thread 1 moves the element
    out. *)
Definition colliding_schedule : list nat := [0; 0; 0; 1; 1; 1; 0; 0; 1].

(** Both threads load [head_], [head->next] and [next->data] and move the
    element out. *)
Definition sharing_schedule : list nat := [0; 0; 0; 1; 1; 1; 0; 1].

End QueueThreads.
Arguments call : clear implicits.
Arguments queue_pc : clear implicits.
Arguments ghost : clear implicits.
Arguments store_pc : clear implicits.
End QueueThreads.

(** ** One producer and one consumer on the queue of [lockfree_queue.hpp]

    One thread calls [enqueue], another calls [dequeue]; the accesses of
    the two threads to shared objects are interleaved in any order, one
    access per turn ([QueueThreads.queue_step] for [enqueue], which is the
    same in both copies of the queue, and [QueueThreads.dequeue_step]).
    This is how the thread pool uses its queue when it has one worker
    and the client calls [submit] only. *)

Module QueueDuet.
Import Queue QueueThreads.
Section QueueDuet.
Context {T : Type}.

(** The producer calls [enqueue] for the items of [to_send], one after
    the other; the consumer calls [dequeue] [to_take] times, and [took]
    lists what the calls returned.  A thread between two calls is at
    [QEnqueued] or at [SDequeued]; its next turn is the first access of
    its next call. *)
Record duet := mkDuet {
  sending : queue_pc T;
  to_send : list T;
  taking : store_pc T;
  to_take : nat;
  took : list (option T) }.

Definition duet_start (vs : list T) (k : nat) : duet :=
  {| sending := QEnqueued true; to_send := vs;
     taking := SDequeued None; to_take := k; took := [] |}.

(** What a call of [dequeue] that has just returned adds to [took]. *)
Definition answer (pc : store_pc T) : list (option T) :=
  match pc with
  | SDequeued r => [r]
  | _ => []
  end.

(** One access of the producer ([producer = true]) or of the consumer. *)
Definition duet_step (producer : bool) (d : duet) (q : LockFreeQueue T)
    : result (duet * LockFreeQueue T) :=
  if producer then
    match sending d with
    | QEnqueued _ =>
      match to_send d with
      | [] => Ok (d, q)
      | item :: items =>
        '(pc, q') ← queue_step false (QAllocate item) q;
        Ok ({| sending := pc; to_send := items; taking := taking d;
               to_take := to_take d; took := took d |}, q')
      end
    | pc =>
      '(pc', q') ← queue_step false pc q;
      Ok ({| sending := pc'; to_send := to_send d; taking := taking d;
             to_take := to_take d; took := took d |}, q')
    end
  else
    match taking d with
    | SDequeued _ =>
      match to_take d with
      | O => Ok (d, q)
      | S calls =>
        '(pc, q') ← dequeue_step SHead q;
        Ok ({| sending := sending d; to_send := to_send d; taking := pc;
               to_take := calls; took := took d ++ answer pc |}, q')
      end
    | pc =>
      '(pc', q') ← dequeue_step pc q;
      Ok ({| sending := sending d; to_send := to_send d; taking := pc';
             to_take := to_take d; took := took d ++ answer pc' |}, q')
    end.

Fixpoint duet_race (schedule : list bool) (d : duet) (q : LockFreeQueue T)
    : result (duet * LockFreeQueue T) :=
  match schedule with
  | [] => Ok (d, q)
  | producer :: schedule' =>
    '(d', q') ← duet_step producer d q;
    duet_race schedule' d' q'
  end.

(** Both threads have made their calls. *)
Definition duet_done (d : duet) : bool :=
  match sending d, to_send d, taking d, to_take d with
  | QEnqueued _, [], SDequeued _, O => true
  | _, _, _, _ => false
  end.

(** The elements the calls of [dequeue] returned. *)
Definition taken (d : duet) : list T := omap id (took d).

(** The accesses a thread has left to make at most: three for an
    [enqueue], seven for a [dequeue]. *)
Definition producer_left (d : duet) : nat :=
  3 * length (to_send d) +
  match sending d with
  | QExchange _ => 2
  | QLink _ _ => 1
  | _ => 0
  end.

Definition consumer_left (d : duet) : nat :=
  7 * to_take d +
  match taking d with
  | SHead => 7
  | SNext _ => 6
  | SData _ _ => 5
  | SMove _ _ _ => 4
  | SDelete _ _ _ _ => 3
  | SStore _ _ _ => 2
  | SFree _ _ => 1
  | SDequeued _ => 0
  end.

(** The calls of [dequeue]: returned, to come, and under way. *)
Definition dequeue_calls (d : duet) : nat :=
  length (took d) + to_take d +
  match taking d with
  | SDequeued _ => 0
  | _ => 1
  end.

(** The turns a schedule gives to the producer ([true]) or to the
    consumer. *)
Definition turns (producer : bool) (schedule : list bool) : nat :=
  count_occ Bool.bool_dec schedule producer.

(** *** Invariant of the two threads

    [es] is the chain from [head_]; its first node is the dummy node, or,
    between the deletion of an element and the store to [head_], its
    first two nodes are.  [l] lists the elements of the nodes behind them;
    [cur] is the item of an [enqueue] that has not linked its node. *)
Definition behind (pc : store_pc T) (es : list (loc * Node)) : list ptr :=
  drop (match pc with SStore _ _ _ => 2 | _ => 1 end) ((λ e, data e.2) <$> es).

(** The old dummy node between the store to [head_] and its
    deallocation. *)
Definition unlinked (pc : store_pc T) : list loc :=
  match pc with
  | SFree (Some h) _ => [h]
  | _ => []
  end.

(** The element a [dequeue] has deleted from the queue and not yet
    returned. *)
Definition in_hand (pc : store_pc T) : list T :=
  match pc with
  | SStore _ _ res | SFree _ res => [res]
  | _ => []
  end.

(** The node of an [enqueue] that is not linked yet. *)
Definition fresh_node (q : LockFreeQueue T) (es : list (loc * Node))
    (pc : store_pc T) (new_node : loc) (item : T) : Prop :=
  (new_node ∉ es.*1 ++ unlinked pc) ∧
  ∃ c, nodes q !! new_node = Some (mkNode (Some c) None) ∧
       cells q !! c = Some item ∧ Some c ∉ behind pc es.

Definition producing (pc : queue_pc T) (q : LockFreeQueue T)
    (es : list (loc * Node)) (cpc : store_pc T) (cur : list T) : Prop :=
  match pc with
  | QEnqueued _ => tail_ q = fst <$> last es ∧ cur = []
  | QExchange new_node =>
    tail_ q = fst <$> last es ∧ ∃ item, cur = [item] ∧ fresh_node q es cpc new_node item
  | QLink prev_tail new_node =>
    tail_ q = Some new_node ∧ prev_tail = fst <$> last es ∧
    ∃ item, cur = [item] ∧ fresh_node q es cpc new_node item
  | _ => False
  end.

Definition consuming (pc : store_pc T) (q : LockFreeQueue T)
    (es : list (loc * Node)) (l : list T) : Prop :=
  match pc with
  | SHead | SDequeued _ => True
  | SNext head => head = head_ q
  | SData head next => head = head_ q ∧ ∃ n, next = Some n ∧ es.*1 !! 1 = Some n
  | SMove head next data =>
    head = head_ q ∧ (∃ n, next = Some n ∧ es.*1 !! 1 = Some n) ∧
    ((λ e, Queue.data e.2) <$> es) !! 1 = Some data
  | SDelete head next data res =>
    head = head_ q ∧ (∃ n, next = Some n ∧ es.*1 !! 1 = Some n) ∧
    ((λ e, Queue.data e.2) <$> es) !! 1 = Some data ∧ l !! 0 = Some res
  | SStore head next res =>
    head = head_ q ∧ ∃ n, next = Some n ∧ es.*1 !! 1 = Some n
  | SFree head res =>
    ∃ h, head = Some h ∧ is_Some (nodes q !! h)
  end.

(** [all] lists the elements the queue held at the start and the items
    of the producer. *)
Record Duet (all : list T) (d : duet) (q : LockFreeQueue T)
    (es : list (loc * Node)) (l cur : list T) : Prop := {
  duet_chain : chain next (nodes q) (head_ q) es;
  duet_dummy : es ≠ [];
  duet_nodup : NoDup (es.*1 ++ unlinked (taking d));
  duet_payload : Forall2 (payload (cells q)) (behind (taking d) es) l;
  duet_cells : NoDup (behind (taking d) es);
  duet_producer : producing (sending d) q es (taking d) cur;
  duet_consumer : consuming (taking d) q es l;
  duet_items : taken d ++ in_hand (taking d) ++ l ++ cur ++ to_send d = all }.

End QueueDuet.
Arguments duet : clear implicits.
End QueueDuet.

(** ** The lock-free hash map *)

Module HashMap.
Section HashMap.
Context {Key Value : Type} `{EqDecision Key}.

(** [Hash hasher_]: the hash of a key is a [size_t]. *)
Variable hasher_ : Key → N.

Record Node := mkNode {
  key : Key;
  value : ptr;
  next : ptr;
  marked : bool }.

(** [nodes] holds the [Node] objects, [values] the [Value] objects made by
    [new Value(v)]; [buckets_] is the vector of bucket heads. *)
Record LockFreeHashMap := mkMap {
  nodes : gmap loc Node;
  values : gmap loc Value;
  buckets_ : list ptr;
  size_ : Z }.

Definition DEFAULT_BUCKET_COUNT : nat := 1024.

(** [LockFreeHashMap(size_t bucket_count, Hash hash)] *)
Definition new_map (bucket_count : nat) : LockFreeHashMap :=
  {| nodes := ∅; values := ∅; buckets_ := replicate bucket_count None; size_ := 0 |}.

(** [hasher_(key) % buckets_.size()]; a zero divisor is undefined. *)
Definition bucket_index (m : LockFreeHashMap) (k : Key) : result nat :=
  let n := N.of_nat (length (buckets_ m)) in
  if decide (n = 0%N) then UB else Ok (N.to_nat (hasher_ k mod n)).

(** [buckets_[i].head] *)
Definition bucket (m : LockFreeHashMap) (i : nat) : result ptr :=
  match buckets_ m !! i with
  | Some p => Ok p
  | None => UB
  end.

Definition set_bucket (m : LockFreeHashMap) (i : nat) (p : ptr) : LockFreeHashMap :=
  {| nodes := nodes m; values := values m;
     buckets_ := <[i := p]> (buckets_ m); size_ := size_ m |}.

Definition set_nodes (m : LockFreeHashMap) (ns : gmap loc Node) : LockFreeHashMap :=
  {| nodes := ns; values := values m; buckets_ := buckets_ m; size_ := size_ m |}.

Definition with_value (nd : Node) (v : ptr) : Node :=
  {| key := key nd; value := v; next := next nd; marked := marked nd |}.
Definition with_next (nd : Node) (n : ptr) : Node :=
  {| key := key nd; value := value nd; next := n; marked := marked nd |}.
Definition with_marked (nd : Node) (b : bool) : Node :=
  {| key := key nd; value := value nd; next := next nd; marked := b |}.

(** [delete p] for a [Value*]: nothing for the null pointer. *)
Definition delete_value (vs : gmap loc Value) (p : ptr) : result (gmap loc Value) :=
  match p with
  | None => Ok vs
  | Some l => match vs !! l with Some _ => Ok (delete l vs) | None => UB end
  end.

(** [Node* find_node(const Bucket&, const Key&) const] *)
Fixpoint find_node (fuel : nat) (ns : gmap loc Node) (current : ptr) (k : Key)
    : result ptr :=
  match current with
  | None => Ok None
  | Some _ =>
    match fuel with
    | O => OutOfFuel
    | S fuel' =>
      nd ← deref ns current;
      if negb (marked nd) && bool_decide (key nd = k) then Ok current
      else find_node fuel' ns (next nd) k
    end
  end.

(** The publishing loop of [insert]:
    [while (!bucket.head.compare_exchange_weak(head, new_node)) new_node->next.store(head);]
    It returns the heap and the bucket head. *)
Fixpoint publish (fuel : nat) (sp : list bool) (ns : gmap loc Node)
    (bhead head : ptr) (new_node : loc) : result (gmap loc Node * ptr) :=
  match fuel with
  | O => OutOfFuel
  | S fuel' =>
    let '(ok, bhead', head') :=
      compare_exchange_weak (List.hd false sp) bhead head (Some new_node) in
    if ok then Ok (ns, bhead')
    else
      nd ← deref ns (Some new_node);
      publish fuel' (List.tl sp) (<[new_node := with_next nd head']> ns)
        bhead' head' new_node
  end.

(** [bool insert(const Key&, const Value&)] *)
Definition insert (fuel : nat) (sp : list bool) (m : LockFreeHashMap)
    (k : Key) (v : Value) : result (bool * LockFreeHashMap) :=
  i ← bucket_index m k;
  bhead ← bucket m i;
  existing ← find_node fuel (nodes m) bhead k;
  match existing with
  | Some e =>
    let new_val := fresh (dom (values m)) in
    let vs := <[new_val := v]> (values m) in
    nd ← deref (nodes m) existing;
    let old_val := value nd in
    let ns := <[e := with_value nd (Some new_val)]> (nodes m) in
    vs ← delete_value vs old_val;
    Ok (false, {| nodes := ns; values := vs; buckets_ := buckets_ m; size_ := size_ m |})
  | None =>
    let new_val := fresh (dom (values m)) in
    let vs := <[new_val := v]> (values m) in
    let new_node := fresh (dom (nodes m)) in
    let ns := <[new_node := mkNode k (Some new_val) None false]> (nodes m) in
    head ← bucket m i;
    nd ← deref ns (Some new_node);
    let ns := <[new_node := with_next nd head]> ns in
    '(ns, bhead') ← publish fuel sp ns bhead head new_node;
    Ok (true, {| nodes := ns; values := vs;
                 buckets_ := <[i := bhead']> (buckets_ m);
                 size_ := wrap (size_ m + 1) |})
  end.

(** [std::optional<Value> get(const Key&) const] *)
Definition get (fuel : nat) (m : LockFreeHashMap) (k : Key) : result (option Value) :=
  i ← bucket_index m k;
  bhead ← bucket m i;
  node ← find_node fuel (nodes m) bhead k;
  match node with
  | Some _ =>
    nd ← deref (nodes m) node;
    match value nd with
    | Some _ => v ← deref (values m) (value nd); Ok (Some v)
    | None => Ok None
    end
  | None => Ok None
  end.

(** Unlinking a node that is the bucket head, in [erase]:
    [while (!bucket.head.compare_exchange_weak(head, next))
       { if (head != node) continue; next = node->next.load(); }]
    It returns the bucket head and the rest of the schedule. *)
Fixpoint unlink_head (fuel : nat) (sp : list bool) (ns : gmap loc Node)
    (bhead head node nxt : ptr) : result (ptr * list bool) :=
  match fuel with
  | O => OutOfFuel
  | S fuel' =>
    let '(ok, bhead', head') :=
      compare_exchange_weak (List.hd false sp) bhead head nxt in
    if ok then Ok (bhead', List.tl sp)
    else if decide (head' ≠ node) then
      unlink_head fuel' (List.tl sp) ns bhead' head' node nxt
    else
      nd ← deref ns node;
      unlink_head fuel' (List.tl sp) ns bhead' head' node (next nd)
  end.

(** Unlinking a node inside the chain, in [erase]: the loop
    [while (prev && !removed)].  It returns the heap, [removed] and the rest
    of the schedule.  A failed compare-exchange leaves the loop. *)
Fixpoint unlink_inner (fuel : nat) (sp : list bool) (ns : gmap loc Node)
    (prev node : ptr) : result (gmap loc Node * bool * list bool) :=
  match prev with
  | None => Ok (ns, false, sp)
  | Some p =>
    match fuel with
    | O => OutOfFuel
    | S fuel' =>
      pnd ← deref ns prev;
      let nxt := next pnd in
      if decide (nxt = node) then
        nd ← deref ns node;
        let node_next := next nd in
        let '(ok, pnext, _) :=
          compare_exchange_weak (List.hd false sp) (next pnd) nxt node_next in
        Ok (<[p := with_next pnd pnext]> ns, ok, List.tl sp)
      else if decide (nxt = None) then Ok (ns, false, sp)
      else unlink_inner fuel' sp ns nxt node
    end
  end.

(** The end of [erase], once the node is out of the chain. *)
Definition reclaim (m : LockFreeHashMap) (node : ptr) : result (bool * LockFreeHashMap) :=
  let size := wrap (size_ m - 1) in
  nd ← deref (nodes m) node;
  let val := value nd in
  vs ← delete_value (values m) val;
  match node with
  | Some n =>
    Ok (true, {| nodes := delete n (nodes m); values := vs;
                 buckets_ := buckets_ m; size_ := size |})
  | None => UB
  end.

(** The retry loop [while (true)] of [erase] on bucket [i]; [fuel] bounds
    the loops inside one round and [rounds] the rounds. *)
Fixpoint erase_loop (fuel rounds : nat) (sp : list bool) (m : LockFreeHashMap)
    (i : nat) (k : Key) : result (bool * LockFreeHashMap) :=
  match rounds with
  | O => OutOfFuel
  | S rounds' =>
    bhead ← bucket m i;
    node ← find_node fuel (nodes m) bhead k;
    match node with
    | None => Ok (false, m)
    | Some n =>
      nd ← deref (nodes m) node;
      let was_marked := marked nd in
      let m := set_nodes m (<[n := with_marked nd true]> (nodes m)) in
      if was_marked then erase_loop fuel rounds' sp m i k
      else
        head ← bucket m i;
        if decide (head = node) then
          nd ← deref (nodes m) node;
          '(bhead', _) ← unlink_head fuel sp (nodes m) head head node (next nd);
          reclaim (set_bucket m i bhead') node
        else
          r ← unlink_inner fuel sp (nodes m) head node;
          let '(ns, removed, sp') := (r : gmap loc Node * bool * list bool) in
          let m := set_nodes m ns in
          if removed then reclaim m node
          else erase_loop fuel rounds' sp' m i k
    end
  end.

(** [bool erase(const Key&)] *)
Definition erase (fuel : nat) (sp : list bool) (m : LockFreeHashMap) (k : Key)
    : result (bool * LockFreeHashMap) :=
  i ← bucket_index m k;
  erase_loop fuel fuel sp m i k.

(** [bool contains(const Key&) const] *)
Definition contains (fuel : nat) (m : LockFreeHashMap) (k : Key) : result bool :=
  i ← bucket_index m k;
  bhead ← bucket m i;
  node ← find_node fuel (nodes m) bhead k;
  Ok (bool_decide (node ≠ None)).

(** [size_t size() const noexcept] *)
Definition size (m : LockFreeHashMap) : Z := size_ m.

(** [bool empty() const noexcept] *)
Definition empty (m : LockFreeHashMap) : bool := bool_decide (size m = 0%Z).

(** *** [insert], one atomic action at a time

    The points of [insert] between which other threads may run: before
    [find_node], before the exchange on the value holder of a node that was
    found, before the allocation of a new node and the load of the bucket
    head, before each compare-exchange on the bucket head, before the
    increment of [size_], and at the return. *)

Inductive insert_pc :=
| IFind
| IUpdate (existing : loc)
| IAllocate
| IPublish (new_node : loc) (head : ptr)
| ICount
| IReturn (b : bool).

Definition insert_step (fuel : nat) (spurious : bool) (k : Key) (v : Value)
    (pc : insert_pc) (m : LockFreeHashMap) : result (insert_pc * LockFreeHashMap) :=
  match pc with
  | IFind =>
    i ← bucket_index m k;
    bhead ← bucket m i;
    existing ← find_node fuel (nodes m) bhead k;
    Ok (match existing with Some e => IUpdate e | None => IAllocate end, m)
  | IUpdate e =>
    let new_val := fresh (dom (values m)) in
    let vs := <[new_val := v]> (values m) in
    nd ← deref (nodes m) (Some e);
    let old_val := value nd in
    let ns := <[e := with_value nd (Some new_val)]> (nodes m) in
    vs ← delete_value vs old_val;
    Ok (IReturn false,
        {| nodes := ns; values := vs; buckets_ := buckets_ m; size_ := size_ m |})
  | IAllocate =>
    i ← bucket_index m k;
    let new_val := fresh (dom (values m)) in
    let vs := <[new_val := v]> (values m) in
    let new_node := fresh (dom (nodes m)) in
    let ns := <[new_node := mkNode k (Some new_val) None false]> (nodes m) in
    head ← bucket m i;
    nd ← deref ns (Some new_node);
    let ns := <[new_node := with_next nd head]> ns in
    Ok (IPublish new_node head,
        {| nodes := ns; values := vs; buckets_ := buckets_ m; size_ := size_ m |})
  | IPublish new_node head =>
    i ← bucket_index m k;
    bhead ← bucket m i;
    let '(ok, bhead', head') :=
      compare_exchange_weak spurious bhead head (Some new_node) in
    if ok then Ok (ICount, set_bucket m i bhead')
    else
      nd ← deref (nodes m) (Some new_node);
      Ok (IPublish new_node head',
          set_nodes m (<[new_node := with_next nd head']> (nodes m)))
  | ICount =>
    Ok (IReturn true,
        {| nodes := nodes m; values := values m; buckets_ := buckets_ m;
           size_ := wrap (size_ m + 1) |})
  | IReturn b => Ok (IReturn b, m)
  end.

(** A thread inside [insert(key, value)]. *)
Record inserter := mkInserter {
  ins_key : Key;
  ins_value : Value;
  ins_pc : insert_pc }.

(** The threads take turns as the schedule says, one atomic action per
    turn; a turn of a thread that does not exist changes nothing. *)
Fixpoint interleave (fuel : nat) (schedule : list nat) (ts : list inserter)
    (m : LockFreeHashMap) : result (list inserter * LockFreeHashMap) :=
  match schedule with
  | [] => Ok (ts, m)
  | tid :: schedule' =>
    match ts !! tid with
    | None => interleave fuel schedule' ts m
    | Some t =>
      '(pc, m') ← insert_step fuel false (ins_key t) (ins_value t) (ins_pc t) m;
      interleave fuel schedule'
        (<[tid := mkInserter (ins_key t) (ins_value t) pc]> ts) m'
    end
  end.

(** Thread 0 looks the key up, thread 1 looks it up, thread 0 runs to its
    return, thread 1 runs to its return. *)
Definition racing_schedule : list nat := [0; 1; 0; 0; 0; 1; 1; 1].

(** *** [get], one atomic action at a time

    The points of [get] between which other threads may run: before
    [find_node], before the load of the value holder of the node that was
    found, before the copy of the value object, and at the return. *)

Inductive get_pc :=
| GFind
| GValue (node : ptr)
| GCopy (val : ptr)
| GReturn (o : option Value).

Definition get_step (fuel : nat) (k : Key) (pc : get_pc)
    (m : LockFreeHashMap) : result get_pc :=
  match pc with
  | GFind =>
    i ← bucket_index m k;
    bhead ← bucket m i;
    node ← find_node fuel (nodes m) bhead k;
    Ok (match node with Some _ => GValue node | None => GReturn None end)
  | GValue node =>
    nd ← deref (nodes m) node;
    Ok (match value nd with Some _ => GCopy (value nd) | None => GReturn None end)
  | GCopy val =>
    v ← deref (values m) val;
    Ok (GReturn (Some v))
  | GReturn o => Ok (GReturn o)
  end.

(** The addresses of [ns'] are addresses of [ns] and hold the same keys. *)
Definition keys_kept (ns ns' : gmap loc Node) : Prop :=
  ∀ l nd', ns' !! l = Some nd' → ∃ nd, ns !! l = Some nd ∧ key nd = key nd'.

End HashMap.
Arguments Node : clear implicits.
Arguments LockFreeHashMap : clear implicits.
Arguments inserter : clear implicits.

Section Sequences.
Context {Key Value : Type} `{Countable Key}.
Variable hasher_ : Key → N.

(** *** Operation sequences of one thread

    [Insert] and [Erase] carry the spurious failures their
    compare-exchanges meet. *)

Inductive op :=
| Insert (sp : list bool) (k : Key) (v : Value)
| Get (k : Key)
| Erase (sp : list bool) (k : Key)
| Contains (k : Key).

Inductive ret :=
| RInsert (b : bool)
| RGet (o : option Value)
| RErase (b : bool)
| RContains (b : bool).

Definition step (fuel : nat) (m : LockFreeHashMap Key Value) (o : op)
    : result (ret * LockFreeHashMap Key Value) :=
  match o with
  | Insert sp k v => '(b, m') ← insert hasher_ fuel sp m k v; Ok (RInsert b, m')
  | Get k => r ← get hasher_ fuel m k; Ok (RGet r, m)
  | Erase sp k => '(b, m') ← erase hasher_ fuel sp m k; Ok (RErase b, m')
  | Contains k => b ← contains hasher_ fuel m k; Ok (RContains b, m)
  end.

Fixpoint run (fuel : nat) (m : LockFreeHashMap Key Value) (ops : list op)
    : result (list ret * LockFreeHashMap Key Value) :=
  match ops with
  | [] => Ok ([], m)
  | o :: ops' =>
    '(r, m') ← step fuel m o;
    '(rs, m'') ← run fuel m' ops';
    Ok (r :: rs, m'')
  end.

(** *** The finite map the operations implement *)

Definition present (M : gmap Key Value) (k : Key) : bool :=
  match M !! k with Some _ => true | None => false end.

Definition map_step (M : gmap Key Value) (o : op) : ret * gmap Key Value :=
  match o with
  | Insert _ k v => (RInsert (negb (present M k)), <[k := v]> M)
  | Get k => (RGet (M !! k), M)
  | Erase _ k => (RErase (present M k), delete k M)
  | Contains k => (RContains (present M k), M)
  end.

Fixpoint map_run (M : gmap Key Value) (ops : list op) : list ret * gmap Key Value :=
  match ops with
  | [] => ([], M)
  | o :: ops' =>
    let '(r, M') := map_step M o in
    let '(rs, M'') := map_run M' ops' in
    (r :: rs, M'')
  end.

(** The live keys after a sequence: inserted at least once and not erased
    since their last insert. *)
Definition live_keys (ops : list op) : gset Key :=
  foldl (λ s o, match o with
                | Insert _ k _ => {[k]} ∪ s
                | Erase _ k => s ∖ {[k]}
                | _ => s
                end) ∅ ops.

(** No compare-exchange fails spuriously inside an [erase] of the
    sequence. *)
Definition erase_undisturbed (ops : list op) : Prop :=
  Forall (λ o, match o with Erase sp _ => sp = [] | _ => True end) ops.

Definition fuel_covers (fuel : nat) (ops : list op) : Prop :=
  length ops < fuel ∧
  Forall (λ o, match o with Insert sp _ _ => length sp < fuel | _ => True end) ops.

(** *** Representation invariant of a quiescent map

    [bs] lists, bucket by bucket, the nodes of the chains.  Every node is
    unmarked, lies in the bucket of its key and points to a live value
    object; no two nodes share an address, a value object or a key; the
    keys are those of the finite map [M] and [size_] counts them. *)

Definition bucket_of (n : nat) (k : Key) : nat :=
  N.to_nat (hasher_ k mod N.of_nat n).

Definition entry_ok (vs : gmap loc Value) (M : gmap Key Value)
    (e : loc * Node Key) : Prop :=
  marked e.2 = false ∧
  ∃ vl v, value e.2 = Some vl ∧ vs !! vl = Some v ∧ M !! key e.2 = Some v.

(** The part of the invariant that does not depend on the order of the
    nodes [L]. *)
Record Flat (ns : gmap loc (Node Key)) (vs : gmap loc Value) (M : gmap Key Value)
    (L : list (loc * Node Key)) : Prop := {
  flat_held : held ns L;
  flat_nodup : NoDup L.*1;
  flat_values : NoDup ((λ e, value e.2) <$> L);
  flat_keys : NoDup ((λ e, key e.2) <$> L);
  flat_entry : Forall (entry_ok vs M) L;
  flat_complete : ∀ k, is_Some (M !! k) → ∃ e, e ∈ L ∧ key e.2 = k }.

Record Inv (m : LockFreeHashMap Key Value) (M : gmap Key Value)
    (bs : list (list (loc * Node Key))) : Prop := {
  inv_nonempty : buckets_ m ≠ [];
  inv_linked : Forall2 (linked next) (buckets_ m) bs;
  inv_flat : Flat (nodes m) (values m) M (concat bs);
  inv_bucket : ∀ i es e, bs !! i = Some es → e ∈ es →
                 bucket_of (length (buckets_ m)) (key e.2) = i;
  inv_size : size_ m = wrap (Z.of_nat (base.size M)) }.

Definition wf (m : LockFreeHashMap Key Value) (M : gmap Key Value) : Prop :=
  ∃ bs, Inv m M bs.

(** The node at the head of the bucket of [k] has key [k]. *)
Definition key_at_head (m : LockFreeHashMap Key Value) (k : Key) : Prop :=
  ∃ i l nd, bucket_index hasher_ m k = Ok i ∧ bucket m i = Ok (Some l) ∧
            nodes m !! l = Some nd ∧ key nd = k.

(** The first unmarked node with key [k] in a chain. *)
Fixpoint first_match (k : Key) (es : list (loc * Node Key)) : option (loc * Node Key) :=
  match es with
  | [] => None
  | e :: es' =>
    if negb (marked e.2) && bool_decide (key e.2 = k) then Some e
    else first_match k es'
  end.

(** The key a call is about. *)
Definition op_key (o : op) : Key :=
  match o with
  | Insert _ k _ | Get k | Erase _ k | Contains k => k
  end.

(** Every node of the heap has a value object. *)
Definition valued (ns : gmap loc (Node Key)) : Prop :=
  ∀ l nd, ns !! l = Some nd → is_Some (value nd).

(** The heap of a quiescent map with content [M] holds one node and one
    value object per key, and nothing else. *)
Record tight (m : LockFreeHashMap Key Value) (M : gmap Key Value) : Prop := {
  tight_wf : wf m M;
  tight_nodes : base.size (nodes m) = base.size M;
  tight_values : base.size (values m) = base.size M }.

End Sequences.
Arguments op : clear implicits.
Arguments ret : clear implicits.
End HashMap.

(** ** Threads on the hash map

    The calls [insert], [get] and [contains] of several threads, one
    access to a shared object per turn, and the invariant that holds
    while the calls are exclusive. *)

Module HashMapThreads.
Import HashMap.
Section HashMapThreads.
Context {Key Value : Type} `{Countable Key}.
Variable hasher_ : Key → N.

(** *** [insert], [get] and [contains], one access to a shared object at a time *)

(** The call a thread makes. *)
Inductive call :=
| CallInsert (key : Key) (value : Value)
| CallGet (key : Key)
| CallContains (key : Key).

Definition call_key (c : call) : Key :=
  match c with
  | CallInsert key _ => key
  | CallGet key => key
  | CallContains key => key
  end.

(** The points of a call between which other threads may run.  Every
    turn makes one access to an object that other threads can reach.
    In [find_node]: the load of [bucket.head], of [current->marked] and
    of [current->next].  In [insert]: the exchange on [existing->value],
    the deletion of the old value, the load of [bucket.head] with the
    allocation of the node before it and the store into the node after
    it, one compare-exchange with the store into the node after a
    failure, and the addition to [size_].  In [get]: the load of
    [node->value] and the copy of the value object. *)
Inductive turn_pc :=
| TFind
| TWalk (current : ptr)
| TNext (current : loc)
| TUpdate (existing : loc) (value : Value)
| TDelete (old_val : ptr)
| TAllocate (value : Value)
| TPublish (new_node : loc) (head : ptr)
| TCount
| TValue (node : loc)
| TCopy (val : loc)
| TReturn (r : ret Value).

(** What the caller of [find_node] does with a node, and with the null
    pointer. *)
Definition found (c : call) (node : loc) : turn_pc :=
  match c with
  | CallInsert _ value => TUpdate node value
  | CallGet _ => TValue node
  | CallContains _ => TReturn (RContains true)
  end.

Definition not_found (c : call) : turn_pc :=
  match c with
  | CallInsert _ value => TAllocate value
  | CallGet _ => TReturn (RGet None)
  | CallContains _ => TReturn (RContains false)
  end.

Definition map_turn (spurious : bool) (c : call) (pc : turn_pc)
    (m : LockFreeHashMap Key Value) : result (turn_pc * LockFreeHashMap Key Value) :=
  let k := call_key c in
  match pc with
  | TFind =>
    i ← bucket_index hasher_ m k;
    current ← bucket m i;
    Ok (TWalk current, m)
  | TWalk None => Ok (not_found c, m)
  | TWalk (Some current) =>
    nd ← deref (nodes m) (Some current);
    if negb (marked nd) && bool_decide (key nd = k) then Ok (found c current, m)
    else Ok (TNext current, m)
  | TNext current =>
    nd ← deref (nodes m) (Some current);
    Ok (TWalk (next nd), m)
  | TUpdate existing v =>
    let new_val := fresh (dom (values m)) in
    let vs := <[new_val := v]> (values m) in
    nd ← deref (nodes m) (Some existing);
    Ok (TDelete (value nd),
        {| nodes := <[existing := with_value nd (Some new_val)]> (nodes m);
           values := vs; buckets_ := buckets_ m; size_ := size_ m |})
  | TDelete old_val =>
    vs ← delete_value (values m) old_val;
    Ok (TReturn (RInsert false),
        {| nodes := nodes m; values := vs; buckets_ := buckets_ m; size_ := size_ m |})
  | TAllocate v =>
    i ← bucket_index hasher_ m k;
    let new_val := fresh (dom (values m)) in
    let vs := <[new_val := v]> (values m) in
    let new_node := fresh (dom (nodes m)) in
    let ns := <[new_node := mkNode k (Some new_val) None false]> (nodes m) in
    head ← bucket m i;
    nd ← deref ns (Some new_node);
    let ns := <[new_node := with_next nd head]> ns in
    Ok (TPublish new_node head,
        {| nodes := ns; values := vs; buckets_ := buckets_ m; size_ := size_ m |})
  | TPublish new_node head =>
    i ← bucket_index hasher_ m k;
    bhead ← bucket m i;
    let '(ok, bhead', head') :=
      compare_exchange_weak spurious bhead head (Some new_node) in
    if ok then Ok (TCount, set_bucket m i bhead')
    else
      nd ← deref (nodes m) (Some new_node);
      Ok (TPublish new_node head',
          set_nodes m (<[new_node := with_next nd head']> (nodes m)))
  | TCount =>
    Ok (TReturn (RInsert true),
        {| nodes := nodes m; values := values m; buckets_ := buckets_ m;
           size_ := wrap (size_ m + 1) |})
  | TValue node =>
    nd ← deref (nodes m) (Some node);
    match value nd with
    | Some val => Ok (TCopy val, m)
    | None => Ok (TReturn (RGet None), m)
    end
  | TCopy val =>
    v ← deref (values m) (Some val);
    Ok (TReturn (RGet (Some v)), m)
  | TReturn r => Ok (TReturn r, m)
  end.

(** A thread inside a call. *)
Record thread := mkThread {
  th_call : call;
  th_pc : turn_pc }.

(** The threads take turns as the schedule says; the flag of a turn says
    whether a compare-exchange made in it fails spuriously; a turn of a
    thread that does not exist changes nothing. *)
Fixpoint map_race (schedule : list (nat * bool)) (ts : list thread)
    (m : LockFreeHashMap Key Value)
    : result (list thread * LockFreeHashMap Key Value) :=
  match schedule with
  | [] => Ok (ts, m)
  | (tid, spurious) :: schedule' =>
    match ts !! tid with
    | None => map_race schedule' ts m
    | Some t =>
      '(pc, m') ← map_turn spurious (th_call t) (th_pc t) m;
      map_race schedule' (<[tid := mkThread (th_call t) pc]> ts) m'
    end
  end.

(** A thread at the start of its call. *)
Definition calling (c : call) : thread := mkThread c TFind.

Definition has_returned (t : thread) : Prop :=
  match th_pc t with TReturn _ => True | _ => False end.

(** The pairs the calls insert. *)
Definition inserted (calls : list call) : list (Key * Value) :=
  omap (λ c, match c with CallInsert k v => Some (k, v) | _ => None end) calls.

(** No two calls insert the same key, and no call reads a key that a call
    inserts. *)
Definition exclusive (calls : list call) : bool :=
  bool_decide (NoDup (inserted calls).*1) &&
  forallb (λ c, match c with
                | CallInsert _ _ => true
                | _ => bool_decide (call_key c ∉ (inserted calls).*1)
                end) calls.

(** What the call returns on the finite map [M0]. *)
Definition answer (M0 : gmap Key Value) (c : call) : ret Value :=
  match c with
  | CallInsert k _ => RInsert (negb (present M0 k))
  | CallGet k => RGet (M0 !! k)
  | CallContains k => RContains (present M0 k)
  end.

(** A thread that has returned from its call what the call returns on
    [M0]. *)
Definition answered (M0 : gmap Key Value) (c : call) : thread :=
  mkThread c (TReturn (answer M0 c)).

(** *** Invariant of threads with exclusive calls

    [M] is the content of the chains [bs]; [size_] lags behind it by the
    threads that have published their node and not yet counted it; [pv]
    says which thread each value object belongs to that is in no chain. *)

Definition counting (t : thread) : nat :=
  match th_pc t with TCount => 1 | _ => 0 end.

Definition resized (m : LockFreeHashMap Key Value) (M : gmap Key Value)
    : LockFreeHashMap Key Value :=
  {| nodes := nodes m; values := values m; buckets_ := buckets_ m;
     size_ := wrap (Z.of_nat (base.size M)) |}.

(** The nodes in the chains. *)
Definition published (bs : list (list (loc * Node Key))) (l : loc) : Prop :=
  l ∈ (concat bs).*1.

(** [d] links lead from [current] to a null pointer, through nodes that
    satisfy [P]. *)
Inductive walk (P : loc → Prop) (ns : gmap loc (Node Key)) : nat → ptr → Prop :=
| walk_end : walk P ns 0 None
| walk_node d l nd :
    ns !! l = Some nd → P l → walk P ns d (next nd) → walk P ns (S d) (Some l).

(** The node of [k] lies on the way from [current] to the end of the
    chain. *)
Inductive reaches (P : loc → Prop) (ns : gmap loc (Node Key)) (k : Key)
    : ptr → Prop :=
| reaches_here l nd :
    ns !! l = Some nd → P l → marked nd = false → key nd = k →
    reaches P ns k (Some l)
| reaches_later l nd :
    ns !! l = Some nd → P l → reaches P ns k (next nd) →
    reaches P ns k (Some l).

(** What holds of a thread [t] at [pc] of the call [c] on the key [k]. *)
Definition pc_ok (M0 M : gmap Key Value) (bs : list (list (loc * Node Key)))
    (pv : gmap loc nat) (m : LockFreeHashMap Key Value) (t : nat)
    (c : call) (k : Key) (pc : turn_pc) : Prop :=
  match pc with
  | TFind => M !! k = M0 !! k
  | TWalk current =>
    M !! k = M0 !! k ∧
    (∃ d, d ≤ length (concat bs) ∧ walk (published bs) (nodes m) d current) ∧
    (is_Some (M0 !! k) → reaches (published bs) (nodes m) k current)
  | TNext current =>
    M !! k = M0 !! k ∧
    ∃ nd, nodes m !! current = Some nd ∧ published bs current ∧
          (∃ d, S d ≤ length (concat bs) ∧
                walk (published bs) (nodes m) d (next nd)) ∧
          (is_Some (M0 !! k) → reaches (published bs) (nodes m) k (next nd))
  | TUpdate e v =>
    c = CallInsert k v ∧ M !! k = M0 !! k ∧ is_Some (M0 !! k) ∧
    ∃ nd, (e, nd) ∈ concat bs ∧ key nd = k
  | TDelete old_val =>
    ∃ v, c = CallInsert k v ∧ M !! k = Some v ∧ is_Some (M0 !! k) ∧
         ∃ cell, old_val = Some cell ∧ pv !! cell = Some t
  | TAllocate v => c = CallInsert k v ∧ M !! k = None ∧ M0 !! k = None
  | TPublish new head =>
    ∃ v, c = CallInsert k v ∧ M !! k = None ∧ M0 !! k = None ∧
    ∃ vl, nodes m !! new = Some (mkNode k (Some vl) head false) ∧
          ¬ published bs new ∧ pv !! vl = Some t ∧ values m !! vl = Some v
  | TCount => ∃ v, c = CallInsert k v ∧ M !! k = Some v ∧ M0 !! k = None
  | TValue node =>
    c = CallGet k ∧ M !! k = M0 !! k ∧ ∃ nd, (node, nd) ∈ concat bs ∧ key nd = k
  | TCopy val =>
    c = CallGet k ∧
    ∃ v e nd, M0 !! k = Some v ∧ (e, nd) ∈ concat bs ∧ key nd = k ∧
              value nd = Some val ∧ values m !! val = Some v
  | TReturn r =>
    r = answer M0 c ∧
    match c with CallInsert _ v => M !! k = Some v | _ => True end
  end.

Definition thread_ok (M0 M : gmap Key Value) (bs : list (list (loc * Node Key)))
    (pv : gmap loc nat) (m : LockFreeHashMap Key Value) (t : nat)
    (th : thread) : Prop :=
  pc_ok M0 M bs pv m t (th_call th) (call_key (th_call th)) (th_pc th).

Record Apart (M0 : gmap Key Value) (calls : list call)
    (ts : list thread) (m : LockFreeHashMap Key Value)
    (M : gmap Key Value) (bs : list (list (loc * Node Key)))
    (pv : gmap loc nat) : Prop := {
  apart_inv : Inv hasher_ (resized m M) M bs;
  apart_size : size_ m =
    wrap (Z.of_nat (base.size M) - Z.of_nat (sum_list (counting <$> ts)));
  apart_threads : ∀ t th, ts !! t = Some th →
    calls !! t = Some (th_call th) ∧ thread_ok M0 M bs pv m t th;
  apart_length : length ts = length calls;
  apart_other : ∀ k, k ∉ (inserted calls).*1 → M !! k = M0 !! k;
  apart_private : ∀ c t, pv !! c = Some t →
    is_Some (values m !! c) ∧
    Some c ∉ (λ e : loc * Node Key, value e.2) <$> concat bs }.

(** [n] turns in a row, with no spurious failure, bring a thread at [pc]
    to its return, in a map whose chains have at most [L] nodes. *)
Definition within (L : nat) (m : LockFreeHashMap Key Value) (k : Key)
    (pc : turn_pc) (n : nat) : Prop :=
  match pc with
  | TFind => 2 * L + 5 ≤ n
  | TWalk current => ∃ d, walk (λ _, True) (nodes m) d current ∧ 2 * d + 4 ≤ n
  | TNext current =>
    ∃ nd d, nodes m !! current = Some nd ∧
            walk (λ _, True) (nodes m) d (next nd) ∧ 2 * d + 5 ≤ n
  | TUpdate _ _ => 2 ≤ n
  | TDelete _ => 1 ≤ n
  | TAllocate _ => 3 ≤ n
  | TPublish _ head =>
    3 ≤ n ∨ 2 ≤ n ∧ bucket_index hasher_ m k ≫= bucket m = Ok head
  | TCount => 1 ≤ n
  | TValue _ => 2 ≤ n
  | TCopy _ => 1 ≤ n
  | TReturn _ => True
  end.

End HashMapThreads.
Arguments call : clear implicits.
Arguments turn_pc : clear implicits.
Arguments thread : clear implicits.
End HashMapThreads.

(** ** The thread pool

    The pool and the threads that use it form a transition system: one step
    is one atomic action of one thread (a load, a store, a read-modify-write,
    or one call on the task queue), and a schedule says which thread moves
    next.  While the client makes its calls [stop_] stays false; the
    destructor is a system of its own ([closing]).

    A call on the task queue is several accesses in the source.  Taken as
    one step, the runs of this system are the runs of the pool in which the
    calls on the queue do not overlap.  [enqueue] works at the tail of the
    queue; [dequeue], [empty] and [approximate_size] work at its head.  With
    one worker and a client that calls [submit], [get] and [active_tasks]
    only ([single_consumer]) one thread is at the head of the queue and one
    at its tail, and what holds of every schedule is stated for such pools;
    [QueueDuet] interleaves the single accesses of two such threads: none
    is undefined and the queue stays first-in first-out.  Where two
    threads are at the head, two workers or a worker and the caller of
    [wait], their accesses interleave as in [QueueThreads.race_store]; of
    such pools runs are shown to exist, and what is shown of every run is
    shown of the runs in which the calls on the queue do not overlap. *)

Module ThreadPool.

(** [Task] is [std::function<void()>].  The tasks of the queue are the
    closures of [submit], which capture the shared pointer [task] and call
    the packaged task it points to; a closure is given by that pointer. *)
Abbreviation Task := loc.

Section ThreadPool.
Context {R E : Type}.

(** What a work unit does when it is called: it returns or it throws. *)
Inductive outcome :=
| Returned (r : R)
| Threw (e : E).

(** [std::packaged_task<ReturnType()>]: the callable bound by [submit] and
    the shared state read by its future, empty until the task has run. *)
Record packaged_task := mkTask {
  callable : unit → outcome;
  shared_state : option outcome }.

(** Where a worker is in [worker_loop]: at the test of [stop_], at
    [dequeue], holding a task before [active_tasks_.fetch_add(1)], before
    the call of the task, before [active_tasks_.fetch_sub(1)], in
    [condition_.wait_for], returned, or left by an exception. *)
Inductive worker_pc :=
| WLoop
| WDequeue
| WGot (t : Task)
| WRun (t : Task)
| WRan
| WWait
| WExit
| WDead.

Record ThreadPool := mkPool {
  workers_ : list worker_pc;
  task_queue_ : Queue.LockFreeQueue Task;
  stop_ : bool;
  active_tasks_ : Z }.

(** The pool and the packaged tasks made by [std::make_shared]. *)
Record state := mkState {
  pool : ThreadPool;
  heap : gmap loc packaged_task }.

(** [explicit ThreadPool(size_t num_threads)] *)
Definition new_pool (num_threads : nat) : ThreadPool :=
  let num_threads := if decide (num_threads = 0) then 1 else num_threads in
  {| workers_ := replicate num_threads WLoop;
     task_queue_ := Queue.new_queue;
     stop_ := false;
     active_tasks_ := 0 |}.

Definition set_workers (p : ThreadPool) (ws : list worker_pc) : ThreadPool :=
  {| workers_ := ws; task_queue_ := task_queue_ p;
     stop_ := stop_ p; active_tasks_ := active_tasks_ p |}.
Definition set_queue (p : ThreadPool) (q : Queue.LockFreeQueue Task) : ThreadPool :=
  {| workers_ := workers_ p; task_queue_ := q;
     stop_ := stop_ p; active_tasks_ := active_tasks_ p |}.
Definition set_active (p : ThreadPool) (n : Z) : ThreadPool :=
  {| workers_ := workers_ p; task_queue_ := task_queue_ p;
     stop_ := stop_ p; active_tasks_ := n |}.

(** The call of the packaged task [*task]: it runs the callable and
    stores what it returned or threw in the shared state; called on a task
    that has already run, it throws [std::future_error].  The boolean says
    whether an exception leaves the call. *)
Definition invoke (h : gmap loc packaged_task) (t : Task)
    : result (gmap loc packaged_task * bool) :=
  pt ← deref h (Some t);
  match shared_state pt with
  | Some _ => Ok (h, true)
  | None => Ok (<[t := mkTask (callable pt) (Some (callable pt tt))]> h, false)
  end.

(** [auto submit(F&& f, Args&&... args)]; the result is the future. *)
Definition submit (s : state) (f : unit → outcome) : result (loc * state) :=
  let task := fresh (dom (heap s)) in
  let h := <[task := mkTask f None]> (heap s) in
  let result := task in
  '(_, q) ← Queue.enqueue (task_queue_ (pool s)) task;
  Ok (result, {| pool := set_queue (pool s) q; heap := h |}).

(** [std::future::get()]: nothing while the shared state is empty. *)
Definition future_get (s : state) (future : loc) : option outcome :=
  match heap s !! future with
  | Some pt => shared_state pt
  | None => None
  end.

(** [size_t active_tasks() const] *)
Definition active_tasks (s : state) : Z := active_tasks_ (pool s).

(** [size_t queued_tasks() const] *)
Definition queued_tasks (fuel : nat) (s : state) : result Z :=
  Queue.approximate_size fuel (task_queue_ (pool s)).

(** One action of a worker in [worker_loop]; the call of [dequeue] is
    taken as one action. *)
Definition worker_step (s : state) (pc : worker_pc) : result (worker_pc * state) :=
  match pc with
  | WLoop => Ok (if stop_ (pool s) then WExit else WDequeue, s)
  | WDequeue =>
    '(task_opt, q) ← Queue.dequeue (task_queue_ (pool s));
    let s := {| pool := set_queue (pool s) q; heap := heap s |} in
    Ok (match task_opt with Some t => WGot t | None => WWait end, s)
  | WGot t =>
    Ok (WRun t, {| pool := set_active (pool s) (wrap (active_tasks_ (pool s) + 1));
                   heap := heap s |})
  | WRun t =>
    '(h, thrown) ← invoke (heap s) t;
    Ok (if thrown : bool then WDead else WRan, {| pool := pool s; heap := h |})
  | WRan =>
    Ok (WLoop, {| pool := set_active (pool s) (wrap (active_tasks_ (pool s) - 1));
                  heap := heap s |})
  | WWait => Ok (WLoop, s)
  | WExit => Ok (WExit, s)
  | WDead => Ok (WDead, s)
  end.

(** Where the caller is in [wait]: at the test of [active_tasks_], at the
    test [!task_queue_.empty()], at [dequeue], holding a task before
    [fetch_add], before the call, before [fetch_sub], returned, or left by
    an exception. *)
Inductive wait_pc :=
| TActive
| TEmpty
| TDequeue
| TGot (t : Task)
| TRun (t : Task)
| TRan
| TReturn
| TDead.

(** One action of the caller of [wait]; the calls of [empty] and
    [dequeue] are taken as one action each. *)
Definition wait_step (s : state) (pc : wait_pc) : result (wait_pc * state) :=
  match pc with
  | TActive =>
    Ok (if decide (active_tasks_ (pool s) > 0)%Z then TActive else TEmpty, s)
  | TEmpty =>
    b ← Queue.empty (task_queue_ (pool s));
    Ok (if negb b then TDequeue else TReturn, s)
  | TDequeue =>
    '(task_opt, q) ← Queue.dequeue (task_queue_ (pool s));
    let s := {| pool := set_queue (pool s) q; heap := heap s |} in
    Ok (match task_opt with Some t => TGot t | None => TEmpty end, s)
  | TGot t =>
    Ok (TRun t, {| pool := set_active (pool s) (wrap (active_tasks_ (pool s) + 1));
                   heap := heap s |})
  | TRun t =>
    '(h, thrown) ← invoke (heap s) t;
    Ok (if thrown : bool then TDead else TRan, {| pool := pool s; heap := h |})
  | TRan =>
    Ok (TEmpty, {| pool := set_active (pool s) (wrap (active_tasks_ (pool s) - 1));
                   heap := heap s |})
  | TReturn => Ok (TReturn, s)
  | TDead => Ok (TDead, s)
  end.

(** *** The client thread

    The thread that owns the pool runs a program of calls; [Get i] awaits
    the future returned by the [i]-th [Submit].  What the calls return is
    logged. *)

Inductive cmd :=
| Submit (f : unit → outcome)
| Wait
| Get (i : nat)
| ActiveTasks
| QueuedTasks.

Inductive obs :=
| OWait
| OGet (i : nat) (o : outcome)
| OActive (n : Z)
| OQueued (n : Z).

Record client := mkClient {
  program : list cmd;
  futures : list loc;
  waiting : wait_pc;
  log : list obs }.

(** One atomic action of the client.  A [Get] on an empty shared state
    blocks: the step changes nothing. *)
Definition client_step (fuel : nat) (s : state) (c : client) : result (client * state) :=
  match program c with
  | [] => Ok (c, s)
  | Submit f :: p =>
    '(future, s') ← submit s f;
    Ok ({| program := p; futures := futures c ++ [future];
           waiting := waiting c; log := log c |}, s')
  | Wait :: p =>
    '(pc, s') ← wait_step s (waiting c);
    match pc with
    | TReturn =>
      Ok ({| program := p; futures := futures c;
             waiting := TActive; log := log c ++ [OWait] |}, s')
    | _ =>
      Ok ({| program := Wait :: p; futures := futures c;
             waiting := pc; log := log c |}, s')
    end
  | Get i :: p =>
    match futures c !! i with
    | None => Ok ({| program := p; futures := futures c;
                     waiting := waiting c; log := log c |}, s)
    | Some future =>
      match future_get s future with
      | Some o => Ok ({| program := p; futures := futures c;
                         waiting := waiting c; log := log c ++ [OGet i o] |}, s)
      | None => Ok (c, s)
      end
    end
  | ActiveTasks :: p =>
    Ok ({| program := p; futures := futures c; waiting := waiting c;
           log := log c ++ [OActive (active_tasks s)] |}, s)
  | QueuedTasks :: p =>
    n ← queued_tasks fuel s;
    Ok ({| program := p; futures := futures c; waiting := waiting c;
           log := log c ++ [OQueued n] |}, s)
  end.

(** *** The system: thread 0 is the client, thread [S i] is worker [i] *)

Record system := mkSystem {
  shared : state;
  owner : client }.

Definition start (num_threads : nat) (prog : list cmd) : system :=
  {| shared := {| pool := new_pool num_threads; heap := ∅ |};
     owner := {| program := prog; futures := []; waiting := TActive; log := [] |} |}.

Definition step (fuel : nat) (tid : nat) (sys : system) : result system :=
  match tid with
  | O =>
    '(c, s) ← client_step fuel (shared sys) (owner sys);
    Ok {| shared := s; owner := c |}
  | S i =>
    match workers_ (pool (shared sys)) !! i with
    | None => Ok sys
    | Some pc =>
      '(pc', s) ← worker_step (shared sys) pc;
      Ok {| shared := {| pool := set_workers (pool s) (<[i := pc']> (workers_ (pool s)));
                         heap := heap s |};
            owner := owner sys |}
    end
  end.

Fixpoint run (fuel : nat) (schedule : list nat) (sys : system) : result system :=
  match schedule with
  | [] => Ok sys
  | tid :: schedule' => sys' ← step fuel tid sys; run fuel schedule' sys'
  end.

(** The callables of the [Submit]s of a program, in order. *)
Fixpoint submitted (prog : list cmd) : list (unit → outcome) :=
  match prog with
  | [] => []
  | Submit f :: p => f :: submitted p
  | _ :: p => submitted p
  end.

(** No thread was left by an exception. *)
Definition alive_threads (ws : list worker_pc) (w : wait_pc) : Prop :=
  Forall (λ pc, pc ≠ WDead) ws ∧ w ≠ TDead.

Definition alive (sys : system) : Prop :=
  alive_threads (workers_ (pool (shared sys))) (waiting (owner sys)).

(** *** Invariant of the system *)

Definition worker_task (pc : worker_pc) : list Task :=
  match pc with
  | WGot t | WRun t => [t]
  | _ => []
  end.

Definition wait_task (pc : wait_pc) : list Task :=
  match pc with
  | TGot t | TRun t => [t]
  | _ => []
  end.

(** The tasks that were submitted and have not run yet: those of the
    queue, [l], and those in the hands of a thread. *)
Definition in_flight (l : list Task) (ws : list worker_pc) (w : wait_pc) : list Task :=
  l ++ concat (worker_task <$> ws) ++ wait_task w.

Definition pending (h : gmap loc packaged_task) (t : Task) : Prop :=
  ∃ pt, h !! t = Some pt ∧ shared_state pt = None.

(** A shared state that is set holds what the callable of its task did. *)
Definition faithful (h : gmap loc packaged_task) : Prop :=
  ∀ t pt o, h !! t = Some pt → shared_state pt = Some o → o = callable pt tt.

(** [prog] is the program the client started with, [l] the content of
    the task queue. *)
Record Invariant (prog : list cmd) (ws : list worker_pc) (l : list Task)
    (h : gmap loc packaged_task) (c : client) : Prop := {
  inv_nodup : NoDup (in_flight l ws (waiting c));
  inv_pending : Forall (pending h) (in_flight l ws (waiting c));
  inv_length : length l ≤ length (futures c);
  inv_faithful : faithful h;
  inv_alive : alive_threads ws (waiting c);
  inv_program : ∃ done,
    prog = done ++ program c ∧
    Forall2 (λ f future, ∃ pt, h !! future = Some pt ∧ callable pt = f)
            (submitted done) (futures c);
  inv_log : ∀ i o, OGet i o ∈ log c →
    ∃ f, submitted prog !! i = Some f ∧ o = f tt }.

Definition Inv (prog : list cmd) (sys : system) : Prop :=
  ∃ l, Queue.wf (task_queue_ (pool (shared sys))) l ∧
       Invariant prog (workers_ (pool (shared sys))) l (heap (shared sys)) (owner sys).

(** *** Schedules

    The client submits; worker 0 tests [stop_] and takes the task; the
    client runs [wait] and two more calls. *)
Definition early_wait_schedule : list nat := [0; 1; 1; 0; 0; 0; 0].

(** The client submits and passes the first loop of [wait]; worker 0 takes
    the task and counts it; the client finishes [wait] and one more call. *)
Definition late_count_schedule : list nat := [0; 0; 1; 1; 1; 0; 0].

(** The client submits; worker 0 goes once around its loop; the client
    awaits the future. *)
Definition serving_schedule : list nat := [0; 1; 1; 1; 1; 1; 0].

(** *** Threads inside a task

    A thread is between [active_tasks_.fetch_add(1)] and
    [active_tasks_.fetch_sub(1)]; a thread left by an exception never
    reaches the [fetch_sub]. *)
Definition worker_busy (pc : worker_pc) : nat :=
  match pc with
  | WRun _ | WRan | WDead => 1
  | _ => 0
  end.

Definition wait_busy (pc : wait_pc) : nat :=
  match pc with
  | TRun _ | TRan | TDead => 1
  | _ => 0
  end.

Definition busy (ws : list worker_pc) (w : wait_pc) : nat :=
  sum_list (worker_busy <$> ws) + wait_busy w.

(** [active_tasks_] counts the threads inside a task, what
    [active_tasks()] returned to the client never exceeded the number of
    workers, and the client is inside [wait] only while its next call is
    [Wait]. *)
Record counted (sys : system) : Prop := {
  counted_active :
    active_tasks_ (pool (shared sys)) =
    Z.of_nat (busy (workers_ (pool (shared sys))) (waiting (owner sys)));
  counted_log : ∀ a, OActive a ∈ log (owner sys) →
    (0 ≤ a ≤ Z.of_nat (length (workers_ (pool (shared sys)))))%Z;
  counted_wait : waiting (owner sys) = TActive ∨
                 ∃ p, program (owner sys) = Wait :: p }.

(** *** Tasks that have not run

    Every task of the heap whose shared state is empty is one of [L]. *)
Definition tracked (h : gmap loc packaged_task) (L : list Task) : Prop :=
  ∀ t pt, h !! t = Some pt → shared_state pt = None → t ∈ L.

(** Where [wait] goes next, what is left of the queue and the value of
    [active_tasks_], when the queue holds [l] and the task that is called
    does not throw. *)
Definition wait_next (active : Z) (l : list Task) (w : wait_pc)
    : wait_pc * list Task * Z :=
  match w with
  | TActive => (if decide (active > 0)%Z then TActive else TEmpty, l, active)
  | TEmpty => (match l with [] => TReturn | _ => TDequeue end, l, active)
  | TDequeue => (match l with [] => TEmpty | t :: _ => TGot t end, tail l, active)
  | TGot t => (TRun t, l, wrap (active + 1))
  | TRun _ => (TRan, l, active)
  | TRan => (TEmpty, l, wrap (active - 1))
  | TReturn => (TReturn, l, active)
  | TDead => (TDead, l, active)
  end.

(** The client after one action of a call of [wait] that leads to [w']:
    [p] are its later calls. *)
Definition after_wait (p : list cmd) (futs : list loc) (lg : list obs)
    (w' : wait_pc) : client :=
  match w' with
  | TReturn => mkClient p futs TActive (lg ++ [OWait])
  | _ => mkClient (Wait :: p) futs w' lg
  end.

Definition Tracking (prog : list cmd) (sys : system) : Prop :=
  ∃ l, Queue.wf (task_queue_ (pool (shared sys))) l ∧
       Invariant prog (workers_ (pool (shared sys))) l (heap (shared sys)) (owner sys) ∧
       tracked (heap (shared sys))
         (in_flight l (workers_ (pool (shared sys))) (waiting (owner sys))).

(** *** One worker

    The calls of the client that leave the head of the task queue to the
    workers: [submit], [get] on a handle and [active_tasks].  [wait] and
    [queued_tasks] read the head of the queue. *)
Definition at_tail (c : cmd) : bool :=
  match c with
  | Wait | QueuedTasks => false
  | _ => true
  end.

(** The worker of a pool asked for at most one worker is the only thread
    at the head of the queue when the client makes such calls only. *)
Definition single_consumer (num_threads : nat) (prog : list cmd) : bool :=
  bool_decide (num_threads ≤ 1) && forallb at_tail prog.

(** What the calls of a program return when each of them finds the
    earlier work done: a handle yields what its work unit did,
    [active_tasks()] and [queued_tasks()] return 0.  [fs] are the
    callables submitted before. *)
Fixpoint answers (fs : list (unit → outcome)) (prog : list cmd) : list obs :=
  match prog with
  | [] => []
  | Submit f :: p => answers (fs ++ [f]) p
  | Wait :: p => OWait :: answers fs p
  | Get i :: p =>
    match fs !! i with
    | Some f => OGet i (f tt) :: answers fs p
    | None => answers fs p
    end
  | ActiveTasks :: p => OActive 0 :: answers fs p
  | QueuedTasks :: p => OQueued 0 :: answers fs p
  end.

(** Two observations of the same call that differ at most in the number
    that was read. *)
Definition agree (o o' : obs) : Prop :=
  match o, o' with
  | OActive _, OActive _ => True
  | OQueued _, OQueued _ => True
  | _, _ => o = o'
  end.

(** The log holds an answer for each call made so far. *)
Definition Logged (prog : list cmd) (c : client) : Prop :=
  ∃ done, prog = done ++ program c ∧
          Forall2 agree (log c) (answers [] done).

(** The turns after which a single worker at [pc] has run the task in
    its hands and the [queued] tasks of the queue and finds the queue
    empty. *)
Definition turns_left (pc : worker_pc) (queued : nat) : nat :=
  match pc with
  | WLoop => 5 * queued
  | WDequeue => 5 * queued - 1
  | WGot _ => 5 * queued + 3
  | WRun _ => 5 * queued + 2
  | WRan => 5 * queued + 1
  | WWait => match queued with 0 => 0 | _ => 5 * queued + 1 end
  | WExit | WDead => 0
  end.

(** The worker takes [5 * calls + 3] turns and the client one, once per
    call of the program; then the worker takes as many turns again. *)
Definition serving_turns (calls : nat) : list nat :=
  concat (replicate calls (replicate (5 * calls + 3) 1 ++ [0])) ++
  replicate (5 * calls + 3) 1.

(** A pool whose single worker is at [pc] while the queue holds [l] and
    the client is outside [wait]. *)
Record Serving (prog : list cmd) (sys : system) (pc : worker_pc)
    (l : list Task) : Prop := {
  serving_worker : workers_ (pool (shared sys)) = [pc];
  serving_on : stop_ (pool (shared sys)) = false ∧ pc ≠ WExit;
  serving_client : waiting (owner sys) = TActive ∧
                   forallb at_tail (program (owner sys)) = true;
  serving_queue : Queue.wf (task_queue_ (pool (shared sys))) l;
  serving_inv : Invariant prog [pc] l (heap (shared sys)) (owner sys);
  serving_tracked : tracked (heap (shared sys)) (in_flight l [pc] TActive);
  serving_logged : Logged prog (owner sys) }.

(** *** The destructor

    The body of [~ThreadPool()] calls [wait], sets [stop_], notifies the
    workers and joins them one after the other.  [join] blocks while the
    worker has not returned from [worker_loop].  When the body has returned
    ([DDone]) the members are destroyed ([destroy_members]). *)
Inductive dtor_pc :=
| DWait (w : wait_pc)
| DStop
| DNotify
| DJoin (i : nat)
| DDone
| DDead.

Definition set_stop (p : ThreadPool) (b : bool) : ThreadPool :=
  {| workers_ := workers_ p; task_queue_ := task_queue_ p;
     stop_ := b; active_tasks_ := active_tasks_ p |}.

(** One action of the thread that destroys the pool, in the body of the
    destructor. *)
Definition destroy_step (s : state) (pc : dtor_pc) : result (dtor_pc * state) :=
  match pc with
  | DWait w =>
    '(w', s') ← wait_step s w;
    Ok (match w' with
        | TReturn => DStop
        | TDead => DDead
        | _ => DWait w'
        end, s')
  | DStop => Ok (DNotify, {| pool := set_stop (pool s) true; heap := heap s |})
  | DNotify => Ok (DJoin 0, s)
  | DJoin i =>
    match workers_ (pool s) !! i with
    | None => Ok (DDone, s)
    | Some WExit => Ok (DJoin (S i), s)
    | Some _ => Ok (DJoin i, s)
    end
  | DDone => Ok (DDone, s)
  | DDead => Ok (DDead, s)
  end.

(** The pool while it is destroyed: thread 0 runs the destructor, thread
    [S i] is worker [i]. *)
Record closing := mkClosing {
  closing_state : state;
  closing_pc : dtor_pc }.

Definition close_step (tid : nat) (c : closing) : result closing :=
  match tid with
  | O =>
    '(pc, s) ← destroy_step (closing_state c) (closing_pc c);
    Ok {| closing_state := s; closing_pc := pc |}
  | S i =>
    match workers_ (pool (closing_state c)) !! i with
    | None => Ok c
    | Some pc =>
      '(pc', s) ← worker_step (closing_state c) pc;
      Ok {| closing_state :=
              {| pool := set_workers (pool s) (<[i := pc']> (workers_ (pool s)));
                 heap := heap s |};
            closing_pc := closing_pc c |}
    end
  end.

Fixpoint close_run (schedule : list nat) (c : closing) : result closing :=
  match schedule with
  | [] => Ok c
  | tid :: schedule' => c' ← close_step tid c; close_run schedule' c'
  end.

(** The destructor starts once the client has made its calls. *)
Definition close (sys : system) : closing :=
  {| closing_state := shared sys; closing_pc := DWait TActive |}.

(** The [wait] the destructor is in. *)
Definition dtor_wait (pc : dtor_pc) : wait_pc :=
  match pc with
  | DWait w => w
  | DDead => TDead
  | _ => TActive
  end.

(** Invariant of the pool while it is destroyed; [futs] are the futures
    the client holds.  Once [wait] has returned the queue is empty; the
    workers joined so far have returned from [worker_loop]. *)
Record Closing (prog : list cmd) (futs : list loc) (c : closing) : Prop := {
  closing_tracking : ∃ l lg,
    Queue.wf (task_queue_ (pool (closing_state c))) l ∧
    Invariant prog (workers_ (pool (closing_state c))) l (heap (closing_state c))
      {| program := []; futures := futs;
         waiting := dtor_wait (closing_pc c); log := lg |} ∧
    tracked (heap (closing_state c))
      (in_flight l (workers_ (pool (closing_state c))) (dtor_wait (closing_pc c))) ∧
    (match closing_pc c with DWait _ | DDead => True | _ => l = [] end);
  closing_wait : closing_pc c ≠ DWait TReturn;
  closing_joined :
    match closing_pc c with
    | DJoin i => ∀ j, j < i → workers_ (pool (closing_state c)) !! j = Some WExit
    | DDone => Forall (λ pc, pc = WExit) (workers_ (pool (closing_state c)))
    | _ => True
    end }.

(** *** The task queue when the pool is destroyed

    After the body of [~ThreadPool()] the members are destroyed;
    [~LockFreeQueue()] destroys [task_queue_] and returns what is left of
    its nodes and of the tasks it held. *)
Definition destroy_members (fuel : nat) (s : state)
    : result (gmap loc Queue.Node * gmap loc Task) :=
  Queue.destroy fuel (task_queue_ (pool s)).

(** A thread that holds no task and is not inside one. *)
Definition worker_idle (pc : worker_pc) : Prop :=
  worker_task pc = [] ∧ worker_busy pc = 0.
Definition wait_idle (w : wait_pc) : Prop :=
  wait_task w = [] ∧ wait_busy w = 0.

(** The queue holds [l] and [d] tasks have been taken from it; as long as
    none has been taken no thread holds a task and no shared state is
    set. *)
Definition Used (s : state) (w : wait_pc) (l : list Task) (d : nat) : Prop :=
  Queue.store_inv (task_queue_ (pool s)) l d ∧
  (d = 0 →
   Forall worker_idle (workers_ (pool s)) ∧ wait_idle w ∧
   ∀ t pt, heap s !! t = Some pt → shared_state pt = None).

End ThreadPool.
Arguments outcome : clear implicits.
Arguments packaged_task : clear implicits.
Arguments state : clear implicits.
Arguments cmd : clear implicits.
Arguments obs : clear implicits.
Arguments client : clear implicits.
Arguments system : clear implicits.
Arguments closing : clear implicits.
End ThreadPool.

(** ** Concrete inputs *)

Module Examples.

(** The hundred values of the end-to-end scenario of the queue. *)
Definition zero_to_99 : list Z := Z.of_nat <$> seq 0 100.

Definition queue_ops : list (Queue.op Z) :=
  [Queue.Enqueue 1%Z; Queue.Enqueue 2%Z; Queue.ApproximateSize;
   Queue.Dequeue [true; true]; Queue.Empty; Queue.Dequeue [];
   Queue.Dequeue [true]; Queue.Empty; Queue.ApproximateSize].

(** [std::hash] of an unsigned integer is that integer. *)
Definition hash_nat (k : nat) : N := N.of_nat k.

(** Keys 1, 5 and 9 share a bucket of a map with four buckets. *)
Definition map_ops : list (HashMap.op nat nat) :=
  [HashMap.Insert [] 1 100; HashMap.Insert [true] 5 500; HashMap.Get 5;
   HashMap.Insert [] 9 900; HashMap.Erase [] 5; HashMap.Contains 9].

(** Keys 1 and 5 share a bucket and the node of 1 is behind the node of 5;
    the compare-exchange that unlinks the node of 1 fails spuriously. *)
Definition disturbed_ops : list (HashMap.op nat nat) :=
  [HashMap.Insert [] 1 100; HashMap.Insert [] 5 500; HashMap.Erase [true] 1;
   HashMap.Contains 1; HashMap.Insert [] 1 7].

(** A queue from which no [dequeue] has returned an element. *)
Definition refill_ops : list (Queue.op Z) :=
  [Queue.Dequeue []; Queue.Enqueue 1%Z; Queue.Empty; Queue.Enqueue 2%Z;
   Queue.ApproximateSize].

(** Two work units, one that throws and one that returns. *)
Definition failure : unit → ThreadPool.outcome Z nat := λ _, ThreadPool.Threw 3.
Definition answer : unit → ThreadPool.outcome Z nat := λ _, ThreadPool.Returned 42%Z.

Definition two_tasks : list (ThreadPool.cmd Z nat) :=
  [ThreadPool.Submit failure; ThreadPool.Submit answer].

(** The client submits two work units, reads the counter while the
    worker is inside the first, and awaits the first. *)
Definition counting_tasks : list (ThreadPool.cmd Z nat) :=
  [ThreadPool.Submit failure; ThreadPool.Submit answer; ThreadPool.ActiveTasks;
   ThreadPool.Get 0].
Definition counting_schedule : list nat := [0; 0; 1; 1; 1; 0; 1; 0].



(** The client submits twice; worker 0 takes the first task. *)
Definition taking_schedule : list nat := [0; 0; 1; 1].

(** The destructor runs the task in [wait] and sets [stop_]; the worker
    returns; the destructor joins it. *)
Definition joining_schedule : list nat := [0; 0; 0; 0; 0; 0; 0; 0; 0; 1; 0; 0].

(** A queue that holds 2 and 3 after an [enqueue], an [enqueue], a
    [dequeue] and an [enqueue]. *)
Definition filling_ops : list (Queue.op Z) :=
  [Queue.Enqueue 1%Z; Queue.Enqueue 2%Z; Queue.Dequeue [true]; Queue.Enqueue 3%Z].

(** The consumer gets three turns for each turn of the producer. *)
Definition duet_schedule : list bool :=
  concat (replicate 7 [false; true; false; false]).

(** One thread enqueues, two threads dequeue. *)
Definition thread_calls : list (QueueThreads.call Z) :=
  [QueueThreads.CallEnqueue 4%Z; QueueThreads.CallDequeue; QueueThreads.CallDequeue].

(** The two [dequeue]s load the same [head_]; thread 1 wins the
    compare-exchange, the one of thread 2 fails spuriously and then for
    good, and thread 2 starts again. *)
Definition thread_schedule : list (nat * bool) :=
  [(1, false); (2, false); (0, false); (1, false); (2, false); (1, false);
   (2, false); (0, false); (2, true); (1, false); (1, false); (2, false);
   (2, false); (2, false); (0, false); (1, false); (2, false); (1, false);
   (2, false); (2, false); (2, false); (2, false)].

(** Thread 1 loads [head_] and [head->next]; thread 0 takes the element. *)
Definition stale_schedule : list (nat * bool) :=
  [(1, false); (1, false); (0, false); (0, false); (0, false); (0, false)].

(** The client submits; each of two workers tests [stop_]. *)
Definition crowding_schedule : list nat := [0; 1; 2].


(** Six threads on the map left by [map_ops], which holds the keys 1 and
    9 in one bucket: four insert, key 9 that is there, keys 13 and 17 of
    the same bucket and key 2 of another one; one reads key 1 and one
    looks for key 5, which was erased. *)
Definition exclusive_calls : list (HashMapThreads.call nat nat) :=
  [HashMapThreads.CallInsert 9 901; HashMapThreads.CallInsert 13 7;
   HashMapThreads.CallInsert 17 8; HashMapThreads.CallInsert 2 20;
   HashMapThreads.CallGet 1; HashMapThreads.CallContains 5].

(** Threads 1 and 2 walk through the chain and read its head before
    either publishes; the reader walks to the node of key 1; the first
    compare-exchange of thread 2 fails spuriously, the first of thread 1
    fails because thread 2 has published; thread 0 exchanges the value of
    key 9 in between; the readers finish last. *)
Definition exclusive_schedule : list (nat * bool) :=
  replicate 7 (1, false) ++ replicate 7 (2, false) ++ replicate 4 (4, false) ++
  [(0, false); (0, false); (2, true); (2, false); (1, false); (0, false); (1, false)] ++
  replicate 5 (3, false) ++ [(0, false); (2, false); (1, false)] ++
  replicate 2 (4, false) ++ replicate 10 (5, false).
End Examples.

(* ===================================================================== *)
(** * Proofs *)
(* ===================================================================== *)

(** ** Results and machine integers *)

Lemma wrap_small z : (0 ≤ z < 2 ^ SIZE_BITS)%Z → wrap z = z.
Proof. intros H. unfold wrap. by apply Z.mod_small. Qed.

Lemma wrap_range z : (0 ≤ wrap z < 2 ^ SIZE_BITS)%Z.
Proof. unfold wrap. apply Z.mod_pos_bound. reflexivity. Qed.

Lemma wrap_succ z : wrap (wrap z + 1) = wrap (z + 1).
Proof. unfold wrap. by rewrite Zplus_mod_idemp_l. Qed.

Lemma wrap_pred z : wrap (wrap z - 1) = wrap (z - 1).
Proof. unfold wrap. by rewrite Zminus_mod_idemp_l. Qed.

Lemma bind_Ok {A B} (f : A → result B) (x : result A) (b : B) :
  x ≫= f = Ok b ↔ ∃ a, x = Ok a ∧ f a = Ok b.
Proof.
  destruct x as [a| |]; simpl; split; try done.
  - intros Hf. by exists a.
  - by intros (a' & [= ->] & Hf).
  - by intros (a' & ? & ?).
  - by intros (a' & ? & ?).
Qed.

Lemma deref_Some {A} (h : gmap loc A) l a : h !! l = Some a → deref h (Some l) = Ok a.
Proof. intros H. unfold deref. by rewrite H. Qed.

Lemma cas_weak_success {A} `{EqDecision A} (obj desired : A) :
  compare_exchange_weak false obj obj desired = (true, desired, obj).
Proof. unfold compare_exchange_weak. by rewrite decide_True. Qed.

Lemma cas_weak_spurious {A} `{EqDecision A} (obj expected desired : A) :
  compare_exchange_weak true obj expected desired = (false, obj, obj).
Proof. reflexivity. Qed.

Lemma concat_insert_perm {A} (ls : list (list A)) i l :
  ls !! i = Some l →
  ∃ others, concat ls ≡ₚ l ++ others ∧
            ∀ l', concat (<[i := l']> ls) ≡ₚ l' ++ others.
Proof.
  intros Hi. exists (concat (take i ls) ++ concat (drop (S i) ls)). split.
  - rewrite <-(take_drop_middle ls i l Hi) at 1.
    rewrite concat_app. simpl. by rewrite Permutation_app_swap_app.
  - intros l'. rewrite insert_take_drop by (by eapply lookup_lt_Some).
    rewrite concat_app. simpl. by rewrite Permutation_app_swap_app.
Qed.

Lemma fresh_None {A} (h : gmap loc A) : h !! fresh (dom h) = None.
Proof. apply not_elem_of_dom, is_fresh. Qed.

(** ** Chains *)

Section ChainFacts.
Context {N : Type} (nxt : N → ptr).

Lemma linked_snoc p es l nd :
  linked nxt p (es ++ [(l, nd)]) → nxt nd = None.
Proof.
  revert p. induction es as [|[l' nd'] es IH]; simpl; intros p.
  - by intros [_ ?].
  - intros [_ H]. eauto.
Qed.

(** Appending a node at the end: the last node's link is redirected. *)
Lemma linked_snoc_link p es l nd nd' l2 nd2 :
  linked nxt p (es ++ [(l, nd)]) →
  nxt nd' = Some l2 → nxt nd2 = None →
  linked nxt p (es ++ [(l, nd'); (l2, nd2)]).
Proof.
  revert p. induction es as [|[l' n'] es IH]; simpl; intros p.
  - intros [-> _] ? ?. done.
  - intros [-> H] ? ?. split; [done|]. by apply IH.
Qed.

Lemma linked_head p es :
  linked nxt p es → p = fst <$> head es.
Proof. destruct es as [|[l nd] es]; simpl; [done|by intros [-> _]]. Qed.

Lemma held_cons (ns : gmap loc N) e es :
  held ns (e :: es) ↔ ns !! e.1 = Some e.2 ∧ held ns es.
Proof.
  unfold held. split.
  - intros H. split; [apply H; destruct e; left|].
    intros l nd Hin. apply H. by right.
  - intros [He H] l nd [Heq|Hin]%elem_of_cons; [by subst e|by apply H].
Qed.

Lemma held_app (ns : gmap loc N) es1 es2 :
  held ns (es1 ++ es2) ↔ held ns es1 ∧ held ns es2.
Proof.
  unfold held. split.
  - intros H. split; intros l nd Hin; apply H, elem_of_app; [by left|by right].
  - intros [H1 H2] l nd [Hin|Hin]%elem_of_app; [by apply H1|by apply H2].
Qed.

Lemma held_nil (ns : gmap loc N) : held ns ([] : list (loc * N)).
Proof. intros l nd H. by apply elem_of_nil in H. Qed.

Lemma held_fresh (ns : gmap loc N) es l :
  held ns es → ns !! l = None → l ∉ es.*1.
Proof.
  intros H Hl [[l' nd] [-> Hin]]%list_elem_of_fmap. simpl in *.
  apply H in Hin. congruence.
Qed.

(** Writing outside the chain keeps it. *)
Lemma held_insert (ns : gmap loc N) es l nd :
  l ∉ es.*1 → held ns es → held (<[l := nd]> ns) es.
Proof.
  intros Hl H l' nd' Hin. rewrite lookup_insert_ne; [by apply H|].
  intros ->. apply Hl. apply list_elem_of_fmap. by exists (l', nd').
Qed.

Lemma held_delete (ns : gmap loc N) es l :
  l ∉ es.*1 → held ns es → held (delete l ns) es.
Proof.
  intros Hl H l' nd' Hin. rewrite lookup_delete_ne; [by apply H|].
  intros ->. apply Hl. apply list_elem_of_fmap. by exists (l', nd').
Qed.

Lemma held_mono (ns : gmap loc N) es es' :
  es' ⊆ es → held ns es → held ns es'.
Proof. intros Hsub H l nd Hin. apply H, Hsub, Hin. Qed.

(** Replacing a node by one with the same link. *)
Lemma linked_replace p es1 l nd nd' es2 :
  linked nxt p (es1 ++ (l, nd) :: es2) → nxt nd' = nxt nd →
  linked nxt p (es1 ++ (l, nd') :: es2).
Proof.
  revert p. induction es1 as [|[l1 n1] es1 IH]; simpl; intros p.
  - intros [-> Hlk] Hn. by rewrite Hn.
  - intros [-> Hlk] Hn. split; [done|]. by apply IH.
Qed.

(** Taking the node behind [(lp, pnd)] out of the chain. *)
Lemma linked_unlink p es1 lp pnd pnd' l nd es2 :
  linked nxt p (es1 ++ (lp, pnd) :: (l, nd) :: es2) → nxt pnd' = nxt nd →
  linked nxt p (es1 ++ (lp, pnd') :: es2).
Proof.
  revert p. induction es1 as [|[l1 n1] es1 IH]; simpl; intros p.
  - intros (-> & _ & Hlk) Hn. by rewrite Hn.
  - intros [-> Hlk] Hn. split; [done|]. by apply IH.
Qed.

End ChainFacts.

(** ** The queue *)

Module QueueFacts.
Import Queue.
Section QueueFacts.
Context {T : Type}.
Implicit Types (q : LockFreeQueue T) (vs : list T) (es : list (loc * Node)).

Lemma datas_snoc es l nd l2 nd2 nd' :
  data nd' = data nd →
  datas (es ++ [(l, nd'); (l2, nd2)]) = datas (es ++ [(l, nd)]) ++ [data nd2].
Proof.
  intros Hd. unfold datas. destruct es as [|e es]; simpl; [done|].
  rewrite !fmap_app. simpl. rewrite Hd. by rewrite <-app_assoc.
Qed.

Lemma payload_insert (cs : gmap loc T) c v d w :
  cs !! c = None → payload cs d w → payload (<[c := v]> cs) d w.
Proof.
  intros Hc (c' & -> & Hc'). exists c'. split; [done|].
  rewrite lookup_insert_ne; [done|]. congruence.
Qed.

Lemma payload_delete (cs : gmap loc T) c d w :
  d ≠ Some c → payload cs d w → payload (delete c cs) d w.
Proof.
  intros Hc (c' & -> & Hc'). exists c'. split; [done|].
  rewrite lookup_delete_ne; [done|]. congruence.
Qed.

Lemma new_queue_wf : wf (new_queue (T := T)) [].
Proof.
  exists [(fresh (dom (∅ : gmap loc Node)), mkNode None None)].
  split; [done|]. split; simpl.
  - split; [done|]. intros l nd [= -> ->]%list_elem_of_singleton. apply lookup_insert_eq.
  - done.
  - apply NoDup_singleton.
  - constructor.
  - constructor.
Qed.

Lemma enqueue_spec q vs v :
  wf q vs → ∃ q', enqueue q v = Ok (true, q') ∧ wf q' (vs ++ [v]).
Proof.
  intros (es & Hne & [[Hlk Hheld] Htail Hnd Hpay Hcells]).
  destruct es as [|[t tn] pre _] using rev_ind; [done|]. clear Hne.
  rewrite last_snoc in Htail. simpl in Htail.
  pose proof (fresh_None (nodes q)) as Hnew.
  pose proof (fresh_None (cells q)) as Hd.
  set (new := fresh (dom (nodes q))) in *.
  set (d := fresh (dom (cells q))) in *.
  assert (Ht : nodes q !! t = Some tn).
  { apply Hheld, elem_of_app. right. by left. }
  assert (Hnt : new ≠ t) by congruence.
  rewrite fmap_app in Hnd. simpl in Hnd.
  apply NoDup_app in Hnd as (Hnd1 & Hnd2 & _).
  assert (Hnew_pre : new ∉ pre.*1).
  { eapply held_fresh; [|exact Hnew]. apply held_app in Hheld. apply Hheld. }
  eexists. split.
  { unfold enqueue, allocate_node, store_data, store_next. fold new d. simpl.
    rewrite lookup_insert_eq. simpl. rewrite lookup_insert_eq. simpl.
    rewrite Htail. simpl. rewrite !lookup_insert_ne by done. rewrite Ht. simpl.
    rewrite !insert_insert_eq. reflexivity. }
  exists (pre ++ [(t, mkNode (data tn) (Some new)); (new, mkNode (Some d) None)]).
  split; [by destruct pre|]. split; simpl.
  - split.
    + by eapply linked_snoc_link.
    + apply held_app in Hheld as [Hpre _]. apply held_app. split.
      * apply held_insert.
        { intros Hin. by apply (Hnd2 t); [|left]. }
        by apply held_insert.
      * apply held_cons. split; [apply lookup_insert_eq|].
        apply held_cons. split; [|apply held_nil]. simpl.
        rewrite lookup_insert_ne by done. apply lookup_insert_eq.
  - rewrite (last_app_cons pre [_] _). by rewrite last_snoc || done.
  - rewrite fmap_app. simpl. apply NoDup_app. split; [done|]. split.
    + intros x Hx [->|[->|[]%elem_of_nil]%elem_of_cons]%elem_of_cons.
      * by apply (Hnd2 t); [|left].
      * done.
    + apply NoDup_cons. split; [|apply NoDup_singleton].
      intros ?%list_elem_of_singleton. done.
  - rewrite (datas_snoc _ _ tn) by done. apply Forall2_app.
    + eapply Forall2_impl; [exact Hpay|]. intros ? ? ?. by apply payload_insert.
    + constructor; [|constructor]. exists d. split; [done|]. apply lookup_insert_eq.
  - rewrite (datas_snoc _ _ tn) by done. apply NoDup_app. split; [done|]. split.
    + intros x Hx ->%list_elem_of_singleton. simpl in Hx.
      apply list_elem_of_lookup in Hx as [i Hi].
      destruct (Forall2_lookup_l _ _ _ _ _ Hpay Hi) as (w & _ & (c & Heq & Hc)).
      congruence.
    + apply NoDup_singleton.
Qed.

Lemma Forall2_impl_elem {A B} (P Q : A → B → Prop) (l : list A) (k : list B) :
  Forall2 P l k → (∀ x y, x ∈ l → P x y → Q x y) → Forall2 Q l k.
Proof.
  induction 1 as [|x y l k Hxy _ IH]; intros HPQ; constructor.
  - apply HPQ; [by left|done].
  - apply IH. intros x' y' Hin. apply HPQ. by right.
Qed.

(** What a well-formed queue looks like, by cases on its content. *)
Lemma wf_nil_inv q :
  wf q [] →
  ∃ h hn, head_ q = Some h ∧ nodes q !! h = Some hn ∧ next hn = None.
Proof.
  intros (es & Hne & [[Hlk Hheld] _ _ Hpay _]).
  destruct es as [|[h hn] rest]; [done|].
  apply Forall2_nil_inv_r in Hpay. unfold datas in Hpay. simpl in Hpay.
  apply fmap_nil_inv in Hpay as ->.
  destruct Hlk as [Hh Hn]. simpl in Hn.
  exists h, hn. split_and!; [done| |done]. apply Hheld. by left.
Qed.

Lemma wf_cons_inv q v vs :
  wf q (v :: vs) →
  ∃ h hn n nn c rest,
    repr q ((h, hn) :: (n, nn) :: rest) (v :: vs) ∧
    head_ q = Some h ∧ nodes q !! h = Some hn ∧ next hn = Some n ∧
    nodes q !! n = Some nn ∧ data nn = Some c ∧ cells q !! c = Some v.
Proof.
  intros (es & Hne & Hrepr). pose proof Hrepr as [[Hlk Hheld] _ _ Hpay _].
  destruct es as [|[h hn] rest]; [done|].
  destruct rest as [|[n nn] rest].
  { unfold datas in Hpay. simpl in Hpay. inversion Hpay. }
  unfold datas in Hpay. simpl in Hpay.
  apply Forall2_cons_1 in Hpay as [(c & Hc & Hv) _].
  destruct Hlk as [Hh [Hn _]].
  exists h, hn, n, nn, c, rest. split_and!; try done.
  - apply Hheld. by left.
  - apply Hheld. right. by left.
Qed.

(** Advancing the head over the first element; [nn'] is what the new head
    node holds afterwards and [ns'] the new heap of nodes. *)
Lemma repr_advance q h hn n nn rest v vs c ns' nn' :
  repr q ((h, hn) :: (n, nn) :: rest) (v :: vs) →
  data nn = Some c →
  next nn' = next nn →
  ns' !! n = Some nn' →
  (∀ l, l ≠ h → l ≠ n → ns' !! l = nodes q !! l) →
  wf {| nodes := ns'; cells := delete c (cells q);
        head_ := Some n; tail_ := tail_ q |} vs.
Proof.
  intros [[Hlk Hheld] Htail Hnd Hpay Hcells] Hc Hnx Hn Hother.
  exists ((n, nn') :: rest). split; [done|].
  simpl in Hnd. apply NoDup_cons in Hnd as [Hh Hnd].
  pose proof Hnd as [Hnrest Hnd']%NoDup_cons.
  unfold datas in Hpay, Hcells. simpl in Hpay, Hcells.
  apply Forall2_cons_1 in Hpay as [_ Hpay].
  rewrite Hc in Hcells. apply NoDup_cons in Hcells as [Hcrest Hcells].
  destruct Hlk as [_ [_ Hlk]]. simpl in Hlk.
  split; simpl.
  - split; [split; [done|by rewrite Hnx]|].
    apply held_cons. split; [done|].
    intros l nd Hin. rewrite Hother.
    + apply Hheld. right. by right.
    + intros ->. apply Hh. right. apply list_elem_of_fmap. by exists (h, nd).
    + intros ->. apply Hnrest. apply list_elem_of_fmap. by exists (n, nd).
  - rewrite Htail. by destruct rest.
  - apply NoDup_cons. done.
  - unfold datas. simpl. eapply Forall2_impl_elem; [exact Hpay|].
    intros d w Hin Hp. apply payload_delete; [|done]. by intros ->.
  - done.
Qed.

Lemma dequeue_spec q vs :
  wf q vs → ∃ q', dequeue q = Ok (head vs, q') ∧ wf q' (tail vs).
Proof.
  intros Hwf. destruct vs as [|v vs].
  - exists q. split; [|done].
    destruct (wf_nil_inv _ Hwf) as (h & hn & Hh & Hhn & Hnx).
    unfold dequeue. rewrite Hh. simpl. rewrite Hhn. simpl. by rewrite Hnx.
  - destruct (wf_cons_inv _ _ _ Hwf)
      as (h & hn & n & nn & c & rest & Hrepr & Hh & Hhn & Hnx & Hn & Hc & Hv).
    eexists. split.
    + unfold dequeue. rewrite Hh. simpl. rewrite Hhn. simpl. rewrite Hnx.
      simpl. rewrite Hn. simpl. rewrite Hc. simpl. rewrite Hv. simpl.
      reflexivity.
    + simpl. eapply repr_advance; [exact Hrepr|exact Hc|reflexivity| |].
      * pose proof (repr_nodup _ _ _ Hrepr) as Hnd. simpl in Hnd.
        apply NoDup_cons in Hnd as [Hne _].
        rewrite lookup_delete_ne; [done|]. intros ->. apply Hne. by left.
      * intros l Hl _. by rewrite lookup_delete_ne.
Qed.

Lemma dequeue_cas_spec fuel sp q vs :
  length sp < fuel → wf q vs →
  ∃ q', dequeue_cas fuel sp q = Ok (head vs, q') ∧ wf q' (tail vs).
Proof.
  revert sp. induction fuel as [|fuel IH]; intros sp Hfuel Hwf; [lia|].
  destruct vs as [|v vs].
  - exists q. split; [|done].
    destruct (wf_nil_inv _ Hwf) as (h & hn & Hh & Hhn & Hnx).
    simpl. rewrite Hh. simpl. rewrite Hhn. simpl. by rewrite Hnx.
  - destruct (wf_cons_inv _ _ _ Hwf)
      as (h & hn & n & nn & c & rest & Hrepr & Hh & Hhn & Hnx & Hn & Hc & Hv).
    destruct sp as [|[|] sp].
    + eexists. split.
      * simpl. rewrite Hh. simpl. rewrite Hhn. simpl. rewrite Hnx.
        simpl. rewrite Hn. simpl. rewrite Hc. simpl.
        rewrite cas_weak_success. simpl. rewrite Hv. simpl.
        unfold store_data. simpl. rewrite Hn. simpl. reflexivity.
      * simpl. eapply (repr_advance _ _ _ _ _ _ _ _ _ _ (mkNode None (next nn)));
          [exact Hrepr|exact Hc|reflexivity|apply lookup_insert_eq|].
        intros l _ Hl. by rewrite lookup_insert_ne.
    + destruct (IH sp) as (q' & Hq' & Hwf'); [simpl in Hfuel; lia|exact Hwf|].
      exists q'. split; [|done].
      simpl. rewrite Hh. simpl. rewrite Hhn. simpl. rewrite Hnx.
      simpl. rewrite Hn. simpl. rewrite Hc. simpl.
      simpl in Hq'. rewrite <-Hq', <-Hh. by destruct q.
    + eexists. split.
      * simpl. rewrite Hh. simpl. rewrite Hhn. simpl. rewrite Hnx.
        simpl. rewrite Hn. simpl. rewrite Hc. simpl.
        rewrite cas_weak_success. simpl. rewrite Hv. simpl.
        unfold store_data. simpl. rewrite Hn. simpl. reflexivity.
      * simpl. eapply (repr_advance _ _ _ _ _ _ _ _ _ _ (mkNode None (next nn)));
          [exact Hrepr|exact Hc|reflexivity|apply lookup_insert_eq|].
        intros l _ Hl. by rewrite lookup_insert_ne.
Qed.

Lemma empty_spec q vs :
  wf q vs → empty q = Ok (match vs with [] => true | _ => false end).
Proof.
  intros Hwf. destruct vs as [|v vs].
  - destruct (wf_nil_inv _ Hwf) as (h & hn & Hh & Hhn & Hnx).
    unfold empty. rewrite Hh. simpl. rewrite Hhn. simpl. by rewrite Hnx.
  - destruct (wf_cons_inv _ _ _ Hwf)
      as (h & hn & n & nn & c & rest & Hrepr & Hh & Hhn & Hnx & Hn & Hc & Hv).
    unfold empty. rewrite Hh. simpl. rewrite Hhn. simpl. by rewrite Hnx.
Qed.

Lemma approximate_size_loop_spec (ns : gmap loc Node) es :
  held ns es →
  Forall (λ e, is_Some (data e.2)) (tail es) →
  ∀ fuel p c,
    linked next p es → length es ≤ fuel → (0 ≤ c < 2 ^ SIZE_BITS)%Z →
    approximate_size_loop fuel ns p c = Ok (wrap (c + Z.of_nat (length (tail es)))).
Proof.
  induction es as [|[l nd] es IH]; intros Hheld Hdata fuel p c Hlk Hfuel Hc.
  - simpl in Hlk. subst p. destruct fuel; simpl; by rewrite Z.add_0_r, wrap_small.
  - destruct Hlk as [-> Hlk]. destruct fuel as [|fuel]; [simpl in Hfuel; lia|].
    apply held_cons in Hheld as [Hl Hheld]. simpl in Hl, Hdata, Hfuel.
    simpl. rewrite Hl. simpl.
    destruct es as [|[l2 nd2] es].
    + simpl in Hlk. rewrite Hlk. simpl.
      destruct fuel; simpl; by rewrite Z.add_0_r, wrap_small.
    + destruct Hlk as [Hnx Hlk]. rewrite Hnx. simpl.
      pose proof Hheld as [Hl2 _]%held_cons. simpl in Hl2. rewrite Hl2. simpl.
      apply Forall_cons in Hdata as [[d Hd] Hdata]. simpl in Hd. rewrite Hd.
      rewrite (IH Hheld Hdata fuel (Some l2) (wrap (c + 1)));
        [|by split|simpl in *; lia|apply wrap_range].
      f_equal. simpl tail. unfold wrap. rewrite Zplus_mod_idemp_l. f_equal.
      simpl length. lia.
Qed.

Lemma approximate_size_spec fuel q vs :
  wf q vs → length vs < fuel →
  approximate_size fuel q = Ok (wrap (Z.of_nat (length vs))).
Proof.
  intros (es & Hne & [[Hlk Hheld] _ _ Hpay _]) Hfuel.
  pose proof (Forall2_length _ _ _ Hpay) as Hlen.
  unfold datas in Hlen. rewrite length_fmap in Hlen.
  unfold approximate_size.
  rewrite (approximate_size_loop_spec _ es Hheld); [by rewrite Hlen| |done| |done].
  - apply Forall_forall. intros e He.
    assert (Hin : data e.2 ∈ datas es).
    { apply list_elem_of_fmap. by exists e. }
    apply list_elem_of_lookup in Hin as [i Hi].
    destruct (Forall2_lookup_l _ _ _ _ _ Hpay Hi) as (w & _ & (c & -> & _)). done.
  - destruct es; [done|]. simpl in *. lia.
Qed.

(** *** Both queues implement the first-in first-out queue *)

Lemma fifo_step_length (l : list T) o :
  length (fifo_step l o).2 ≤ S (length l).
Proof.
  destruct o; simpl; try lia.
  - rewrite length_app. simpl. lia.
  - destruct l; simpl; lia.
Qed.

Lemma step_store_spec fuel q l o :
  wf q l → length l < fuel →
  ∃ q', step_store fuel q o = Ok ((fifo_step l o).1, q') ∧ wf q' (fifo_step l o).2.
Proof.
  intros Hwf Hfuel. destruct o as [v|sp| |]; simpl.
  - destruct (enqueue_spec _ _ v Hwf) as (q' & -> & Hwf'). by exists q'.
  - destruct (dequeue_spec _ _ Hwf) as (q' & -> & Hwf'). by exists q'.
  - rewrite (empty_spec _ _ Hwf). by exists q.
  - rewrite (approximate_size_spec _ _ _ Hwf Hfuel). by exists q.
Qed.

Lemma step_cas_spec fuel q l o :
  wf q l → length l < fuel →
  match o with Dequeue sp => length sp < fuel | _ => True end →
  ∃ q', step_cas fuel q o = Ok ((fifo_step l o).1, q') ∧ wf q' (fifo_step l o).2.
Proof.
  intros Hwf Hfuel Hsp. destruct o as [v|sp| |]; simpl.
  - destruct (enqueue_spec _ _ v Hwf) as (q' & -> & Hwf'). by exists q'.
  - destruct (dequeue_cas_spec _ _ _ _ Hsp Hwf) as (q' & -> & Hwf'). by exists q'.
  - rewrite (empty_spec _ _ Hwf). by exists q.
  - rewrite (approximate_size_spec _ _ _ Hwf Hfuel). by exists q.
Qed.

Lemma run_refines_fifo step (P : op T → Prop) fuel :
  (∀ q l o, wf q l → length l < fuel → P o →
     ∃ q', step q o = Ok ((fifo_step l o).1, q') ∧ wf q' (fifo_step l o).2) →
  ∀ ops q l,
    wf q l → length l + length ops < fuel → Forall P ops →
    ∃ q', run step q ops = Ok ((fifo_run l ops).1, q') ∧ wf q' (fifo_run l ops).2.
Proof.
  intros Hstep. induction ops as [|o ops IH]; intros q l Hwf Hfuel HP.
  - exists q. by split.
  - apply Forall_cons in HP as [Ho HP]. simpl in Hfuel.
    destruct (Hstep q l o Hwf) as (q1 & Hq1 & Hwf1); [lia|done|].
    pose proof (fifo_step_length l o) as Hlen.
    destruct (IH q1 _ Hwf1) as (q2 & Hq2 & Hwf2); [lia|done|].
    exists q2. simpl. rewrite Hq1. simpl. rewrite Hq2. simpl.
    destruct (fifo_step l o) as [r l1]. simpl in *.
    destruct (fifo_run l1 ops) as [rs l2]. by split.
Qed.

Lemma run_store_spec fuel ops :
  length ops < fuel →
  ∃ q', run (step_store fuel) new_queue ops = Ok ((fifo_run [] ops).1, q').
Proof.
  intros Hfuel.
  destruct (run_refines_fifo (step_store fuel) (λ _, True) fuel) with
    (ops := ops) (q := new_queue (T := T)) (l := @nil T) as (q' & Hq' & _).
  - intros q l o Hwf Hl _. by apply step_store_spec.
  - apply new_queue_wf.
  - simpl. lia.
  - by apply Forall_true.
  - by exists q'.
Qed.

Lemma run_cas_spec fuel ops :
  fuel_covers fuel ops →
  ∃ q', run (step_cas fuel) new_queue ops = Ok ((fifo_run [] ops).1, q').
Proof.
  intros [Hfuel Hsp].
  destruct (run_refines_fifo (step_cas fuel)
    (λ o, match o with Dequeue sp => length sp < fuel | _ => True end) fuel) with
    (ops := ops) (q := new_queue (T := T)) (l := @nil T) as (q' & Hq' & _).
  - intros q l o Hwf Hl Ho. by apply step_cas_spec.
  - apply new_queue_wf.
  - simpl. lia.
  - exact Hsp.
  - by exists q'.
Qed.

Lemma dequeue_empty q : wf q [] → dequeue q = Ok (None, q).
Proof.
  intros Hwf. destruct (wf_nil_inv _ Hwf) as (h & hn & Hh & Hhn & Hnx).
  unfold dequeue. rewrite Hh. simpl. rewrite Hhn. simpl. by rewrite Hnx.
Qed.

Lemma enqueue_all_spec q l vs :
  wf q l → ∃ q', enqueue_all q vs = Ok q' ∧ wf q' (l ++ vs).
Proof.
  revert q l. induction vs as [|v vs IH]; intros q l Hwf.
  - exists q. by rewrite app_nil_r.
  - destruct (enqueue_spec _ _ v Hwf) as (q1 & Hq1 & Hwf1).
    destruct (IH _ _ Hwf1) as (q2 & Hq2 & Hwf2).
    exists q2. simpl. rewrite Hq1. simpl. rewrite Hq2.
    by rewrite <-app_assoc in Hwf2.
Qed.

Lemma dequeue_n_spec q vs l :
  wf q (vs ++ l) →
  ∃ q', dequeue_n (length vs) q = Ok (Some <$> vs, q') ∧ wf q' l.
Proof.
  revert q. induction vs as [|v vs IH]; intros q Hwf.
  - by exists q.
  - destruct (dequeue_spec _ _ Hwf) as (q1 & Hq1 & Hwf1).
    destruct (IH _ Hwf1) as (q2 & Hq2 & Hwf2).
    exists q2. simpl. rewrite Hq1. simpl. rewrite Hq2. done.
Qed.

Lemma enqueue_then_dequeue vs :
  ∃ q1 q2 : LockFreeQueue T,
    enqueue_all new_queue vs = Ok q1 ∧
    dequeue_n (length vs) q1 = Ok (Some <$> vs, q2) ∧
    dequeue q2 = Ok (None, q2) ∧
    empty q2 = Ok true.
Proof.
  destruct (enqueue_all_spec _ [] vs new_queue_wf) as (q1 & Hq1 & Hwf1).
  simpl in Hwf1. rewrite <-(app_nil_r vs) in Hwf1.
  destruct (dequeue_n_spec _ _ _ Hwf1) as (q2 & Hq2 & Hwf2).
  exists q1, q2. split_and!; [done|done|by apply dequeue_empty|].
  by rewrite (empty_spec _ _ Hwf2).
Qed.

End QueueFacts.
End QueueFacts.

(** ** The heap of the queue *)

Module QueueHeapFacts.
Import Queue QueueFacts.
Section QueueHeapFacts.
Context {T : Type}.
Implicit Types (q : LockFreeQueue T) (vs : list T) (es : list (loc * Node)).

Lemma wf_head_inv q vs :
  wf q vs → ∃ h hn, head_ q = Some h ∧ nodes q !! h = Some hn.
Proof.
  intros (es & Hne & [[Hlk Hheld] _ _ _ _]).
  destruct es as [|[h hn] rest]; [done|]. destruct Hlk as [Hh _].
  exists h, hn. split; [done|]. apply Hheld. by left.
Qed.

Lemma wf_tail_inv q vs :
  wf q vs → ∃ t tn, tail_ q = Some t ∧ nodes q !! t = Some tn.
Proof.
  intros (es & Hne & [[Hlk Hheld] Htail _ _ _]).
  destruct es as [|[t tn] pre _] using rev_ind; [done|].
  rewrite last_snoc in Htail. exists t, tn. split; [done|].
  apply Hheld, elem_of_app. right. by left.
Qed.

Lemma enqueue_eq q v t tn :
  tail_ q = Some t → nodes q !! t = Some tn →
  enqueue q v =
    Ok (true,
        {| nodes := <[t := mkNode (data tn) (Some (fresh (dom (nodes q))))]>
                      (<[fresh (dom (nodes q)) :=
                           mkNode (Some (fresh (dom (cells q)))) None]> (nodes q));
           cells := <[fresh (dom (cells q)) := v]> (cells q);
           head_ := head_ q;
           tail_ := Some (fresh (dom (nodes q))) |}).
Proof.
  intros Htail Ht.
  pose proof (fresh_None (nodes q)) as Hnew.
  assert (Hnt : fresh (dom (nodes q)) ≠ t) by congruence.
  unfold enqueue, allocate_node, store_data, store_next. simpl.
  rewrite lookup_insert_eq. simpl. rewrite lookup_insert_eq. simpl.
  rewrite Htail. simpl. rewrite !lookup_insert_ne by done. rewrite Ht. simpl.
  rewrite !insert_insert_eq. reflexivity.
Qed.

Lemma enqueue_accounted q vs g v :
  accounted q vs g →
  ∃ q', enqueue q v = Ok (true, q') ∧ accounted q' (vs ++ [v]) g ∧
        head_ q' = head_ q ∧
        ∀ hn, head_node q = Some hn →
          ∃ hn', head_node q' = Some hn' ∧ data hn' = data hn.
Proof.
  intros [Hwf Hns Hcs].
  destruct (enqueue_spec _ _ v Hwf) as (q' & Hq' & Hwf').
  destruct (wf_tail_inv _ _ Hwf) as (t & tn & Htail & Ht).
  rewrite (enqueue_eq _ _ _ _ Htail Ht) in Hq'. injection Hq' as <-.
  pose proof (fresh_None (nodes q)) as Hnew.
  pose proof (fresh_None (cells q)) as Hd.
  assert (Hnt : fresh (dom (nodes q)) ≠ t) by congruence.
  eexists. split; [by apply enqueue_eq|]. split_and!.
  - split; simpl.
    + done.
    + rewrite map_size_insert_Some by (by rewrite lookup_insert_ne).
      rewrite map_size_insert_None by done. rewrite Hns, length_app. simpl. lia.
    + rewrite map_size_insert_None by done. rewrite Hcs, length_app. simpl. lia.
  - done.
  - intros hn Hh. unfold head_node in *. simpl.
    destruct (head_ q) as [h|]; [|done].
    destruct (decide (h = t)) as [->|Hht].
    + rewrite lookup_insert_eq. eexists. split; [done|]. simpl. congruence.
    + rewrite lookup_insert_ne by done.
      rewrite lookup_insert_ne by congruence. by exists hn.
Qed.

Lemma dequeue_store_accounted q v vs :
  accounted q (v :: vs) 0 →
  ∃ q' hn, dequeue q = Ok (Some v, q') ∧ accounted q' vs 0 ∧
           head_node q' = Some hn ∧ is_Some (data hn).
Proof.
  intros [Hwf Hns Hcs].
  destruct (dequeue_spec _ _ Hwf) as (q' & Hq' & Hwf'). simpl in Hq', Hwf'.
  destruct (wf_cons_inv _ _ _ Hwf)
    as (h & hn & n & nn & c & rest & Hrepr & Hh & Hhn & Hnx & Hn & Hc & Hv).
  assert (Heq : dequeue q = Ok (Some v, {| nodes := delete h (nodes q);
            cells := delete c (cells q); head_ := Some n; tail_ := tail_ q |})).
  { unfold dequeue. rewrite Hh. simpl. rewrite Hhn. simpl. rewrite Hnx.
    simpl. rewrite Hn. simpl. rewrite Hc. simpl. rewrite Hv. simpl.
    reflexivity. }
  rewrite Heq in Hq'. injection Hq' as <-.
  eexists _, nn. split; [exact Heq|]. split_and!.
  - split; simpl.
    + done.
    + rewrite map_size_delete_Some by done. rewrite Hns. simpl. lia.
    + rewrite map_size_delete_Some by done. rewrite Hcs. simpl. lia.
  - unfold head_node. simpl. rewrite lookup_delete_ne; [done|].
    pose proof (repr_nodup _ _ _ Hrepr) as Hnd. simpl in Hnd.
    apply NoDup_cons in Hnd as [Hne _]. intros ->. apply Hne. by left.
  - by rewrite Hc.
Qed.

Lemma dequeue_cas_accounted fuel sp q v vs g :
  length sp < fuel → accounted q (v :: vs) g →
  ∃ q' hn, dequeue_cas fuel sp q = Ok (Some v, q') ∧ accounted q' vs (S g) ∧
           head_node q' = Some hn ∧ data hn = None.
Proof.
  revert sp. induction fuel as [|fuel IH]; intros sp Hfuel Hacc; [lia|].
  pose proof Hacc as [Hwf Hns Hcs].
  destruct (wf_cons_inv _ _ _ Hwf)
    as (h & hn & n & nn & c & rest & Hrepr & Hh & Hhn & Hnx & Hn & Hc & Hv).
  assert (Hdone : ∀ sp', List.hd false sp' = false →
    ∃ q' hn, dequeue_cas (S fuel) sp' q = Ok (Some v, q') ∧ accounted q' vs (S g) ∧
             head_node q' = Some hn ∧ data hn = None).
  { intros sp' Hsp'.
    assert (Heq : dequeue_cas (S fuel) sp' q =
      Ok (Some v, {| nodes := <[n := mkNode None (next nn)]> (nodes q);
                     cells := delete c (cells q);
                     head_ := Some n; tail_ := tail_ q |})).
    { simpl. rewrite Hh. simpl. rewrite Hhn. simpl. rewrite Hnx.
      simpl. rewrite Hn. simpl. rewrite Hc. simpl. rewrite Hsp'.
      rewrite cas_weak_success. simpl. rewrite Hv. simpl.
      unfold store_data. simpl. rewrite Hn. simpl. reflexivity. }
    eexists _, (mkNode None (next nn)). split; [exact Heq|]. split_and!.
    - split; simpl.
      + eapply (repr_advance _ _ _ _ _ _ _ _ _ _ (mkNode None (next nn)));
          [exact Hrepr|exact Hc|reflexivity|apply lookup_insert_eq|].
        intros l _ Hl. by rewrite lookup_insert_ne.
      + rewrite map_size_insert_Some by done. rewrite Hns. simpl. lia.
      + rewrite map_size_delete_Some by done. rewrite Hcs. simpl. lia.
    - unfold head_node. simpl. apply lookup_insert_eq.
    - done. }
  destruct sp as [|[|] sp].
  - by apply Hdone.
  - destruct (IH sp) as (q' & hn' & Hq' & Hacc' & Hhd); [simpl in Hfuel; lia|exact Hacc|].
    exists q', hn'. split; [|done].
    simpl. rewrite Hh. simpl. rewrite Hhn. simpl. rewrite Hnx.
    simpl. rewrite Hn. simpl. rewrite Hc. simpl.
    simpl in Hq'. rewrite <-Hq', <-Hh. by destruct q.
  - by apply Hdone.
Qed.

Lemma served_cons (r : ret T) rs :
  served (r :: rs) = (if is_served r then 1 else 0) + served rs.
Proof. unfold served. simpl. by destruct (is_served r). Qed.

Lemma enqueued_cons (o : op T) ops :
  enqueued (o :: ops) = (if is_enqueue o then 1 else 0) + enqueued ops.
Proof. unfold enqueued. simpl. by destruct (is_enqueue o). Qed.

Lemma enqueued_le (ops : list (op T)) : enqueued ops ≤ length ops.
Proof.
  induction ops as [|o ops IH]; [done|]. rewrite enqueued_cons. simpl.
  destruct (is_enqueue o); lia.
Qed.

(** Elements are neither lost nor made up. *)
Lemma fifo_run_count (ops : list (op T)) : ∀ l,
  length (fifo_run l ops).2 + served (fifo_run l ops).1 = length l + enqueued ops.
Proof.
  induction ops as [|o ops IH]; intros l; simpl.
  - unfold served, enqueued. simpl. lia.
  - specialize (IH (fifo_step l o).2). rewrite enqueued_cons.
    destruct (fifo_step l o) as [r l1] eqn:Hstep. simpl in IH.
    destruct (fifo_run l1 ops) as [rs l2]. simpl in *. rewrite served_cons.
    destruct o as [v|sp| |]; simpl in Hstep; injection Hstep as <- <-; simpl.
    + rewrite length_app in IH. simpl in IH. lia.
    + destruct l as [|w l]; simpl in *; lia.
    + lia.
    + lia.
Qed.

Lemma step_store_inv fuel q l d o :
  store_inv q l d → length l < fuel →
  ∃ q', step_store fuel q o = Ok ((fifo_step l o).1, q') ∧
        store_inv q' (fifo_step l o).2
          ((if is_served (fifo_step l o).1 then 1 else 0) + d).
Proof.
  intros [Hacc (hn & Hhn & Hdata)] Hfuel. destruct o as [v|sp| |]; simpl.
  - destruct (enqueue_accounted _ _ _ v Hacc) as (q' & -> & Hacc' & _ & Hhead).
    destruct (Hhead _ Hhn) as (hn' & Hhn' & Heq).
    exists q'. split; [done|]. split; [done|]. exists hn'. by rewrite Heq.
  - destruct l as [|w l].
    + rewrite (dequeue_empty q (acc_wf _ _ _ Hacc)). exists q. simpl.
      split; [done|]. split; [done|]. by exists hn.
    + destruct (dequeue_store_accounted _ _ _ Hacc) as (q' & hn' & -> & Hacc' & Hhn' & Hsome).
      exists q'. simpl. split; [done|]. split; [done|]. exists hn'. split; [done|].
      split; [|lia]. intros Hnone. rewrite Hnone in Hsome. by destruct Hsome.
  - rewrite (empty_spec _ _ (acc_wf _ _ _ Hacc)). exists q. simpl.
    split; [done|]. split; [done|]. by exists hn.
  - rewrite (approximate_size_spec _ _ _ (acc_wf _ _ _ Hacc) Hfuel). exists q. simpl.
    split; [done|]. split; [done|]. by exists hn.
Qed.

Lemma step_cas_inv fuel q l d o :
  cas_inv q l d → length l < fuel →
  match o with Dequeue sp => length sp < fuel | _ => True end →
  ∃ q', step_cas fuel q o = Ok ((fifo_step l o).1, q') ∧
        cas_inv q' (fifo_step l o).2
          ((if is_served (fifo_step l o).1 then 1 else 0) + d).
Proof.
  intros [Hacc (hn & Hhn & Hdata)] Hfuel Hsp. destruct o as [v|sp| |]; simpl.
  - destruct (enqueue_accounted _ _ _ v Hacc) as (q' & -> & Hacc' & _ & Hhead).
    destruct (Hhead _ Hhn) as (hn' & Hhn' & Heq).
    exists q'. split; [done|]. split; [done|]. exists hn'. by rewrite Heq.
  - destruct l as [|w l].
    + destruct (dequeue_cas_spec _ _ _ _ Hsp (acc_wf _ _ _ Hacc)) as (q' & Hq' & _).
      assert (q' = q) as ->.
      { destruct (wf_nil_inv _ (acc_wf _ _ _ Hacc)) as (h & hn0 & Hh & Hhn0 & Hnx).
        destruct fuel as [|fuel]; [lia|]. simpl in Hq'.
        rewrite Hh in Hq'. simpl in Hq'. rewrite Hhn0 in Hq'. simpl in Hq'.
        rewrite Hnx in Hq'. by injection Hq'. }
      rewrite Hq'. exists q. simpl. split; [done|]. split; [done|]. by exists hn.
    + destruct (dequeue_cas_accounted _ _ _ _ _ _ Hsp Hacc)
        as (q' & hn' & -> & Hacc' & Hhn' & Hnone).
      exists q'. simpl. split; [done|]. split; [done|]. by exists hn'.
  - rewrite (empty_spec _ _ (acc_wf _ _ _ Hacc)). exists q. simpl.
    split; [done|]. split; [done|]. by exists hn.
  - rewrite (approximate_size_spec _ _ _ (acc_wf _ _ _ Hacc) Hfuel). exists q. simpl.
    split; [done|]. split; [done|]. by exists hn.
Qed.

(** A run keeps an invariant [I] of the queue, its content and the number
    of dequeues that returned an element. *)
Lemma run_counting step (I : LockFreeQueue T → list T → nat → Prop)
    (P : op T → Prop) fuel :
  (∀ q l d o, I q l d → length l < fuel → P o →
     ∃ q', step q o = Ok ((fifo_step l o).1, q') ∧
           I q' (fifo_step l o).2 ((if is_served (fifo_step l o).1 then 1 else 0) + d)) →
  ∀ ops q l d,
    I q l d → length l + length ops < fuel → Forall P ops →
    ∃ q', run step q ops = Ok ((fifo_run l ops).1, q') ∧
          I q' (fifo_run l ops).2 (served (fifo_run l ops).1 + d).
Proof.
  intros Hstep. induction ops as [|o ops IH]; intros q l d HI Hfuel HP.
  - exists q. by split.
  - apply Forall_cons in HP as [Ho HP]. simpl in Hfuel.
    destruct (Hstep q l d o HI) as (q1 & Hq1 & HI1); [lia|done|].
    pose proof (fifo_step_length l o) as Hlen.
    destruct (IH q1 _ _ HI1) as (q2 & Hq2 & HI2); [lia|done|].
    exists q2. simpl. rewrite Hq1. simpl. rewrite Hq2. simpl.
    destruct (fifo_step l o) as [r l1]. simpl in *.
    destruct (fifo_run l1 ops) as [rs l2]. simpl in *. split; [done|].
    rewrite served_cons. by replace (_ + served rs + d) with
      (served rs + ((if is_served r then 1 else 0) + d)) by lia.
Qed.

Lemma new_queue_accounted : accounted (new_queue (T := T)) [] 0.
Proof.
  split; [apply new_queue_wf| |done].
  simpl. rewrite map_size_insert_None by apply lookup_empty.
  by rewrite map_size_empty.
Qed.

Lemma new_queue_head :
  ∃ hn, head_node (new_queue (T := T)) = Some hn ∧ data hn = None.
Proof.
  exists (mkNode None None). split; [|done].
  unfold head_node. simpl. apply lookup_insert_eq.
Qed.

Lemma run_store_inv fuel ops :
  length ops < fuel →
  ∃ q, run (step_store fuel) new_queue ops = Ok ((fifo_run [] ops).1, q) ∧
       store_inv q (fifo_run [] ops).2 (served (fifo_run [] ops).1).
Proof.
  intros Hfuel.
  destruct (run_counting (step_store fuel) store_inv (λ _, True) fuel) with
    (ops := ops) (q := new_queue (T := T)) (l := @nil T) (d := 0) as (q' & Hq' & HI).
  - intros q l d o HI Hl _. by apply step_store_inv.
  - split; [apply new_queue_accounted|].
    destruct new_queue_head as (hn & Hhn & Hd). exists hn. by split.
  - simpl. lia.
  - by apply Forall_true.
  - exists q'. by rewrite Nat.add_0_r in HI.
Qed.

Lemma run_cas_inv fuel ops :
  fuel_covers fuel ops →
  ∃ q, run (step_cas fuel) new_queue ops = Ok ((fifo_run [] ops).1, q) ∧
       cas_inv q (fifo_run [] ops).2 (served (fifo_run [] ops).1).
Proof.
  intros [Hfuel Hsp].
  destruct (run_counting (step_cas fuel) cas_inv
    (λ o, match o with Dequeue sp => length sp < fuel | _ => True end) fuel) with
    (ops := ops) (q := new_queue (T := T)) (l := @nil T) (d := 0) as (q' & Hq' & HI).
  - intros q l d o HI Hl Ho. by apply step_cas_inv.
  - split; [apply new_queue_accounted|apply new_queue_head].
  - simpl. lia.
  - exact Hsp.
  - exists q'. by rewrite Nat.add_0_r in HI.
Qed.

(** *** The destructor *)

(** Past the dummy node: every node has a live cell of its own. *)
Lemma destroy_loop_spec es : ∀ fuel (ns : gmap loc Node) (cs : gmap loc T) p,
  linked next p es → held ns es → NoDup es.*1 →
  NoDup ((λ e, data e.2) <$> es) →
  Forall (λ e, ∃ c, data e.2 = Some c ∧ is_Some (cs !! c)) es →
  length es ≤ fuel →
  ∃ ns' cs', destroy_loop fuel ns cs p = Ok (ns', cs') ∧
             base.size ns' + length es = base.size ns ∧
             base.size cs' + length es = base.size cs.
Proof.
  induction es as [|[l nd] es IH]; intros fuel ns cs p Hlk Hheld Hnd Hdd Hlive Hfuel.
  - simpl in Hlk. subst p. exists ns, cs. destruct fuel; simpl; split_and!; done || lia.
  - destruct Hlk as [-> Hlk]. destruct fuel as [|fuel]; [simpl in Hfuel; lia|].
    apply held_cons in Hheld as [Hl Hheld]. simpl in Hl.
    apply NoDup_cons in Hnd as [Hlne Hnd]. simpl in Hdd.
    apply NoDup_cons in Hdd as [Hdne Hdd].
    apply Forall_cons in Hlive as [(c & Hc & Hcs) Hlive]. simpl in Hc.
    destruct (IH fuel (delete l ns) (delete c cs) (next nd)) as (ns' & cs' & Hrun & Hn & Hcl).
    + done.
    + by apply held_delete.
    + done.
    + done.
    + apply Forall_forall. intros e He.
      rewrite Forall_forall in Hlive. destruct (Hlive e He) as (c' & Hc' & Hcs').
      exists c'. split; [done|]. rewrite lookup_delete_ne; [done|].
      intros ->. apply Hdne. rewrite Hc. apply list_elem_of_fmap. by exists e.
    + simpl in Hfuel. lia.
    + exists ns', cs'. split_and!.
      * simpl. rewrite Hl. simpl. rewrite Hc. simpl.
        destruct Hcs as [w Hw]. rewrite Hw. simpl. exact Hrun.
      * rewrite map_size_delete_Some in Hn by done. simpl.
        assert (base.size ns ≠ 0); [|lia].
        intros Hz%map_size_empty_inv. by rewrite Hz, lookup_empty in Hl.
      * rewrite map_size_delete_Some in Hcl by done. simpl.
        assert (base.size cs ≠ 0); [|lia].
        intros Hz%map_size_empty_inv. destruct Hcs as [w Hw].
        by rewrite Hz, lookup_empty in Hw.
Qed.

(** A node whose [data] points to no live cell makes the loop delete a
    deleted object. *)
Lemma destroy_loop_dead es : ∀ fuel (ns : gmap loc Node) (cs : gmap loc T) p,
  linked next p es → held ns es → NoDup es.*1 → length es ≤ fuel →
  (∃ e c, e ∈ es ∧ data e.2 = Some c ∧ cs !! c = None) →
  destroy_loop fuel ns cs p = UB.
Proof.
  induction es as [|[l nd] es IH]; intros fuel ns cs p Hlk Hheld Hnd Hfuel Hbad.
  - destruct Hbad as (e & c & []%elem_of_nil & _).
  - destruct Hlk as [-> Hlk]. destruct fuel as [|fuel]; [simpl in Hfuel; lia|].
    apply held_cons in Hheld as [Hl Hheld]. simpl in Hl.
    apply NoDup_cons in Hnd as [Hlne Hnd].
    simpl. rewrite Hl. simpl.
    destruct (delete_cell cs (data nd)) as [cs1| |] eqn:Hdel; simpl; [|done|].
    + apply IH; [done|by apply held_delete|done|simpl in Hfuel; lia|].
      destruct Hbad as (e & c & [->|He]%elem_of_cons & Hc & Hdead).
      * simpl in Hc. rewrite Hc in Hdel. simpl in Hdel. by rewrite Hdead in Hdel.
      * exists e, c. split_and!; [done|done|].
        unfold delete_cell in Hdel. destruct (data nd) as [c'|].
        -- destruct (cs !! c'); [|done]. injection Hdel as <-.
           destruct (decide (c = c')) as [->|Hne];
             [apply lookup_delete_eq|by rewrite lookup_delete_ne].
        -- by injection Hdel as <-.
    + unfold delete_cell in Hdel. destruct (data nd) as [c'|]; [|done].
      by destruct (cs !! c').
Qed.

(** What [wf] gives the destructor: the dummy node and the chain behind
    it. *)
Lemma wf_chain_inv q vs :
  wf q vs →
  ∃ h hn rest,
    head_ q = Some h ∧ nodes q !! h = Some hn ∧
    linked next (next hn) rest ∧ held (delete h (nodes q)) rest ∧
    NoDup rest.*1 ∧ NoDup ((λ e, data e.2) <$> rest) ∧
    Forall (λ e, ∃ c, data e.2 = Some c ∧ is_Some (cells q !! c)) rest ∧
    length rest = length vs.
Proof.
  intros (es & Hne & [[Hlk Hheld] _ Hnd Hpay Hcells]).
  destruct es as [|[h hn] rest]; [done|]. destruct Hlk as [Hh Hlk].
  apply held_cons in Hheld as [Hhn Hheld]. simpl in Hnd.
  apply NoDup_cons in Hnd as [Hhne Hnd]. unfold datas in Hpay, Hcells.
  simpl in Hpay, Hcells, Hhn.
  exists h, hn, rest. split_and!; try done.
  - by apply held_delete.
  - apply Forall_forall. intros e He.
    assert (Hin : data e.2 ∈ (λ e, data e.2) <$> rest).
    { apply list_elem_of_fmap. by exists e. }
    apply list_elem_of_lookup in Hin as [i Hi].
    destruct (Forall2_lookup_l _ _ _ _ _ Hpay Hi) as (w & _ & (c & Hc & Hw)).
    exists c. by rewrite Hw.
  - apply Forall2_length in Hpay. by rewrite length_fmap in Hpay.
Qed.

Lemma destroy_clean fuel q vs g :
  accounted q vs g →
  (∃ hn, head_node q = Some hn ∧ data hn = None) →
  length vs < fuel →
  ∃ ns, destroy fuel q = Ok (ns, ∅) ∧ base.size ns = g.
Proof.
  intros [Hwf Hns Hcs] (hn0 & Hhn0 & Hdata) Hfuel.
  destruct (wf_chain_inv _ _ Hwf)
    as (h & hn & rest & Hh & Hhn & Hlk & Hheld & Hnd & Hdd & Hlive & Hlen).
  unfold head_node in Hhn0. rewrite Hh, Hhn in Hhn0. injection Hhn0 as <-.
  destruct fuel as [|fuel]; [lia|].
  destruct (destroy_loop_spec rest fuel (delete h (nodes q)) (cells q) (next hn))
    as (ns' & cs' & Hrun & Hn & Hc); [done|done|done|done|done|lia|].
  rewrite map_size_delete_Some in Hn by done.
  assert (cs' = ∅) as ->.
  { apply map_size_empty_inv. lia. }
  exists ns'. split; [|lia].
  unfold destroy. rewrite Hh. simpl. rewrite Hhn. simpl. rewrite Hdata. simpl.
  exact Hrun.
Qed.

Lemma destroy_dangling fuel q vs :
  accounted q vs 0 →
  (∃ hn, head_node q = Some hn ∧ is_Some (data hn)) →
  length vs < fuel →
  destroy fuel q = UB.
Proof.
  intros [Hwf Hns Hcs] (hn0 & Hhn0 & [c Hdata]) Hfuel.
  destruct (wf_chain_inv _ _ Hwf)
    as (h & hn & rest & Hh & Hhn & Hlk & Hheld & Hnd & Hdd & Hlive & Hlen).
  unfold head_node in Hhn0. rewrite Hh, Hhn in Hhn0. injection Hhn0 as <-.
  destruct fuel as [|fuel]; [lia|].
  unfold destroy. rewrite Hh. simpl. rewrite Hhn. simpl. rewrite Hdata. simpl.
  destruct (cells q !! c) as [w|] eqn:Hc; [|done]. simpl.
  apply (destroy_loop_dead rest); [done|done|done|lia|].
  destruct (decide (Some c ∈ (λ e, data e.2) <$> rest)) as [Hin|Hout].
  - apply list_elem_of_fmap in Hin as (e & He & Hin).
    exists e, c. split_and!; [done|done|apply lookup_delete_eq].
  - exfalso.
    destruct (destroy_loop_spec rest fuel (delete h (nodes q)) (delete c (cells q))
                (next hn)) as (ns' & cs' & _ & _ & Hsz); [done|done|done|done| |lia|].
    + apply Forall_forall. intros e He.
      rewrite Forall_forall in Hlive. destruct (Hlive e He) as (c' & Hc' & Hcs').
      exists c'. split; [done|]. rewrite lookup_delete_ne; [done|].
      intros ->. apply Hout. rewrite <-Hc'. apply list_elem_of_fmap. by exists e.
    + rewrite map_size_delete_Some in Hsz by done.
      assert (base.size (cells q) ≠ 0); [|lia].
      intros Hz%map_size_empty_inv. by rewrite Hz, lookup_empty in Hc.
Qed.

End QueueHeapFacts.
End QueueHeapFacts.

(** ** Several threads on the queue *)

Module QueueThreadsFacts.
Import Queue QueueFacts QueueHeapFacts QueueThreads.
Section QueueThreadsFacts.
Context {T : Type}.
Implicit Types (q : LockFreeQueue T) (ts : list (queue_pc T)) (g : ghost T)
  (calls : list (call T)) (pc : queue_pc T).

Lemma queue_eta q :
  {| nodes := nodes q; cells := cells q; head_ := head_ q; tail_ := tail_ q |} = q.
Proof. by destruct q. Qed.

(** A step that changes no shared object. *)
Lemma Race_local calls vs0 ts q g t pc pc' :
  Race calls vs0 ts q g → ts !! t = Some pc →
  (∀ h n, pc ≠ QLink h n) →
  (enqueuing pc' ↔ enqueuing pc) →
  (owning pc → owning pc') →
  thread_ok calls g q t pc' →
  Race calls vs0 (<[t := pc']> ts) q g.
Proof.
  intros [] Ht Hlink Hkind Hown Hok. split; try done.
  - intros i l Hi. destruct (race_nodes0 i l Hi) as (nd & Hnd & Hnx).
    exists nd. split; [done|]. destruct Hnx as [Hnx|[Hnx (t' & l' & Ht')]]; [by left|].
    right. split; [done|]. exists t', l'.
    rewrite list_lookup_insert_ne; [done|]. intros ->. rewrite Ht in Ht'.
    injection Ht' as ->. by eapply Hlink.
  - intros j t' Hj. destruct (race_owning0 j t' Hj) as (pc0 & Hpc0 & Hown0).
    destruct (decide (t' = t)) as [->|Hne].
    + exists pc'. rewrite list_lookup_insert_eq by (by eapply lookup_lt_Some).
      split; [done|]. apply Hown. rewrite Ht in Hpc0. by injection Hpc0 as ->.
    + exists pc0. by rewrite list_lookup_insert_ne.
  - intros t' pc0 Hpc0. destruct (decide (t' = t)) as [->|Hne].
    + rewrite list_lookup_insert_eq in Hpc0 by (by eapply lookup_lt_Some).
      injection Hpc0 as <-. specialize (race_kind0 t pc Ht).
      unfold kind_ok in *. destruct (calls !! t) as [[]|]; tauto.
    + rewrite list_lookup_insert_ne in Hpc0 by done. by apply race_kind0.
  - intros t' pc0 Hpc0. destruct (decide (t' = t)) as [->|Hne].
    + rewrite list_lookup_insert_eq in Hpc0 by (by eapply lookup_lt_Some).
      by injection Hpc0 as <-.
    + rewrite list_lookup_insert_ne in Hpc0 by done. by apply race_threads0.
  - by rewrite length_insert.
Qed.


Lemma lookup_insert_thread ts t pc' t' pc0 :
  <[t := pc']> ts !! t' = Some pc0 →
  (t' = t ∧ pc0 = pc') ∨ (t' ≠ t ∧ ts !! t' = Some pc0).
Proof.
  intros H. destruct (decide (t' = t)) as [->|Hne].
  - left. split; [done|].
    apply list_lookup_insert_Some in H as [(_ & -> & _)|[? _]]; done.
  - right. by rewrite list_lookup_insert_ne in H.
Qed.

Lemma queue_step_allocate sp v q :
  queue_step sp (QAllocate v) q =
    Ok (QExchange (fresh (dom (nodes q))),
        {| nodes := <[fresh (dom (nodes q)) :=
                        mkNode (Some (fresh (dom (cells q)))) None]> (nodes q);
           cells := <[fresh (dom (cells q)) := v]> (cells q);
           head_ := head_ q; tail_ := tail_ q |}).
Proof.
  unfold queue_step, allocate_node, store_data, store_next.
  cbn [deref]. rewrite lookup_insert_eq. cbn [mbind result_bind].
  rewrite lookup_insert_eq. cbn [mbind result_bind data next].
  by rewrite !insert_insert_eq.
Qed.

(** The nodes of [ls] are in the heap. *)
Lemma Race_node calls vs0 ts q g i l :
  Race calls vs0 ts q g → g_ls g !! i = Some l → is_Some (nodes q !! l).
Proof. intros HR Hi. destruct (race_nodes _ _ _ _ _ HR i l Hi) as (nd & -> & _). eauto. Qed.

Lemma Race_allocate calls vs0 ts q g t v :
  Race calls vs0 ts q g → ts !! t = Some (QAllocate v) →
  Race calls vs0 (<[t := QExchange (fresh (dom (nodes q)))]> ts)
    {| nodes := <[fresh (dom (nodes q)) :=
                    mkNode (Some (fresh (dom (cells q)))) None]> (nodes q);
       cells := <[fresh (dom (cells q)) := v]> (cells q);
       head_ := head_ q; tail_ := tail_ q |}
    (mkGhost (g_ls g) (g_k g) (g_vs g) (g_owner g) (g_sent g)
       (<[fresh (dom (cells q)) := inl t]> (g_co g))).
Proof.
  intros HR Ht. pose proof HR as [].
  pose proof (fresh_None (nodes q)) as Hnew.
  pose proof (fresh_None (cells q)) as Hc.
  set (new := fresh (dom (nodes q))) in *.
  set (c := fresh (dom (cells q))) in *.
  assert (Hco : g_co g !! c = None).
  { destruct (g_co g !! c) as [o|] eqn:Ho; [|done].
    destruct (race_live0 c o Ho) as [x Hx]. congruence. }
  assert (Hls : ∀ i l, g_ls g !! i = Some l → l ≠ new).
  { intros i l Hi ->. destruct (Race_node _ _ _ _ _ _ _ HR Hi). congruence. }
  pose proof (race_threads0 t _ Ht) as [Hcall Hsent]. simpl in Hcall, Hsent.
  split; simpl; try done.
  - intros i l Hi. destruct (race_nodes0 i l Hi) as (nd & Hnd & Hnx).
    exists nd. split; [rewrite lookup_insert_ne; [done|]; by eapply not_eq_sym, Hls|].
    destruct Hnx as [Hnx|[Hnx (t' & l' & Ht')]]; [by left|].
    right. split; [done|]. exists t', l'.
    rewrite list_lookup_insert_ne; [done|]. intros ->. congruence.
  - intros j l Hj Hl. destruct (race_data0 j l Hj Hl) as (nd & c' & w & Hnd & Hd & Hco' & Hc' & Hw).
    exists nd, c', w. split_and!; try done.
    + rewrite lookup_insert_ne; [done|]. by eapply not_eq_sym, Hls.
    + rewrite lookup_insert_ne; [done|]. congruence.
    + rewrite lookup_insert_ne; [done|]. congruence.
  - intros c' o [[-> _]|[Hne Ho]]%lookup_insert_Some.
    + rewrite lookup_insert_eq. eauto.
    + rewrite lookup_insert_ne by done. by eapply race_live0.
  - intros j t' Hj. destruct (race_owning0 j t' Hj) as (pc0 & Hpc0 & Hown0).
    exists pc0. split; [|done]. rewrite list_lookup_insert_ne; [done|].
    intros ->. rewrite Ht in Hpc0. by injection Hpc0 as <-.
  - intros t' pc0 [[-> ->]|[Hne Hpc0]]%lookup_insert_thread.
    + unfold kind_ok. by rewrite Hcall.
    + by apply race_kind0.
  - intros t' pc0 [[-> ->]|[Hne Hpc0]]%lookup_insert_thread.
    + simpl. exists v, c. split_and!; try done.
      * apply lookup_insert_eq.
      * intros [i Hi]%list_elem_of_lookup. by eapply Hls.
      * apply lookup_insert_eq.
      * apply lookup_insert_eq.
    + specialize (race_threads0 t' pc0 Hpc0).
      assert (Hcell : ∀ c' o, g_co g !! c' = Some o → c' ≠ c) by (intros ? ? ? ->; congruence).
      destruct pc0 as [| | | | | | |h n d|n d|n d r| |[r|]]; simpl in *; try done.
      * destruct race_threads0 as (v' & c' & ? & ? & Hn' & ? & Hc'' & ?).
        exists v', c'. split_and!; try done.
        -- rewrite lookup_insert_ne; [done|]. congruence.
        -- rewrite lookup_insert_ne; [done|]. by eapply not_eq_sym, Hcell.
        -- rewrite lookup_insert_ne; [done|]. by eapply not_eq_sym, Hcell.
      * destruct race_threads0 as (? & i & l & l' & ? & ? & ? & ? & Hl' & Hd).
        split; [done|]. exists i, l, l'. split_and!; try done.
        intros Hi. destruct (Hd Hi) as (nd & Hnd & Hdn). exists nd.
        split; [|done]. rewrite lookup_insert_ne; [done|]. by eapply not_eq_sym, Hls.
      * destruct race_threads0 as (j & l & c' & w & ? & ? & ? & ? & Hc'' & ? & ?).
        exists j, l, c', w. split_and!; try done.
        -- rewrite lookup_insert_ne; [done|]. by eapply not_eq_sym, Hcell.
        -- rewrite lookup_insert_ne; [done|]. by eapply not_eq_sym, Hcell.
      * destruct race_threads0 as (j & l & c' & ? & ? & ? & ? & Hc'' & ? & ?).
        exists j, l, c'. split_and!; try done.
        -- rewrite lookup_insert_ne; [done|]. by eapply not_eq_sym, Hcell.
        -- rewrite lookup_insert_ne; [done|]. by eapply not_eq_sym, Hcell.
  - by rewrite length_insert.
Qed.


Lemma Race_exchange calls vs0 ts q g t new :
  Race calls vs0 ts q g → ts !! t = Some (QExchange new) →
  ∃ g', Race calls vs0 (<[t := QLink (tail_ q) new]> ts)
    {| nodes := nodes q; cells := cells q; head_ := head_ q; tail_ := Some new |} g'.
Proof.
  intros HR Ht. pose proof HR as [].
  pose proof (race_threads0 t _ Ht) as (v & c & Hcall & Hsent & Hnew & Hfresh & Hco & Hc).
  simpl in Hcall, Hsent, Hnew, Hfresh, Hco, Hc.
  destruct race_head0 as (hl & Hhead & Hk).
  destruct race_sent0 as (Hnds & order & Hvs & Hlen & Hsentv).
  destruct (last (g_ls g)) as [ll|] eqn:Hlast; cycle 1.
  { apply last_None in Hlast. by rewrite Hlast in Hk. }
  apply last_Some in Hlast as [pre Hpre].
  assert (Hlp : length pre = length (g_vs g)).
  { rewrite Hpre, length_app in race_length0. simpl in race_length0. lia. }
  exists (mkGhost (g_ls g ++ [new]) (g_k g) (g_vs g ++ [v]) (g_owner g)
            (g_sent g ++ [t]) (<[c := inr (length (g_vs g))]> (g_co g))).
  assert (Hcell : ∀ c' j, g_co g !! c' = Some (inr j) → c' ≠ c).
  { intros ? ? ? ->. congruence. }
  split; simpl.
  - apply NoDup_app. split; [done|]. split; [|apply NoDup_singleton].
    intros x Hx ->%list_elem_of_singleton. done.
  - rewrite !length_app. simpl. lia.
  - exists hl. split; [done|]. by apply lookup_app_l_Some.
  - by rewrite last_snoc.
  - intros i l Hi. apply lookup_app_Some in Hi as [Hi|[Hge Hi]].
    + destruct (race_nodes0 i l Hi) as (nd & Hnd & Hnx). exists nd. split; [done|].
      destruct Hnx as [Hnx|[Hnx (t' & l' & Ht')]].
      * destruct (decide (S i < length (g_ls g))) as [Hlt|Hnlt].
        -- left. by rewrite lookup_app_l.
        -- right. rewrite lookup_ge_None_2 in Hnx by lia. split; [done|].
           exists t, new. rewrite list_lookup_insert_eq by (by eapply lookup_lt_Some).
           do 2 f_equal. apply lookup_lt_Some in Hi as Hlt.
           rewrite Hpre in Hi, Hlt, Hnlt. rewrite length_app in Hlt, Hnlt.
           simpl in Hlt, Hnlt. assert (i = length pre) as -> by lia.
           rewrite list_lookup_middle in Hi by done. by injection Hi as ->.
      * right. split; [done|]. exists t', l'.
        rewrite list_lookup_insert_ne; [done|]. intros ->. congruence.
    + apply list_lookup_singleton_Some in Hi as [Hi <-].
      exists (mkNode (Some c) None). split; [done|]. left. simpl.
      symmetry. apply lookup_ge_None_2. rewrite length_app. simpl. lia.
  - intros j l Hj Hl. apply lookup_app_Some in Hl as [Hl|[Hge Hl]].
    + destruct (race_data0 j l Hj Hl) as (nd & c' & w & Hnd & Hd & Hco' & Hc' & Hw).
      exists nd, c', w. split_and!; try done.
      * rewrite lookup_insert_ne; [done|]. by eapply not_eq_sym, Hcell.
      * by apply lookup_app_l_Some.
    + apply list_lookup_singleton_Some in Hl as [Hl <-].
      assert (j = length (g_vs g)) as -> by lia.
      exists (mkNode (Some c) None), c, v. split_and!; try done.
      * apply lookup_insert_eq.
      * by rewrite list_lookup_middle.
  - intros c' o [[-> _]|[Hne Ho]]%lookup_insert_Some; [by eauto|by eapply race_live0].
  - done.
  - intros j t' Hj. destruct (race_owning0 j t' Hj) as (pc0 & Hpc0 & Hown0).
    exists pc0. split; [|done]. rewrite list_lookup_insert_ne; [done|].
    intros ->. rewrite Ht in Hpc0. by injection Hpc0 as <-.
  - split.
    + apply NoDup_app. split; [done|]. split; [|apply NoDup_singleton].
      intros x Hx ->%list_elem_of_singleton. done.
    + exists (order ++ [v]). split_and!.
      * by rewrite Hvs, app_assoc.
      * rewrite !length_app. simpl. lia.
      * intros j t' Hj. apply lookup_app_Some in Hj as [Hj|[Hge Hj]].
        -- destruct (Hsentv j t' Hj) as (w & ? & ?). exists w. split; [done|].
           by apply lookup_app_l_Some.
        -- apply list_lookup_singleton_Some in Hj as [Hj <-]. exists v. split; [done|].
           assert (j = length order) as -> by lia. by rewrite list_lookup_middle.
  - intros t' pc0 [[-> ->]|[Hne Hpc0]]%lookup_insert_thread.
    + unfold kind_ok. by rewrite Hcall.
    + by apply race_kind0.
  - intros t' pc0 [[-> ->]|[Hne Hpc0]]%lookup_insert_thread.
    + simpl. split; [apply elem_of_app; right; by left|].
      exists (length pre), ll. split_and!.
      * exact race_tail0.
      * rewrite Hpre, <-app_assoc. simpl. by rewrite list_lookup_middle.
      * rewrite lookup_app_r by (rewrite Hpre, length_app; simpl; lia).
        rewrite Hpre, length_app. simpl.
        by replace (S (length pre) - (length pre + 1)) with 0 by lia.
    + specialize (race_threads0 t' pc0 Hpc0).
      assert (Hcelll : ∀ c' t'', t'' ≠ t → g_co g !! c' = Some (inl t'') → c' ≠ c).
      { intros ? ? ? ? ->. congruence. }
      destruct pc0 as [w|new'|p n|b| |h|h n|h n d|n d|n d r|n r|[r|]]; simpl in *.
      * destruct race_threads0 as [? Hns]. split; [done|].
        intros [?|?%list_elem_of_singleton]%elem_of_app; done.
      * destruct race_threads0 as (v' & c' & ? & Hns & Hn' & Hnl & Hc'' & ?).
        exists v', c'. split_and!; try done.
        -- intros [?|?%list_elem_of_singleton]%elem_of_app; done.
        -- intros [?|Heq%list_elem_of_singleton]%elem_of_app; [done|]. subst new'.
           rewrite Hnew in Hn'. injection Hn' as ->. congruence.
        -- rewrite lookup_insert_ne; [done|]. by eapply not_eq_sym, Hcelll.
      * destruct race_threads0 as (Hs & i & l & ? & ? & ?).
        split; [apply elem_of_app; by left|]. exists i, l.
        split_and!; [done|by apply lookup_app_l_Some|by apply lookup_app_l_Some].
      * destruct race_threads0 as [? ?]. split; [done|]. apply elem_of_app. by left.
      * done.
      * destruct race_threads0 as (? & i & l & ? & ? & ?). split; [done|].
        exists i, l. split_and!; [done|done|by apply lookup_app_l_Some].
      * destruct race_threads0 as (? & i & l & l' & ? & ? & ? & ? & ?). split; [done|].
        exists i, l, l'. split_and!; try done; by apply lookup_app_l_Some.
      * destruct race_threads0 as (? & i & l & l' & ? & ? & ? & ? & ? & ?). split; [done|].
        exists i, l, l'. split_and!; try done; by apply lookup_app_l_Some.
      * destruct race_threads0 as (j & l & c' & w & ? & ? & ? & ? & Hc'' & ? & ?).
        exists j, l, c', w. split_and!; try done; try (by apply lookup_app_l_Some).
        rewrite lookup_insert_ne; [done|]. by eapply not_eq_sym, Hcelll.
      * destruct race_threads0 as (j & l & c' & ? & ? & ? & ? & Hc'' & ? & ?).
        exists j, l, c'. split_and!; try done; try (by apply lookup_app_l_Some).
        rewrite lookup_insert_ne; [done|]. by eapply not_eq_sym, Hcelll.
      * destruct race_threads0 as (j & l & ? & ? & ? & ?).
        exists j, l. split_and!; try done; by apply lookup_app_l_Some.
      * destruct race_threads0 as (j & ? & ?).
        exists j. split_and!; try done; by apply lookup_app_l_Some.
      * done.
  - by rewrite length_insert.
Qed.


Lemma Race_link calls vs0 ts q g t prev new :
  Race calls vs0 ts q g → ts !! t = Some (QLink prev new) →
  ∃ ns, store_next (nodes q) prev (Some new) = Ok ns ∧
    Race calls vs0 (<[t := QEnqueued true]> ts)
      {| nodes := ns; cells := cells q; head_ := head_ q; tail_ := tail_ q |} g.
Proof.
  intros HR Ht. pose proof HR as [].
  pose proof (race_threads0 t _ Ht) as (Hsent & i & l & -> & Hi & HSi).
  simpl in Hsent, Hi, HSi.
  destruct (race_nodes0 i l Hi) as (nd & Hnd & Hnx).
  eexists. split.
  { unfold store_next. simpl. rewrite Hnd. simpl. reflexivity. }
  assert (Hother : ∀ i' l', g_ls g !! i' = Some l' → l' = l → i' = i).
  { intros i' l' Hi' ->. by eapply NoDup_lookup. }
  split; simpl; try done.
  - intros i' l' Hi'. destruct (decide (l' = l)) as [->|Hne].
    + rewrite lookup_insert_eq. eexists. split; [done|]. left. simpl.
      by rewrite (Hother i' l Hi' eq_refl).
    + rewrite lookup_insert_ne by done.
      destruct (race_nodes0 i' l' Hi') as (nd' & Hnd' & Hnx'). exists nd'. split; [done|].
      destruct Hnx' as [Hnx'|[Hnx' (t' & l'' & Ht')]]; [by left|].
      right. split; [done|]. exists t', l''.
      rewrite list_lookup_insert_ne; [done|]. intros ->. congruence.
  - intros j l' Hj Hl'.
    destruct (race_data0 j l' Hj Hl') as (nd' & c & v & Hnd' & Hd & Hco & Hc & Hv).
    destruct (decide (l' = l)) as [->|Hne].
    + rewrite lookup_insert_eq. eexists _, c, v. split_and!; try done.
      simpl. congruence.
    + rewrite lookup_insert_ne by done. by exists nd', c, v.
  - intros j t' Hj. destruct (race_owning0 j t' Hj) as (pc0 & Hpc0 & Hown0).
    exists pc0. split; [|done]. rewrite list_lookup_insert_ne; [done|].
    intros ->. rewrite Ht in Hpc0. by injection Hpc0 as <-.
  - intros t' pc0 [[-> ->]|[Hne Hpc0]]%lookup_insert_thread; [|by apply race_kind0].
    specialize (race_kind0 t _ Ht). unfold kind_ok in *. by destruct (calls !! t) as [[]|].
  - intros t' pc0 [[-> ->]|[Hne Hpc0]]%lookup_insert_thread; [done|].
    specialize (race_threads0 t' pc0 Hpc0).
    destruct pc0 as [w|new'|p n|b| |h|h n|h n d|n d|n d r|n r|[r|]]; simpl in *; try done.
    + destruct race_threads0 as (v' & c' & ? & ? & Hn' & Hnl & ? & ?).
      exists v', c'. split_and!; try done.
      rewrite lookup_insert_ne; [done|]. intros ->. apply Hnl.
      by eapply list_elem_of_lookup_2.
    + destruct race_threads0 as (? & i' & l1 & l2 & ? & ? & ? & ? & Hl2 & Hd).
      split; [done|]. exists i', l1, l2. split_and!; try done.
      intros Hik. destruct (Hd Hik) as (nd' & Hnd' & Hdn).
      destruct (decide (l2 = l)) as [->|Hne'].
      * rewrite lookup_insert_eq. eexists. split; [done|]. simpl. congruence.
      * rewrite lookup_insert_ne by done. by exists nd'.
  - by rewrite length_insert.
Qed.

Lemma Race_clear calls vs0 ts q g t n r :
  Race calls vs0 ts q g → ts !! t = Some (QClear n r) →
  ∃ ns, store_data (nodes q) n None = Ok ns ∧
    Race calls vs0 (<[t := QDequeued (Some r)]> ts)
      {| nodes := ns; cells := cells q; head_ := head_ q; tail_ := tail_ q |} g.
Proof.
  intros HR Ht. pose proof HR as [].
  pose proof (race_threads0 t _ Ht) as (j & l & Hj & -> & Hl & Hv).
  simpl in Hj, Hl, Hv.
  destruct (race_nodes0 (S j) l Hl) as (nd & Hnd & Hnx).
  destruct race_owner0 as [Hndo Hlo].
  assert (Hjk : j < g_k g).
  { rewrite <-Hlo. by eapply lookup_lt_Some. }
  eexists. split.
  { unfold store_data. simpl. rewrite Hnd. simpl. reflexivity. }
  assert (Hother : ∀ i' l', g_ls g !! i' = Some l' → l' = l → i' = S j).
  { intros i' l' Hi' ->. exact (NoDup_lookup _ _ _ _ race_nodup0 Hi' Hl). }
  split; simpl; try done.
  - intros i' l' Hi'. destruct (decide (l' = l)) as [->|Hne].
    + rewrite lookup_insert_eq. eexists. split; [done|]. simpl.
      rewrite (Hother i' l Hi' eq_refl).
      destruct Hnx as [Hnx|[Hnx (t' & l'' & Ht')]]; [by left|].
      right. split; [done|]. exists t', l''.
      rewrite list_lookup_insert_ne; [done|]. intros ->. congruence.
    + rewrite lookup_insert_ne by done.
      destruct (race_nodes0 i' l' Hi') as (nd' & Hnd' & Hnx'). exists nd'. split; [done|].
      destruct Hnx' as [Hnx'|[Hnx' (t' & l'' & Ht')]]; [by left|].
      right. split; [done|]. exists t', l''.
      rewrite list_lookup_insert_ne; [done|]. intros ->. congruence.
  - intros j' l' Hj' Hl'.
    destruct (race_data0 j' l' Hj' Hl') as (nd' & c & v & Hnd' & Hd & Hco & Hc & Hv').
    exists nd', c, v. split_and!; try done.
    rewrite lookup_insert_ne; [done|]. intros ->.
    pose proof (Hother _ _ Hl' eq_refl). lia.
  - intros j' t' Hj'. destruct (race_owning0 j' t' Hj') as (pc0 & Hpc0 & Hown0).
    destruct (decide (t' = t)) as [->|Hne].
    + exists (QDequeued (Some r)).
      by rewrite list_lookup_insert_eq by (by eapply lookup_lt_Some).
    + exists pc0. by rewrite list_lookup_insert_ne.
  - intros t' pc0 [[-> ->]|[Hne Hpc0]]%lookup_insert_thread; [|by apply race_kind0].
    specialize (race_kind0 t _ Ht). unfold kind_ok in *. by destruct (calls !! t) as [[]|].
  - intros t' pc0 [[-> ->]|[Hne Hpc0]]%lookup_insert_thread; [simpl; by exists j|].
    specialize (race_threads0 t' pc0 Hpc0).
    destruct pc0 as [w|new'|p n|b| |h|h n|h n d|n d|n d r'|n r'|[r'|]]; simpl in *; try done.
    + destruct race_threads0 as (v' & c' & ? & ? & Hn' & Hnl & ? & ?).
      exists v', c'. split_and!; try done.
      rewrite lookup_insert_ne; [done|]. intros ->. apply Hnl.
      by eapply list_elem_of_lookup_2.
    + destruct race_threads0 as (? & i' & l1 & l2 & ? & ? & ? & ? & Hl2 & Hd).
      split; [done|]. exists i', l1, l2. split_and!; try done.
      intros Hik. destruct (Hd Hik) as (nd' & Hnd' & Hdn). exists nd'. split; [|done].
      rewrite lookup_insert_ne; [done|]. intros ->.
      pose proof (Hother _ _ Hl2 eq_refl). lia.
  - by rewrite length_insert.
Qed.

Lemma Race_delete calls vs0 ts q g t n d r :
  Race calls vs0 ts q g → ts !! t = Some (QDelete n d r) →
  ∃ cs g', delete_cell (cells q) d = Ok cs ∧
    Race calls vs0 (<[t := QClear n r]> ts)
      {| nodes := nodes q; cells := cs; head_ := head_ q; tail_ := tail_ q |} g'.
Proof.
  intros HR Ht. pose proof HR as [].
  pose proof (race_threads0 t _ Ht) as (j & l & c & Hj & -> & Hl & -> & Hco & Hc & Hv).
  simpl in Hj, Hl, Hco, Hc, Hv.
  exists (delete c (cells q)),
    (mkGhost (g_ls g) (g_k g) (g_vs g) (g_owner g) (g_sent g) (delete c (g_co g))).
  split.
  { unfold delete_cell. by rewrite Hc. }
  assert (Hcell : ∀ c' o, o ≠ inl t → g_co g !! c' = Some o → c' ≠ c).
  { intros ? ? ? ? ->. congruence. }
  split; simpl; try done.
  - intros i' l' Hi'.
    destruct (race_nodes0 i' l' Hi') as (nd' & Hnd' & Hnx'). exists nd'. split; [done|].
    destruct Hnx' as [Hnx'|[Hnx' (t' & l'' & Ht')]]; [by left|].
    right. split; [done|]. exists t', l''.
    rewrite list_lookup_insert_ne; [done|]. intros ->. congruence.
  - intros j' l' Hj' Hl'.
    destruct (race_data0 j' l' Hj' Hl') as (nd' & c' & v & Hnd' & Hd & Hco' & Hc' & Hv').
    assert (c' ≠ c) by (eapply Hcell; [|exact Hco']; done).
    exists nd', c', v. split_and!; try done; by rewrite lookup_delete_ne.
  - intros c' o [Hne Ho]%lookup_delete_Some. rewrite lookup_delete_ne by done.
    by eapply race_live0.
  - intros j' t' Hj'. destruct (race_owning0 j' t' Hj') as (pc0 & Hpc0 & Hown0).
    destruct (decide (t' = t)) as [->|Hne].
    + exists (QClear (Some l) r).
      by rewrite list_lookup_insert_eq by (by eapply lookup_lt_Some).
    + exists pc0. by rewrite list_lookup_insert_ne.
  - intros t' pc0 [[-> ->]|[Hne Hpc0]]%lookup_insert_thread; [|by apply race_kind0].
    specialize (race_kind0 t _ Ht). unfold kind_ok in *. by destruct (calls !! t) as [[]|].
  - intros t' pc0 [[-> ->]|[Hne Hpc0]]%lookup_insert_thread; [simpl; by exists j, l|].
    specialize (race_threads0 t' pc0 Hpc0).
    assert (Hcell' : ∀ c', g_co g !! c' = Some (inl t') → c' ≠ c).
    { intros c' Hc'. eapply Hcell; [|exact Hc']. congruence. }
    destruct pc0 as [w|new'|p n|b| |h|h n|h n d|n d|n d r'|n r'|[r'|]]; simpl in *; try done.
    + destruct race_threads0 as (v' & c' & ? & ? & Hn' & Hnl & Hc' & ?).
      exists v', c'. pose proof (Hcell' _ Hc').
      split_and!; try done; by rewrite lookup_delete_ne.
    + destruct race_threads0 as (j' & l' & c' & w & ? & ? & ? & ? & Hc' & ? & ?).
      exists j', l', c', w. pose proof (Hcell' _ Hc').
      split_and!; try done; by rewrite lookup_delete_ne.
    + destruct race_threads0 as (j' & l' & c' & ? & ? & ? & ? & Hc' & ? & ?).
      exists j', l', c'. pose proof (Hcell' _ Hc').
      split_and!; try done; by rewrite lookup_delete_ne.
  - by rewrite length_insert.
Qed.

Lemma Race_take calls vs0 ts q g t h n d :
  Race calls vs0 ts q g → ts !! t = Some (QCas h n d) → head_ q = h →
  ∃ g', Race calls vs0 (<[t := QMove n d]> ts)
    {| nodes := nodes q; cells := cells q; head_ := n; tail_ := tail_ q |} g'.
Proof.
  intros HR Ht Hh. pose proof HR as [].
  pose proof (race_threads0 t _ Ht)
    as (Hown & i & l & l' & Hik & -> & Hi & -> & HSi & Hd).
  simpl in Hown, Hik, Hi, HSi, Hd.
  destruct race_head0 as (hl & Hhead & Hk).
  rewrite Hhead in Hh. injection Hh as ->.
  assert (i = g_k g) as -> by (by eapply NoDup_lookup).
  destruct (Hd eq_refl) as (nd & Hnd & Hdn).
  destruct (race_data0 (g_k g) l' (le_n _) HSi) as (nd' & c & v & Hnd' & Hdc & Hco & Hc & Hv).
  rewrite Hnd in Hnd'. injection Hnd' as <-. rewrite Hdc in Hdn. subst d.
  destruct race_owner0 as [Hndo Hlo].
  exists (mkGhost (g_ls g) (S (g_k g)) (g_vs g) (g_owner g ++ [t]) (g_sent g)
            (<[c := inl t]> (g_co g))).
  split; simpl; try done.
  - by exists l'.
  - intros i' l'' Hi'.
    destruct (race_nodes0 i' l'' Hi') as (nd' & Hnd' & Hnx'). exists nd'. split; [done|].
    destruct Hnx' as [Hnx'|[Hnx' (t' & l3 & Ht')]]; [by left|].
    right. split; [done|]. exists t', l3.
    rewrite list_lookup_insert_ne; [done|]. intros ->. congruence.
  - intros j' l'' Hj' Hl''.
    destruct (race_data0 j' l'' ltac:(lia) Hl'') as (nd' & c' & w & Hnd' & Hd' & Hco' & Hc' & Hw).
    exists nd', c', w. split_and!; try done.
    rewrite lookup_insert_ne; [done|]. intros ->.
    rewrite Hco in Hco'. injection Hco' as Heq. lia.
  - intros c' o [[-> _]|[Hne Ho]]%lookup_insert_Some; [by eauto|by eapply race_live0].
  - split.
    + apply NoDup_app. split; [done|]. split; [|apply NoDup_singleton].
      intros x Hx ->%list_elem_of_singleton. done.
    + rewrite length_app. simpl. lia.
  - intros j' t' Hj'. apply lookup_app_Some in Hj' as [Hj'|[Hge Hj']].
    + destruct (race_owning0 j' t' Hj') as (pc0 & Hpc0 & Hown0).
      exists pc0. split; [|done]. rewrite list_lookup_insert_ne; [done|].
      intros ->. apply Hown. by eapply list_elem_of_lookup_2.
    + apply list_lookup_singleton_Some in Hj' as [Hj' <-].
      exists (QMove (Some l') (Some c)).
      by rewrite list_lookup_insert_eq by (by eapply lookup_lt_Some).
  - intros t' pc0 [[-> ->]|[Hne Hpc0]]%lookup_insert_thread; [|by apply race_kind0].
    specialize (race_kind0 t _ Ht). unfold kind_ok in *. by destruct (calls !! t) as [[]|].
  - intros t' pc0 [[-> ->]|[Hne Hpc0]]%lookup_insert_thread.
    + simpl. exists (g_k g), l', c, v. split_and!; try done.
      * rewrite <-Hlo. by rewrite list_lookup_middle.
      * apply lookup_insert_eq.
    + specialize (race_threads0 t' pc0 Hpc0).
      assert (Hnot : t' ∉ g_owner g → t' ∉ g_owner g ++ [t]).
      { intros ? [?|?%list_elem_of_singleton]%elem_of_app; done. }
      assert (Hcell : ∀ c', g_co g !! c' = Some (inl t') → c' ≠ c).
      { intros ? ? ->. congruence. }
      destruct pc0 as [w|new'|p n|b| |h|h n|h n d|n d|n d r'|n r'|[r'|]]; simpl in *; try done.
      * destruct race_threads0 as (v' & c' & ? & ? & Hn' & Hnl & Hc' & ?).
        exists v', c'. split_and!; try done.
        rewrite lookup_insert_ne; [done|]. by eapply not_eq_sym, Hcell.
      * by apply Hnot.
      * destruct race_threads0 as (? & i' & l1 & ? & ? & ?). split; [by apply Hnot|].
        exists i', l1. split_and!; try done. lia.
      * destruct race_threads0 as (? & i' & l1 & l2 & ? & ? & ? & ? & ?).
        split; [by apply Hnot|]. exists i', l1, l2. split_and!; try done. lia.
      * destruct race_threads0 as (? & i' & l1 & l2 & ? & ? & ? & ? & ? & ?).
        split; [by apply Hnot|]. exists i', l1, l2. split_and!; try done; lia.
      * destruct race_threads0 as (j' & l1 & c' & w & ? & ? & ? & ? & Hc' & ? & ?).
        exists j', l1, c', w. split_and!; try done.
        -- by apply lookup_app_l_Some.
        -- rewrite lookup_insert_ne; [done|]. by eapply not_eq_sym, Hcell.
      * destruct race_threads0 as (j' & l1 & c' & ? & ? & ? & ? & Hc' & ? & ?).
        exists j', l1, c'. split_and!; try done.
        -- by apply lookup_app_l_Some.
        -- rewrite lookup_insert_ne; [done|]. by eapply not_eq_sym, Hcell.
      * destruct race_threads0 as (j' & l1 & ? & ? & ? & ?).
        exists j', l1. split_and!; try done. by apply lookup_app_l_Some.
      * destruct race_threads0 as (j' & ? & ?).
        exists j'. split_and!; try done. by apply lookup_app_l_Some.
      * by apply Hnot.
  - by rewrite length_insert.
Qed.


(** Every step of a thread keeps the invariant. *)
Lemma queue_step_Race calls vs0 ts q g t pc sp :
  Race calls vs0 ts q g → ts !! t = Some pc →
  ∃ pc' q' g', queue_step sp pc q = Ok (pc', q') ∧
               Race calls vs0 (<[t := pc']> ts) q' g'.
Proof.
  intros HR Ht. pose proof (race_threads _ _ _ _ _ HR t pc Ht) as Hok.
  destruct pc as [v|new|p n|b| |h|h n|h n d|n d|n d r|n r|r].
  - eexists _, _, _. split; [apply queue_step_allocate|]. by apply Race_allocate.
  - destruct (Race_exchange _ _ _ _ _ _ _ HR Ht) as (g' & HR'). by eexists _, _, g'.
  - destruct (Race_link _ _ _ _ _ _ _ _ HR Ht) as (ns & Hns & HR').
    eexists _, _, g. split; [|exact HR']. simpl. by rewrite Hns.
  - exists (QEnqueued b), q, g. split; [done|]. by rewrite list_insert_id.
  - exists (QNext (head_ q)), q, g. split; [done|].
    eapply Race_local; [done|done|done|done|done|]. simpl in *. split; [done|].
    destruct (race_head _ _ _ _ _ HR) as (l & Hl & Hk). exists (g_k g), l. by rewrite Hl.
  - simpl in Hok. destruct Hok as (Hown & i & l & Hik & -> & Hi).
    destruct (race_nodes _ _ _ _ _ HR i l Hi) as (nd & Hnd & Hnx).
    destruct (next nd) as [x|] eqn:Hx.
    + exists (QData (Some l) (Some x)), q, g. split.
      { simpl. rewrite Hnd. simpl. by rewrite Hx. }
      eapply Race_local; [done|done|done|done|done|]. simpl. split; [done|].
      exists i, l, x. split_and!; try done. by destruct Hnx as [<-|[? _]].
    + exists (QDequeued None), q, g. split.
      { simpl. rewrite Hnd. simpl. by rewrite Hx. }
      by eapply Race_local.
  - simpl in Hok. destruct Hok as (Hown & i & l & l' & Hik & -> & Hi & -> & HSi).
    destruct (race_nodes _ _ _ _ _ HR (S i) l' HSi) as (nd & Hnd & Hnx).
    destruct (data nd) as [c|] eqn:Hc.
    + exists (QCas (Some l) (Some l') (Some c)), q, g. split.
      { simpl. rewrite Hnd. simpl. by rewrite Hc. }
      eapply Race_local; [done|done|done|done|done|]. simpl. split; [done|].
      exists i, l, l'. split_and!; try done. intros _. by exists nd.
    + exists (QDequeued None), q, g. split.
      { simpl. rewrite Hnd. simpl. by rewrite Hc. }
      by eapply Race_local.
  - unfold queue_step, compare_exchange_weak.
    destruct sp; [|destruct (decide (head_ q = h)) as [Hh|Hh]].
    + exists QHead, q, g. rewrite queue_eta. split; [done|].
      eapply Race_local; [done|done|done|done|done|]. simpl in *. tauto.
    + destruct (Race_take _ _ _ _ _ _ _ _ _ HR Ht Hh) as (g' & HR').
      by eexists _, _, g'.
    + exists QHead, q, g. rewrite queue_eta. split; [done|].
      eapply Race_local; [done|done|done|done|done|]. simpl in *. tauto.
  - simpl in Hok. destruct Hok as (j & l & c & v & Hj & -> & Hl & -> & Hco & Hc & Hv).
    exists (QDelete (Some l) (Some c) v), q, g. split.
    { simpl. by rewrite Hc. }
    eapply Race_local; [done|done|done|done|done|]. simpl. by exists j, l, c.
  - destruct (Race_delete _ _ _ _ _ _ _ _ _ HR Ht) as (cs & g' & Hcs & HR').
    eexists _, _, g'. split; [|exact HR']. simpl. by rewrite Hcs.
  - destruct (Race_clear _ _ _ _ _ _ _ _ HR Ht) as (ns & Hns & HR').
    eexists _, _, g. split; [|exact HR']. simpl. by rewrite Hns.
  - exists (QDequeued r), q, g. split; [done|]. by rewrite list_insert_id.
Qed.

Lemma race_Race calls vs0 schedule : ∀ ts q g,
  Race calls vs0 ts q g →
  ∃ ts' q' g', race schedule ts q = Ok (ts', q') ∧ Race calls vs0 ts' q' g'.
Proof.
  induction schedule as [|[t sp] schedule IH]; intros ts q g HR.
  - by exists ts, q, g.
  - simpl. destruct (ts !! t) as [pc|] eqn:Ht; [|by apply (IH ts q g)].
    destruct (queue_step_Race _ _ _ _ _ _ _ sp HR Ht) as (pc' & q' & g' & -> & HR').
    simpl. by apply (IH _ _ g').
Qed.


(** *** The invariant holds before the threads start *)

Lemma linked_lookup (es : list (loc * Node)) p i l nd :
  linked next p es → es !! i = Some (l, nd) → next nd = es.*1 !! S i.
Proof.
  revert p i. induction es as [|[l0 nd0] es IH]; intros p i Hlk Hi; [done|].
  destruct Hlk as [-> Hlk]. destruct i as [|i].
  - injection Hi as -> ->. rewrite (linked_head _ _ _ Hlk).
    by destruct es.
  - simpl in Hi. simpl. by eapply IH.
Qed.

Lemma queue_owns_lookup cl j c :
  NoDup cl → cl !! j = Some c → queue_owns cl !! c = Some (inr j).
Proof.
  intros Hnd Hj. unfold queue_owns. apply elem_of_list_to_map_1.
  - rewrite fst_zip; [done|]. by rewrite length_fmap, length_seq.
  - apply list_elem_of_lookup. exists j. apply lookup_zip_with_Some.
    exists c, (inr j). split_and!; [done|done|].
    rewrite list_lookup_fmap, lookup_seq_lt by (by eapply lookup_lt_Some). done.
Qed.

Lemma queue_owns_elem cl c o :
  queue_owns cl !! c = Some o → c ∈ cl.
Proof.
  intros H. unfold queue_owns in H. apply elem_of_list_to_map_2 in H.
  by apply elem_of_zip_l in H.
Qed.

Lemma payload_cells (cs : gmap loc T) ds vs :
  Forall2 (payload cs) ds vs → ∃ cl, ds = Some <$> cl.
Proof.
  induction 1 as [|d v ds vs (c & -> & _) _ (cl & ->)]; [by exists []|].
  by exists (c :: cl).
Qed.

Lemma Race_start calls q vs0 :
  wf q vs0 → ∃ g, Race calls vs0 (start <$> calls) q g.
Proof.
  intros (es & Hne & [[Hlk Hheld] Htail Hnd Hpay Hcells]).
  destruct (payload_cells _ _ _ Hpay) as (cl & Hcl).
  assert (Hndc : NoDup cl).
  { rewrite Hcl in Hcells. by apply NoDup_fmap_1 in Hcells. }
  pose proof (Forall2_length _ _ _ Hpay) as Hlen.
  assert (Hlen' : length es = S (length vs0)).
  { unfold datas in Hlen. rewrite length_fmap in Hlen. destruct es; [done|].
    simpl in *. lia. }
  exists (mkGhost es.*1 0 vs0 [] [] (queue_owns cl)).
  split; simpl.
  - done.
  - by rewrite length_fmap.
  - destruct es as [|[h hn] es]; [done|]. destruct Hlk as [-> _]. by exists h.
  - by rewrite fmap_last.
  - intros i l Hi. rewrite list_lookup_fmap in Hi.
    destruct (es !! i) as [[l' nd]|] eqn:Hes; [|done]. injection Hi as ->.
    exists nd. split; [by eapply Hheld, list_elem_of_lookup_2|].
    left. by eapply linked_lookup.
  - intros j l _ Hl. rewrite list_lookup_fmap in Hl.
    destruct (es !! S j) as [[l' nd]|] eqn:Hes; [|done]. injection Hl as ->.
    assert (Hd : datas es !! j = Some (data nd)).
    { unfold datas. rewrite list_lookup_fmap. destruct es; [done|].
      simpl in *. by rewrite Hes. }
    destruct (Forall2_lookup_l _ _ _ _ _ Hpay Hd) as (v & Hv & (c & Hc & Hcv)).
    exists nd, c, v. split_and!; try done.
    + by eapply Hheld, list_elem_of_lookup_2.
    + apply queue_owns_lookup; [done|]. rewrite Hcl, Hc, list_lookup_fmap in Hd.
      destruct (cl !! j); [|done]. by injection Hd as ->.
  - intros c o Hc%queue_owns_elem.
    assert (Hin : Some c ∈ datas es).
    { rewrite Hcl. by apply list_elem_of_fmap_2. }
    apply list_elem_of_lookup in Hin as [j Hj].
    destruct (Forall2_lookup_l _ _ _ _ _ Hpay Hj) as (v & _ & (c' & [= <-] & Hcv)).
    eauto.
  - split; [apply NoDup_nil_2|done].
  - intros j t Hj. done.
  - split; [apply NoDup_nil_2|]. exists []. split_and!; [by rewrite app_nil_r|done|done].
  - intros t pc Ht. rewrite list_lookup_fmap in Ht. unfold kind_ok.
    destruct (calls !! t) as [[v|]|]; [| |done]; injection Ht as <-; simpl; tauto.
  - intros t pc Ht. rewrite list_lookup_fmap in Ht.
    destruct (calls !! t) as [[v|]|] eqn:Hc; [| |done]; injection Ht as <-; simpl.
    + split; [done|]. apply not_elem_of_nil.
    + apply not_elem_of_nil.
  - by rewrite length_fmap.
Qed.

(** *** What the invariant says once every call has returned *)

Lemma omap_id_insert {B} (os : list (option B)) t y :
  os !! t = Some (Some y) → omap id os ≡ₚ y :: omap id (<[t := None]> os).
Proof.
  intros Ht. rewrite <-(take_drop_middle os t _ Ht) at 1.
  rewrite insert_take_drop by (by eapply lookup_lt_Some).
  rewrite !omap_app. simpl. by rewrite Permutation_middle.
Qed.

Lemma omap_id_indexed {B} (idx : list nat) : ∀ (ys : list B) (os : list (option B)),
  NoDup idx → length idx = length ys →
  (∀ j t y, idx !! j = Some t → ys !! j = Some y → os !! t = Some (Some y)) →
  (∀ t y, os !! t = Some (Some y) → t ∈ idx) →
  omap id os ≡ₚ ys.
Proof.
  induction idx as [|t idx IH]; intros ys os Hnd Hlen H1 H2.
  - destruct ys; [|done]. destruct (omap id os) as [|y l] eqn:Ho; [done|].
    assert (Hy : y ∈ omap id os) by (rewrite Ho; left).
    apply list_elem_of_omap in Hy as (o & Hin & Hoy). simpl in Hoy. subst o.
    apply list_elem_of_lookup in Hin as [i Hi].
    by apply H2, elem_of_nil in Hi.
  - destruct ys as [|y ys]; [done|]. apply NoDup_cons in Hnd as [Ht Hnd].
    pose proof (H1 0 t y eq_refl eq_refl) as Hot.
    rewrite (omap_id_insert _ _ _ Hot). constructor.
    apply IH; [done|simpl in Hlen; lia| |].
    + intros j t' y' Hj Hy'. rewrite list_lookup_insert_ne.
      * by apply (H1 (S j)).
      * intros ->. apply Ht. by eapply list_elem_of_lookup_2.
    + intros t' y' Ht'. destruct (decide (t' = t)) as [->|Hne].
      * rewrite list_lookup_insert_eq in Ht' by (by eapply lookup_lt_Some). done.
      * rewrite list_lookup_insert_ne in Ht' by done.
        apply H2 in Ht'. by apply elem_of_cons in Ht' as [?|?].
Qed.

Lemma omap_via_fmap {A B} (f : A → option B) (xs : list A) :
  omap f xs = omap id (f <$> xs).
Proof. induction xs as [|x xs IHxs]; [done|]. csimpl. by rewrite IHxs. Qed.

Lemma omap_indexed {A B} (f : A → option B) (xs : list A) (idx : list nat) (ys : list B) :
  NoDup idx → length idx = length ys →
  (∀ j t y, idx !! j = Some t → ys !! j = Some y →
     ∃ x, xs !! t = Some x ∧ f x = Some y) →
  (∀ t x, xs !! t = Some x → is_Some (f x) → t ∈ idx) →
  omap f xs ≡ₚ ys.
Proof.
  intros Hnd Hlen H1 H2.
  rewrite omap_via_fmap. apply (omap_id_indexed idx); [done|done| |].
  - intros j t y Hj Hy. destruct (H1 j t y Hj Hy) as (x & Hx & Hfx).
    by rewrite list_lookup_fmap, Hx, <-Hfx.
  - intros t y Ht. rewrite list_lookup_fmap in Ht.
    destruct (xs !! t) as [x|] eqn:Hx; [|done]. injection Ht as Ht.
    eapply H2; [done|]. by rewrite Ht.
Qed.


Lemma returned_owning pc :
  returned pc → owning pc → ∃ r, pc = QDequeued (Some r).
Proof. destruct pc as [| | | | | | | | | | |[r|]]; try done. by exists r. Qed.

Lemma Race_dequeued calls vs0 ts q g :
  Race calls vs0 ts q g → Forall returned ts →
  dequeued ts ≡ₚ take (g_k g) (g_vs g).
Proof.
  intros HR Hret. pose proof HR as [].
  destruct race_owner0 as [Hnd Hlen]. destruct race_head0 as (l & _ & Hk).
  apply lookup_lt_Some in Hk. rewrite race_length0 in Hk.
  apply (omap_indexed _ _ (g_owner g)); [done|rewrite length_take; lia| |].
  - intros j t y Hj Hy. destruct (race_owning0 j t Hj) as (pc & Hpc & Hown).
    exists pc. split; [done|].
    rewrite Forall_lookup in Hret.
    destruct (returned_owning pc (Hret _ _ Hpc) Hown) as (r & ->). simpl.
    destruct (race_threads0 t _ Hpc) as (j' & Hj' & Hr).
    rewrite (NoDup_lookup _ _ _ _ Hnd Hj' Hj) in Hr.
    apply lookup_take_Some in Hy as [Hy _]. congruence.
  - intros t pc Hpc [r Hr]. destruct pc as [| | | | | | | | | | |[r'|]]; try done.
    destruct (race_threads0 t _ Hpc) as (j' & Hj' & _). by eapply list_elem_of_lookup_2.
Qed.

Lemma Race_enqueued calls vs0 ts q g :
  Race calls vs0 ts q g → Forall returned ts →
  ∃ order, g_vs g = vs0 ++ order ∧ order ≡ₚ items calls.
Proof.
  intros HR Hret. pose proof HR as [].
  destruct race_sent0 as (Hnd & order & Hvs & Hlen & Hsent).
  exists order. split; [done|]. symmetry.
  apply (omap_indexed _ _ (g_sent g)); [done|done| |].
  - intros j t y Hj Hy. destruct (Hsent j t Hj) as (v & Hc & Hv).
    exists (CallEnqueue v). split; [done|]. simpl. congruence.
  - intros t c Hc [v Hv]. destruct c as [v'|]; [|done].
    destruct (lookup_lt_is_Some_2 ts t) as [pc Hpc].
    { rewrite race_calls0. by eapply lookup_lt_Some. }
    pose proof (race_kind0 t pc Hpc) as Hk. rewrite Hc in Hk. simpl in Hk.
    rewrite Forall_lookup in Hret. pose proof (Hret _ _ Hpc) as Hr.
    destruct pc; try done. by destruct (race_threads0 t _ Hpc).
Qed.

Lemma tail_drop_one {A} (l : list A) : tail l = drop 1 l.
Proof. by destruct l. Qed.

(** The chain a list of addresses makes in a heap. *)
Lemma linked_addresses (mk : loc → loc * Node) :
  (∀ l, (mk l).1 = l) → ∀ (ls : list loc) p,
  (∀ i l, ls !! i = Some l → next (mk l).2 = ls !! S i) →
  p = head ls → linked next p (mk <$> ls).
Proof.
  intros Hmk. induction ls as [|l ls IH]; intros p Hnx ->; [done|].
  rewrite fmap_cons. destruct (mk l) as [l0 nd] eqn:Hl.
  pose proof (Hmk l) as Hl0. rewrite Hl in Hl0. simpl in Hl0. subst l0.
  split; [done|]. apply IH.
  - intros i l' Hi. by apply (Hnx (S i)).
  - pose proof (Hnx 0 l eq_refl) as H0. rewrite Hl in H0. simpl in H0.
    rewrite H0. by destruct ls.
Qed.

Lemma Race_wf calls vs0 ts q g :
  Race calls vs0 ts q g → Forall returned ts →
  wf q (drop (g_k g) (g_vs g)).
Proof.
  intros HR Hret. pose proof HR as [].
  destruct race_head0 as (hl & Hhead & Hk).
  assert (Hnode : ∀ i l, g_ls g !! i = Some l →
            ∃ nd, nodes q !! l = Some nd ∧ next nd = g_ls g !! S i).
  { intros i l Hi. destruct (race_nodes0 i l Hi) as (nd & Hnd & [Hnx|[_ (t & l' & Ht)]]).
    - by exists nd.
    - rewrite Forall_lookup in Hret. by destruct (Hret _ _ Ht). }
  set (mk := λ l : loc, (l, default (mkNode None None) (nodes q !! l))).
  assert (Hmk : ∀ i l, g_ls g !! i = Some l →
            nodes q !! l = Some (mk l).2 ∧ next (mk l).2 = g_ls g !! S i).
  { intros i l Hi. destruct (Hnode i l Hi) as (nd & Hnd & Hnx).
    unfold mk. simpl. by rewrite Hnd. }
  pose proof (lookup_lt_Some _ _ _ Hk) as Hklt.
  exists (mk <$> drop (g_k g) (g_ls g)). split.
  { intros Hnil%fmap_nil_inv. apply (f_equal length) in Hnil.
    rewrite length_drop in Hnil. simpl in Hnil. lia. }
  assert (Hdatas : ∀ i d, datas (mk <$> drop (g_k g) (g_ls g)) !! i = Some d →
            ∃ c v, d = Some c ∧ g_co g !! c = Some (inr (g_k g + i)) ∧
                   cells q !! c = Some v ∧ g_vs g !! (g_k g + i) = Some v).
  { intros i d Hd. unfold datas in Hd. rewrite list_lookup_fmap in Hd.
    rewrite tail_drop_one, lookup_drop in Hd.
    rewrite list_lookup_fmap, lookup_drop in Hd. simpl in Hd.
    replace (g_k g + S i) with (S (g_k g + i)) in Hd by lia.
    destruct (g_ls g !! S (g_k g + i)) as [l|] eqn:Hl; simpl in Hd; [|done].
    injection Hd as <-.
    destruct (race_data0 (g_k g + i) l ltac:(lia) Hl) as (nd & c & v & Hnd & Hc & Hco & Hcv & Hv).
    exists c, v. split_and!; try done. unfold mk. simpl. by rewrite Hnd. }
  split.
  - split.
    + apply linked_addresses; [done| |].
      * intros i l Hi. rewrite lookup_drop in Hi.
        destruct (Hmk _ _ Hi) as [_ Hnx]. rewrite Hnx, lookup_drop. f_equal. lia.
      * by rewrite Hhead, head_lookup, lookup_drop, Nat.add_0_r.
    + intros l nd [l' [[= -> ->] Hin]]%list_elem_of_fmap.
      apply list_elem_of_lookup in Hin as [i Hi]. rewrite lookup_drop in Hi.
      by destruct (Hmk _ _ Hi) as [-> _].
  - rewrite race_tail0, fmap_last.
    rewrite <-(take_drop (g_k g) (g_ls g)) at 1.
    rewrite last_app. destruct (last (drop (g_k g) (g_ls g))) eqn:Hl; [done|].
    apply last_None, (f_equal length) in Hl. rewrite length_drop in Hl. simpl in Hl. lia.
  - rewrite <-list_fmap_compose. simpl. rewrite list_fmap_id.
    rewrite <-(take_drop (g_k g) (g_ls g)) in race_nodup0.
    by apply NoDup_app in race_nodup0 as (_ & _ & ?).
  - apply Forall2_same_length_lookup_2.
    + unfold datas. rewrite length_fmap, tail_drop_one, length_drop, length_fmap, !length_drop. lia.
    + intros i d v Hd Hv. destruct (Hdatas i d Hd) as (c & v' & -> & _ & Hc & Hv').
      rewrite lookup_drop in Hv. rewrite Hv in Hv'. injection Hv' as <-. by exists c.
  - apply NoDup_alt. intros i j d Hi Hj.
    destruct (Hdatas i d Hi) as (c & _ & -> & Hci & _).
    destruct (Hdatas j _ Hj) as (c' & _ & [= <-] & Hcj & _).
    rewrite Hci in Hcj. injection Hcj as Heq. lia.
Qed.


(** Threads on a quiescent queue: no step is undefined, and once all calls
    have returned the queue is quiescent again. *)
Lemma race_spec calls schedule q vs0 :
  wf q vs0 →
  ∃ ts q', race schedule (start <$> calls) q = Ok (ts, q') ∧
    (Forall returned ts →
     ∃ order k, order ≡ₚ items calls ∧
                dequeued ts ≡ₚ take k (vs0 ++ order) ∧
                wf q' (drop k (vs0 ++ order))).
Proof.
  intros Hwf. destruct (Race_start calls q vs0 Hwf) as (g & HR).
  destruct (race_Race calls vs0 schedule _ _ _ HR) as (ts & q' & g' & Hrace & HR').
  exists ts, q'. split; [done|]. intros Hret.
  destruct (Race_enqueued _ _ _ _ _ HR' Hret) as (order & Hvs & Hperm).
  exists order, (g_k g'). rewrite <-Hvs. split_and!; [done| |].
  - by eapply Race_dequeued.
  - by eapply Race_wf.
Qed.


(** *** A thread that runs alone *)

Lemma race_cons schedule ts q t sp pc pc' q' :
  ts !! t = Some pc → queue_step sp pc q = Ok (pc', q') →
  race ((t, sp) :: schedule) ts q = race schedule (<[t := pc']> ts) q'.
Proof. intros Ht Hs. simpl. by rewrite Ht, Hs. Qed.

Lemma race_app s1 s2 ts q ts' q' :
  race s1 ts q = Ok (ts', q') → race (s1 ++ s2) ts q = race s2 ts' q'.
Proof.
  revert ts q. induction s1 as [|[t sp] s1 IH]; intros ts q H.
  - by injection H as -> ->.
  - simpl in *. destruct (ts !! t) as [pc|]; [|by apply IH].
    destruct (queue_step sp pc q) as [[pc1 q1]| |]; [|done|done]. by apply IH.
Qed.

Lemma budget_returned q pc : budget q pc = 0 → returned pc.
Proof. destruct pc; simpl; try done; by case_decide. Qed.

(** Every turn of a thread whose compare-exchange does not fail
    spuriously uses up its budget, if the turn is defined. *)
Lemma queue_step_budget pc q pc' q' :
  queue_step false pc q = Ok (pc', q') → budget q' pc' ≤ pred (budget q pc).
Proof.
  destruct pc as [v|new|p n|b| |h|h n|h n d|n d|n d r|n r|r]; simpl.
  - unfold allocate_node, store_data, store_next. cbn [deref].
    rewrite lookup_insert_eq. cbn [mbind result_bind].
    rewrite lookup_insert_eq. cbn [mbind result_bind]. by intros [= <- <-].
  - by intros [= <- <-].
  - intros (ns & _ & [= <- <-])%bind_Ok. simpl. lia.
  - by intros [= <- <-].
  - intros [= <- <-]. simpl. by rewrite decide_True.
  - intros (nd & _ & Hr)%bind_Ok. destruct (next nd); injection Hr as <- <-; simpl.
    + repeat case_decide; lia.
    + lia.
  - intros (nd & _ & Hr)%bind_Ok. destruct (data nd); injection Hr as <- <-; simpl.
    + repeat case_decide; lia.
    + lia.
  - unfold compare_exchange_weak. case_decide as Hh.
    + intros [= <- <-]. simpl. rewrite decide_True by done. lia.
    + intros [= <- <-]. simpl. rewrite decide_False by done. lia.
  - intros (res & _ & [= <- <-])%bind_Ok. simpl. lia.
  - intros (cs & _ & [= <- <-])%bind_Ok. simpl. lia.
  - intros (ns & _ & [= <- <-])%bind_Ok. simpl. lia.
  - by intros [= <- <-].
Qed.

Lemma race_alone calls vs0 t n : ∀ ts q g pc,
  Race calls vs0 ts q g → ts !! t = Some pc → budget q pc ≤ n →
  ∃ pc' q' g', race (replicate n (t, false)) ts q = Ok (<[t := pc']> ts, q') ∧
               Race calls vs0 (<[t := pc']> ts) q' g' ∧ returned pc'.
Proof.
  induction n as [|n IH]; intros ts q g pc HR Ht Hb.
  - exists pc, q, g. rewrite list_insert_id by done. split_and!; [done|done|].
    apply (budget_returned q). lia.
  - destruct (queue_step_Race _ _ _ _ _ _ _ false HR Ht) as (pc1 & q1 & g1 & Hs & HR1).
    pose proof (queue_step_budget _ _ _ _ Hs) as Hb1.
    destruct (IH (<[t := pc1]> ts) q1 g1 pc1 HR1) as (pc' & q' & g' & Hrace & HR' & Hret).
    { apply list_lookup_insert_eq. by eapply lookup_lt_Some. }
    { lia. }
    rewrite list_insert_insert_eq in Hrace, HR'.
    exists pc', q', g'. split_and!; [|done|done].
    cbn [replicate]. by erewrite race_cons.
Qed.


Lemma budget_le q pc : budget q pc ≤ 10.
Proof. destruct pc; simpl; repeat case_decide; lia. Qed.

(** *** Run alone, the steps of a call do what the call does *)

Lemma race_returned n t sp ts q pc :
  ts !! t = Some pc → returned pc → race (replicate n (t, sp)) ts q = Ok (ts, q).
Proof.
  intros Ht Hret. induction n as [|n IH]; [done|]. cbn [replicate].
  erewrite race_cons; [|done|]; [by rewrite list_insert_id|].
  by destruct pc.
Qed.

Lemma race_first schedule ts q t sp pc pc' q' :
  ts !! t = Some pc → queue_step sp pc q = Ok (pc', q') →
  race ((t, sp) :: schedule) ts q = race schedule (<[t := pc']> ts) q'.
Proof. apply race_cons. Qed.

Lemma race_next schedule ts q t sp pc pc' q' :
  t < length ts → queue_step sp pc q = Ok (pc', q') →
  race ((t, sp) :: schedule) (<[t := pc]> ts) q = race schedule (<[t := pc']> ts) q'.
Proof.
  intros Ht Hs. erewrite race_cons; [|by apply list_lookup_insert_eq|done].
  by rewrite list_insert_insert_eq.
Qed.

Lemma race_done n ts q t sp pc :
  t < length ts → returned pc →
  race (replicate n (t, sp)) (<[t := pc]> ts) q = Ok (<[t := pc]> ts, q).
Proof. intros Ht Hret. eapply race_returned; [|done]. by apply list_lookup_insert_eq. Qed.

Lemma enqueue_steps_agree ts t q v b q' :
  ts !! t = Some (QAllocate v) →
  enqueue q v = Ok (b, q') →
  race (replicate 3 (t, false)) ts q = Ok (<[t := QEnqueued b]> ts, q').
Proof.
  intros Ht H. pose proof (lookup_lt_Some _ _ _ Ht) as Hlt. cbn [replicate].
  erewrite race_first; [|done|apply queue_step_allocate].
  erewrite race_next; [|done|done]. cbn [tail_ nodes cells head_].
  unfold enqueue, allocate_node, store_data, store_next in H. cbn [deref] in H.
  rewrite lookup_insert_eq in H. cbn [mbind result_bind] in H.
  rewrite lookup_insert_eq in H. cbn [mbind result_bind data next] in H.
  rewrite !insert_insert_eq in H.
  apply bind_Ok in H as (nd & Hnd & H).
  destruct (tail_ q) as [tl|] eqn:Htl; [|done]. injection H as <- <-.
  erewrite race_next; [done|done|]. simpl. unfold store_next.
  cbn [mbind result_bind]. by rewrite Hnd.
Qed.

Lemma dequeue_steps_agree ts t fuel q r q' :
  ts !! t = Some QHead →
  dequeue_cas (S fuel) [] q = Ok (r, q') →
  race (replicate 7 (t, false)) ts q = Ok (<[t := QDequeued r]> ts, q').
Proof.
  intros Ht H. pose proof (lookup_lt_Some _ _ _ Ht) as Hlt. simpl in H.
  apply bind_Ok in H as (hn & Hhn & H).
  change (replicate 7 (t, false)) with ((t, false) :: (t, false) :: replicate 5 (t, false)).
  erewrite race_first; [|done|done].
  destruct (next hn) as [n|] eqn:Hn.
  - apply bind_Ok in H as (nn & Hnn & H).
    erewrite race_next; [|done|]; cycle 1.
    { unfold queue_step. rewrite Hhn. cbn [mbind result_bind]. by rewrite Hn. }
    cbn [replicate].
    destruct (data nn) as [c|] eqn:Hc.
    + rewrite cas_weak_success in H.
      apply bind_Ok in H as (res & Hres & H). apply bind_Ok in H as (ns & Hns & H).
      injection H as <- <-.
      simpl in Hres. destruct (cells q !! c) as [x|] eqn:Hx; [|done].
      injection Hres as ->.
      erewrite race_next; [|done|]; cycle 1.
      { unfold queue_step. rewrite Hnn. cbn [mbind result_bind]. by rewrite Hc. }
      erewrite race_next; [|done|]; cycle 1.
      { unfold queue_step. by rewrite cas_weak_success. }
      erewrite race_next; [|done|]; cycle 1.
      { unfold queue_step, deref. cbn [cells]. by rewrite Hx. }
      erewrite race_next; [|done|]; cycle 1.
      { unfold queue_step, delete_cell. cbn [cells]. by rewrite Hx. }
      erewrite race_next; [|done|]; cycle 1.
      { unfold queue_step. cbn [nodes]. by rewrite Hns. }
      done.
    + injection H as <- <-.
      erewrite race_next; [|done|]; cycle 1.
      { unfold queue_step. rewrite Hnn. cbn [mbind result_bind]. by rewrite Hc. }
      by apply (race_done 4).
  - injection H as <- <-.
    erewrite race_next; [|done|]; cycle 1.
    { unfold queue_step. rewrite Hhn. cbn [mbind result_bind]. by rewrite Hn. }
    by apply (race_done 5).
Qed.

Lemma race_store_cons schedule (ts : list (store_pc T)) q t (sc sc' : store_pc T) q' :
  ts !! t = Some sc → dequeue_step sc q = Ok (sc', q') →
  race_store (t :: schedule) ts q = race_store schedule (<[t := sc']> ts) q'.
Proof. intros Ht Hs. simpl. by rewrite Ht, Hs. Qed.

Lemma race_store_returned n t (ts : list (store_pc T)) q r :
  ts !! t = Some (SDequeued r) → race_store (replicate n t) ts q = Ok (ts, q).
Proof.
  intros Ht. induction n as [|n IH]; [done|]. cbn [replicate].
  erewrite race_store_cons; [|done|done]. by rewrite list_insert_id.
Qed.

Lemma dequeue_store_steps_agree q r q' :
  dequeue q = Ok (r, q') →
  race_store (replicate 7 0) [SHead] q = Ok ([SDequeued r], q').
Proof.
  intros H. unfold dequeue in H.
  apply bind_Ok in H as (hn & Hhn & H).
  change (replicate 7 0) with (0 :: 0 :: replicate 5 0).
  erewrite race_store_cons; [|done|done]. cbn [list_insert].
  destruct (next hn) as [n|] eqn:Hn.
  - apply bind_Ok in H as (nn & Hnn & H).
    erewrite race_store_cons; [|done|]; cycle 1.
    { unfold dequeue_step. rewrite Hhn. cbn [mbind result_bind]. by rewrite Hn. }
    cbn [list_insert replicate].
    destruct (data nn) as [c|] eqn:Hc.
    + apply bind_Ok in H as (res & Hres & H). apply bind_Ok in H as (ns & Hns & H).
      injection H as <- <-.
      simpl in Hres. destruct (cells q !! c) as [x|] eqn:Hx; [|done].
      injection Hres as ->.
      erewrite race_store_cons; [|done|]; cycle 1.
      { unfold dequeue_step. rewrite Hnn. cbn [mbind result_bind]. by rewrite Hc. }
      cbn [list_insert].
      erewrite race_store_cons; [|done|]; cycle 1.
      { unfold dequeue_step, deref. by rewrite Hx. }
      cbn [list_insert].
      erewrite race_store_cons; [|done|]; cycle 1.
      { unfold dequeue_step, delete_cell. by rewrite Hx. }
      cbn [list_insert].
      erewrite race_store_cons; [|done|done].
      cbn [list_insert].
      erewrite race_store_cons; [|done|]; cycle 1.
      { unfold dequeue_step. cbn [nodes]. by rewrite Hns. }
      done.
    + injection H as <- <-.
      erewrite race_store_cons; [|done|]; cycle 1.
      { unfold dequeue_step. rewrite Hnn. cbn [mbind result_bind]. by rewrite Hc. }
      by apply (race_store_returned 4 0 _ _ None).
  - injection H as <- <-.
    erewrite race_store_cons; [|done|]; cycle 1.
    { unfold dequeue_step. rewrite Hhn. cbn [mbind result_bind]. by rewrite Hn. }
    by apply (race_store_returned 5 0 _ _ None).
Qed.


(** *** Calls that overtake each other *)

(** A [dequeue] that loaded [head_] before another [dequeue] took the
    first element finds the [data] pointer of that element cleared. *)
Lemma dequeue_overtaken q a b vs :
  wf q (a :: b :: vs) →
  ∃ q', race overtaking_schedule [QHead; QHead] q =
          Ok ([QDequeued (Some a); QDequeued None], q') ∧
        wf q' (b :: vs).
Proof.
  intros Hwf.
  destruct (wf_cons_inv _ _ _ Hwf)
    as (h & hn & n & nn & c & rest & Hrepr & Hh & Hhn & Hnx & Hn & Hc & Hv).
  assert (Hne : h ≠ n).
  { pose proof (repr_nodup _ _ _ Hrepr) as Hnd. simpl in Hnd.
    apply NoDup_cons in Hnd as [Hnd _]. intros ->. apply Hnd. by left. }
  set (q1 := {| nodes := <[n := mkNode None (next nn)]> (nodes q);
                cells := delete c (cells q); head_ := Some n; tail_ := tail_ q |}).
  assert (Hdq : dequeue_cas 1 [] q = Ok (Some a, q1)).
  { simpl. rewrite Hh. simpl. rewrite Hhn. simpl. rewrite Hnx.
    simpl. rewrite Hn. simpl. rewrite Hc. simpl.
    rewrite cas_weak_success. simpl. rewrite Hv. simpl.
    unfold store_data. simpl. rewrite Hn. simpl. reflexivity. }
  exists q1. split.
  - unfold overtaking_schedule.
    erewrite race_first; [|done|done]. cbn [list_insert].
    erewrite race_app; [|by eapply dequeue_steps_agree]. cbn [list_insert].
    rewrite Hh.
    erewrite race_first; [|done|]; cycle 1.
    { unfold queue_step, deref. cbn [nodes q1].
      rewrite lookup_insert_ne by done. rewrite Hhn. cbn [mbind result_bind].
      by rewrite Hnx. }
    cbn [list_insert].
    erewrite race_first; [|done|]; cycle 1.
    { unfold queue_step, deref. cbn [nodes q1].
      rewrite lookup_insert_eq. cbn [mbind result_bind data]. done. }
    done.
  - eapply (repr_advance _ _ _ _ _ _ _ _ _ _ (mkNode None (next nn)));
      [exact Hrepr|exact Hc|reflexivity|apply lookup_insert_eq|].
    intros l _ Hl. by rewrite lookup_insert_ne.
Qed.

(** An [enqueue] that has exchanged [tail_] and not yet linked its node
    hides the nodes enqueued after it. *)
Lemma enqueue_stalled q v1 v2 :
  wf q [] →
  ∃ prev new q',
    race stalling_schedule [QAllocate v1; QAllocate v2; QHead] q =
      Ok ([QLink prev new; QEnqueued true; QDequeued None], q').
Proof.
  intros (es & Hne & [[Hlk Hheld] Htail _ Hpay _]).
  destruct es as [|[h hn] rest]; [done|].
  apply Forall2_nil_inv_r in Hpay. unfold datas in Hpay. simpl in Hpay.
  apply fmap_nil_inv in Hpay as ->. simpl in Htail.
  destruct Hlk as [Hh Hnx]. simpl in Hnx.
  assert (Hhn : nodes q !! h = Some hn) by (apply Hheld; by left).
  pose proof (fresh_None (nodes q)) as Hnew1.
  set (new1 := fresh (dom (nodes q))) in *.
  set (c1 := fresh (dom (cells q))).
  set (q1 := {| nodes := <[new1 := mkNode (Some c1) None]> (nodes q);
                cells := <[c1 := v1]> (cells q);
                head_ := head_ q; tail_ := Some new1 |}).
  pose proof (fresh_None (nodes q1)) as Hnew2.
  pose proof (enqueue_eq q1 v2 new1 (mkNode (Some c1) None) eq_refl
                (lookup_insert_eq _ _ _)) as Henq.
  set (new2 := fresh (dom (nodes q1))) in *.
  match type of Henq with _ = Ok (_, ?q) => set (q3 := q) in * end.
  assert (Hh3 : nodes q3 !! h = Some hn).
  { assert (new1 ≠ h) by congruence.
    assert (new2 ≠ h).
    { intros ->. unfold q1 in Hnew2. cbn [nodes] in Hnew2.
      rewrite lookup_insert_ne in Hnew2; congruence. }
    unfold q3, q1. cbn [nodes]. by rewrite !lookup_insert_ne by done. }
  exists (Some h), new1, q3.
  unfold stalling_schedule.
  change (replicate 2 (0, false)) with [(0, false); (0, false)]. cbn [app].
  erewrite race_first; [|done|apply queue_step_allocate]. cbn [list_insert].
  erewrite race_first; [|done|done]. cbn [list_insert tail_ nodes cells head_].
  rewrite Htail. fold new1 c1 q1.
  erewrite race_app; [|by eapply (enqueue_steps_agree _ 1)].
  erewrite (dequeue_steps_agree _ 2 0 q3 None q3); [done|done|].
  simpl. rewrite Hh. simpl. simpl in Hh3. rewrite Hh3. simpl. by rewrite Hnx.
Qed.

(** Two [dequeue]s of [lockfree_queue.hpp] that load the same [data]
    pointer: the second one moves out of a deleted object. *)
Lemma dequeue_collision q v vs :
  wf q (v :: vs) → race_store colliding_schedule [SHead; SHead] q = UB.
Proof.
  intros Hwf.
  destruct (wf_cons_inv _ _ _ Hwf)
    as (h & hn & n & nn & c & rest & Hrepr & Hh & Hhn & Hnx & Hn & Hc & Hv).
  unfold colliding_schedule.
  assert (Hs1 : dequeue_step SHead q = Ok (SNext (Some h), q)) by (simpl; by rewrite Hh).
  assert (Hs2 : dequeue_step (SNext (Some h)) q = Ok (SData (Some h) (Some n), q)).
  { simpl. rewrite Hhn. simpl. by rewrite Hnx. }
  assert (Hs3 : dequeue_step (SData (Some h) (Some n)) q =
                  Ok (SMove (Some h) (Some n) (Some c), q)).
  { simpl. rewrite Hn. simpl. by rewrite Hc. }
  do 3 (erewrite race_store_cons; [|done|done]; cbn [list_insert]).
  do 3 (erewrite race_store_cons; [|done|done]; cbn [list_insert]).
  erewrite race_store_cons; [|done|]; cycle 1.
  { simpl. by rewrite Hv. }
  cbn [list_insert].
  erewrite race_store_cons; [|done|]; cycle 1.
  { simpl. by rewrite Hv. }
  cbn [list_insert]. simpl. by rewrite lookup_delete_eq.
Qed.

End QueueThreadsFacts.
End QueueThreadsFacts.

(** ** One producer and one consumer on the queue *)

Module QueueDuetFacts.
Import Queue QueueThreads QueueDuet QueueFacts.
Section QueueDuetFacts.
Context {T : Type}.
Implicit Types (q : LockFreeQueue T) (es : list (loc * Node)) (d : duet T).

Abbreviation all_datas es := ((λ e : loc * Node, data e.2) <$> es).

Lemma payload_not_fresh (cs : gmap loc T) ds (l : list T) c :
  Forall2 (payload cs) ds l → cs !! c = None → Some c ∉ ds.
Proof.
  intros Hpay Hc Hin. apply list_elem_of_lookup in Hin as [i Hi].
  destruct (Forall2_lookup_l _ _ _ _ _ Hpay Hi) as (w & _ & (c' & Heq & Hc')).
  congruence.
Qed.

Lemma consuming_grow pc q q' es es' (l : list T) a b c :
  head_ q' = head_ q →
  (∀ h, is_Some (nodes q !! h) → is_Some (nodes q' !! h)) →
  es'.*1 = es.*1 ++ a → all_datas es' = all_datas es ++ b →
  consuming pc q es l → consuming pc q' es' (l ++ c).
Proof.
  intros Hh Hn Ha Hb. destruct pc; simpl; rewrite ?Hh, ?Ha, ?Hb; try done.
  - intros (-> & n & -> & Hl). split; [done|]. exists n. split; [done|].
    by apply lookup_app_l_Some.
  - intros (-> & (n & -> & Hl) & Hd). split; [done|]. split.
    + exists n. split; [done|]. by apply lookup_app_l_Some.
    + by apply lookup_app_l_Some.
  - intros (-> & (n & -> & Hl) & Hd & Hr). split; [done|]. split; [|split].
    + exists n. split; [done|]. by apply lookup_app_l_Some.
    + by apply lookup_app_l_Some.
    + by apply lookup_app_l_Some.
  - intros (-> & n & -> & Hl). split; [done|]. exists n. split; [done|].
    by apply lookup_app_l_Some.
  - intros (h & -> & Hs). exists h. split; [done|]. by apply Hn.
Qed.

Lemma consuming_heap pc q q' es (l : list T) :
  head_ q' = head_ q →
  (∀ h, is_Some (nodes q !! h) → is_Some (nodes q' !! h)) →
  consuming pc q es l → consuming pc q' es l.
Proof.
  intros Hh Hn Hc. rewrite <-(app_nil_r l).
  eapply (consuming_grow pc q q' es es l [] []); by rewrite ?app_nil_r.
Qed.

Lemma behind_grow pc q es es' (l : list T) x :
  es ≠ [] → consuming pc q es l →
  all_datas es' = all_datas es ++ [x] →
  behind pc es' = behind pc es ++ [x].
Proof.
  intros Hne Hc He. unfold behind. rewrite He. apply drop_app_le.
  rewrite length_fmap. destruct pc; try (destruct es; simpl; [done|lia]).
  simpl in Hc. destruct Hc as (_ & n & _ & Hl).
  apply lookup_lt_Some in Hl. rewrite length_fmap in Hl. lia.
Qed.

Lemma producing_consumer ps q q' es es' cp cp' (cur : list T) :
  tail_ q' = tail_ q → last es' = last es →
  (∀ n, (n ∉ es.*1 ++ unlinked cp) →
        (n ∉ es'.*1 ++ unlinked cp') ∧ nodes q' !! n = nodes q !! n) →
  (∀ c, Some c ∉ behind cp es →
        (Some c ∉ behind cp' es') ∧ cells q' !! c = cells q !! c) →
  producing ps q es cp cur → producing ps q' es' cp' cur.
Proof.
  intros Ht Hl Hn Hc.
  assert (Hf : ∀ new item, fresh_node q es cp new item → fresh_node q' es' cp' new item).
  { intros new item (Hnew & c & Hnn & Hcc & Hcb).
    destruct (Hn _ Hnew) as [Hnew' Hnn']. destruct (Hc _ Hcb) as [Hcb' Hcc'].
    split; [done|]. exists c. by rewrite Hnn', Hcc'. }
  destruct ps; simpl; rewrite ?Ht, ?Hl; try done.
  - intros (? & item & ? & ?). split; [done|]. exists item. split; [done|]. by apply Hf.
  - intros (? & ? & item & ? & ?). split; [done|]. split; [done|].
    exists item. split; [done|]. by apply Hf.
Qed.

Lemma producer_turn all d q es l cur :
  Duet all d q es l cur →
  ∃ d' q' es' l' cur',
    duet_step true d q = Ok (d', q') ∧ Duet all d' q' es' l' cur'.
Proof.
  destruct d as [ps ts cp k tk].
  intros [[Hlk Hheld] Hne Hnd Hpay Hcells Hprod Hcons Hitems].
  simpl in *. unfold duet_step. simpl.
  destruct ps as [item|new|prev new|b| | | | | | | | ]; simpl in Hprod; try done.
  - destruct Hprod as (Htail & item & -> & Hnew & c & Hn & Hc & Hcb).
    exists (mkDuet (QLink (tail_ q) new) ts cp k tk),
      {| nodes := nodes q; cells := cells q; head_ := head_ q; tail_ := Some new |},
      es, l, [item].
    split; [done|]. split; simpl; try done.
    split; [done|]. split; [done|]. exists item. split; [done|].
    split; [done|]. by exists c.
  - destruct Hprod as (Htail & -> & item & -> & Hnew & c & Hn & Hc & Hcb).
    destruct es as [|[t tn] pre _] using rev_ind; [done|]. clear Hne.
    rewrite last_snoc. simpl.
    assert (Ht : nodes q !! t = Some tn).
    { apply Hheld, elem_of_app. right. by left. }
    unfold store_next. simpl. rewrite Ht. simpl.
    assert (Hnt : new ≠ t).
    { intros ->. apply Hnew. rewrite fmap_app. simpl.
      apply elem_of_app. left. apply elem_of_app. right. by left. }
    assert (Htpre : t ∉ pre.*1).
    { pose proof Hnd as Hnd'. rewrite fmap_app in Hnd'. simpl in Hnd'.
      apply NoDup_app in Hnd' as (Hnd1 & _ & _).
      apply NoDup_app in Hnd1 as (_ & Hnd2 & _).
      intros Hin. by apply (Hnd2 t); [|left]. }
    set (es' := pre ++ [(t, mkNode (data tn) (Some new)); (new, mkNode (Some c) None)]).
    assert (He1 : es'.*1 = (pre ++ [(t, tn)]).*1 ++ [new]).
    { unfold es'. rewrite !fmap_app. simpl. by rewrite <-app_assoc. }
    assert (He2 : all_datas es' = all_datas (pre ++ [(t, tn)]) ++ [Some c]).
    { unfold es'. rewrite !fmap_app. simpl. by rewrite <-app_assoc. }
    assert (Hb : behind cp es' = behind cp (pre ++ [(t, tn)]) ++ [Some c]).
    { eapply behind_grow; [|exact Hcons|exact He2]. by destruct pre. }
    eexists (mkDuet (QEnqueued true) ts cp k tk), _, es', (l ++ [item]), [].
    split; [reflexivity|]. split; simpl.
    + split.
      * by eapply linked_snoc_link.
      * apply held_app in Hheld as [Hpre _]. apply held_app. split.
        { by apply held_insert. }
        apply held_cons. split; [apply lookup_insert_eq|].
        apply held_cons. split; [|apply held_nil]. simpl.
        by rewrite lookup_insert_ne.
    + unfold es'. by destruct pre.
    + rewrite He1, <-app_assoc. simpl. rewrite <-Permutation_middle.
      by apply NoDup_cons.
    + rewrite Hb. apply Forall2_app; [done|].
      constructor; [|constructor]. by exists c.
    + rewrite Hb. apply NoDup_app. split; [done|]. split.
      * by intros x Hx ->%list_elem_of_singleton.
      * apply NoDup_singleton.
    + split; [|done]. unfold es'. rewrite (last_app_cons pre [_] _).
      by rewrite Htail.
    + eapply consuming_grow; [| |exact He1|exact He2|exact Hcons]; [done|].
      simpl. intros h Hs. destruct (decide (h = t)) as [->|Hh].
      * rewrite lookup_insert_eq. by eexists.
      * by rewrite lookup_insert_ne.
    + rewrite <-Hitems. by rewrite <-!app_assoc.
  - destruct Hprod as [Htail ->]. destruct ts as [|item items].
    { exists (mkDuet (QEnqueued b) [] cp k tk), q, es, l, [].
      split; [done|]. by split. }
    pose proof (fresh_None (nodes q)) as Hnew.
    pose proof (fresh_None (cells q)) as Hc.
    unfold queue_step, allocate_node, store_data, store_next.
    set (new := fresh (dom (nodes q))) in *.
    set (c := fresh (dom (cells q))) in *.
    simpl. rewrite lookup_insert_eq. simpl. rewrite lookup_insert_eq. simpl.
    rewrite !insert_insert_eq.
    assert (Hnes : new ∉ es.*1) by by eapply held_fresh.
    eexists (mkDuet (QExchange new) items cp k tk), _, es, l, [item].
    split; [reflexivity|]. split; simpl; try done.
    + split; [done|]. by apply held_insert.
    + eapply Forall2_impl; [exact Hpay|]. intros ? ? ?. by apply payload_insert.
    + split; [done|]. exists item. split; [done|]. split.
      * intros [Hin|Hin]%elem_of_app; [done|].
        destruct cp as [| | | | | |[h|] res|]; simpl in Hin; try by apply elem_of_nil in Hin.
        apply list_elem_of_singleton in Hin as ->.
        simpl in Hcons. destruct Hcons as (h' & [= <-] & [x Hx]). congruence.
      * exists c. simpl. rewrite !lookup_insert_eq. split; [done|]. split; [done|].
        by eapply payload_not_fresh.
    + eapply consuming_heap; [| |exact Hcons]; [done|]. simpl.
      intros h Hs. destruct (decide (h = new)) as [->|Hh].
      * rewrite lookup_insert_eq. by eexists.
      * by rewrite lookup_insert_ne.
Qed.

(** A turn of the consumer that frees nothing and takes nothing. *)
Lemma consumer_moves all ps ts cp cp' k k' tk tk' q es l cur :
  Duet all (mkDuet ps ts cp k tk) q es l cur →
  unlinked cp' = unlinked cp → behind cp' es = behind cp es →
  in_hand cp' = in_hand cp → omap id tk' = omap id tk →
  consuming cp' q es l →
  Duet all (mkDuet ps ts cp' k' tk') q es l cur.
Proof.
  intros [Hch Hne Hnd Hpay Hcells Hprod Hcons Hitems] Hu Hb Hi Ht Hc.
  unfold taken in Hitems. simpl in *.
  split; unfold taken; simpl; rewrite ?Hu, ?Hb, ?Hi, ?Ht; try done.
  eapply producing_consumer; [| | | |exact Hprod]; try done.
  - intros n Hn. by rewrite Hu.
  - intros c Hcb. by rewrite Hb.
Qed.

Lemma consumer_turn all d q es l cur :
  Duet all d q es l cur →
  ∃ d' q' es' l' cur',
    duet_step false d q = Ok (d', q') ∧ Duet all d' q' es' l' cur'.
Proof.
  destruct d as [ps ts cp k tk]. intros HD.
  pose proof HD as [[Hlk Hheld] Hne Hnd Hpay Hcells Hprod Hcons Hitems].
  unfold taken in Hitems. simpl in *. unfold duet_step. simpl.
  destruct es as [|[h hn] rest]; [done|]. clear Hne.
  destruct Hlk as [Hhead Hlk].
  assert (Hh : nodes q !! h = Some hn) by (apply Hheld; by left).
  destruct cp as [|hd|hd nx|hd nx dd|hd nx dd res|hd nx res|hd res|r];
    simpl in Hcons.
  - eexists _, q, _, l, cur. split; [reflexivity|].
    eapply consumer_moves; [exact HD|..]; try done. by rewrite app_nil_r.
  - subst hd. rewrite Hhead. simpl. rewrite Hh. simpl.
    destruct (next hn) as [n|] eqn:Hn.
    + eexists _, q, _, l, cur. split; [reflexivity|].
      eapply consumer_moves; [exact HD|..]; try done; [by rewrite app_nil_r|].
      simpl. split; [done|]. exists n. split; [done|].
      destruct rest as [|[n' nn] rest']; simpl in Hlk; [done|].
      by destruct Hlk as [[= <-] _].
    + eexists _, q, _, l, cur. split; [reflexivity|].
      eapply consumer_moves; [exact HD|..]; try done.
      rewrite omap_app. simpl. by rewrite app_nil_r.
  - destruct Hcons as (-> & n & -> & Hl).
    destruct rest as [|[n' nn] rest']; [done|]. simpl in Hl. injection Hl as ->.
    assert (Hnn : nodes q !! n = Some nn) by (apply Hheld; right; by left).
    simpl. rewrite Hnn. simpl.
    unfold behind in Hpay. simpl in Hpay.
    apply Forall2_cons_inv_l in Hpay as (v & l' & (c & Hd & Hc) & Hpay & ->).
    rewrite Hd.
    eexists _, q, _, (v :: l'), cur. split; [reflexivity|].
    eapply consumer_moves; [exact HD|..]; try done; [by rewrite app_nil_r|].
    simpl. split; [done|]. split; [by exists n|]. by rewrite Hd.
  - destruct Hcons as (-> & (n & -> & Hl) & Hdd).
    destruct rest as [|[n' nn] rest']; [done|]. simpl in Hl, Hdd.
    injection Hl as ->. injection Hdd as <-.
    unfold behind in Hpay. simpl in Hpay.
    apply Forall2_cons_inv_l in Hpay as (v & l' & (c & Hd & Hc) & Hpay & ->).
    rewrite Hd. simpl. rewrite Hc. simpl.
    eexists _, q, _, (v :: l'), cur. split; [reflexivity|].
    eapply consumer_moves; [exact HD|..]; try done; [by rewrite app_nil_r|].
    simpl. split; [done|]. split; [by exists n|]. by rewrite Hd.
  - destruct Hcons as (-> & (n & -> & Hl) & Hdd & Hres).
    destruct rest as [|[n' nn] rest']; [done|]. simpl in Hl, Hdd.
    injection Hl as ->. injection Hdd as <-.
    unfold behind in Hpay, Hcells. simpl in Hpay, Hcells.
    apply Forall2_cons_inv_l in Hpay as (v & l' & (c & Hd & Hc) & Hpay & ->).
    simpl in Hres. injection Hres as ->.
    rewrite Hd in *. simpl. rewrite Hc. simpl.
    apply NoDup_cons in Hcells as [Hc1 Hc2].
    eexists _, _, ((h, hn) :: (n, nn) :: rest'), l', cur. split; [reflexivity|].
    split; simpl; try done.
    + eapply Forall2_impl_elem; [exact Hpay|]. intros x y Hx Hp.
      apply payload_delete; [|done]. by intros ->.
    + eapply producing_consumer; [| | | |exact Hprod]; try done.
      unfold behind. simpl. rewrite Hd. intros c0 Hc0.
      apply not_elem_of_cons in Hc0 as [Hne Hc0]. split; [done|].
      apply lookup_delete_ne. congruence.
    + split; [done|]. by exists n.
    + by rewrite app_nil_r.
  - destruct Hcons as (-> & n & -> & Hl).
    destruct rest as [|[n' nn] rest']; [done|]. simpl in Hl. injection Hl as ->.
    simpl in Hlk. destruct Hlk as [Hn Hlk].
    rewrite app_nil_r in Hnd. apply NoDup_cons in Hnd as [Hnd1 Hnd2].
    apply held_cons in Hheld as [_ Hheld].
    eexists _, _, ((n, nn) :: rest'), l, cur. split; [reflexivity|].
    rewrite Hhead. split; simpl; try done.
    + change (NoDup (((n, nn) :: rest').*1 ++ [h])).
      rewrite <-Permutation_cons_append. by apply NoDup_cons.
    + eapply producing_consumer; [| | | |exact Hprod]; try done.
      intros n0 Hn0. split; [|done]. simpl in Hn0. rewrite app_nil_r in Hn0.
      change (n0 ∉ ((n, nn) :: rest').*1 ++ [h]).
      by rewrite <-Permutation_cons_append.
    + exists h. by rewrite Hh.
    + by rewrite app_nil_r.
  - destruct Hcons as (h0 & -> & [x Hx]). simpl. rewrite Hx. simpl.
    change (NoDup (((h, hn) :: rest).*1 ++ [h0])) in Hnd.
    rewrite <-Permutation_cons_append in Hnd.
    apply NoDup_cons in Hnd as [Hnd1 Hnd2].
    eexists _, _, ((h, hn) :: rest), l, cur. split; [reflexivity|].
    split; simpl; try done.
    + split; [done|]. by apply held_delete.
    + by rewrite app_nil_r.
    + eapply producing_consumer; [| | | |exact Hprod]; try done.
      intros n0 Hn0. change (n0 ∉ ((h, hn) :: rest).*1 ++ [h0]) in Hn0.
      rewrite <-Permutation_cons_append in Hn0.
      apply not_elem_of_cons in Hn0 as [Hne Hn0]. split.
      * simpl. by rewrite app_nil_r.
      * by apply lookup_delete_ne.
    + unfold taken. simpl. rewrite omap_app. simpl. rewrite <-Hitems.
      by rewrite <-!app_assoc.
  - destruct k as [|k].
    + by eexists _, q, _, l, cur.
    + eexists _, q, _, l, cur. split; [reflexivity|].
      eapply consumer_moves; [exact HD|..]; try done. by rewrite app_nil_r.
Qed.

Lemma turn_Duet all b d q es l cur :
  Duet all d q es l cur →
  ∃ d' q' es' l' cur',
    duet_step b d q = Ok (d', q') ∧ Duet all d' q' es' l' cur'.
Proof. destruct b; [apply producer_turn|apply consumer_turn]. Qed.

(** A turn is one of the accesses its thread has left. *)
Lemma turn_left all b d q es l cur d' q' :
  Duet all d q es l cur → duet_step b d q = Ok (d', q') →
  producer_left d' ≤ producer_left d - (if b then 1 else 0) ∧
  consumer_left d' ≤ consumer_left d - (if b then 0 else 1) ∧
  dequeue_calls d' = dequeue_calls d.
Proof.
  destruct d as [ps ts cp k tk]. intros [_ _ _ _ _ Hprod _ _].
  unfold duet_step, producer_left, consumer_left, dequeue_calls. simpl in *.
  destruct b.
  - destruct ps as [item|new|prev new|b| | | | | | | | ]; simpl in Hprod; try done.
    + simpl. intros [= <- <-]. simpl. lia.
    + simpl. destruct (store_next _ _ _); simpl; intros [= <- <-]. simpl. lia.
    + destruct ts as [|item items].
      * intros [= <- <-]. simpl. lia.
      * unfold queue_step, allocate_node.
        destruct (store_data _ _ _) as [ns1| |]; simpl; [|done..].
        destruct (store_next _ _ _) as [ns2| |]; simpl; [|done..].
        intros [= <- <-]. simpl. lia.
  - destruct cp as [|hd|hd nx|hd nx dd|hd nx dd res|hd nx res|hd res|r]; simpl.
    + intros [= <- <-]. simpl. rewrite length_app. simpl. lia.
    + destruct (deref _ _) as [hn| |]; simpl; [|done..].
      destruct (next hn); intros [= <- <-]; simpl; rewrite length_app; simpl; lia.
    + destruct (deref _ _) as [nn| |]; simpl; [|done..].
      destruct (data nn); intros [= <- <-]; simpl; rewrite length_app; simpl; lia.
    + destruct (deref _ _) as [v| |]; simpl; [|done..].
      intros [= <- <-]; simpl; rewrite length_app; simpl; lia.
    + destruct (delete_cell _ _) as [cs| |]; simpl; [|done..].
      intros [= <- <-]; simpl; rewrite length_app; simpl; lia.
    + intros [= <- <-]; simpl; rewrite length_app; simpl; lia.
    + destruct (deallocate_node _ _) as [ns| |]; simpl; [|done..].
      intros [= <- <-]; simpl; rewrite length_app; simpl; lia.
    + destruct k as [|k]; intros [= <- <-]; simpl; rewrite ?length_app; simpl; lia.
Qed.

Lemma race_Duet all schedule :
  ∀ d q es l cur,
    Duet all d q es l cur →
    ∃ d' q' es' l' cur',
      duet_race schedule d q = Ok (d', q') ∧ Duet all d' q' es' l' cur' ∧
      producer_left d' ≤ producer_left d - turns true schedule ∧
      consumer_left d' ≤ consumer_left d - turns false schedule ∧
      dequeue_calls d' = dequeue_calls d.
Proof.
  induction schedule as [|b schedule IH]; intros d q es l cur HD.
  - exists d, q, es, l, cur. unfold turns. simpl. split_and!; [done|done|lia|lia|done].
  - destruct (turn_Duet all b d q es l cur HD) as (d1 & q1 & es1 & l1 & cur1 & Hs & HD1).
    destruct (turn_left all b d q es l cur d1 q1 HD Hs) as (Hp & Hc & Hk).
    destruct (IH d1 q1 es1 l1 cur1 HD1) as (d2 & q2 & es2 & l2 & cur2 & Hr & HD2 & Hp2 & Hc2 & Hk2).
    exists d2, q2, es2, l2, cur2. simpl. rewrite Hs. simpl.
    split; [done|]. split; [done|]. unfold turns in *. simpl.
    destruct b; simpl; (split_and!; [lia|lia|congruence]).
Qed.

Lemma start_Duet q l0 (items : list T) calls :
  wf q l0 → ∃ es, Duet (l0 ++ items) (duet_start items calls) q es l0 [].
Proof.
  intros (es & Hne & [Hch Htail Hnd Hpay Hcells]). exists es.
  assert (He : behind (SDequeued (@None T)) es = datas es).
  { unfold behind, datas. by destruct es. }
  split; simpl; rewrite ?app_nil_r, ?He; try done.
Qed.

Lemma done_wf all d q es l cur :
  Duet all d q es l cur → duet_done d = true →
  wf q l ∧ taken d ++ l = all.
Proof.
  destruct d as [ps ts cp k tk].
  intros [Hch Hne Hnd Hpay Hcells Hprod Hcons Hitems]. unfold duet_done. simpl in *.
  destruct ps; try done. destruct ts; [|done]. destruct cp; try done.
  destruct k; [|done]. intros _. simpl in *. destruct Hprod as [Htail ->].
  rewrite app_nil_r in Hnd, Hitems.
  assert (He : behind (SDequeued r) es = datas es).
  { unfold behind, datas. by destruct es. }
  rewrite He in *. split; [|done]. exists es. by split.
Qed.

Lemma left_done all d q es l cur :
  Duet all d q es l cur → producer_left d = 0 → consumer_left d = 0 →
  duet_done d = true.
Proof.
  destruct d as [ps ts cp k tk]. intros [_ _ _ _ _ Hprod _ _].
  unfold producer_left, consumer_left, duet_done. simpl in *.
  destruct ps; simpl in Hprod; try done; try lia.
  destruct ts; simpl; [|lia]. destruct cp; try lia. destruct k; [done|lia].
Qed.

Lemma run_store_wf fuel (ops : list (op T)) :
  length ops < fuel →
  ∃ q, run (step_store fuel) new_queue ops = Ok ((fifo_run [] ops).1, q) ∧
       wf q (fifo_run [] ops).2.
Proof.
  intros Hfuel.
  destruct (run_refines_fifo (T := T) (step_store fuel) (λ _, True) fuel) with
    (ops := ops) (q := new_queue (T := T)) (l := @nil T) as (q' & Hq' & Hwf).
  - intros q l o Hwf Hl _. by apply step_store_spec.
  - apply new_queue_wf.
  - simpl. lia.
  - by apply Forall_true.
  - by exists q'.
Qed.

(** One producer and one consumer, from every queue one thread can
    make. *)
Lemma duet_spec fuel (ops : list (op T)) (items : list T) calls schedule :
  length ops < fuel →
  ∃ rs q d q',
    run (step_store fuel) new_queue ops = Ok (rs, q) ∧
    duet_race schedule (duet_start items calls) q = Ok (d, q') ∧
    taken d `prefix_of` (fifo_run [] ops).2 ++ items ∧
    (duet_done d = true →
     length (took d) = calls ∧
     ∃ l, wf q' l ∧ taken d ++ l = (fifo_run [] ops).2 ++ items) ∧
    (3 * length items ≤ turns true schedule →
     7 * calls ≤ turns false schedule → duet_done d = true).
Proof.
  intros Hfuel. destruct (run_store_wf fuel ops Hfuel) as (q & Hrun & Hwf).
  destruct (start_Duet q _ items calls Hwf) as (es & HD).
  destruct (race_Duet _ schedule _ _ _ _ _ HD)
    as (d & q' & es' & l' & cur' & Hrace & HD' & Hp & Hc & Hk).
  exists (fifo_run [] ops).1, q, d, q'. split; [done|]. split; [done|].
  unfold producer_left, consumer_left, dequeue_calls in Hp, Hc, Hk. simpl in Hp, Hc, Hk.
  split_and!.
  - destruct HD' as [_ _ _ _ _ _ _ Hitems]. rewrite <-Hitems. by eexists.
  - intros Hdone. destruct (done_wf _ _ _ _ _ _ HD' Hdone) as [Hwf' Hall].
    split; [|by exists l'].
    unfold duet_done in Hdone. destruct (sending d); try done.
    destruct (to_send d); try done. destruct (taking d); try done.
    destruct (to_take d); [lia|done].
  - intros Ht Hf. eapply left_done; [exact HD'| |].
    + unfold producer_left. lia.
    + unfold consumer_left. lia.
Qed.

End QueueDuetFacts.
End QueueDuetFacts.

(** ** The hash map *)

Module HashMapFacts.
Import HashMap.
Section HashMapFacts.
Context {Key Value : Type} `{Countable Key}.
Variable hasher_ : Key → N.
Implicit Types (m : LockFreeHashMap Key Value) (M : gmap Key Value).
Implicit Types (es : list (loc * Node Key)) (bs : list (list (loc * Node Key))).
Implicit Types (e : loc * Node Key) (k : Key).

Abbreviation keys es := ((λ e : loc * Node Key, key e.2) <$> es).
Abbreviation vals es := ((λ e : loc * Node Key, value e.2) <$> es).

(** *** Looking a key up in a chain *)

Lemma first_match_Some k es e :
  first_match k es = Some e → e ∈ es ∧ marked e.2 = false ∧ key e.2 = k.
Proof.
  induction es as [|e' es IH]; simpl; [done|].
  destruct (negb (marked e'.2) && bool_decide (key e'.2 = k)) eqn:Hc.
  - intros [= ->]. apply andb_true_iff in Hc as [Hm Hk].
    apply negb_true_iff in Hm. apply bool_decide_eq_true in Hk.
    split_and!; [by left|done|done].
  - intros He. destruct (IH He) as (? & ? & ?). split_and!; [by right|done|done].
Qed.

Lemma first_match_None k es e :
  first_match k es = None → e ∈ es → marked e.2 = false → key e.2 ≠ k.
Proof.
  induction es as [|e' es IH]; simpl; [by intros _ ?%elem_of_nil|].
  destruct (negb (marked e'.2) && bool_decide (key e'.2 = k)) eqn:Hc; [done|].
  intros Hn [->|Hin]%elem_of_cons Hm.
  - intros Hk. rewrite Hm in Hc. simpl in Hc.
    by apply bool_decide_eq_false in Hc.
  - by apply IH.
Qed.

Lemma find_node_spec (ns : gmap loc (Node Key)) es :
  held ns es →
  ∀ fuel p k, linked next p es → length es ≤ fuel →
    find_node fuel ns p k = Ok (fst <$> first_match k es).
Proof.
  induction es as [|[l nd] es IH]; intros Hheld fuel p k Hlk Hfuel.
  - simpl in Hlk. subst p. by destruct fuel.
  - destruct Hlk as [-> Hlk]. apply held_cons in Hheld as [Hl Hheld].
    destruct fuel as [|fuel]; [simpl in Hfuel; lia|].
    simpl in *. rewrite Hl. simpl.
    destruct (negb (marked nd) && bool_decide (key nd = k)); [done|].
    apply IH; [done|done|lia].
Qed.

(** *** One bucket among the others *)

Lemma concat_lookup_perm bs i es :
  bs !! i = Some es →
  ∃ others, concat bs ≡ₚ es ++ others ∧
            ∀ es', concat (<[i := es']> bs) ≡ₚ es' ++ others.
Proof. apply concat_insert_perm. Qed.

Lemma elem_of_concat bs e :
  e ∈ concat bs ↔ ∃ i es, bs !! i = Some es ∧ e ∈ es.
Proof.
  rewrite list_elem_of_In, in_concat. split.
  - intros (es & Hes & He). apply list_elem_of_In, list_elem_of_lookup in Hes as [i Hi].
    exists i, es. by rewrite list_elem_of_In.
  - intros (i & es & Hi & He). exists es. split; [|by apply list_elem_of_In].
    apply list_elem_of_In, list_elem_of_lookup. by exists i.
Qed.

Lemma bucket_of_lt n k : n ≠ 0 → bucket_of hasher_ n k < n.
Proof.
  intros Hn. unfold bucket_of.
  assert (hasher_ k mod N.of_nat n < N.of_nat n)%N by (apply N.mod_lt; lia).
  lia.
Qed.

Lemma bucket_index_length m m' k :
  length (buckets_ m') = length (buckets_ m) →
  bucket_index hasher_ m' k = bucket_index hasher_ m k.
Proof. intros Hl. unfold bucket_index. by rewrite Hl. Qed.

Lemma keys_length_le M (ks : list Key) :
  NoDup ks → (∀ k, k ∈ ks → is_Some (M !! k)) → length ks ≤ base.size M.
Proof.
  intros Hnd Hin. rewrite <-(size_list_to_set (C := gset Key)) by done.
  rewrite <-size_dom. apply subseteq_size. intros k Hk.
  apply elem_of_list_to_set in Hk. by apply elem_of_dom, Hin.
Qed.

(** What the invariant says about the bucket of a key. *)
Lemma Inv_bucket m M bs k :
  Inv hasher_ m M bs →
  ∃ p es,
    bucket_index hasher_ m k = Ok (bucket_of hasher_ (length (buckets_ m)) k) ∧
    bucket m (bucket_of hasher_ (length (buckets_ m)) k) = Ok p ∧
    buckets_ m !! bucket_of hasher_ (length (buckets_ m)) k = Some p ∧
    bs !! bucket_of hasher_ (length (buckets_ m)) k = Some es ∧
    linked next p es ∧ held (nodes m) es ∧ length es ≤ base.size M.
Proof.
  intros HI. pose proof (inv_nonempty _ _ _ _ HI) as Hne.
  set (i := bucket_of hasher_ (length (buckets_ m)) k).
  assert (Hi : i < length (buckets_ m)).
  { apply bucket_of_lt. by destruct (buckets_ m). }
  destruct (lookup_lt_is_Some_2 _ _ Hi) as [p Hp].
  destruct (Forall2_lookup_l _ _ _ _ _ (inv_linked _ _ _ _ HI) Hp) as (es & Hes & Hlk).
  exists p, es. split_and!; try done.
  - unfold bucket_index. rewrite decide_False; [done|]. lia.
  - unfold bucket. fold i. by rewrite Hp.
  - intros l nd Hin. apply (flat_held _ _ _ _ (inv_flat _ _ _ _ HI)). apply elem_of_concat. by exists i, es.
  - destruct (concat_lookup_perm _ _ _ Hes) as (others & Hperm & _).
    rewrite <-(length_fmap (λ e, key e.2)). apply keys_length_le.
    + pose proof (flat_keys _ _ _ _ (inv_flat _ _ _ _ HI)) as Hnd. rewrite Hperm, fmap_app in Hnd.
      by apply NoDup_app in Hnd as [? _].
    + intros k' [e [-> He]]%list_elem_of_fmap.
      pose proof (flat_entry _ _ _ _ (inv_flat _ _ _ _ HI)) as Hall. rewrite Forall_forall in Hall.
      destruct (Hall e) as (_ & vl & v & _ & _ & ->); [|done].
      apply elem_of_concat. by exists i, es.
Qed.

Lemma Inv_entry m M bs e :
  Inv hasher_ m M bs → e ∈ concat bs → entry_ok (values m) M e.
Proof.
  intros HI He. pose proof (flat_entry _ _ _ _ (inv_flat _ _ _ _ HI)) as Hall.
  rewrite Forall_forall in Hall. by apply Hall.
Qed.

Lemma Inv_key_inj m M bs e1 e2 :
  Inv hasher_ m M bs → e1 ∈ concat bs → e2 ∈ concat bs →
  key e1.2 = key e2.2 → e1 = e2.
Proof.
  intros HI H1 H2 Hk.
  apply list_elem_of_lookup in H1 as [i1 H1], H2 as [i2 H2].
  assert (i1 = i2) as ->; [|congruence].
  eapply NoDup_lookup; [apply (flat_keys _ _ _ _ (inv_flat _ _ _ _ HI))| |].
  - rewrite list_lookup_fmap, H1. done.
  - rewrite list_lookup_fmap, H2. simpl. by rewrite Hk.
Qed.

Lemma find_live m M bs k v es :
  Inv hasher_ m M bs →
  bs !! bucket_of hasher_ (length (buckets_ m)) k = Some es →
  M !! k = Some v →
  ∃ l nd vl,
    first_match k es = Some (l, nd) ∧ (l, nd) ∈ es ∧ key nd = k ∧
    marked nd = false ∧ value nd = Some vl ∧ values m !! vl = Some v.
Proof.
  intros HI Hes HM.
  destruct (flat_complete _ _ _ _ (inv_flat _ _ _ _ HI) k) as (e & He & Hk); [by eexists|].
  pose proof He as (j & es' & Hj & He')%elem_of_concat.
  pose proof (inv_bucket _ _ _ _ HI j es' e Hj He') as Hb.
  rewrite Hk in Hb. subst j. rewrite Hes in Hj. injection Hj as <-.
  destruct (Inv_entry _ _ _ _ HI He) as (Hm & vl & v' & Hvl & Hv' & HM').
  destruct (first_match k es) as [[l nd]|] eqn:Hfm.
  - destruct (first_match_Some _ _ _ Hfm) as (Hin & Hm' & Hk'). simpl in *.
    assert ((l, nd) = e) as <-.
    { eapply (Inv_key_inj _ _ _ _ _ HI); [|done|simpl; congruence].
      apply elem_of_concat. eauto. }
    simpl in *. exists l, nd, vl. split_and!; try done. congruence.
  - by destruct (first_match_None _ _ _ Hfm He' Hm).
Qed.

Lemma find_dead m M bs k i es :
  Inv hasher_ m M bs → bs !! i = Some es → M !! k = None →
  first_match k es = None.
Proof.
  intros HI Hes HM. destruct (first_match k es) as [e|] eqn:Hfm; [|done].
  destruct (first_match_Some _ _ _ Hfm) as (Hin & _ & Hk).
  destruct (Inv_entry _ _ _ e HI) as (_ & vl & v & _ & _ & HM').
  { apply elem_of_concat. eauto. }
  congruence.
Qed.

Lemma get_spec fuel m M k :
  wf hasher_ m M → base.size M ≤ fuel → get hasher_ fuel m k = Ok (M !! k).
Proof.
  intros [bs HI] Hfuel.
  destruct (Inv_bucket _ _ _ k HI) as (p & es & Hidx & Hb & _ & Hes & Hlk & Hheld & Hlen).
  unfold get. rewrite Hidx. simpl. rewrite Hb. simpl.
  rewrite (find_node_spec _ es Hheld) by (done || lia).
  destruct (M !! k) as [v|] eqn:HM.
  - destruct (find_live _ _ _ _ _ _ HI Hes HM) as (l & nd & vl & -> & Hin & _ & _ & Hvl & Hv).
    simpl. rewrite (Hheld _ _ Hin). simpl. rewrite Hvl. simpl. by rewrite Hv.
  - by rewrite (find_dead _ _ _ _ _ _ HI Hes HM).
Qed.

Lemma contains_spec fuel m M k :
  wf hasher_ m M → base.size M ≤ fuel →
  contains hasher_ fuel m k = Ok (present M k).
Proof.
  intros [bs HI] Hfuel.
  destruct (Inv_bucket _ _ _ k HI) as (p & es & Hidx & Hb & _ & Hes & Hlk & Hheld & Hlen).
  unfold contains, present. rewrite Hidx. simpl. rewrite Hb. simpl.
  rewrite (find_node_spec _ es Hheld) by (done || lia).
  destruct (M !! k) as [v|] eqn:HM.
  - by destruct (find_live _ _ _ _ _ _ HI Hes HM) as (l & nd & vl & -> & _).
  - by rewrite (find_dead _ _ _ _ _ _ HI Hes HM).
Qed.

(** *** The order-independent part of the invariant under updates *)

Implicit Types (ns : gmap loc (Node Key)) (vs : gmap loc Value).
Implicit Types (L : list (loc * Node Key)).

Lemma Flat_perm ns vs M L L' :
  L ≡ₚ L' → Flat ns vs M L → Flat ns vs M L'.
Proof.
  intros Hp [Hh Hn Hv Hk He Hc]. split.
  - intros l nd Hin. apply Hh. by rewrite Hp.
  - by rewrite <-Hp.
  - by rewrite <-Hp.
  - by rewrite <-Hp.
  - by rewrite <-Hp.
  - intros k Hk'. destruct (Hc k Hk') as (e & He' & Hke). exists e. by rewrite <-Hp.
Qed.

Lemma entry_ok_fresh_val vs M L nv :
  Forall (entry_ok vs M) L → vs !! nv = None → Some nv ∉ vals L.
Proof.
  intros Hall Hnv [e [Heq He]]%list_elem_of_fmap.
  rewrite Forall_forall in Hall.
  destruct (Hall e He) as (_ & vl & v & Hvl & Hv & _). congruence.
Qed.

Lemma entry_ok_absent_key vs M L k :
  Forall (entry_ok vs M) L → M !! k = None → k ∉ keys L.
Proof.
  intros Hall Hk [e [Heq He]]%list_elem_of_fmap.
  rewrite Forall_forall in Hall.
  destruct (Hall e He) as (_ & vl & v & _ & _ & HM). congruence.
Qed.

(** A node for a key that was absent is added. *)
Lemma Flat_add ns ns' vs M L k v new nv nx :
  Flat ns vs M L → M !! k = None → new ∉ L.*1 → vs !! nv = None →
  held ns' ((new, mkNode k (Some nv) nx false) :: L) →
  Flat ns' (<[nv := v]> vs) (<[k := v]> M) ((new, mkNode k (Some nv) nx false) :: L).
Proof.
  intros [Hh Hn Hv Hk He Hc] HM Hnew Hnv Hh'.
  pose proof (entry_ok_fresh_val _ _ _ _ He Hnv) as Hnv'.
  pose proof (entry_ok_absent_key _ _ _ _ He HM) as Hk'.
  split; simpl.
  - done.
  - by apply NoDup_cons.
  - by apply NoDup_cons.
  - by apply NoDup_cons.
  - apply Forall_cons. split.
    + split; [done|]. exists nv, v. simpl. by rewrite !lookup_insert_eq.
    + eapply Forall_impl; [exact He|]. intros e (Hm & vl & w & Hvl & Hw & HMe).
      split; [done|]. exists vl, w. split_and!; [done| |].
      * rewrite lookup_insert_ne; [done|]. congruence.
      * rewrite lookup_insert_ne; [done|]. congruence.
  - intros k' Hk''. destruct (decide (k' = k)) as [->|Hne].
    + eexists. split; [by left|done].
    + rewrite lookup_insert_ne in Hk'' by done.
      destruct (Hc k' Hk'') as (e & Hin & Hke). exists e. split; [by right|done].
Qed.

(** The value object of a node is replaced. *)
Lemma Flat_set_value ns ns' vs M l nd rest vl nv v :
  Flat ns vs M ((l, nd) :: rest) → value nd = Some vl → vs !! nv = None →
  held ns' ((l, with_value nd (Some nv)) :: rest) →
  Flat ns' (delete vl (<[nv := v]> vs)) (<[key nd := v]> M)
       ((l, with_value nd (Some nv)) :: rest).
Proof.
  intros [Hh Hn Hv Hk He Hc] Hvl Hnv Hh'. simpl in *.
  pose proof (entry_ok_fresh_val _ _ _ _ He Hnv) as Hnv'.
  apply NoDup_cons in Hv as [Hv1 Hv2]. apply NoDup_cons in Hk as [Hk1 Hk2].
  apply Forall_cons in He as [He1 He2].
  split; simpl.
  - done.
  - done.
  - apply NoDup_cons. split; [|done]. intros Hin. apply Hnv'. simpl. by right.
  - by apply NoDup_cons.
  - apply Forall_cons. split.
    + destruct He1 as (Hm & vl' & w' & Hvl' & Hw' & _). simpl in *.
      split; [done|]. exists nv, v. simpl.
      rewrite lookup_insert_eq. split_and!; [done| |done].
      rewrite lookup_delete_ne by congruence. apply lookup_insert_eq.
    + rewrite Forall_forall in He2. apply Forall_forall. intros e Hin.
      destruct (He2 e Hin) as (Hm & x & w & Hx & Hw & HMe).
      split; [done|]. exists x, w. split_and!; [done| |].
      * rewrite lookup_delete_ne.
        { rewrite lookup_insert_ne; [done|]. congruence. }
        intros ->. apply Hv1. rewrite Hvl, <-Hx. apply list_elem_of_fmap. by exists e.
      * rewrite lookup_insert_ne; [done|].
        intros Heq. apply Hk1. rewrite Heq. apply list_elem_of_fmap. by exists e.
  - intros k' Hk''. destruct (decide (k' = key nd)) as [->|Hne].
    + eexists. split; [by left|done].
    + rewrite lookup_insert_ne in Hk'' by done.
      destruct (Hc k' Hk'') as (e & [->|Hin]%elem_of_cons & Hke); [done|].
      exists e. split; [by right|done].
Qed.

(** The link of a node is redirected. *)
Lemma Flat_relink ns ns' vs M l nd rest x :
  Flat ns vs M ((l, nd) :: rest) →
  held ns' ((l, with_next nd x) :: rest) →
  Flat ns' vs M ((l, with_next nd x) :: rest).
Proof.
  intros [Hh Hn Hv Hk He Hc] Hh'. simpl in *.
  apply Forall_cons in He as [He1 He2].
  split; simpl; try done.
  - by apply Forall_cons.
  - intros k' Hk'. destruct (Hc k' Hk') as (e & [->|Hin]%elem_of_cons & Hke).
    + eexists. split; [by left|done].
    + exists e. split; [by right|done].
Qed.

(** A node and its value object are removed. *)
Lemma Flat_remove ns ns' vs M l nd rest vl :
  Flat ns vs M ((l, nd) :: rest) → value nd = Some vl →
  held ns' rest →
  Flat ns' (delete vl vs) (delete (key nd) M) rest.
Proof.
  intros [Hh Hn Hv Hk He Hc] Hvl Hh'. simpl in *.
  apply NoDup_cons in Hn as [Hn1 Hn2].
  apply NoDup_cons in Hv as [Hv1 Hv2]. apply NoDup_cons in Hk as [Hk1 Hk2].
  apply Forall_cons in He as [He1 He2].
  split; try done.
  - rewrite Forall_forall in He2. apply Forall_forall. intros e Hin.
    destruct (He2 e Hin) as (Hm & x & w & Hx & Hw & HMe).
    split; [done|]. exists x, w. split_and!; [done| |].
    + rewrite lookup_delete_ne; [done|].
      intros ->. apply Hv1. rewrite Hvl, <-Hx. apply list_elem_of_fmap. by exists e.
    + rewrite lookup_delete_ne; [done|].
      intros Heq. apply Hk1. rewrite Heq. apply list_elem_of_fmap. by exists e.
  - intros k' Hk'. destruct (decide (k' = key nd)) as [->|Hne].
    + rewrite lookup_delete_eq in Hk'. by destruct Hk'.
    + rewrite lookup_delete_ne in Hk' by done.
      destruct (Hc k' Hk') as (e & [->|Hin]%elem_of_cons & Hke); [done|].
      by exists e.
Qed.

(** *** Rebuilding the invariant after bucket [i] changed *)

Lemma Inv_update m M bs i es m' M' p' es' others :
  Inv hasher_ m M bs → bs !! i = Some es →
  concat (<[i := es']> bs) ≡ₚ es' ++ others →
  buckets_ m' = <[i := p']> (buckets_ m) →
  linked next p' es' →
  Flat (nodes m') (values m') M' (es' ++ others) →
  (∀ e, e ∈ es' → bucket_of hasher_ (length (buckets_ m)) (key e.2) = i) →
  size_ m' = wrap (Z.of_nat (base.size M')) →
  Inv hasher_ m' M' (<[i := es']> bs).
Proof.
  intros HI Hes Hperm Hb Hlk Hflat Hbk Hsize.
  assert (Hlen : length (buckets_ m') = length (buckets_ m)).
  { by rewrite Hb, length_insert. }
  split.
  - pose proof (inv_nonempty _ _ _ _ HI). intros Heq. rewrite Heq in Hlen.
    by destruct (buckets_ m).
  - rewrite Hb. apply Forall2_insert; [|done]. apply (inv_linked _ _ _ _ HI).
  - by apply (Flat_perm _ _ _ (es' ++ others)).
  - intros j es0 e Hj He. rewrite Hlen. destruct (decide (i = j)) as [<-|Hne].
    + rewrite list_lookup_insert_eq in Hj by (by eapply lookup_lt_Some).
      injection Hj as <-. by apply Hbk.
    + rewrite list_lookup_insert_ne in Hj by done.
      by apply (inv_bucket _ _ _ _ HI j es0).
  - done.
Qed.

Lemma with_next_id (nd : Node Key) : with_next nd (next nd) = nd.
Proof. by destruct nd. Qed.

Lemma publish_spec fuel sp ns bhead new nd :
  ns !! new = Some nd → next nd = bhead → length sp < fuel →
  publish fuel sp ns bhead bhead new = Ok (ns, Some new).
Proof.
  intros Hnew Hnx. revert sp. induction fuel as [|fuel IH]; intros sp Hfuel; [lia|].
  simpl. destruct sp as [|[|] sp]; simpl.
  - by rewrite cas_weak_success.
  - rewrite Hnew. simpl.
    rewrite <-Hnx, with_next_id, insert_id by done. rewrite Hnx.
    apply IH. simpl in Hfuel. lia.
  - by rewrite cas_weak_success.
Qed.

Lemma insert_spec fuel sp m M k v :
  wf hasher_ m M → base.size M ≤ fuel → length sp < fuel →
  ∃ m', insert hasher_ fuel sp m k v = Ok (negb (present M k), m') ∧
        wf hasher_ m' (<[k := v]> M).
Proof.
  intros [bs HI] Hfuel Hsp.
  destruct (Inv_bucket _ _ _ k HI) as (p & es & Hidx & Hb & Hbp & Hes & Hlk & Hheld & Hlen).
  set (i := bucket_of hasher_ (length (buckets_ m)) k) in *.
  destruct (concat_lookup_perm _ _ _ Hes) as (others & Hperm & Hperm').
  pose proof (inv_flat _ _ _ _ HI) as Hflat.
  pose proof (fresh_None (values m)) as Hnv.
  set (nv := fresh (dom (values m))) in *.
  unfold insert, present. rewrite Hidx. simpl. rewrite Hb. simpl.
  rewrite (find_node_spec _ es Hheld) by (done || lia).
  destruct (M !! k) as [v0|] eqn:HM.
  - destruct (find_live _ _ _ _ _ _ HI Hes HM)
      as (l & nd & vl & -> & Hin & Hk & Hm & Hvl & Hv).
    simpl. rewrite (Hheld _ _ Hin). simpl. fold nv. rewrite Hvl. simpl.
    rewrite lookup_insert_ne by congruence. rewrite Hv.
    eexists. split; [reflexivity|].
    apply list_elem_of_split in Hin as (es1 & es2 & ->).
    exists (<[i := es1 ++ (l, with_value nd (Some nv)) :: es2]> bs).
    assert (Hp1 : concat bs ≡ₚ (l, nd) :: (es1 ++ es2 ++ others)).
    { rewrite Hperm. rewrite <-app_assoc. simpl. by rewrite <-Permutation_middle. }
    apply (Flat_perm _ _ _ _ _ Hp1) in Hflat.
    eapply Inv_update with (p' := p); [exact HI|exact Hes|apply Hperm'| | | | |]; simpl.
    + by rewrite list_insert_id.
    + by eapply linked_replace.
    + eapply Flat_perm; [|rewrite <-Hk; eapply (Flat_set_value _ _ _ _ _ _ _ _ _ _ Hflat Hvl Hnv)].
      * rewrite <-app_assoc. simpl. by rewrite <-Permutation_middle.
      * pose proof (flat_nodup _ _ _ _ Hflat) as Hnd. simpl in Hnd.
        apply NoDup_cons in Hnd as [Hl _].
        apply held_cons. split; [apply lookup_insert_eq|].
        apply held_insert; [done|].
        pose proof (flat_held _ _ _ _ Hflat) as Hh. by apply held_cons in Hh as [_ ?].
    + intros e He.
      assert (∃ e0, e0 ∈ es1 ++ (l, nd) :: es2 ∧ key e0.2 = key e.2)
        as (e0 & He0 & <-).
      { apply elem_of_app in He as [He|[->|He]%elem_of_cons].
        - exists e. split; [|done]. apply elem_of_app. by left.
        - exists (l, nd). split; [|done]. apply elem_of_app. right. by left.
        - exists e. split; [|done]. apply elem_of_app. right. by right. }
      by apply (inv_bucket _ _ _ _ HI i _ e0 Hes).
    + rewrite (inv_size _ _ _ _ HI). by rewrite map_size_insert_Some.
  - rewrite (find_dead _ _ _ _ _ _ HI Hes HM). simpl.
    pose proof (fresh_None (nodes m)) as Hnew.
    set (new := fresh (dom (nodes m))) in *. fold nv.
    rewrite lookup_insert_eq. simpl. rewrite insert_insert_eq.
    unfold with_next. simpl.
    erewrite publish_spec; [|apply lookup_insert_eq|done|done]. simpl.
    eexists. split; [reflexivity|].
    exists (<[i := (new, mkNode k (Some nv) p false) :: es]> bs).
    eapply Inv_update with (p' := Some new); [exact HI|exact Hes|apply Hperm'| | | | |]; simpl.
    + done.
    + done.
    + eapply (Flat_perm _ _ _ ((new, mkNode k (Some nv) p false) :: concat bs)).
      { by rewrite Hperm. }
      assert (Hfr : new ∉ (concat bs).*1).
      { eapply held_fresh; [apply (flat_held _ _ _ _ Hflat)|done]. }
      apply (Flat_add _ _ _ _ _ _ _ _ _ _ Hflat HM Hfr Hnv).
      apply held_cons. split; [apply lookup_insert_eq|].
      apply held_insert; [done|]. apply (flat_held _ _ _ _ Hflat).
    + intros e [->|He]%elem_of_cons; [done|].
      by apply (inv_bucket _ _ _ _ HI i es).
    + rewrite (inv_size _ _ _ _ HI), wrap_succ. rewrite map_size_insert_None by done.
      f_equal. lia.
Qed.

(** An insert of an absent key puts its node at the head of the chain. *)
Lemma insert_absent_head fuel sp m M k v :
  wf hasher_ m M → M !! k = None → base.size M ≤ fuel → length sp < fuel →
  ∃ m', insert hasher_ fuel sp m k v = Ok (true, m') ∧ key_at_head hasher_ m' k.
Proof.
  intros [bs HI] HM Hfuel Hsp.
  destruct (Inv_bucket _ _ _ k HI) as (p & es & Hidx & Hb & Hbp & Hes & Hlk & Hheld & Hlen).
  set (i := bucket_of hasher_ (length (buckets_ m)) k) in *.
  unfold insert. rewrite Hidx. simpl. rewrite Hb. simpl.
  rewrite (find_node_spec _ es Hheld) by (done || lia).
  rewrite (find_dead _ _ _ _ _ _ HI Hes HM). simpl.
  rewrite lookup_insert_eq. simpl. rewrite insert_insert_eq.
  unfold with_next. simpl.
  erewrite publish_spec; [|apply lookup_insert_eq|done|done]. simpl.
  eexists. split; [reflexivity|].
  exists i, (fresh (dom (nodes m))), (mkNode k (Some (fresh (dom (values m)))) p false).
  split_and!; simpl.
  - rewrite <-Hidx. apply bucket_index_length. simpl. by rewrite length_insert.
  - unfold bucket. simpl. rewrite list_lookup_insert_eq; [done|].
    by eapply lookup_lt_Some.
  - apply lookup_insert_eq.
  - done.
Qed.

(** *** Erasing *)

Lemma erase_loop_unfold fuel rounds sp m i k :
  erase_loop fuel (S rounds) sp m i k =
  (bhead ← bucket m i;
   node ← find_node fuel (nodes m) bhead k;
   match node with
   | None => Ok (false, m)
   | Some n =>
     nd ← deref (nodes m) node;
     let was_marked := marked nd in
     let m := set_nodes m (<[n := with_marked nd true]> (nodes m)) in
     if was_marked then erase_loop fuel rounds sp m i k
     else
       head ← bucket m i;
       if decide (head = node) then
         nd ← deref (nodes m) node;
         '(bhead', _) ← unlink_head fuel sp (nodes m) head head node (next nd);
         reclaim (set_bucket m i bhead') node
       else
         r ← unlink_inner fuel sp (nodes m) head node;
         let '(ns, removed, sp') := (r : gmap loc (Node Key) * bool * list bool) in
         let m := set_nodes m ns in
         if removed then reclaim m node
         else erase_loop fuel rounds sp' m i k
   end).
Proof. reflexivity. Qed.

(** The walk to the predecessor of node [l], with no spurious failure. *)
Lemma unlink_inner_spec ns es1 lp pnd l ndm nx :
  ns !! l = Some ndm → next ndm = nx → next pnd = Some l →
  held ns (es1 ++ [(lp, pnd)]) →
  l ∉ (es1 ++ [(lp, pnd)]).*1 →
  ∀ fuel sp p, linked next p (es1 ++ [(lp, pnd)]) ∨
               (∃ tl, linked next p (es1 ++ (lp, pnd) :: tl)) →
    length es1 < fuel → List.hd false sp = false →
    unlink_inner fuel sp ns p (Some l) =
      Ok (<[lp := with_next pnd nx]> ns, true, List.tl sp).
Proof.
  intros Hl Hnx Hpn.
  induction es1 as [|[l1 n1] es1 IH]; intros Hheld Hnin fuel sp p Hlk Hfuel Hsp.
  - destruct fuel as [|fuel]; [simpl in Hfuel; lia|].
    assert (p = Some lp) as ->.
    { destruct Hlk as [[? _]|[tl [? _]]]; done. }
    simpl. rewrite (Hheld lp pnd) by (by left). simpl.
    rewrite Hpn. rewrite decide_True by done. rewrite Hl. simpl.
    rewrite Hsp, cas_weak_success. by rewrite Hnx.
  - destruct fuel as [|fuel]; [simpl in Hfuel; lia|].
    assert (p = Some l1 ∧
            (linked next (next n1) (es1 ++ [(lp, pnd)]) ∨
             ∃ tl, linked next (next n1) (es1 ++ (lp, pnd) :: tl))) as [-> Hlk'].
    { destruct Hlk as [[? ?]|[tl [? ?]]]; split; eauto. }
    simpl in Hheld, Hnin. apply held_cons in Hheld as [Hl1 Hheld]. simpl in Hl1.
    apply not_elem_of_cons in Hnin as [Hne Hnin].
    simpl. rewrite Hl1. simpl.
    assert (Hn1 : ∃ l2, next n1 = Some l2 ∧ l2 ≠ l).
    { assert (Hhd : next n1 = fst <$> head (es1 ++ [(lp, pnd)])).
      { destruct Hlk' as [Hk|[tl Hk]]; apply linked_head in Hk; rewrite Hk;
          by destruct es1. }
      destruct (es1 ++ [(lp, pnd)]) as [|[l2 n2] rest] eqn:Heq.
      { by destruct es1. }
      exists l2. split; [done|]. intros ->. apply Hnin. by left. }
    destruct Hn1 as (l2 & Hn1 & Hl2). rewrite Hn1.
    rewrite decide_False by congruence. rewrite decide_False by done.
    rewrite <-Hn1. apply IH; [done|done|done| |done]. simpl in Hfuel. lia.
Qed.

Lemma wrap_of_pred n :
  0 < n → wrap (wrap (Z.of_nat n) - 1) = wrap (Z.of_nat (pred n)).
Proof. intros Hn. rewrite wrap_pred. f_equal. lia. Qed.

(** Unlinking the head of a chain succeeds whatever compare-exchanges fail
    spuriously: the loop tries again. *)
Lemma unlink_head_spec fuel sp ns l ndm :
  ns !! l = Some ndm → length sp < fuel →
  ∃ sp', unlink_head fuel sp ns (Some l) (Some l) (Some l) (next ndm) =
           Ok (next ndm, sp').
Proof.
  intros Hl. revert sp. induction fuel as [|fuel IH]; intros sp Hfuel; [lia|].
  destruct sp as [|[|] sp]; simpl.
  - rewrite cas_weak_success. by eexists.
  - rewrite decide_False by (by intros ?). rewrite Hl. simpl.
    apply IH. simpl in Hfuel. lia.
  - rewrite cas_weak_success. by eexists.
Qed.

Lemma erase_loop_spec fuel rounds sp m M k :
  wf hasher_ m M → base.size M < fuel → 0 < rounds →
  length sp < fuel →
  List.hd false sp = false ∨ key_at_head hasher_ m k →
  ∃ m', erase_loop fuel rounds sp m
          (bucket_of hasher_ (length (buckets_ m)) k) k = Ok (present M k, m') ∧
        wf hasher_ m' (delete k M).
Proof.
  intros [bs HI] Hfuel Hrounds Hsp Hdis.
  destruct rounds as [|rounds]; [lia|]. clear Hrounds.
  destruct (Inv_bucket _ _ _ k HI) as (p & es & Hidx & Hb & Hbp & Hes & Hlk & Hheld & Hlen).
  set (i := bucket_of hasher_ (length (buckets_ m)) k) in *.
  destruct (concat_lookup_perm _ _ _ Hes) as (others & Hperm & Hperm').
  pose proof (inv_flat _ _ _ _ HI) as Hflat.
  unfold present. rewrite erase_loop_unfold.
  rewrite Hb. simpl.
  rewrite (find_node_spec _ es Hheld) by (done || lia).
  destruct (M !! k) as [v|] eqn:HM; cycle 1.
  { rewrite (find_dead _ _ _ _ _ _ HI Hes HM). simpl.
    exists m. split; [done|]. exists bs. by rewrite delete_id. }
  destruct (find_live _ _ _ _ _ _ HI Hes HM)
    as (l & nd & vl & -> & Hin & Hk & Hm & Hvl & Hv).
  pose proof (Hheld _ _ Hin) as Hl.
  assert (Hsz : 0 < base.size M).
  { destruct (decide (base.size M = 0)) as [Hz|]; [|lia].
    apply map_size_empty_inv in Hz. by rewrite Hz, lookup_empty in HM. }
  cbn [fmap option_fmap option_map fst mbind result_bind].
  rewrite (deref_Some _ _ _ Hl). cbn [mbind result_bind]. rewrite Hm.
  unfold bucket at 1. simpl buckets_. rewrite Hbp. cbn [mbind result_bind].
  apply list_elem_of_split in Hin as (es1 & es2 & ->).
  pose proof (flat_nodup _ _ _ _ Hflat) as Hnd. rewrite Hperm in Hnd.
  destruct es1 as [|e1 es1 _] using rev_ind.
  - (* the node is the head of the chain *)
    simpl in Hlk. destruct Hlk as [-> Hlk]. rewrite decide_True by done.
    rewrite (deref_Some _ l (with_marked nd true)) by apply lookup_insert_eq.
    cbn [mbind result_bind]. simpl next.
    destruct (unlink_head_spec fuel sp (<[l := with_marked nd true]> (nodes m))
                l (with_marked nd true)) as (sp' & Hun);
      [apply lookup_insert_eq|done|].
    simpl next in Hun. rewrite Hun. cbn [mbind result_bind].
    unfold reclaim. simpl nodes.
    rewrite (deref_Some _ l (with_marked nd true)) by apply lookup_insert_eq.
    cbn [mbind result_bind]. simpl value. rewrite Hvl.
    unfold delete_value. simpl values. rewrite Hv. cbn [mbind result_bind].
    eexists. split; [reflexivity|].
    exists (<[i := es2]> bs).
    eapply Inv_update with (p' := next nd);
      [exact HI|exact Hes|apply Hperm'| | | | |]; simpl.
    + done.
    + done.
    + simpl in Hperm, Hnd. apply (Flat_perm _ _ _ _ _ Hperm) in Hflat.
      rewrite <-Hk. eapply Flat_remove; [exact Hflat|exact Hvl|].
      apply NoDup_cons in Hnd as [Hnl _].
      apply held_delete; [done|]. apply held_insert; [done|].
      pose proof (flat_held _ _ _ _ Hflat) as Hh. by apply held_cons in Hh as [_ ?].
    + intros e He. apply (inv_bucket _ _ _ _ HI i _ e Hes). by right.
    + rewrite (inv_size _ _ _ _ HI), map_size_delete_Some by done.
      by apply wrap_of_pred.
  - (* the node is inside the chain *)
    destruct e1 as [lp pnd]. rewrite <-app_assoc in *. simpl in *.
    assert (Hp1 : concat bs ≡ₚ (l, nd) :: (lp, pnd) :: (es1 ++ es2 ++ others)).
    { rewrite Hperm. rewrite <-app_assoc. simpl.
      rewrite <-!Permutation_middle. apply perm_swap. }
    apply (Flat_perm _ _ _ _ _ Hp1) in Hflat.
    pose proof (flat_nodup _ _ _ _ Hflat) as Hnd'. simpl in Hnd'.
    apply NoDup_cons in Hnd' as [Hnl Hnd'].
    pose proof Hnd' as [Hnlp Hnd'']%NoDup_cons.
    pose proof (flat_held _ _ _ _ Hflat) as Hh.
    apply held_cons in Hh as [_ Hh]. pose proof Hh as [Hlp Hh']%held_cons.
    simpl in Hlp.
    assert (Hll : l ≠ lp). { intros ->. apply Hnl. by left. }
    assert (Hpl : p ≠ Some l).
    { apply linked_head in Hlk. rewrite Hlk. destruct es1 as [|[l1 n1] es1]; simpl.
      - congruence.
      - intros [= ->]. apply Hnl. right. rewrite fmap_app. apply elem_of_app.
        left. simpl. by left. }
    rewrite decide_False by done.
    assert (Hpn : next pnd = Some l).
    { clear -Hlk. revert p Hlk. induction es1 as [|[l1 n1] es1 IH]; simpl; intros p.
      - by intros (_ & ? & _).
      - intros [_ ?]. eauto. }
    assert (Hsp0 : List.hd false sp = false).
    { destruct Hdis as [?|(i' & l0 & nd0 & Hi' & Hb' & Hl0 & Hk0)]; [done|].
      exfalso. rewrite Hidx in Hi'. injection Hi' as <-.
      rewrite Hb in Hb'. injection Hb' as ->.
      assert (Hin0 : (l0, nd0) ∈ es1 ++ (lp, pnd) :: (l, nd) :: es2).
      { apply linked_head in Hlk.
        destruct (es1 ++ (lp, pnd) :: (l, nd) :: es2) as [|[l1 n1] rest] eqn:Heq;
          [done|].
        simpl in Hlk. injection Hlk as <-.
        assert (Hh1 : nodes m !! l0 = Some n1).
        { apply Hheld. rewrite <-Heq. rewrite Heq. by left. }
        rewrite Hl0 in Hh1. injection Hh1 as <-. by left. }
      assert (Heq : (l0, nd0) = (l, nd)).
      { eapply (Inv_key_inj _ _ _ _ _ HI); [| |simpl; congruence].
        - apply elem_of_concat. eauto.
        - apply elem_of_concat. exists i, (es1 ++ (lp, pnd) :: (l, nd) :: es2).
          split; [done|]. apply elem_of_app. right. right. by left. }
      injection Heq as -> ->. done. }
    erewrite (unlink_inner_spec _ es1 lp pnd l (with_marked nd true) (next nd));
      [|apply lookup_insert_eq|done|done| | |right; eauto
       |rewrite length_app in Hlen; simpl in Hlen; lia|done].
    2:{ apply held_insert.
        - rewrite fmap_app. simpl. intros [Hi|Hi]%elem_of_app.
          + apply Hnl. right. rewrite fmap_app. apply elem_of_app. by left.
          + apply list_elem_of_singleton in Hi. done.
        - apply held_app. split.
          + eapply held_mono; [|exact Hh']. intros e He. apply elem_of_app. by left.
          + apply held_cons. split; [done|apply held_nil]. }
    2:{ rewrite fmap_app. simpl. intros [Hi|Hi]%elem_of_app.
        - apply Hnl. right. rewrite fmap_app. apply elem_of_app. by left.
        - apply list_elem_of_singleton in Hi. done. }
    cbn [mbind result_bind].
    unfold reclaim. simpl nodes.
    rewrite (deref_Some _ l (with_marked nd true))
      by (rewrite lookup_insert_ne by done; apply lookup_insert_eq).
    cbn [mbind result_bind]. simpl value. rewrite Hvl.
    unfold delete_value. simpl values. rewrite Hv. cbn [mbind result_bind].
    eexists. split; [reflexivity|].
    exists (<[i := es1 ++ (lp, with_next pnd (next nd)) :: es2]> bs).
    eapply Inv_update with (p' := p);
      [exact HI|exact Hes|apply Hperm'| | | | |]; simpl.
    + by rewrite list_insert_id.
    + by eapply linked_unlink.
    + eapply (Flat_perm _ _ _ ((lp, with_next pnd (next nd)) :: (es1 ++ es2 ++ others))).
      { rewrite <-app_assoc. simpl. by rewrite <-Permutation_middle. }
      rewrite <-Hk. eapply Flat_relink.
      * eapply Flat_remove; [exact Hflat|exact Hvl|exact Hh].
      * apply held_cons. simpl. split.
        { rewrite lookup_delete_ne by done. apply lookup_insert_eq. }
        apply held_delete.
        { intros Hi. apply Hnl. by right. }
        apply held_insert; [done|]. apply held_insert; [|done].
        intros Hi. apply Hnl. by right.
    + intros e He.
      assert (∃ e0, e0 ∈ es1 ++ (lp, pnd) :: (l, nd) :: es2 ∧ key e0.2 = key e.2)
        as (e0 & He0 & <-).
      { apply elem_of_app in He as [He|[->|He]%elem_of_cons].
        - exists e. split; [|done]. apply elem_of_app. by left.
        - exists (lp, pnd). split; [|done]. apply elem_of_app. right. by left.
        - exists e. split; [|done]. apply elem_of_app. right. right. by right. }
      by apply (inv_bucket _ _ _ _ HI i _ e0 Hes).
    + rewrite (inv_size _ _ _ _ HI), map_size_delete_Some by done.
      by apply wrap_of_pred.
Qed.

(** [erase] does its work when its first compare-exchange does not fail
    spuriously, and also when the node of the key is the head of its
    chain. *)
Lemma erase_spec_general fuel sp m M k :
  wf hasher_ m M → base.size M < fuel → length sp < fuel →
  List.hd false sp = false ∨ key_at_head hasher_ m k →
  ∃ m', erase hasher_ fuel sp m k = Ok (present M k, m') ∧
        wf hasher_ m' (delete k M).
Proof.
  intros Hwf Hfuel Hsp Hdis. pose proof Hwf as [bs HI].
  destruct (Inv_bucket _ _ _ k HI) as (p & es & Hidx & _).
  unfold erase. rewrite Hidx. simpl.
  apply erase_loop_spec; [done|lia|lia|done|done].
Qed.

Lemma erase_spec fuel m M k :
  wf hasher_ m M → base.size M < fuel →
  ∃ m', erase hasher_ fuel [] m k = Ok (present M k, m') ∧
        wf hasher_ m' (delete k M).
Proof.
  intros Hwf Hfuel. apply erase_spec_general; [done|done|simpl; lia|by left].
Qed.

(** *** The map implements the finite map *)

Lemma new_map_wf n : 1 ≤ n → wf hasher_ (new_map n) (∅ : gmap Key Value).
Proof.
  intros Hn. exists (replicate n []).
  assert (Hc : concat (replicate n ([] : list (loc * Node Key))) = []).
  { clear. induction n; simpl; [done|]. done. }
  split; simpl.
  - destruct n; [lia|done].
  - apply Forall2_replicate. done.
  - rewrite Hc. split; simpl; try constructor.
    + intros l nd Hin. by apply elem_of_nil in Hin.
    + intros k [v Hk]. by rewrite lookup_empty in Hk.
  - intros i es e [-> _]%lookup_replicate He. by apply elem_of_nil in He.
  - by rewrite map_size_empty.
Qed.

Lemma step_spec fuel m M o :
  wf hasher_ m M → base.size M < fuel →
  match o with
  | Insert sp _ _ => length sp < fuel
  | Erase sp _ => sp = []
  | _ => True
  end →
  ∃ m', step hasher_ fuel m o = Ok ((map_step M o).1, m') ∧
        wf hasher_ m' (map_step M o).2.
Proof.
  intros Hwf Hfuel Ho. destruct o as [sp k v|k|sp k|k]; simpl.
  - destruct (insert_spec fuel sp _ _ k v Hwf) as (m' & -> & Hwf'); [lia|done|].
    by exists m'.
  - rewrite (get_spec _ _ _ _ Hwf) by lia. by exists m.
  - subst sp. destruct (erase_spec fuel _ _ k Hwf) as (m' & -> & Hwf'); [lia|].
    by exists m'.
  - rewrite (contains_spec _ _ _ _ Hwf) by lia. by exists m.
Qed.

Lemma map_step_size M (o : op Key Value) :
  base.size (map_step M o).2 ≤ S (base.size M).
Proof.
  destruct o as [sp k v|k|sp k|k]; simpl; try lia.
  - destruct (M !! k) eqn:Hk.
    + rewrite map_size_insert_Some by done. lia.
    + rewrite map_size_insert_None by done. lia.
  - destruct (M !! k) eqn:Hk.
    + rewrite map_size_delete_Some by done. lia.
    + rewrite map_size_delete_None by done. lia.
Qed.

Lemma run_refines fuel ops :
  ∀ m M,
    wf hasher_ m M → base.size M + length ops < fuel →
    Forall (λ o, match o with Insert sp _ _ => length sp < fuel | _ => True end) ops →
    erase_undisturbed ops →
    ∃ m', run hasher_ fuel m ops = Ok ((map_run M ops).1, m') ∧
          wf hasher_ m' (map_run M ops).2.
Proof.
  induction ops as [|o ops IH]; intros m M Hwf Hfuel Hsp Her.
  - exists m. by split.
  - apply Forall_cons in Hsp as [Ho Hsp]. apply Forall_cons in Her as [Ho' Her].
    simpl in Hfuel.
    destruct (step_spec fuel m M o Hwf) as (m1 & Hm1 & Hwf1); [lia| |].
    { by destruct o. }
    pose proof (map_step_size M o) as Hsz.
    destruct (IH m1 _ Hwf1) as (m2 & Hm2 & Hwf2); [lia|done|done|].
    exists m2. simpl. rewrite Hm1. simpl. rewrite Hm2. simpl.
    destruct (map_step M o) as [r M1]. simpl in *.
    destruct (map_run M1 ops) as [rs M2]. by split.
Qed.

Lemma run_app fuel m ops1 ops2 :
  run hasher_ fuel m (ops1 ++ ops2) =
  '(rs1, m1) ← run hasher_ fuel m ops1;
  '(rs2, m2) ← run hasher_ fuel m1 ops2;
  Ok (rs1 ++ rs2, m2).
Proof.
  revert m. induction ops1 as [|o ops1 IH]; intros m; simpl.
  - destruct (run hasher_ fuel m ops2) as [[rs2 m2]| |]; done.
  - destruct (step hasher_ fuel m o) as [[r m1]| |]; simpl; [|done|done].
    rewrite IH. destruct (run hasher_ fuel m1 ops1) as [[rs1 m1']| |]; simpl; [|done|done].
    destruct (run hasher_ fuel m1' ops2) as [[rs2 m2]| |]; done.
Qed.

Lemma map_run_app M (ops1 ops2 : list (op Key Value)) :
  map_run M (ops1 ++ ops2) =
  ((map_run M ops1).1 ++ (map_run (map_run M ops1).2 ops2).1,
   (map_run (map_run M ops1).2 ops2).2).
Proof.
  revert M. induction ops1 as [|o ops1 IH]; intros M; simpl.
  - by destruct (map_run M ops2).
  - destruct (map_step M o) as [r M1]. rewrite IH.
    destruct (map_run M1 ops1) as [rs1 M1']. simpl.
    by destruct (map_run M1' ops2).
Qed.

Lemma map_run_size M (ops : list (op Key Value)) :
  base.size (map_run M ops).2 ≤ base.size M + length ops.
Proof.
  revert M. induction ops as [|o ops IH]; intros M; simpl; [lia|].
  pose proof (map_step_size M o). specialize (IH (map_step M o).2).
  destruct (map_step M o) as [r M1]. simpl in *.
  destruct (map_run M1 ops) as [rs M2]. simpl in *. lia.
Qed.

Lemma live_keys_dom (ops : list (op Key Value)) :
  ∀ M, dom (map_run M ops).2 =
       foldl (λ s o, match o with
                     | Insert _ k _ => {[k]} ∪ s
                     | Erase _ k => s ∖ {[k]}
                     | _ => s
                     end) (dom M) ops.
Proof.
  induction ops as [|o ops IH]; intros M; simpl; [done|].
  specialize (IH (map_step M o).2).
  destruct (map_step M o) as [r M1] eqn:Hstep. simpl in IH.
  destruct (map_run M1 ops) as [rs M2]. simpl in *. rewrite IH. f_equal.
  destruct o; simpl in Hstep; injection Hstep as <- <-; try done.
  - by rewrite dom_insert_L.
  - by rewrite dom_delete_L.
Qed.

Lemma live_keys_size (ops : list (op Key Value)) :
  base.size (live_keys ops) = base.size (map_run (∅ : gmap Key Value) ops).2.
Proof.
  rewrite <-size_dom. f_equal. unfold live_keys.
  by rewrite live_keys_dom, dom_empty_L.
Qed.

Lemma wf_size m M :
  wf hasher_ m M → size m = wrap (Z.of_nat (base.size M)).
Proof. intros [bs HI]. apply (inv_size _ _ _ _ HI). Qed.

Lemma run_new_map n fuel ops :
  1 ≤ n → fuel_covers fuel ops → erase_undisturbed ops →
  ∃ m, run hasher_ fuel (new_map n) ops = Ok ((map_run ∅ ops).1, m) ∧
       wf hasher_ m (map_run ∅ ops).2.
Proof.
  intros Hn [Hfuel Hsp] Her.
  apply run_refines; [by apply new_map_wf| |done|done].
  rewrite map_size_empty. simpl. lia.
Qed.

Lemma erase_absent fuel sp m M k :
  wf hasher_ m M → M !! k = None → base.size M < fuel →
  erase hasher_ fuel sp m k = Ok (false, m).
Proof.
  intros [bs HI] HM Hfuel.
  destruct (Inv_bucket _ _ _ k HI) as (p & es & Hidx & Hb & Hbp & Hes & Hlk & Hheld & Hlen).
  unfold erase. rewrite Hidx. simpl.
  destruct fuel as [|rounds] eqn:Hf; [lia|]. rewrite erase_loop_unfold.
  rewrite Hb. cbn [mbind result_bind].
  rewrite (find_node_spec _ es Hheld) by (done || lia).
  by rewrite (find_dead _ _ _ _ _ _ HI Hes HM).
Qed.

(** *** The number of buckets never changes *)

Lemma reclaim_buckets m node b m' :
  reclaim m node = Ok (b, m') → buckets_ m' = buckets_ m.
Proof.
  unfold reclaim. intros (nd & _ & Hr)%bind_Ok.
  apply bind_Ok in Hr as (vs & _ & Hr). destruct node; [|done].
  by injection Hr as _ <-.
Qed.

Lemma insert_buckets fuel sp m k v b m' :
  insert hasher_ fuel sp m k v = Ok (b, m') →
  length (buckets_ m') = length (buckets_ m).
Proof.
  unfold insert. intros (i & _ & Hr)%bind_Ok.
  apply bind_Ok in Hr as (bhead & _ & Hr).
  apply bind_Ok in Hr as ([e|] & _ & Hr).
  - apply bind_Ok in Hr as (nd & _ & Hr). apply bind_Ok in Hr as (vs & _ & Hr).
    by injection Hr as _ <-.
  - apply bind_Ok in Hr as (head & _ & Hr). apply bind_Ok in Hr as (nd & _ & Hr).
    apply bind_Ok in Hr as ([ns bhead'] & _ & Hr).
    injection Hr as _ <-. simpl. by rewrite length_insert.
Qed.

Lemma erase_loop_buckets fuel rounds :
  ∀ sp m i k b m',
    erase_loop fuel rounds sp m i k = Ok (b, m') →
    length (buckets_ m') = length (buckets_ m).
Proof.
  induction rounds as [|rounds IH]; intros sp m i k b m'; [done|].
  rewrite erase_loop_unfold. intros (bhead & _ & Hr)%bind_Ok.
  apply bind_Ok in Hr as ([n|] & _ & Hr); [|by injection Hr as _ <-].
  apply bind_Ok in Hr as (nd & _ & Hr). cbv zeta in Hr.
  destruct (marked nd).
  { by apply IH in Hr. }
  apply bind_Ok in Hr as (head & _ & Hr).
  destruct (decide (head = Some n)).
  - apply bind_Ok in Hr as (nd' & _ & Hr).
    apply bind_Ok in Hr as ([bhead' sp'] & _ & Hr).
    apply reclaim_buckets in Hr. rewrite Hr. simpl. by rewrite length_insert.
  - apply bind_Ok in Hr as ([[ns removed] sp'] & _ & Hr). destruct removed.
    + apply reclaim_buckets in Hr. by rewrite Hr.
    + by apply IH in Hr.
Qed.

Lemma step_buckets fuel m o r m' :
  step hasher_ fuel m o = Ok (r, m') →
  length (buckets_ m') = length (buckets_ m).
Proof.
  destruct o as [sp k v|k|sp k|k]; simpl.
  - intros ([b m1] & Hi & [= _ <-])%bind_Ok. by eapply insert_buckets.
  - by intros (x & _ & [= _ <-])%bind_Ok.
  - intros ([b m1] & He & [= _ <-])%bind_Ok. unfold erase in He.
    apply bind_Ok in He as (i & _ & He). by eapply erase_loop_buckets.
  - by intros (x & _ & [= _ <-])%bind_Ok.
Qed.

Lemma run_buckets fuel ops :
  ∀ m rs m', run hasher_ fuel m ops = Ok (rs, m') →
             length (buckets_ m') = length (buckets_ m).
Proof.
  induction ops as [|o ops IH]; intros m rs m'; simpl.
  - by intros [= _ <-].
  - intros ([r m1] & Hs & Hr)%bind_Ok.
    apply bind_Ok in Hr as ([rs' m2] & Hr & [= _ <-]).
    apply IH in Hr. apply step_buckets in Hs. congruence.
Qed.

Lemma bucket_index_ok m k :
  1 ≤ length (buckets_ m) →
  ∃ i p, bucket_index hasher_ m k = Ok i ∧ i < length (buckets_ m) ∧
         bucket m i = Ok p.
Proof.
  intros Hn. set (i := bucket_of hasher_ (length (buckets_ m)) k).
  assert (Hi : i < length (buckets_ m)) by (apply bucket_of_lt; lia).
  destruct (lookup_lt_is_Some_2 _ _ Hi) as [p Hp].
  exists i, p. split_and!; [|done|].
  - unfold bucket_index. rewrite decide_False; [done|lia].
  - unfold bucket. by rewrite Hp.
Qed.

(** *** The step-wise [insert] *)

Lemma step_find fuel sp m k v i bhead existing :
  bucket_index hasher_ m k = Ok i → bucket m i = Ok bhead →
  find_node fuel (nodes m) bhead k = Ok existing →
  insert_step hasher_ fuel sp k v IFind m =
    Ok (match existing with Some e => IUpdate e | None => IAllocate end, m).
Proof. intros Hi Hb Hf. simpl. rewrite Hi. simpl. rewrite Hb. simpl. by rewrite Hf. Qed.

Lemma step_update fuel sp m k v (x : loc) nd vs :
  deref (nodes m) (Some x) = Ok nd →
  delete_value (<[fresh (dom (values m)) := v]> (values m)) (value nd) = Ok vs →
  insert_step hasher_ fuel sp k v (IUpdate x) m =
    Ok (IReturn false,
        {| nodes := <[x := with_value nd (Some (fresh (dom (values m))))]> (nodes m);
           values := vs; buckets_ := buckets_ m; size_ := size_ m |}).
Proof.
  intros Hnd Hvs. unfold insert_step. rewrite Hnd. cbn [mbind result_bind].
  by rewrite Hvs.
Qed.

Lemma step_allocate fuel sp m k v i head :
  bucket_index hasher_ m k = Ok i → bucket m i = Ok head →
  insert_step hasher_ fuel sp k v IAllocate m =
    Ok (IPublish (fresh (dom (nodes m))) head,
        {| nodes := <[fresh (dom (nodes m)) :=
                        mkNode k (Some (fresh (dom (values m)))) head false]> (nodes m);
           values := <[fresh (dom (values m)) := v]> (values m);
           buckets_ := buckets_ m; size_ := size_ m |}).
Proof.
  intros Hi Hb. unfold insert_step. rewrite Hi. cbn [mbind result_bind].
  rewrite Hb. cbn [mbind result_bind].
  rewrite (deref_Some _ _ _ (lookup_insert_eq _ _ _)). cbn [mbind result_bind].
  by rewrite insert_insert_eq.
Qed.

Lemma step_publish fuel m k v i head new :
  bucket_index hasher_ m k = Ok i → bucket m i = Ok head →
  insert_step hasher_ fuel false k v (IPublish new head) m =
    Ok (ICount, set_bucket m i (Some new)).
Proof.
  intros Hi Hb. unfold insert_step. rewrite Hi. cbn [mbind result_bind].
  rewrite Hb. cbn [mbind result_bind]. by rewrite cas_weak_success.
Qed.

Lemma interleave_cons fuel tid schedule ts m t pc m' :
  ts !! tid = Some t →
  insert_step hasher_ fuel false (ins_key t) (ins_value t) (ins_pc t) m = Ok (pc, m') →
  interleave hasher_ fuel (tid :: schedule) ts m =
  interleave hasher_ fuel schedule
    (<[tid := mkInserter (ins_key t) (ins_value t) pc]> ts) m'.
Proof. intros Ht Hs. simpl. rewrite Ht, Hs. done. Qed.

(** Run alone and without spurious failure, the steps of [insert] do what
    the function does. *)
Lemma insert_steps_agree fuel m k v b m' :
  insert hasher_ fuel [] m k v = Ok (b, m') →
  interleave hasher_ fuel (replicate 5 0) [mkInserter k v IFind] m =
    Ok ([mkInserter k v (IReturn b)], m').
Proof.
  unfold insert. intros (i & Hi & Hr)%bind_Ok.
  apply bind_Ok in Hr as (bhead & Hb & Hr).
  apply bind_Ok in Hr as (existing & Hf & Hr).
  cbn [replicate].
  erewrite interleave_cons; [|done|by eapply step_find]. cbn [list_insert ins_key ins_value].
  destruct existing as [x|].
  - apply bind_Ok in Hr as (nd & Hnd & Hr). apply bind_Ok in Hr as (vs & Hvs & Hr).
    injection Hr as <- <-.
    erewrite interleave_cons; [|done|by eapply step_update].
    reflexivity.
  - apply bind_Ok in Hr as (head & Hh & Hr). rewrite Hb in Hh. injection Hh as <-.
    apply bind_Ok in Hr as (nd & Hnd & Hr).
    rewrite (deref_Some _ _ _ (lookup_insert_eq _ _ _)) in Hnd. injection Hnd as <-.
    unfold with_next in Hr. cbn [key value next marked] in Hr.
    rewrite insert_insert_eq in Hr.
    apply bind_Ok in Hr as ([ns bhead'] & Hp & Hr). injection Hr as <- <-.
    destruct fuel as [|fuel]; [done|]. simpl in Hp.
    rewrite cas_weak_success in Hp. injection Hp as <- <-.
    erewrite interleave_cons; [|done|by eapply step_allocate].
    cbn [list_insert ins_key ins_value].
    erewrite interleave_cons; [|done|by eapply step_publish].
    reflexivity.
Qed.

End HashMapFacts.
End HashMapFacts.

(** ** The heap of the hash map *)

Module HashMapHeapFacts.
Import HashMap HashMapFacts.
Section HashMapHeapFacts.
Context {Key Value : Type} `{Countable Key}.
Variable hasher_ : Key → N.
Implicit Types (m : LockFreeHashMap Key Value) (M : gmap Key Value).

Lemma valued_insert (ns : gmap loc (Node Key)) l nd :
  valued ns → is_Some (value nd) → valued (<[l := nd]> ns).
Proof.
  intros Hv Hnd l' nd' Hl'. destruct (decide (l' = l)) as [->|Hne].
  - rewrite lookup_insert_eq in Hl'. by injection Hl' as <-.
  - rewrite lookup_insert_ne in Hl' by done. by eapply Hv.
Qed.

Lemma size_insert_present {A} (h : gmap loc A) l a :
  is_Some (h !! l) → base.size (<[l := a]> h) = base.size h.
Proof. apply map_size_insert_Some. Qed.

Lemma size_delete_present {A} (h : gmap loc A) l :
  is_Some (h !! l) → base.size (delete l h) + 1 = base.size h.
Proof.
  intros [a Ha]. rewrite map_size_delete_Some by done.
  assert (base.size h ≠ 0); [|lia].
  intros Hz%map_size_empty_inv. by rewrite Hz, lookup_empty in Ha.
Qed.

Lemma deref_inv {A} (h : gmap loc A) p a :
  deref h p = Ok a → ∃ l, p = Some l ∧ h !! l = Some a.
Proof.
  destruct p as [l|]; [|done]. simpl. destruct (h !! l) eqn:Hl; [|done].
  intros [= ->]. by exists l.
Qed.

Lemma publish_heap fuel : ∀ sp (ns : gmap loc (Node Key)) bhead head new ns' p,
  publish fuel sp ns bhead head new = Ok (ns', p) →
  base.size ns' = base.size ns ∧ (valued ns → valued ns').
Proof.
  induction fuel as [|fuel IH]; intros sp ns bhead head new ns' p; [done|].
  simpl. destruct (compare_exchange_weak _ _ _ _) as [[ok bhead'] head'].
  destruct ok.
  - by intros [= <- <-].
  - destruct (ns !! new) as [nd|] eqn:Hl; [|done]. simpl. intros Hrec.
    apply IH in Hrec as [Hsz Hval]. split.
    + rewrite Hsz. by apply size_insert_present.
    + intros Hv. apply Hval, valued_insert; [done|]. by apply (Hv new nd).
Qed.

Lemma insert_heap fuel sp m k v b m' :
  insert hasher_ fuel sp m k v = Ok (b, m') → valued (nodes m) →
  base.size (nodes m') = base.size (nodes m) + (if b then 1 else 0) ∧
  base.size (values m') = base.size (values m) + (if b then 1 else 0).
Proof.
  unfold insert. intros (i & Hi & Hrun)%bind_Ok Hv.
  apply bind_Ok in Hrun as (bhead & Hb & Hrun).
  apply bind_Ok in Hrun as (existing & Hfind & Hrun).
  pose proof (fresh_None (values m)) as Hnv.
  pose proof (fresh_None (nodes m)) as Hnew.
  destruct existing as [e|].
  - apply bind_Ok in Hrun as (nd & Hnd & Hrun).
    apply deref_inv in Hnd as (l & [= <-] & Hl).
    apply bind_Ok in Hrun as (vs & Hdel & Hrun). injection Hrun as <- <-. simpl.
    destruct (Hv _ _ Hl) as [vl Hvl]. rewrite Hvl in Hdel. simpl in Hdel.
    destruct (_ !! vl) eqn:Hlook in Hdel; [|done]. injection Hdel as <-.
    split.
    + rewrite size_insert_present by done. lia.
    + pose proof (size_delete_present (<[fresh (dom (values m)) := v]> (values m)) vl) as Hsz.
      rewrite map_size_insert_None in Hsz by done.
      specialize (Hsz ltac:(by eexists)). lia.
  - apply bind_Ok in Hrun as (head & Hhead & Hrun).
    apply bind_Ok in Hrun as (nd & Hnd & Hrun).
    apply bind_Ok in Hrun as ([ns bhead'] & Hpub & Hrun). injection Hrun as <- <-. simpl.
    apply publish_heap in Hpub as [Hsz _]. split.
    + rewrite Hsz. rewrite size_insert_present by (rewrite lookup_insert_eq; by eexists).
      rewrite map_size_insert_None by done. lia.
    + rewrite map_size_insert_None by done. lia.
Qed.

Lemma unlink_inner_heap fuel : ∀ sp (ns : gmap loc (Node Key)) prev node ns' removed sp',
  unlink_inner fuel sp ns prev node = Ok (ns', removed, sp') →
  base.size ns' = base.size ns ∧ (valued ns → valued ns') ∧
  (∀ l, is_Some (ns !! l) → is_Some (ns' !! l)).
Proof.
  induction fuel as [|fuel IH]; intros sp ns prev node ns' removed sp'.
  - destruct prev; simpl; [done|]. by intros [= <- <- <-].
  - destruct prev as [p|]; simpl; [|by intros [= <- <- <-]].
    destruct (ns !! p) as [pnd|] eqn:Hp; [|done]. simpl.
    destruct (decide (next pnd = node)) as [Heq|Hne].
    + intros (nd & Hnd & Hrun)%bind_Ok.
      destruct (compare_exchange_weak _ _ _ _) as [[ok pnext] x].
      injection Hrun as <- <- <-. split_and!.
      * by apply size_insert_present.
      * intros Hv. apply valued_insert; [done|]. by apply (Hv p pnd).
      * intros l Hl. destruct (decide (l = p)) as [->|?].
        -- rewrite lookup_insert_eq. by eexists.
        -- by rewrite lookup_insert_ne.
    + destruct (decide (next pnd = None)) as [Hnone|Hsome].
      * by intros [= <- <- <-].
      * apply IH.
Qed.

Lemma reclaim_heap m node b m' :
  reclaim m node = Ok (b, m') → valued (nodes m) →
  b = true ∧
  base.size (nodes m') + 1 = base.size (nodes m) ∧
  base.size (values m') + 1 = base.size (values m).
Proof.
  unfold reclaim. intros (nd & Hnd & Hrun)%bind_Ok Hv.
  apply deref_inv in Hnd as (l & -> & Hl).
  apply bind_Ok in Hrun as (vs & Hdel & Hrun). injection Hrun as <- <-. simpl.
  destruct (Hv _ _ Hl) as [vl Hvl]. rewrite Hvl in Hdel. simpl in Hdel.
  destruct (values m !! vl) eqn:Hlook; [|done]. injection Hdel as <-.
  split_and!; [done| |]; by apply size_delete_present.
Qed.

Lemma erase_loop_heap fuel rounds i k : ∀ sp m b m',
  erase_loop fuel rounds sp m i k = Ok (b, m') → valued (nodes m) →
  base.size (nodes m') + (if b then 1 else 0) = base.size (nodes m) ∧
  base.size (values m') + (if b then 1 else 0) = base.size (values m).
Proof.
  induction rounds as [|rounds IH]; intros sp m b m'; [done|].
  rewrite erase_loop_unfold.
  intros (bhead & Hb & Hrun)%bind_Ok Hv.
  apply bind_Ok in Hrun as (node & Hfind & Hrun).
  destruct node as [n|]; [|injection Hrun as <- <-; lia].
  apply bind_Ok in Hrun as (nd & Hnd & Hrun).
  apply deref_inv in Hnd as (l & [= <-] & Hl).
  assert (Hv1 : valued (<[n := with_marked nd true]> (nodes m))).
  { apply valued_insert; [done|]. by apply (Hv n nd). }
  assert (Hs1 : base.size (<[n := with_marked nd true]> (nodes m)) = base.size (nodes m)).
  { by apply size_insert_present. }
  destruct (marked nd).
  - apply IH in Hrun; [|done]. simpl in Hrun. lia.
  - apply bind_Ok in Hrun as (head & Hhead & Hrun).
    destruct (decide (head = Some n)) as [->|Hne].
    + apply bind_Ok in Hrun as (nd' & Hnd' & Hrun).
      apply bind_Ok in Hrun as ([bhead' sp'] & Hun & Hrun).
      apply reclaim_heap in Hrun as (-> & Hn & Hvs); [|done]. simpl in *. lia.
    + apply bind_Ok in Hrun as ([[ns removed] sp'] & Hun & Hrun).
      apply unlink_inner_heap in Hun as (Hsz & Hval & _). simpl in Hsz, Hval.
      destruct removed.
      * apply reclaim_heap in Hrun as (-> & Hn & Hvs); [|by apply Hval].
        simpl in *. lia.
      * apply IH in Hrun; [|by apply Hval]. simpl in Hrun. lia.
Qed.

Lemma erase_heap fuel sp m k b m' :
  erase hasher_ fuel sp m k = Ok (b, m') → valued (nodes m) →
  base.size (nodes m') + (if b then 1 else 0) = base.size (nodes m) ∧
  base.size (values m') + (if b then 1 else 0) = base.size (values m).
Proof.
  unfold erase. intros (i & Hi & Hrun)%bind_Ok. by eapply erase_loop_heap.
Qed.

(** In a tight heap every node is a node of a chain. *)
Lemma tight_valued m M : tight hasher_ m M → valued (nodes m).
Proof.
  intros [[bs HI] Hns _].
  pose proof (inv_flat _ _ _ _ HI) as [Hheld Hnd _ Hkeys Hentry Hcomplete].
  set (L := concat bs) in *.
  assert (Hlen : base.size M ≤ length L).
  { rewrite <-size_dom.
    trans (base.size (list_to_set ((λ e, key e.2) <$> L) : gset Key)).
    - apply subseteq_size. intros k Hk%elem_of_dom.
      destruct (Hcomplete k Hk) as (e & He & <-).
      apply elem_of_list_to_set, list_elem_of_fmap. by exists e.
    - rewrite size_list_to_set by done. by rewrite length_fmap. }
  assert (Hdom : list_to_set L.*1 = dom (nodes m)).
  { apply set_subseteq_size_eq.
    - intros l Hl%elem_of_list_to_set.
      apply list_elem_of_fmap in Hl as ([l' nd] & -> & Hin).
      apply elem_of_dom. exists nd. by apply Hheld.
    - rewrite size_list_to_set by done. rewrite length_fmap, size_dom. lia. }
  intros l nd Hl.
  assert (Hin : l ∈ L.*1).
  { apply (elem_of_list_to_set (C := gset loc)). rewrite Hdom.
    apply elem_of_dom. by eexists. }
  apply list_elem_of_fmap in Hin as ([l' nd'] & -> & Hin).
  pose proof (Hheld _ _ Hin) as Hl'. simpl in Hl. rewrite Hl in Hl'.
  injection Hl' as ->.
  rewrite Forall_forall in Hentry.
  destruct (Hentry _ Hin) as (_ & vl & v & Hvl & _). simpl in Hvl. by rewrite Hvl.
Qed.

Lemma new_map_tight n : 1 ≤ n → tight hasher_ (new_map n) (∅ : gmap Key Value).
Proof. intros Hn. split; [by apply new_map_wf|done|done]. Qed.

Lemma step_tight fuel m M o :
  tight hasher_ m M → base.size M < fuel →
  match o with
  | Insert sp _ _ => length sp < fuel
  | Erase sp _ => sp = []
  | _ => True
  end →
  ∃ m', step hasher_ fuel m o = Ok ((map_step M o).1, m') ∧
        tight hasher_ m' (map_step M o).2.
Proof.
  intros Ht Hfuel Ho. pose proof (tight_valued _ _ Ht) as Hv.
  destruct Ht as [Hwf Hns Hvs].
  destruct (step_spec hasher_ fuel m M o Hwf Hfuel Ho) as (m' & Hstep & Hwf').
  exists m'. split; [done|]. split; [done| |].
  - destruct o as [sp k v|k|sp k|k]; simpl in *.
    + apply bind_Ok in Hstep as ([b m1] & Hins & Heq). injection Heq as Hb <-.
      apply insert_heap in Hins as [Hn _]; [|done]. rewrite Hn, Hns.
      subst b. unfold present. destruct (M !! k) eqn:Hk; simpl.
      * rewrite map_size_insert_Some by done. lia.
      * rewrite map_size_insert_None by done. lia.
    + apply bind_Ok in Hstep as (r & _ & Heq). by injection Heq as _ <-.
    + apply bind_Ok in Hstep as ([b m1] & Her & Heq). injection Heq as Hb <-.
      apply erase_heap in Her as [Hn _]; [|done].
      subst b. unfold present in Hn. destruct (M !! k) eqn:Hk; simpl in Hn.
      * rewrite map_size_delete_Some by done. lia.
      * rewrite map_size_delete_None by done. lia.
    + apply bind_Ok in Hstep as (r & _ & Heq). by injection Heq as _ <-.
  - destruct o as [sp k v|k|sp k|k]; simpl in *.
    + apply bind_Ok in Hstep as ([b m1] & Hins & Heq). injection Heq as Hb <-.
      apply insert_heap in Hins as [_ Hn]; [|done]. rewrite Hn, Hvs.
      subst b. unfold present. destruct (M !! k) eqn:Hk; simpl.
      * rewrite map_size_insert_Some by done. lia.
      * rewrite map_size_insert_None by done. lia.
    + apply bind_Ok in Hstep as (r & _ & Heq). by injection Heq as _ <-.
    + apply bind_Ok in Hstep as ([b m1] & Her & Heq). injection Heq as Hb <-.
      apply erase_heap in Her as [_ Hn]; [|done].
      subst b. unfold present in Hn. destruct (M !! k) eqn:Hk; simpl in Hn.
      * rewrite map_size_delete_Some by done. lia.
      * rewrite map_size_delete_None by done. lia.
    + apply bind_Ok in Hstep as (r & _ & Heq). by injection Heq as _ <-.
Qed.

Lemma run_tight fuel ops :
  ∀ m M,
    tight hasher_ m M → base.size M + length ops < fuel →
    Forall (λ o, match o with Insert sp _ _ => length sp < fuel | _ => True end) ops →
    erase_undisturbed ops →
    ∃ m', run hasher_ fuel m ops = Ok ((map_run M ops).1, m') ∧
          tight hasher_ m' (map_run M ops).2.
Proof.
  induction ops as [|o ops IH]; intros m M Ht Hfuel Hsp Her.
  - exists m. by split.
  - apply Forall_cons in Hsp as [Ho Hsp]. apply Forall_cons in Her as [Hero Her].
    simpl in Hfuel.
    destruct (step_tight fuel m M o Ht) as (m1 & Hm1 & Ht1); [lia|by destruct o|].
    pose proof (map_step_size M o) as Hlen.
    destruct (IH m1 _ Ht1) as (m2 & Hm2 & Ht2); [lia|done|done|].
    exists m2. simpl. rewrite Hm1. simpl. rewrite Hm2. simpl.
    destruct (map_step M o) as [r M1]. simpl in *.
    destruct (map_run M1 ops) as [rs M2]. by split.
Qed.

(** *** Inserts into a chain, whatever it holds *)

(** An [insert] that does not find its key puts a new node at the head of
    the chain and counts it, whatever else the chain holds. *)
Lemma insert_unfound fuel sp m i p k v :
  bucket_index hasher_ m k = Ok i → bucket m i = Ok p →
  find_node fuel (nodes m) p k = Ok None → length sp < fuel →
  ∃ m', insert hasher_ fuel sp m k v = Ok (true, m') ∧
        size m' = wrap (size m + 1) ∧
        contains hasher_ fuel m' k = Ok true.
Proof.
  intros Hidx Hb Hfind Hsp.
  assert (Hi : i < length (buckets_ m)).
  { unfold bucket in Hb. destruct (buckets_ m !! i) eqn:Hi; [|done].
    by eapply lookup_lt_Some. }
  unfold insert. rewrite Hidx. simpl. rewrite Hb. simpl. rewrite Hfind. simpl.
  rewrite lookup_insert_eq. simpl. rewrite insert_insert_eq.
  unfold with_next. simpl.
  erewrite publish_spec; [|apply lookup_insert_eq|done|done]. simpl.
  eexists. split; [reflexivity|]. split; [done|].
  unfold contains.
  erewrite bucket_index_length; [|simpl; apply length_insert]. rewrite Hidx. simpl.
  unfold bucket. simpl. rewrite list_lookup_insert_eq by done. simpl.
  destruct fuel as [|fuel]; [lia|]. simpl.
  rewrite lookup_insert_eq. simpl. rewrite bool_decide_eq_true_2 by done. done.
Qed.

(** An [insert] that replaces the value of a key leaves every node where
    it is. *)
Lemma insert_present_head fuel sp m M k k0 v v0 :
  wf hasher_ m M → M !! k = Some v0 → key_at_head hasher_ m k0 →
  base.size M ≤ fuel → length sp < fuel →
  ∃ m', insert hasher_ fuel sp m k v = Ok (false, m') ∧
        wf hasher_ m' (<[k := v]> M) ∧ key_at_head hasher_ m' k0.
Proof.
  intros Hwf HM (i0 & l0 & nd0 & Hi0 & Hb0 & Hl0 & Hk0) Hfuel Hsp.
  destruct (insert_spec hasher_ fuel sp m M k v Hwf Hfuel Hsp) as (m' & Hins & Hwf').
  unfold present in Hins. rewrite HM in Hins. simpl in Hins.
  exists m'. split; [done|]. split; [done|].
  unfold insert in Hins.
  apply bind_Ok in Hins as (i & Hi & Hins).
  apply bind_Ok in Hins as (bh & Hb & Hins).
  apply bind_Ok in Hins as (ex & Hf & Hins).
  destruct ex as [e|].
  - apply bind_Ok in Hins as (nd & Hnd & Hins).
    apply bind_Ok in Hins as (vs & Hvs & Hins).
    injection Hins as <-.
    destruct (decide (l0 = e)) as [->|Hne].
    + exists i0, e, (with_value nd0 (Some (fresh (dom (values m))))).
      split_and!; [done|done| |done].
      simpl. simpl in Hnd. rewrite Hl0 in Hnd. injection Hnd as <-.
      apply lookup_insert_eq.
    + exists i0, l0, nd0. split_and!; [done|done| |done].
      simpl. by rewrite lookup_insert_ne.
  - apply bind_Ok in Hins as (hd & _ & Hins).
    apply bind_Ok in Hins as (nd & _ & Hins).
    apply bind_Ok in Hins as ([ns bh'] & _ & Hins). done.
Qed.

(** *** A compare-exchange that fails inside a chain *)

Lemma first_match_absent k (es : list (loc * Node Key)) :
  (∀ e, e ∈ es → marked e.2 = true ∨ key e.2 ≠ k) → first_match k es = None.
Proof.
  induction es as [|e es IH]; intros Hes; [done|]. simpl.
  destruct (Hes e) as [Hm|Hk]; [by left| |].
  - rewrite Hm. simpl. apply IH. intros e' He'. apply Hes. by right.
  - rewrite bool_decide_eq_false_2 by done. rewrite andb_false_r.
    apply IH. intros e' He'. apply Hes. by right.
Qed.

(** The walk of [unlink_inner] to the predecessor [lp] of node [l]; what
    its compare-exchange does is left to [sp]. *)
Lemma unlink_inner_walk (ns : gmap loc (Node Key)) es1 lp pnd l ndm :
  ns !! l = Some ndm → next pnd = Some l →
  held ns (es1 ++ [(lp, pnd)]) →
  l ∉ (es1 ++ [(lp, pnd)]).*1 →
  ∀ fuel sp p, (∃ tl, linked next p (es1 ++ (lp, pnd) :: tl)) →
    length es1 < fuel →
    unlink_inner fuel sp ns p (Some l) =
      (let '(ok, pnext, _) :=
         compare_exchange_weak (List.hd false sp) (next pnd) (next pnd) (next ndm) in
       Ok (<[lp := with_next pnd pnext]> ns, ok, List.tl sp)).
Proof.
  intros Hl Hpn.
  induction es1 as [|[l1 n1] es1 IH]; intros Hheld Hnin fuel sp p Hlk Hfuel.
  - destruct fuel as [|fuel]; [simpl in Hfuel; lia|].
    assert (p = Some lp) as ->.
    { by destruct Hlk as [tl [? _]]. }
    simpl. rewrite (Hheld lp pnd) by (by left). simpl.
    rewrite Hpn. rewrite decide_True by done. rewrite Hl. simpl. done.
  - destruct fuel as [|fuel]; [simpl in Hfuel; lia|].
    assert (p = Some l1 ∧ ∃ tl, linked next (next n1) (es1 ++ (lp, pnd) :: tl))
      as [-> Hlk'].
    { destruct Hlk as [tl [? ?]]; split; eauto. }
    simpl in Hheld, Hnin. apply held_cons in Hheld as [Hl1 Hheld]. simpl in Hl1.
    apply not_elem_of_cons in Hnin as [Hne Hnin].
    simpl. rewrite Hl1. simpl.
    assert (Hn1 : ∃ l2, next n1 = Some l2 ∧ l2 ≠ l).
    { assert (Hhd : next n1 = fst <$> head (es1 ++ [(lp, pnd)])).
      { destruct Hlk' as [tl Hk]. apply linked_head in Hk. rewrite Hk.
        by destruct es1. }
      destruct (es1 ++ [(lp, pnd)]) as [|[l2 n2] rest] eqn:Heq.
      { by destruct es1. }
      exists l2. split; [done|]. intros ->. apply Hnin. by left. }
    destruct Hn1 as (l2 & Hn1 & Hl2). rewrite Hn1.
    rewrite decide_False by congruence. rewrite decide_False by done.
    rewrite <-Hn1. apply IH; [done|done|done|]. simpl in Hfuel. lia.
Qed.

(** The node of a live key [k] is behind the head of its chain and the
    compare-exchange that unlinks it fails spuriously: [erase] answers
    false, the node stays in the chain, marked, [size_] is what it was and
    [find_node] does not find [k] any more. *)
Lemma erase_spurious_inner fuel sp m M k k0 v :
  wf hasher_ m M → M !! k = Some v → base.size M < fuel → 1 < fuel →
  k0 ≠ k → key_at_head hasher_ m k0 →
  bucket_index hasher_ m k0 = bucket_index hasher_ m k →
  ∃ m', erase hasher_ fuel (true :: sp) m k = Ok (false, m') ∧
        contains hasher_ fuel m' k = Ok false ∧
        get hasher_ fuel m' k = Ok None ∧
        size m' = size m ∧
        base.size (nodes m') = base.size (nodes m) ∧
        base.size (values m') = base.size (values m) ∧
        ∃ i p, bucket_index hasher_ m' k = Ok i ∧ bucket m' i = Ok p ∧
               find_node fuel (nodes m') p k = Ok None.
Proof.
  intros [bs HI] HM Hfuel Hfuel2 Hk0 (i0 & l0 & nd0 & Hi0 & Hb0 & Hl0 & Hkey0) Hsame.
  destruct (Inv_bucket hasher_ _ _ _ k HI) as (p & es & Hidx & Hb & Hbp & Hes & Hlk & Hheld & Hlen).
  set (i := bucket_of hasher_ (length (buckets_ m)) k) in *.
  rewrite Hsame, Hidx in Hi0. injection Hi0 as <-.
  rewrite Hb in Hb0. injection Hb0 as Hp0.
  destruct (concat_lookup_perm _ _ _ Hes) as (others & Hperm & _).
  pose proof (inv_flat _ _ _ _ HI) as Hflat.
  destruct (find_live hasher_ _ _ _ _ _ _ HI Hes HM)
    as (l & nd & vl & Hfm & Hin & Hk & Hm & Hvl & Hv).
  pose proof (Hheld _ _ Hin) as Hl.
  pose proof (flat_nodup _ _ _ _ Hflat) as Hnd. rewrite Hperm in Hnd.
  rewrite fmap_app in Hnd. apply NoDup_app in Hnd as (Hnd & _ & _).
  apply list_elem_of_split in Hin as (es1 & es2 & ->).
  destruct es1 as [|[lp pnd] es1 _] using rev_ind.
  { exfalso. simpl in Hlk. destruct Hlk as [Hpl _].
    rewrite Hpl in Hp0. injection Hp0 as <-.
    rewrite Hl in Hl0. injection Hl0 as <-. congruence. }
  rewrite <-app_assoc in *. simpl in *.
  assert (Hpn : next pnd = Some l).
  { clear -Hlk. revert p Hlk. induction es1 as [|[l1 n1] es1 IH]; simpl; intros p.
    - by intros (_ & ? & _).
    - intros [_ ?]. eauto. }
  rewrite fmap_app in Hnd. simpl in Hnd.
  assert ((l ∉ es1.*1) ∧ l ≠ lp ∧ (l ∉ es2.*1)) as (Hle1 & Hllp & Hle2).
  { apply NoDup_app in Hnd as (_ & Hd & Hnd2).
    apply NoDup_cons in Hnd2 as [Hlp [Hnl _]%NoDup_cons].
    split_and!; [| |done].
    - intros Hin. apply (Hd l Hin). right. by left.
    - intros ->. apply Hlp. by left. }
  assert (Hpl : p ≠ Some l).
  { intros Hpl. rewrite Hpl in Hp0. injection Hp0 as <-.
    rewrite Hl in Hl0. injection Hl0 as <-. congruence. }
  set (ns1 := <[l := with_marked nd true]> (nodes m)).
  set (ns2 := <[lp := with_next pnd (next pnd)]> ns1).
  set (es' := es1 ++ (lp, pnd) :: (l, with_marked nd true) :: es2).
  assert (Hlp : nodes m !! lp = Some pnd).
  { apply Hheld. apply elem_of_app. right. by left. }
  assert (Hns2 : ns2 = ns1).
  { unfold ns2. rewrite with_next_id. apply insert_id.
    unfold ns1. by rewrite lookup_insert_ne. }
  assert (Hheld' : held ns1 es').
  { intros l' nd' Hin. unfold es' in Hin.
    apply elem_of_app in Hin as [Hin|Hin].
    { unfold ns1. rewrite lookup_insert_ne.
      - apply Hheld. apply elem_of_app. by left.
      - intros <-. apply Hle1. apply list_elem_of_fmap. by exists (l, nd'). }
    apply elem_of_cons in Hin as [Heq|Hin].
    { injection Heq as -> ->. unfold ns1. by rewrite lookup_insert_ne. }
    apply elem_of_cons in Hin as [Heq|Hin].
    { injection Heq as -> ->. apply lookup_insert_eq. }
    unfold ns1. rewrite lookup_insert_ne.
    - apply Hheld. apply elem_of_app. right. right. by right.
    - intros <-. apply Hle2. apply list_elem_of_fmap. by exists (l, nd'). }
  assert (Hlk' : linked next p es').
  { unfold es'. rewrite cons_middle, app_assoc.
    apply (linked_replace next p _ l nd); [|done]. by rewrite <-app_assoc. }
  assert (Hfm' : first_match k es' = None).
  { apply first_match_absent. intros e He.
    assert (Hcases : e = (l, with_marked nd true) ∨
                     (e ∈ es1 ++ (lp, pnd) :: (l, nd) :: es2 ∧ e.1 ≠ l)).
    { apply elem_of_app in He as [He|[->|[->|He]%elem_of_cons]%elem_of_cons].
      - right. split; [apply elem_of_app; by left|].
        intros Heq. apply Hle1. rewrite <-Heq. apply list_elem_of_fmap. by exists e.
      - right. split; [apply elem_of_app; right; by left|]. simpl. congruence.
      - by left.
      - right. split; [apply elem_of_app; right; right; by right|].
        intros Heq. apply Hle2. rewrite <-Heq. apply list_elem_of_fmap. by exists e. }
    destruct Hcases as [->|[Hin Hne]]; [by left|]. right. intros Hke.
    assert (Heq : e = (l, nd)).
    { eapply (Inv_key_inj hasher_ _ _ _ _ _ HI); [| |simpl; congruence].
      - apply elem_of_concat. eauto.
      - apply elem_of_concat. exists i, (es1 ++ (lp, pnd) :: (l, nd) :: es2).
        split; [done|]. apply elem_of_app. right. right. by left. }
    subst e. by apply Hne. }
  assert (Hlen' : length es' = length (es1 ++ (lp, pnd) :: (l, nd) :: es2)).
  { unfold es'. rewrite !length_app. reflexivity. }
  set (m' := set_nodes m ns1).
  assert (Hidx' : bucket_index hasher_ m' k = Ok i) by done.
  assert (Hb' : bucket m' i = Ok p) by done.
  assert (Hfind' : find_node fuel ns1 p k = Ok None).
  { rewrite (find_node_spec _ es' Hheld') by (done || lia). by rewrite Hfm'. }
  exists m'. split_and!.
  - unfold erase. rewrite Hidx. cbn [mbind result_bind].
    assert (∃ rounds, fuel = S (S rounds)) as [rounds Hf].
    { exists (fuel - 2). lia. }
    replace (erase_loop fuel fuel (true :: sp) m i k)
      with (erase_loop fuel (S (S rounds)) (true :: sp) m i k) by (by rewrite <-Hf).
    rewrite erase_loop_unfold. rewrite Hb. cbn [mbind result_bind].
    rewrite (find_node_spec _ _ Hheld) by (done || lia). rewrite Hfm.
    cbn [fmap option_fmap option_map fst mbind result_bind].
    rewrite (deref_Some _ _ _ Hl). cbn [mbind result_bind]. rewrite Hm.
    unfold bucket at 1. simpl buckets_. rewrite Hbp. cbn [mbind result_bind].
    rewrite decide_False by done.
    simpl nodes. fold ns1.
    rewrite (unlink_inner_walk ns1 es1 lp pnd l (with_marked nd true));
      [|apply lookup_insert_eq|done| | |by eauto
       |rewrite length_app in Hlen; simpl in Hlen; lia].
    2:{ apply held_app. split.
        - eapply held_mono; [|exact Hheld']. intros e He. apply elem_of_app. by left.
        - apply held_cons. split; [|apply held_nil]. simpl.
          unfold ns1. by rewrite lookup_insert_ne. }
    2:{ rewrite fmap_app. simpl. intros [Hi|Hi]%elem_of_app; [done|].
        apply list_elem_of_singleton in Hi. done. }
    simpl List.hd. simpl List.tl. rewrite cas_weak_spurious.
    cbn [mbind result_bind]. fold ns2. rewrite Hns2.
    rewrite erase_loop_unfold.
    change (bucket (set_nodes (set_nodes m ns1) ns1) i) with (bucket m i).
    rewrite Hb. cbn [mbind result_bind]. simpl nodes. rewrite Hfind'. reflexivity.
  - unfold contains. rewrite Hidx'. cbn [mbind result_bind]. rewrite Hb'.
    cbn [mbind result_bind]. simpl nodes. rewrite Hfind'. done.
  - unfold get. rewrite Hidx'. cbn [mbind result_bind]. rewrite Hb'.
    cbn [mbind result_bind]. simpl nodes. rewrite Hfind'. done.
  - done.
  - simpl. unfold ns1. apply map_size_insert_Some. by eexists.
  - done.
  - by exists i, p.
Qed.

End HashMapHeapFacts.
End HashMapHeapFacts.

(** ** Readers of the hash map that are overtaken *)

Module HashMapReadersFacts.
Import HashMap HashMapFacts HashMapHeapFacts.
Section HashMapReadersFacts.
Context {Key Value : Type} `{Countable Key}.
Variable hasher_ : Key → N.
Implicit Types (m : LockFreeHashMap Key Value) (M : gmap Key Value).
Implicit Types (ns : gmap loc (Node Key)).

Lemma keys_kept_refl ns : keys_kept ns ns.
Proof. intros l nd Hl. by exists nd. Qed.

Lemma keys_kept_trans ns1 ns2 ns3 :
  keys_kept ns1 ns2 → keys_kept ns2 ns3 → keys_kept ns1 ns3.
Proof.
  intros H12 H23 l nd3 Hl. destruct (H23 l nd3 Hl) as (nd2 & Hl2 & Hk2).
  destruct (H12 l nd2 Hl2) as (nd1 & Hl1 & Hk1). exists nd1. split; [done|congruence].
Qed.

Lemma keys_kept_insert ns l nd nd' :
  ns !! l = Some nd → key nd' = key nd → keys_kept ns (<[l := nd']> ns).
Proof.
  intros Hl Hk l' x Hx. destruct (decide (l' = l)) as [->|Hne].
  - rewrite lookup_insert_eq in Hx. injection Hx as <-. by exists nd.
  - rewrite lookup_insert_ne in Hx by done. by exists x.
Qed.

Lemma keys_kept_delete ns l : keys_kept ns (delete l ns).
Proof. intros l' x [_ Hx]%lookup_delete_Some. by exists x. Qed.

Lemma unlink_inner_keys fuel : ∀ sp ns prev node ns' removed sp',
  unlink_inner fuel sp ns prev node = Ok (ns', removed, sp') → keys_kept ns ns'.
Proof.
  induction fuel as [|fuel IH]; intros sp ns prev node ns' removed sp'.
  - destruct prev; simpl; [done|]. intros [= <- <- <-]. apply keys_kept_refl.
  - destruct prev as [p|]; simpl; [|intros [= <- <- <-]; apply keys_kept_refl].
    destruct (ns !! p) as [pnd|] eqn:Hp; [|done]. simpl.
    destruct (decide (next pnd = node)) as [Heq|Hne].
    + intros (nd & Hnd & Hrun)%bind_Ok.
      destruct (compare_exchange_weak _ _ _ _) as [[ok pnext] x].
      injection Hrun as <- <- <-. by eapply keys_kept_insert.
    + destruct (decide (next pnd = None)) as [Hnone|Hsome].
      * intros [= <- <- <-]. apply keys_kept_refl.
      * apply IH.
Qed.

(** [erase] that returns true has deleted a node that held the key. *)
Lemma erase_loop_keys fuel rounds i k : ∀ sp m b m',
  erase_loop fuel rounds sp m i k = Ok (b, m') → keys_kept (nodes m) (nodes m').
Proof.
  induction rounds as [|rounds IH]; intros sp m b m'; [done|].
  rewrite erase_loop_unfold.
  intros (bhead & Hb & Hrun)%bind_Ok.
  apply bind_Ok in Hrun as (node & Hfind & Hrun).
  destruct node as [n|]; [|injection Hrun as <- <-; apply keys_kept_refl].
  apply bind_Ok in Hrun as (nd & Hnd & Hrun).
  apply deref_inv in Hnd as (l & [= <-] & Hl).
  assert (H1 : keys_kept (nodes m) (<[n := with_marked nd true]> (nodes m))).
  { by eapply keys_kept_insert. }
  destruct (marked nd).
  - apply IH in Hrun. simpl in Hrun. by eapply keys_kept_trans.
  - apply bind_Ok in Hrun as (head & Hhead & Hrun).
    destruct (decide (head = Some n)) as [->|Hne].
    + apply bind_Ok in Hrun as (nd' & Hnd' & Hrun).
      apply bind_Ok in Hrun as ([bhead' sp'] & Hun & Hrun).
      unfold reclaim in Hrun. apply bind_Ok in Hrun as (nd2 & Hnd2 & Hrun).
      apply bind_Ok in Hrun as (vs & Hvs & Hrun). injection Hrun as <- <-. simpl.
      eapply keys_kept_trans; [exact H1|apply keys_kept_delete].
    + apply bind_Ok in Hrun as ([[ns removed] sp'] & Hun & Hrun).
      apply unlink_inner_keys in Hun. simpl in Hun.
      destruct removed.
      * unfold reclaim in Hrun. apply bind_Ok in Hrun as (nd2 & Hnd2 & Hrun).
        apply bind_Ok in Hrun as (vs & Hvs & Hrun). injection Hrun as <- <-. simpl.
        eapply keys_kept_trans; [exact H1|].
        eapply keys_kept_trans; [exact Hun|apply keys_kept_delete].
      * apply IH in Hrun. simpl in Hrun.
        eapply keys_kept_trans; [exact H1|]. by eapply keys_kept_trans.
Qed.

(** In a tight heap every node holds a key of the map. *)
Lemma tight_node_key m M l nd :
  tight hasher_ m M → nodes m !! l = Some nd → is_Some (M !! key nd).
Proof.
  intros [[bs HI] Hns _] Hl.
  pose proof (inv_flat _ _ _ _ HI) as [Hheld Hnd _ Hkeys Hentry Hcomplete].
  set (L := concat bs) in *.
  assert (Hlen : base.size M ≤ length L).
  { rewrite <-size_dom.
    trans (base.size (list_to_set ((λ e, key e.2) <$> L) : gset Key)).
    - apply subseteq_size. intros k Hk%elem_of_dom.
      destruct (Hcomplete k Hk) as (e & He & <-).
      apply elem_of_list_to_set, list_elem_of_fmap. by exists e.
    - rewrite size_list_to_set by done. by rewrite length_fmap. }
  assert (Hdom : list_to_set L.*1 = dom (nodes m)).
  { apply set_subseteq_size_eq.
    - intros l0 Hl0%elem_of_list_to_set.
      apply list_elem_of_fmap in Hl0 as ([l' nd0] & -> & Hin).
      apply elem_of_dom. exists nd0. by apply Hheld.
    - rewrite size_list_to_set by done. rewrite length_fmap, size_dom. lia. }
  assert (Hin : l ∈ L.*1).
  { apply (elem_of_list_to_set (C := gset loc)). rewrite Hdom.
    apply elem_of_dom. by eexists. }
  apply list_elem_of_fmap in Hin as ([l' nd'] & -> & Hin).
  pose proof (Hheld _ _ Hin) as Hl'. simpl in Hl. rewrite Hl in Hl'.
  injection Hl' as ->.
  rewrite Forall_forall in Hentry.
  destruct (Hentry _ Hin) as (_ & vl & v & _ & _ & HM). simpl in HM. by eexists.
Qed.

(** What a reader finds for a key that is there. *)
Lemma find_present fuel m M k v :
  wf hasher_ m M → base.size M ≤ fuel → M !! k = Some v →
  ∃ i bhead l nd vl,
    bucket_index hasher_ m k = Ok i ∧ bucket m i = Ok bhead ∧
    find_node fuel (nodes m) bhead k = Ok (Some l) ∧
    nodes m !! l = Some nd ∧ key nd = k ∧ value nd = Some vl ∧
    values m !! vl = Some v.
Proof.
  intros [bs HI] Hfuel HM.
  destruct (Inv_bucket hasher_ _ _ _ k HI)
    as (p & es & Hidx & Hb & _ & Hes & Hlk & Hheld & Hlen).
  destruct (find_live hasher_ _ _ _ _ _ _ HI Hes HM)
    as (l & nd & vl & Hfm & Hin & Hk & _ & Hvl & Hv).
  exists (bucket_of hasher_ (length (buckets_ m)) k), p, l, nd, vl.
  split_and!; try done.
  - rewrite (find_node_spec _ es Hheld) by (done || lia). by rewrite Hfm.
  - by apply Hheld.
Qed.

(** A reader overtaken by an [insert] that replaces the value. *)
Lemma get_after_update fuel m M k v0 v :
  wf hasher_ m M → base.size M ≤ fuel → M !! k = Some v0 →
  ∃ node val m',
    get_step hasher_ fuel k GFind m = Ok (GValue node) ∧
    get_step hasher_ fuel k (GValue node) m = Ok (GCopy val) ∧
    insert hasher_ fuel [] m k v = Ok (false, m') ∧
    get_step hasher_ fuel k (GCopy val) m' = UB.
Proof.
  intros Hwf Hfuel HM.
  destruct (find_present fuel m M k v0 Hwf Hfuel HM)
    as (i & bhead & l & nd & vl & Hidx & Hb & Hfind & Hl & Hk & Hvl & Hv).
  pose proof (fresh_None (values m)) as Hnv.
  assert (Hne : fresh (dom (values m)) ≠ vl) by congruence.
  eexists (Some l), (Some vl), _. split_and!.
  - simpl. rewrite Hidx. simpl. rewrite Hb. simpl. by rewrite Hfind.
  - simpl. rewrite Hl. simpl. by rewrite Hvl.
  - unfold insert. rewrite Hidx. simpl. rewrite Hb. simpl. rewrite Hfind. simpl.
    rewrite Hl. simpl. rewrite Hvl. simpl. rewrite lookup_insert_ne by done.
    rewrite Hv. reflexivity.
  - simpl. by rewrite lookup_delete_eq.
Qed.

(** A reader or a writer overtaken by an [erase] of its key. *)
Lemma node_after_erase fuel m M k v0 v :
  tight hasher_ m M → base.size M < fuel → M !! k = Some v0 →
  ∃ l m',
    get_step hasher_ fuel k GFind m = Ok (GValue (Some l)) ∧
    insert_step hasher_ fuel false k v IFind m = Ok (IUpdate l, m) ∧
    erase hasher_ fuel [] m k = Ok (true, m') ∧
    get_step hasher_ fuel k (GValue (Some l)) m' = UB ∧
    insert_step hasher_ fuel false k v (IUpdate l) m' = UB.
Proof.
  intros Ht Hfuel HM. pose proof Ht as [Hwf _ _].
  destruct (find_present fuel m M k v0 Hwf ltac:(lia) HM)
    as (i & bhead & l & nd & vl & Hidx & Hb & Hfind & Hl & Hk & Hvl & Hv).
  destruct (step_tight hasher_ fuel m M (Erase [] k) Ht Hfuel eq_refl)
    as (m' & Hstep & Ht').
  simpl in Hstep. apply bind_Ok in Hstep as ([b m1] & Her & Heq).
  injection Heq as Hb' ->. unfold present in Hb'. rewrite HM in Hb'. subst b.
  assert (Hgone : nodes m' !! l = None).
  { destruct (nodes m' !! l) as [nd'|] eqn:Hl'; [|done]. exfalso.
    pose proof Her as Her'. unfold erase in Her'.
    apply bind_Ok in Her' as (i' & _ & Hloop).
    destruct (erase_loop_keys _ _ _ _ _ _ _ _ Hloop l nd' Hl') as (nd0 & Hl0 & Hk0).
    rewrite Hl in Hl0. injection Hl0 as <-.
    destruct (tight_node_key _ _ _ _ Ht' Hl') as [x Hx].
    simpl in Hx. rewrite <-Hk0, Hk, lookup_delete_eq in Hx. done. }
  exists l, m'. split_and!.
  - simpl. rewrite Hidx. simpl. rewrite Hb. simpl. by rewrite Hfind.
  - simpl. rewrite Hidx. simpl. rewrite Hb. simpl. by rewrite Hfind.
  - done.
  - simpl. by rewrite Hgone.
  - simpl. by rewrite Hgone.
Qed.

End HashMapReadersFacts.
End HashMapReadersFacts.

(** ** Threads with exclusive calls on the hash map *)

Module HashMapThreadsFacts.
Import HashMap HashMapFacts HashMapThreads.
Section HashMapThreadsFacts.
Context {Key Value : Type} `{Countable Key}.
Variable hasher_ : Key → N.
Implicit Types (m : LockFreeHashMap Key Value) (M : gmap Key Value).
Implicit Types (ts : list (thread Key Value)) (calls : list (call Key Value)).
Implicit Types (bs : list (list (loc * Node Key))) (pv : gmap loc nat).
Implicit Types (ns : gmap loc (Node Key)) (th : thread Key Value).
Implicit Types (c : call Key Value) (pc : turn_pc Value).

Abbreviation chain_vals es := ((λ e : loc * Node Key, value e.2) <$> es).

(** Key, link and mark of the nodes of the chains stay, and the nodes stay
    in the chains. *)
Abbreviation skeleton_kept bs ns bs' ns' :=
  (∀ l nd, published bs l → ns !! l = Some nd →
     published bs' l ∧
     ∃ nd', ns' !! l = Some nd' ∧ key nd' = key nd ∧ next nd' = next nd ∧
            marked nd' = marked nd).

(** The node of the key [k] and its value object stay. *)
Abbreviation node_kept bs vs bs' vs' k :=
  (∀ e nd, (e, nd) ∈ concat bs → key nd = k →
     (e, nd) ∈ concat bs' ∧
     ∀ cell v, value nd = Some cell → vs !! cell = Some v → vs' !! cell = Some v).

(** The invariant of the chains reads the nodes and the value objects of
    the chains only. *)
Lemma Inv_frame m m' M bs :
  Inv hasher_ m M bs →
  buckets_ m' = buckets_ m → size_ m' = size_ m →
  (∀ l nd, (l, nd) ∈ concat bs → nodes m' !! l = Some nd) →
  (∀ cell v, values m !! cell = Some v → Some cell ∈ chain_vals (concat bs) →
     values m' !! cell = Some v) →
  Inv hasher_ m' M bs.
Proof.
  intros [Hne Hlk [Hheld Hnd Hv Hk He Hc] Hb Hsz] Hbk Hsize Hns Hvs. split.
  - by rewrite Hbk.
  - by rewrite Hbk.
  - split; try done.
    rewrite Forall_forall in He. apply Forall_forall. intros e Hin.
    destruct (He e Hin) as (Hm & vl & v & Hvl & Hval & HM).
    split; [done|]. exists vl, v. split_and!; [done| |done].
    apply Hvs; [done|]. rewrite <-Hvl. apply list_elem_of_fmap. by exists e.
  - by rewrite Hbk.
  - by rewrite Hsize.
Qed.

Lemma sum_counting_insert ts t th th' :
  ts !! t = Some th →
  sum_list (counting <$> <[t := th']> ts) + counting th =
  sum_list (counting <$> ts) + counting th'.
Proof.
  revert t. induction ts as [|x ts IH]; intros t Ht; [done|].
  destruct t as [|t]; csimpl in *.
  - injection Ht as ->. lia.
  - specialize (IH t Ht). lia.
Qed.

(** *** Exclusive calls *)

Lemma inserted_elem calls k v :
  (k, v) ∈ inserted calls ↔ CallInsert k v ∈ calls.
Proof.
  unfold inserted. rewrite list_elem_of_omap. split.
  - intros (c & Hin & Hc). destruct c; try done. by injection Hc as -> ->.
  - intros Hin. by exists (CallInsert k v).
Qed.

Lemma inserted_key calls k v :
  CallInsert k v ∈ calls → k ∈ (inserted calls).*1.
Proof.
  intros Hin. apply list_elem_of_fmap. exists (k, v). split; [done|].
  by apply inserted_elem.
Qed.

Lemma inserted_length calls : length (inserted calls) ≤ length calls.
Proof.
  induction calls as [|c calls IH]; [done|].
  unfold inserted in *. destruct c; csimpl; lia.
Qed.

Lemma inserted_apart calls i j k v v' :
  NoDup (inserted calls).*1 →
  calls !! i = Some (CallInsert k v) → calls !! j = Some (CallInsert k v') → i = j.
Proof.
  revert i j. induction calls as [|c calls IH]; intros i j Hnd Hi Hj; [done|].
  assert (NoDup (inserted calls).*1 ∧
          (∀ w, c = CallInsert k w → k ∉ (inserted calls).*1)) as [Hnd' Hc].
  { unfold inserted in *. destruct c as [k0 v0| |]; csimpl in *; try done.
    apply NoDup_cons in Hnd as [Hk Hnd]. split; [done|].
    intros w Heq. by injection Heq as -> _. }
  destruct i as [|i], j as [|j]; simpl in *.
  - done.
  - injection Hi as ->. exfalso. eapply Hc; [done|].
    eapply inserted_key. by eapply list_elem_of_lookup_2.
  - injection Hj as ->. exfalso. eapply Hc; [done|].
    eapply inserted_key. by eapply list_elem_of_lookup_2.
  - f_equal. by apply IH.
Qed.

Lemma exclusive_nodup calls : exclusive calls = true → NoDup (inserted calls).*1.
Proof. intros [Hnd _]%andb_true_iff. by apply bool_decide_eq_true in Hnd. Qed.

(** The key of a call that inserts is the key of no other call. *)
Lemma exclusive_apart calls i j c c' k v :
  exclusive calls = true →
  calls !! i = Some c → calls !! j = Some c' → j ≠ i →
  c = CallInsert k v → call_key c' ≠ k.
Proof.
  intros Hex Hi Hj Hne -> Heq.
  pose proof (exclusive_nodup _ Hex) as Hnd.
  apply andb_true_iff in Hex as [_ Hall].
  rewrite forallb_forall in Hall.
  pose proof (Hall c' (proj1 (list_elem_of_In _ _) (list_elem_of_lookup_2 _ _ _ Hj))) as Hc'.
  assert (k ∈ (inserted calls).*1) as Hk.
  { eapply inserted_key. by eapply list_elem_of_lookup_2. }
  destruct c' as [k' v'| |]; simpl in *; subst.
  - apply Hne. by eapply inserted_apart.
  - by apply bool_decide_eq_true in Hc'.
  - by apply bool_decide_eq_true in Hc'.
Qed.

(** *** Walks through a chain *)

Lemma walk_weaken (P Q : loc → Prop) ns d cur :
  (∀ l, P l → Q l) → walk P ns d cur → walk Q ns d cur.
Proof. intros HPQ. induction 1; econstructor; eauto. Qed.

Lemma walk_frame bs ns bs' ns' d cur :
  skeleton_kept bs ns bs' ns' →
  walk (published bs) ns d cur → walk (published bs') ns' d cur.
Proof.
  intros Hsk. induction 1 as [|d l nd Hn Hp _ IH]; [constructor|].
  destruct (Hsk l nd Hp Hn) as (Hp' & nd' & Hn' & _ & Hnx & _).
  econstructor; [exact Hn'|done|]. by rewrite Hnx.
Qed.

Lemma reaches_frame bs ns bs' ns' k cur :
  skeleton_kept bs ns bs' ns' →
  reaches (published bs) ns k cur → reaches (published bs') ns' k cur.
Proof.
  intros Hsk. induction 1 as [l nd Hn Hp Hm Hk|l nd Hn Hp _ IH];
    destruct (Hsk l nd Hp Hn) as (Hp' & nd' & Hn' & Hk' & Hnx & Hm').
  - eapply reaches_here; [exact Hn'|done|congruence|congruence].
  - eapply reaches_later; [exact Hn'|done|]. by rewrite Hnx.
Qed.

Lemma walk_linked bs ns p (es : list (loc * Node Key)) :
  linked next p es → held ns es → (∀ e, e ∈ es → e ∈ concat bs) →
  walk (published bs) ns (length es) p.
Proof.
  revert p. induction es as [|[l nd] es IH]; simpl; intros p Hl Hh Hin.
  - subst. constructor.
  - destruct Hl as [-> Hl]. apply held_cons in Hh as [Hn Hh].
    econstructor; [exact Hn| |].
    + apply list_elem_of_fmap. exists (l, nd). split; [done|]. apply Hin. by left.
    + apply IH; [done|done|]. intros e He. apply Hin. by right.
Qed.

Lemma reaches_linked bs ns k p (es : list (loc * Node Key)) l nd :
  linked next p es → held ns es → (∀ e, e ∈ es → e ∈ concat bs) →
  (l, nd) ∈ es → marked nd = false → key nd = k →
  reaches (published bs) ns k p.
Proof.
  intros Hl Hh Hin Hel Hm Hk. revert p Hl Hh Hin Hel.
  induction es as [|[l1 n1] es IH]; simpl; intros p Hl Hh Hin Hel.
  - by apply elem_of_nil in Hel.
  - destruct Hl as [-> Hl]. apply held_cons in Hh as [Hn Hh].
    assert (published bs l1) as Hp.
    { apply list_elem_of_fmap. exists (l1, n1). split; [done|]. apply Hin. by left. }
    apply elem_of_cons in Hel as [Heq|Hel].
    + injection Heq as <- <-. by eapply reaches_here.
    + eapply reaches_later; [exact Hn|done|].
      apply IH; [done|done| |done]. intros e He. apply Hin. by right.
Qed.

(** *** The invariant *)

Lemma Apart_node M0 calls ts m M bs pv l nd :
  Apart hasher_ M0 calls ts m M bs pv → (l, nd) ∈ concat bs →
  nodes m !! l = Some nd.
Proof. intros [HI _ _ _ _ _] Hin. by apply (flat_held _ _ _ _ (inv_flat _ _ _ _ HI)). Qed.

Lemma Apart_published M0 calls ts m M bs pv l nd :
  Apart hasher_ M0 calls ts m M bs pv → published bs l →
  nodes m !! l = Some nd → (l, nd) ∈ concat bs.
Proof.
  intros HA [[l' nd'] [-> Hin]]%list_elem_of_fmap Hn. simpl in *.
  rewrite (Apart_node _ _ _ _ _ _ _ _ _ HA Hin) in Hn. by injection Hn as <-.
Qed.

Lemma Apart_value M0 calls ts m M bs pv cell :
  Apart hasher_ M0 calls ts m M bs pv → Some cell ∈ chain_vals (concat bs) →
  is_Some (values m !! cell).
Proof.
  intros [HI _ _ _ _ _] [e [Heq Hin]]%list_elem_of_fmap.
  destruct (Inv_entry hasher_ _ _ _ _ HI Hin) as (_ & vl & v & Hvl & Hv & _).
  simpl in Hv. rewrite <-Heq in Hvl. injection Hvl as <-. eauto.
Qed.

(** What lies in a chain is the entry of its key. *)
Lemma Apart_entry M0 calls ts m M bs pv l nd :
  Apart hasher_ M0 calls ts m M bs pv → (l, nd) ∈ concat bs →
  marked nd = false ∧
  ∃ cell v, value nd = Some cell ∧ values m !! cell = Some v ∧ M !! key nd = Some v.
Proof. intros [HI _ _ _ _ _] Hin. apply (Inv_entry hasher_ _ _ _ _ HI Hin). Qed.

(** The chains have no more nodes than the map has keys. *)
Lemma Apart_length M0 calls ts m M bs pv :
  Apart hasher_ M0 calls ts m M bs pv → length (concat bs) ≤ base.size M.
Proof.
  intros [HI _ _ _ _ _]. pose proof (inv_flat _ _ _ _ HI) as [_ _ _ Hk He _].
  rewrite <-(length_fmap (λ e : loc * Node Key, key e.2)).
  apply keys_length_le; [done|]. intros k [e [-> Hin]]%list_elem_of_fmap.
  rewrite Forall_forall in He. destruct (He e Hin) as (_ & vl & v & _ & _ & HM). eauto.
Qed.

(** The published keys are keys of the map the threads started on or keys
    they insert. *)
Lemma Apart_bound M0 calls ts m M bs pv :
  Apart hasher_ M0 calls ts m M bs pv → exclusive calls = true →
  base.size M ≤ base.size M0 + length calls.
Proof.
  intros [_ _ _ _ Hother _] Hnd%exclusive_nodup.
  pose proof (inserted_length calls) as Hlen.
  rewrite <-!size_dom.
  trans (base.size (dom M0 ∪ list_to_set (inserted calls).*1 : gset Key)).
  - apply subseteq_size. intros k Hk. apply elem_of_union.
    destruct (decide (k ∈ (inserted calls).*1)) as [Hin|Hnin].
    + right. by apply elem_of_list_to_set.
    + left. apply elem_of_dom. rewrite <-(Hother k Hnin). by apply elem_of_dom.
  - rewrite size_union_alt.
    assert (base.size (list_to_set (inserted calls).*1 ∖ dom M0 : gset Key)
            ≤ length (inserted calls)); [|lia].
    trans (base.size (list_to_set (inserted calls).*1 : gset Key)).
    { apply subseteq_size. by intros k [Hk _]%elem_of_difference. }
    rewrite size_list_to_set by done. by rewrite length_fmap.
Qed.

(** A turn that changes no shared object and keeps the thread out of the
    count. *)
Lemma Apart_local M0 calls ts m M bs pv t th pc' :
  Apart hasher_ M0 calls ts m M bs pv → ts !! t = Some th →
  counting th = 0 →
  counting (mkThread (th_call th) pc') = 0 →
  thread_ok M0 M bs pv m t (mkThread (th_call th) pc') →
  Apart hasher_ M0 calls (<[t := mkThread (th_call th) pc']> ts) m M bs pv.
Proof.
  intros [HI Hsz Hth Hlen Hother Hpriv] Ht Hc Hc' Hok. split; try done.
  - pose proof (sum_counting_insert ts t th (mkThread (th_call th) pc') Ht) as Hsum.
    rewrite Hsz. do 2 f_equal. lia.
  - intros t' th' Ht'. destruct (decide (t' = t)) as [->|Hne].
    + rewrite list_lookup_insert_eq in Ht' by (by eapply lookup_lt_Some).
      injection Ht' as <-. destruct (Hth t th Ht) as [Hcall _]. by split.
    + rewrite list_lookup_insert_ne in Ht' by done. by apply Hth.
  - by rewrite length_insert.
Qed.

(** The chain of the bucket of a key. *)
Lemma Apart_bucket M0 calls ts m M bs pv k :
  Apart hasher_ M0 calls ts m M bs pv →
  ∃ p es,
    bucket_index hasher_ m k = Ok (bucket_of hasher_ (length (buckets_ m)) k) ∧
    bucket m (bucket_of hasher_ (length (buckets_ m)) k) = Ok p ∧
    buckets_ m !! bucket_of hasher_ (length (buckets_ m)) k = Some p ∧
    bs !! bucket_of hasher_ (length (buckets_ m)) k = Some es ∧
    linked next p es ∧ held (nodes m) es ∧ length es ≤ base.size M.
Proof. intros [HI _ _ _ _ _]. apply (Inv_bucket hasher_ _ _ _ k HI). Qed.

(** The key of a thread that inserts is the key of no other thread. *)
Lemma Apart_keys M0 calls ts m M bs pv t t' th th' k v :
  Apart hasher_ M0 calls ts m M bs pv → exclusive calls = true →
  ts !! t = Some th → ts !! t' = Some th' → t' ≠ t →
  th_call th = CallInsert k v →
  call_key (th_call th') ≠ k.
Proof.
  intros [_ _ Hth _ _ _] Hex Ht Ht' Hne Hc.
  destruct (Hth t th Ht) as [Hcall _]. destruct (Hth t' th' Ht') as [Hcall' _].
  by eapply (exclusive_apart calls t t').
Qed.

(** What a thread knows stays true when another thread moves. *)
Lemma thread_ok_frame M0 M bs pv m M' bs' pv' m' t' th' :
  thread_ok M0 M bs pv m t' th' →
  M' !! call_key (th_call th') = M !! call_key (th_call th') →
  node_kept bs (values m) bs' (values m') (call_key (th_call th')) →
  skeleton_kept bs (nodes m) bs' (nodes m') →
  length (concat bs) ≤ length (concat bs') →
  (∀ cell, pv !! cell = Some t' → pv' !! cell = Some t') →
  (∀ new head vl v,
     nodes m !! new = Some (mkNode (call_key (th_call th')) (Some vl) head false) →
     ¬ published bs new → pv !! vl = Some t' →
     values m !! vl = Some v →
     nodes m' !! new = Some (mkNode (call_key (th_call th')) (Some vl) head false) ∧
     ¬ published bs' new ∧ values m' !! vl = Some v) →
  thread_ok M0 M' bs' pv' m' t' th'.
Proof.
  unfold thread_ok, pc_ok. intros Hok HM Hchain Hsk Hlen Hpv Hpriv.
  destruct (th_pc th') as [|cur|cur|e v|old|v|new head| |node|val|r];
    rewrite ?HM; try done.
  - destruct Hok as (? & (d & Hd & Hw) & Hr). split_and!; [done| |].
    + exists d. split; [lia|]. by eapply walk_frame.
    + intros HS. eapply reaches_frame; [done|]. by apply Hr.
  - destruct Hok as (? & nd & Hn & Hp & (d & Hd & Hw) & Hr). split; [done|].
    destruct (Hsk cur nd Hp Hn) as (Hp' & nd' & Hn' & _ & Hnx & _).
    exists nd'. rewrite Hnx. split_and!; [done|done| |].
    + exists d. split; [lia|]. by eapply walk_frame.
    + intros HS. eapply reaches_frame; [done|]. by apply Hr.
  - destruct Hok as (? & ? & ? & nd & Hin & Hk). split_and!; [done|done|done|].
    exists nd. split; [|done]. by apply Hchain.
  - destruct Hok as (v & ? & ? & ? & cell & -> & Hc). exists v.
    split_and!; [done|done|done|].
    exists cell. split; [done|]. by apply Hpv.
  - destruct Hok as (v & ? & ? & ? & vl & Hn & Hnew & Hpvl & Hv). exists v.
    split_and!; [done|done|done|].
    exists vl. destruct (Hpriv new head vl v Hn Hnew Hpvl Hv) as (? & ? & ?).
    split_and!; [done|done|by apply Hpv|done].
  - destruct Hok as (? & ? & nd & Hin & Hk). split_and!; [done|done|].
    exists nd. split; [|done]. by apply Hchain.
  - destruct Hok as (? & v & e & nd & ? & Hin & Hk & Hval & Hv). split; [done|].
    destruct (Hchain e nd Hin Hk) as [Hin' Hcell].
    exists v, e, nd. split_and!; [done|done|done|done|]. by eapply Hcell.
Qed.

Lemma Flat_add_alive (ns : gmap loc (Node Key)) (vs : gmap loc Value) M
    (L : list (loc * Node Key)) k v new nv nx :
  Flat ns vs M L → M !! k = None → new ∉ L.*1 →
  Some nv ∉ chain_vals L → vs !! nv = Some v →
  ns !! new = Some (mkNode k (Some nv) nx false) →
  Flat ns vs (<[k := v]> M) ((new, mkNode k (Some nv) nx false) :: L).
Proof.
  intros [Hh Hn Hv Hk He Hc] HM Hnew Hnv Hval Hnode.
  pose proof (entry_ok_absent_key _ _ _ _ He HM) as Hk'.
  split; simpl.
  - apply held_cons. by split.
  - by apply NoDup_cons.
  - by apply NoDup_cons.
  - by apply NoDup_cons.
  - apply Forall_cons. split.
    + split; [done|]. exists nv, v. simpl. by rewrite lookup_insert_eq.
    + rewrite Forall_forall in He. apply Forall_forall. intros e Hin.
      destruct (He e Hin) as (Hm & vl & w & Hvl & Hw & HMe).
      split; [done|]. exists vl, w. split_and!; [done|done|].
      rewrite lookup_insert_ne; [done|]. congruence.
  - intros k' Hk''. destruct (decide (k' = k)) as [->|Hne].
    + eexists. split; [by left|done].
    + rewrite lookup_insert_ne in Hk'' by done.
      destruct (Hc k' Hk'') as (e & Hin & Hke). exists e. split; [by right|done].
Qed.

(** The value of a node is exchanged and the old value object stays. *)
Lemma Flat_swap_value (ns ns' : gmap loc (Node Key)) (vs : gmap loc Value) M
    l nd (rest : list (loc * Node Key)) vl nv v :
  Flat ns vs M ((l, nd) :: rest) → value nd = Some vl → vs !! nv = None →
  held ns' ((l, with_value nd (Some nv)) :: rest) →
  Flat ns' (<[nv := v]> vs) (<[key nd := v]> M)
       ((l, with_value nd (Some nv)) :: rest).
Proof.
  intros [Hh Hn Hv Hk He Hc] Hvl Hnv Hh'. simpl in *.
  pose proof (entry_ok_fresh_val _ _ _ _ He Hnv) as Hnv'.
  apply NoDup_cons in Hv as [Hv1 Hv2]. apply NoDup_cons in Hk as [Hk1 Hk2].
  apply Forall_cons in He as [He1 He2].
  split; simpl.
  - done.
  - done.
  - apply NoDup_cons. split; [|done]. intros Hin. apply Hnv'. simpl. by right.
  - by apply NoDup_cons.
  - apply Forall_cons. split.
    + destruct He1 as (Hm & vl' & w' & Hvl' & Hw' & _). simpl in *.
      split; [done|]. exists nv, v. simpl.
      by rewrite !lookup_insert_eq.
    + rewrite Forall_forall in He2. apply Forall_forall. intros e Hin.
      destruct (He2 e Hin) as (Hm & x & w & Hx & Hw & HMe).
      split; [done|]. exists x, w. split_and!; [done| |].
      * rewrite lookup_insert_ne; [done|]. congruence.
      * rewrite lookup_insert_ne; [done|].
        intros Heq. apply Hk1. rewrite Heq. apply list_elem_of_fmap. by exists e.
  - intros k' Hk''. destruct (decide (k' = key nd)) as [->|Hne].
    + eexists. split; [by left|done].
    + rewrite lookup_insert_ne in Hk'' by done.
      destruct (Hc k' Hk'') as (e & [->|Hin]%elem_of_cons & Hke); [done|].
      exists e. split; [by right|done].
Qed.

Lemma skeleton_refl bs ns : skeleton_kept bs ns bs ns.
Proof. intros l nd Hp Hn. split; [done|]. by exists nd. Qed.

Lemma skeleton_private bs ns new x :
  ¬ published bs new → skeleton_kept bs ns bs (<[new := x]> ns).
Proof.
  intros Hnew l nd Hp Hn. split; [done|]. exists nd.
  rewrite lookup_insert_ne; [done|]. by intros <-.
Qed.


Lemma node_kept_values bs (vs vs' : gmap loc Value) (k : Key) :
  (∀ cell v, Some cell ∈ chain_vals (concat bs) → vs !! cell = Some v →
             vs' !! cell = Some v) →
  node_kept bs vs bs vs' k.
Proof.
  intros Hv e nd Hin Hk. split; [done|]. intros cell v Hc Hcell.
  apply Hv; [|done]. rewrite <-Hc. apply list_elem_of_fmap. by exists (e, nd).
Qed.

(** *** The turns of a thread *)

Lemma turn_find_Apart M0 calls ts m M bs pv sp t th :
  Apart hasher_ M0 calls ts m M bs pv →
  ts !! t = Some th → th_pc th = TFind →
  ∃ pc', map_turn hasher_ sp (th_call th) TFind m = Ok (pc', m) ∧
         Apart hasher_ M0 calls (<[t := mkThread (th_call th) pc']> ts) m M bs pv.
Proof.
  intros HA Ht Hpc.
  destruct (Apart_bucket _ _ _ _ _ _ _ (call_key (th_call th)) HA)
    as (p & es & Hidx & Hb & _ & Hes & Hlk & Hheld & Hlen).
  pose proof HA as [HI _ Hth _ _ _].
  destruct (Hth t th Ht) as [Hcall Hok].
  unfold thread_ok, pc_ok in Hok. rewrite Hpc in Hok.
  assert (Hc : counting th = 0) by (unfold counting; by rewrite Hpc).
  assert (Hsub : ∀ e, e ∈ es → e ∈ concat bs).
  { intros e He. apply elem_of_concat. eauto. }
  exists (TWalk p). split.
  - unfold map_turn. rewrite Hidx. cbn [mbind result_bind]. by rewrite Hb.
  - eapply Apart_local; [done|done|done|done|].
    unfold thread_ok, pc_ok. simpl. split_and!; [done| |].
    + exists (length es). split; [|by apply walk_linked].
      destruct (concat_lookup_perm _ _ _ Hes) as (others & Hperm & _).
      rewrite Hperm, length_app. lia.
    + intros [v0 HM0]. rewrite HM0 in Hok.
      destruct (find_live hasher_ _ _ _ _ _ _ HI Hes Hok)
        as (l & nd & vl & _ & Hin & Hkey & Hm & _).
      by eapply reaches_linked.
Qed.

Lemma turn_walk_Apart M0 calls ts m M bs pv sp t th cur :
  Apart hasher_ M0 calls ts m M bs pv →
  ts !! t = Some th → th_pc th = TWalk cur →
  ∃ pc', map_turn hasher_ sp (th_call th) (TWalk cur) m = Ok (pc', m) ∧
         Apart hasher_ M0 calls (<[t := mkThread (th_call th) pc']> ts) m M bs pv.
Proof.
  intros HA Ht Hpc.
  pose proof HA as [HI _ Hth _ _ _].
  destruct (Hth t th Ht) as [Hcall Hok].
  unfold thread_ok, pc_ok in Hok. rewrite Hpc in Hok.
  destruct Hok as (HM & (d & Hd & Hw) & Hr).
  assert (Hc : counting th = 0) by (unfold counting; by rewrite Hpc).
  destruct cur as [l|].
  - inversion Hw as [|d' l' nd Hn Hp Hw']; subst.
    unfold map_turn. rewrite (deref_Some _ _ _ Hn). cbn [mbind result_bind].
    pose proof (Apart_published _ _ _ _ _ _ _ _ _ HA Hp Hn) as Hin.
    destruct (negb (marked nd) && bool_decide (key nd = call_key (th_call th))) eqn:Hb.
    + exists (found (th_call th) l). split; [done|].
      apply andb_true_iff in Hb as [Hm Hkey%bool_decide_eq_true].
      destruct (Apart_entry _ _ _ _ _ _ _ _ _ HA Hin) as (_ & vl & v & _ & _ & HMk).
      rewrite Hkey, HM in HMk.
      eapply Apart_local; [done|done|done|by destruct (th_call th)|].
      unfold thread_ok, pc_ok. simpl.
      destruct (th_call th) as [k0 v0|k0|k0]; simpl in *.
      * split_and!; [done|done|eauto|by exists nd].
      * split_and!; [done|done|by exists nd].
      * unfold present. by rewrite HMk.
    + exists (TNext l). split; [done|].
      eapply Apart_local; [done|done|done|done|].
      unfold thread_ok, pc_ok. simpl. split; [done|]. exists nd.
      split_and!; [done|done| |].
      * exists d'. split; [lia|done].
      * intros HS. specialize (Hr HS).
        inversion Hr as [l' nd' Hn' _ Hm' Hk'|l' nd' Hn' _ Hr']; subst;
          rewrite Hn in Hn'; injection Hn' as <-; [|done].
        rewrite Hm', bool_decide_true in Hb by done. done.
  - exists (not_found (th_call th)). split; [done|].
    assert (M0 !! call_key (th_call th) = None) as HM0.
    { destruct (M0 !! call_key (th_call th)) as [v0|] eqn:HM0; [|done].
      exfalso. assert (is_Some (Some v0)) as HS by eauto.
      specialize (Hr HS). inversion Hr. }
    eapply Apart_local; [done|done|done|by destruct (th_call th)|].
    unfold thread_ok, pc_ok. simpl. rewrite HM0 in HM.
    destruct (th_call th) as [k0 v0|k0|k0]; simpl in *.
    + done.
    + by rewrite HM0.
    + unfold present. by rewrite HM0.
Qed.

Lemma turn_next_Apart M0 calls ts m M bs pv sp t th cur :
  Apart hasher_ M0 calls ts m M bs pv →
  ts !! t = Some th → th_pc th = TNext cur →
  ∃ pc', map_turn hasher_ sp (th_call th) (TNext cur) m = Ok (pc', m) ∧
         Apart hasher_ M0 calls (<[t := mkThread (th_call th) pc']> ts) m M bs pv.
Proof.
  intros HA Ht Hpc.
  pose proof HA as [HI _ Hth _ _ _].
  destruct (Hth t th Ht) as [Hcall Hok].
  unfold thread_ok, pc_ok in Hok. rewrite Hpc in Hok.
  destruct Hok as (HM & nd & Hn & Hp & (d & Hd & Hw) & Hr).
  assert (Hc : counting th = 0) by (unfold counting; by rewrite Hpc).
  exists (TWalk (next nd)). split.
  - unfold map_turn. by rewrite (deref_Some _ _ _ Hn).
  - eapply Apart_local; [done|done|done|done|].
    unfold thread_ok, pc_ok. simpl. split_and!; [done| |done].
    exists d. split; [lia|done].
Qed.

(** The load of the value holder in [get]. *)
Lemma turn_value_Apart M0 calls ts m M bs pv sp t th node :
  Apart hasher_ M0 calls ts m M bs pv →
  ts !! t = Some th → th_pc th = TValue node →
  ∃ pc', map_turn hasher_ sp (th_call th) (TValue node) m = Ok (pc', m) ∧
         Apart hasher_ M0 calls (<[t := mkThread (th_call th) pc']> ts) m M bs pv.
Proof.
  intros HA Ht Hpc.
  pose proof HA as [HI _ Hth _ _ _].
  destruct (Hth t th Ht) as [Hcall Hok].
  unfold thread_ok, pc_ok in Hok. rewrite Hpc in Hok.
  destruct Hok as (Hget & HM & nd & Hin & Hkey).
  assert (Hc : counting th = 0) by (unfold counting; by rewrite Hpc).
  pose proof (Apart_node _ _ _ _ _ _ _ _ _ HA Hin) as Hn.
  destruct (Apart_entry _ _ _ _ _ _ _ _ _ HA Hin) as (_ & cell & v & Hcell & Hv & HMk).
  exists (TCopy cell). split.
  - unfold map_turn. rewrite (deref_Some _ _ _ Hn). cbn [mbind result_bind].
    by rewrite Hcell.
  - eapply Apart_local; [done|done|done|done|].
    unfold thread_ok, pc_ok. simpl. split; [done|].
    exists v, node, nd. rewrite Hkey, HM in HMk. done.
Qed.

(** The copy of the value object in [get]. *)
Lemma turn_copy_Apart M0 calls ts m M bs pv sp t th val :
  Apart hasher_ M0 calls ts m M bs pv →
  ts !! t = Some th → th_pc th = TCopy val →
  ∃ pc', map_turn hasher_ sp (th_call th) (TCopy val) m = Ok (pc', m) ∧
         Apart hasher_ M0 calls (<[t := mkThread (th_call th) pc']> ts) m M bs pv.
Proof.
  intros HA Ht Hpc.
  pose proof HA as [HI _ Hth _ _ _].
  destruct (Hth t th Ht) as [Hcall Hok].
  unfold thread_ok, pc_ok in Hok. rewrite Hpc in Hok.
  destruct Hok as (Hget & v & e & nd & HM0 & Hin & Hkey & Hcell & Hv).
  assert (Hc : counting th = 0) by (unfold counting; by rewrite Hpc).
  exists (TReturn (RGet (Some v))). split.
  - unfold map_turn. by rewrite (deref_Some _ _ _ Hv).
  - eapply Apart_local; [done|done|done|done|].
    unfold thread_ok, pc_ok. simpl. rewrite Hget. simpl. by rewrite HM0.
Qed.

Lemma turn_allocate_Apart M0 calls ts m M bs pv sp t th v :
  Apart hasher_ M0 calls ts m M bs pv →
  ts !! t = Some th → th_pc th = TAllocate v →
  ∃ pc' m' pv',
    map_turn hasher_ sp (th_call th) (TAllocate v) m = Ok (pc', m') ∧
    Apart hasher_ M0 calls (<[t := mkThread (th_call th) pc']> ts) m' M bs pv'.
Proof.
  intros HA Ht Hpc.
  destruct (Apart_bucket _ _ _ _ _ _ _ (call_key (th_call th)) HA)
    as (p & es & Hidx & Hb & _ & Hes & Hlk & Hheld & Hlen).
  pose proof HA as [HI Hsz Hth Hlen' Hother Hpriv].
  destruct (Hth t th Ht) as [Hcall Hok].
  unfold thread_ok, pc_ok in Hok. rewrite Hpc in Hok. destruct Hok as (Hins & HM & HM0).
  pose proof (fresh_None (nodes m)) as Hnew.
  pose proof (fresh_None (values m)) as Hnv.
  set (new := fresh (dom (nodes m))) in *.
  set (nv := fresh (dom (values m))) in *.
  assert (Hfr : ¬ published bs new).
  { intros [[l nd] [-> Hin]]%list_elem_of_fmap. simpl in *.
    rewrite (Apart_node _ _ _ _ _ _ _ _ _ HA Hin) in Hnew. done. }
  assert (Hpvn : pv !! nv = None).
  { destruct (pv !! nv) as [t0|] eqn:Hp; [|done].
    destruct (Hpriv nv t0 Hp) as [[x Hx] _]. congruence. }
  eexists _, _, (<[nv := t]> pv). split.
  { unfold map_turn. rewrite Hidx. cbn [mbind result_bind].
    rewrite Hb. cbn [mbind result_bind]. fold new nv.
    rewrite (deref_Some _ _ _ (lookup_insert_eq _ _ _)). cbn [mbind result_bind].
    by rewrite insert_insert_eq. }
  unfold with_next. simpl. split; simpl.
  - eapply Inv_frame; [exact HI|done|done| |]; simpl.
    + intros l nd Hin. rewrite lookup_insert_ne.
      * by eapply Apart_node.
      * intros <-. apply Hfr. apply list_elem_of_fmap. by exists (new, nd).
    + intros c w Hc _. rewrite lookup_insert_ne; [done|]. congruence.
  - pose proof (sum_counting_insert ts t th
      (mkThread (th_call th) (TPublish new p)) Ht) as Hsum.
    assert (counting th = 0) as Hc0 by (unfold counting; by rewrite Hpc).
    assert (counting (mkThread (th_call th) (TPublish new p)) = 0) as Hc1 by done.
    rewrite Hc0, Hc1 in Hsum.
    rewrite Hsz. do 2 f_equal. lia.
  - intros t' th' Ht'. destruct (decide (t' = t)) as [->|Hne].
    + rewrite list_lookup_insert_eq in Ht' by (by eapply lookup_lt_Some).
      injection Ht' as <-. split; [done|].
      unfold thread_ok, pc_ok. simpl. exists v. split_and!; [done|done|done|].
      exists nv. by rewrite !lookup_insert_eq.
    + rewrite list_lookup_insert_ne in Ht' by done.
      destruct (Hth t' th' Ht') as [Hcall' Hok']. split; [done|].
      eapply thread_ok_frame; [exact Hok'|done| | |done| |]; simpl.
      * apply node_kept_values. simpl. intros cell w _ Hcell.
        rewrite lookup_insert_ne; [done|]. congruence.
      * by apply skeleton_private.
      * intros c Hc. rewrite lookup_insert_ne; [done|]. congruence.
      * intros new' head' vl' w Hn' Hfr' Hpv' Hval'.
        assert (new' ≠ new) by congruence.
        assert (vl' ≠ nv) by congruence.
        by rewrite !lookup_insert_ne by done.
  - by rewrite length_insert.
  - done.
  - intros c t0 [[-> _]|[Hne Hc]]%lookup_insert_Some.
    + split; [rewrite lookup_insert_eq; eauto|].
      intros Hin. destruct (Apart_value _ _ _ _ _ _ _ _ HA Hin) as [x Hx]. congruence.
    + destruct (Hpriv c t0 Hc) as [Hal Hch]. split; [|done].
      by rewrite lookup_insert_ne.
Qed.

(** The nodes that two threads are about to publish differ. *)
Lemma Apart_nodes_differ M0 calls ts m M bs pv t t' th th' k v new vl head vl' head' :
  Apart hasher_ M0 calls ts m M bs pv → exclusive calls = true →
  ts !! t = Some th → ts !! t' = Some th' → t' ≠ t →
  th_call th = CallInsert k v →
  nodes m !! new = Some (mkNode k (Some vl) head false) →
  nodes m !! new = Some (mkNode (call_key (th_call th')) (Some vl') head' false) →
  False.
Proof.
  intros HA Hex Ht Ht' Hne Hc Hn Hn'. rewrite Hn in Hn'. injection Hn' as Hk _ _.
  by eapply (Apart_keys _ _ _ _ _ _ _ _ _ _ _ _ _ HA Hex Ht Ht' Hne Hc).
Qed.

(** A compare-exchange on the head of the bucket that fails: the thread
    stores the head it has seen into its node. *)
Lemma Apart_republish M0 calls ts m M bs pv t th new head p :
  Apart hasher_ M0 calls ts m M bs pv → exclusive calls = true →
  ts !! t = Some th → th_pc th = TPublish new head →
  ∃ nd, nodes m !! new = Some nd ∧
    Apart hasher_ M0 calls (<[t := mkThread (th_call th) (TPublish new p)]> ts)
      (set_nodes m (<[new := with_next nd p]> (nodes m))) M bs pv.
Proof.
  intros HA Hex Ht Hpc.
  pose proof HA as [HI Hsz Hth Hlen' Hother Hpriv].
  destruct (Hth t th Ht) as [Hcall Hok].
  unfold thread_ok, pc_ok in Hok. rewrite Hpc in Hok.
  destruct Hok as (v & Hins & HM & HM0 & vl & Hnode & Hfr & Hpv & Hval).
  assert (Hc0 : counting th = 0) by (unfold counting; by rewrite Hpc).
  eexists. split; [exact Hnode|]. unfold with_next. simpl.
  split; simpl.
  - eapply Inv_frame; [exact HI|done|done| |]; simpl.
    + intros l nd Hin. rewrite lookup_insert_ne.
      * by eapply Apart_node.
      * intros <-. apply Hfr. apply list_elem_of_fmap. by exists (new, nd).
    + done.
  - pose proof (sum_counting_insert ts t th
      (mkThread (th_call th) (TPublish new p)) Ht) as Hsum.
    assert (counting (mkThread (th_call th) (TPublish new p)) = 0) as Hc1 by done.
    rewrite Hc0, Hc1 in Hsum. rewrite Hsz. do 2 f_equal. lia.
  - intros t' th' Ht'. destruct (decide (t' = t)) as [->|Hne].
    + rewrite list_lookup_insert_eq in Ht' by (by eapply lookup_lt_Some).
      injection Ht' as <-. split; [done|].
      unfold thread_ok, pc_ok. simpl. exists v. split_and!; [done|done|done|].
      exists vl. by rewrite lookup_insert_eq.
    + rewrite list_lookup_insert_ne in Ht' by done.
      destruct (Hth t' th' Ht') as [Hcall' Hok']. split; [done|].
      eapply thread_ok_frame; [exact Hok'|done| | |done|done|]; simpl.
      * by apply node_kept_values.
      * by apply skeleton_private.
      * intros new' head' vl' w Hn' Hfr' Hpv' Hval'.
        rewrite lookup_insert_ne; [done|]. intros <-.
        by eapply (Apart_nodes_differ _ _ _ _ _ _ _ t t').
  - by rewrite length_insert.
  - done.
  - done.
Qed.

(** A compare-exchange on the head of the bucket that succeeds: the node
    of the thread is the first of the chain. *)
Lemma Apart_publish M0 calls ts m M bs pv t th new head :
  Apart hasher_ M0 calls ts m M bs pv → exclusive calls = true →
  ts !! t = Some th → th_pc th = TPublish new head →
  buckets_ m !! bucket_of hasher_ (length (buckets_ m)) (call_key (th_call th))
    = Some head →
  ∃ M' bs' pv',
    Apart hasher_ M0 calls (<[t := mkThread (th_call th) TCount]> ts)
      (set_bucket m (bucket_of hasher_ (length (buckets_ m)) (call_key (th_call th)))
         (Some new))
      M' bs' pv'.
Proof.
  intros HA Hex Ht Hpc Hhead.
  destruct (Apart_bucket _ _ _ _ _ _ _ (call_key (th_call th)) HA)
    as (p & es & Hidx & Hb & Hbp & Hes & Hlk & Hheld & Hlen).
  set (k := call_key (th_call th)) in *.
  set (i := bucket_of hasher_ (length (buckets_ m)) k) in *.
  rewrite Hhead in Hbp. injection Hbp as <-.
  destruct (concat_lookup_perm _ _ _ Hes) as (others & Hperm & Hperm').
  pose proof HA as [HI Hsz Hth Hlen' Hother Hpriv].
  pose proof (inv_flat _ _ _ _ HI) as Hflat. simpl in Hflat.
  destruct (Hth t th Ht) as [Hcall Hok].
  unfold thread_ok, pc_ok in Hok. rewrite Hpc in Hok. fold k in Hok.
  destruct Hok as (v & Hins & HM & HM0 & vl & Hnode & Hfr & Hpv & Hval).
  assert (Hc0 : counting th = 0) by (unfold counting; by rewrite Hpc).
  destruct (Hpriv vl t Hpv) as [_ Hvl].
  set (nd := mkNode k (Some vl) head false) in *.
  exists (<[k := v]> M), (<[i := (new, nd) :: es]> bs), (delete vl pv).
  assert (Hpub : ∀ l, published bs l → published (<[i := (new, nd) :: es]> bs) l).
  { unfold published. intros l Hl. rewrite Hperm'. rewrite Hperm in Hl.
    simpl. by right. }
  split; simpl.
  - eapply (Inv_update hasher_ (resized m M)) with (p' := Some new);
      [exact HI|exact Hes|apply Hperm'| | | | |]; simpl.
    + done.
    + done.
    + eapply (Flat_perm _ _ _ ((new, nd) :: concat bs)).
      { by rewrite Hperm. }
      by apply Flat_add_alive.
    + intros e [->|He]%elem_of_cons; [done|].
      by apply (inv_bucket _ _ _ _ HI i es).
    + done.
  - pose proof (sum_counting_insert ts t th (mkThread (th_call th) TCount) Ht) as Hsum.
    assert (counting (mkThread (th_call th) TCount) = 1) as Hc1 by done.
    rewrite Hc0, Hc1 in Hsum. rewrite Hsz.
    rewrite map_size_insert_None by done. f_equal. lia.
  - intros t' th' Ht'. destruct (decide (t' = t)) as [->|Hne].
    + rewrite list_lookup_insert_eq in Ht' by (by eapply lookup_lt_Some).
      injection Ht' as <-. split; [done|].
      unfold thread_ok, pc_ok. simpl. fold k. exists v. by rewrite lookup_insert_eq.
    + rewrite list_lookup_insert_ne in Ht' by done.
      destruct (Hth t' th' Ht') as [Hcall' Hok'].
      pose proof (Apart_keys _ _ _ _ _ _ _ _ _ _ _ _ _ HA Hex Ht Ht' Hne Hins) as Hkk.
      split; [done|].
      eapply thread_ok_frame; [exact Hok'| | | | | |]; simpl.
      * by rewrite lookup_insert_ne.
      * intros e nd' Hin Hke. split; [|done].
        rewrite Hperm'. rewrite Hperm in Hin. by right.
      * intros l ndl Hp Hn. split; [by apply Hpub|]. by exists ndl.
      * rewrite Hperm', Hperm. simpl. lia.
      * intros c Hc. rewrite lookup_delete_ne; [done|]. congruence.
      * intros new' head' vl' w Hn' Hfr' Hpv' Hval'. split_and!; [done| |done].
        unfold published. rewrite Hperm'. simpl. apply not_elem_of_cons. split.
        -- intros ->. by eapply (Apart_nodes_differ _ _ _ _ _ _ _ t t').
        -- by rewrite <-Hperm.
  - by rewrite length_insert.
  - intros k' Hk'. rewrite lookup_insert_ne; [by apply Hother|].
    intros <-. apply Hk'. eapply inserted_key.
    rewrite <-Hins. by eapply list_elem_of_lookup_2.
  - intros c t0 [Hne Hc]%lookup_delete_Some.
    destruct (Hpriv c t0 Hc) as [Hal Hch]. split; [done|].
    rewrite Hperm'. simpl. apply not_elem_of_cons. split; [congruence|].
    by rewrite <-Hperm.
Qed.

Lemma turn_publish_Apart M0 calls ts m M bs pv sp t th new head :
  Apart hasher_ M0 calls ts m M bs pv → exclusive calls = true →
  ts !! t = Some th → th_pc th = TPublish new head →
  ∃ pc' m' M' bs' pv',
    map_turn hasher_ sp (th_call th) (TPublish new head) m = Ok (pc', m') ∧
    Apart hasher_ M0 calls (<[t := mkThread (th_call th) pc']> ts) m' M' bs' pv'.
Proof.
  intros HA Hex Ht Hpc.
  destruct (Apart_bucket _ _ _ _ _ _ _ (call_key (th_call th)) HA)
    as (p & es & Hidx & Hb & Hbp & _).
  destruct (Apart_republish _ _ _ _ _ _ _ _ _ _ _ p HA Hex Ht Hpc)
    as (nd & Hnode & Hfail).
  unfold map_turn. rewrite Hidx. cbn [mbind result_bind].
  rewrite Hb. cbn [mbind result_bind].
  destruct sp; [|destruct (decide (p = head)) as [->|Hph]].
  - rewrite cas_weak_spurious. rewrite (deref_Some _ _ _ Hnode). cbn [mbind result_bind].
    eauto 10.
  - rewrite cas_weak_success.
    destruct (Apart_publish _ _ _ _ _ _ _ _ _ _ _ HA Hex Ht Hpc Hbp)
      as (M' & bs' & pv' & HA').
    eauto 10.
  - unfold compare_exchange_weak. rewrite decide_False by done.
    rewrite (deref_Some _ _ _ Hnode). cbn [mbind result_bind]. eauto 10.
Qed.

Lemma turn_count_Apart M0 calls ts m M bs pv sp t th :
  Apart hasher_ M0 calls ts m M bs pv →
  ts !! t = Some th → th_pc th = TCount →
  ∃ pc' m',
    map_turn hasher_ sp (th_call th) TCount m = Ok (pc', m') ∧
    Apart hasher_ M0 calls (<[t := mkThread (th_call th) pc']> ts) m' M bs pv.
Proof.
  intros [HI Hsz Hth Hlen' Hother Hpriv] Ht Hpc.
  destruct (Hth t th Ht) as [Hcall Hok].
  unfold thread_ok, pc_ok in Hok. rewrite Hpc in Hok.
  destruct Hok as (v & Hins & HM & HM0).
  assert (Hc0 : counting th = 1) by (unfold counting; by rewrite Hpc).
  eexists _, _. split; [reflexivity|]. split; simpl.
  - exact HI.
  - pose proof (sum_counting_insert ts t th
      (mkThread (th_call th) (TReturn (RInsert true))) Ht) as Hsum.
    assert (counting (mkThread (th_call th) (TReturn (RInsert true))) = 0)
      as Hc1 by done.
    rewrite Hc0, Hc1 in Hsum. rewrite Hsz, wrap_succ. f_equal. lia.
  - intros t' th' Ht'. destruct (decide (t' = t)) as [->|Hne].
    + rewrite list_lookup_insert_eq in Ht' by (by eapply lookup_lt_Some).
      injection Ht' as <-. split; [done|].
      unfold thread_ok, pc_ok. simpl. rewrite Hins. simpl.
      unfold present. rewrite HM0. split; [done|].
      rewrite Hins in HM. done.
    + rewrite list_lookup_insert_ne in Ht' by done.
      destruct (Hth t' th' Ht') as [Hcall' Hok']. split; [done|].
      eapply thread_ok_frame; [exact Hok'|done| | |done|done|done].
      * by apply node_kept_values.
      * apply skeleton_refl.
  - by rewrite length_insert.
  - done.
  - done.
Qed.


(** The exchange on the value of the node of the key: the old value
    object is the thread's own from now on. *)
Lemma turn_update_Apart M0 calls ts m M bs pv sp t th e v :
  Apart hasher_ M0 calls ts m M bs pv → exclusive calls = true →
  ts !! t = Some th → th_pc th = TUpdate e v →
  ∃ pc' m' M' bs' pv',
    map_turn hasher_ sp (th_call th) (TUpdate e v) m = Ok (pc', m') ∧
    Apart hasher_ M0 calls (<[t := mkThread (th_call th) pc']> ts) m' M' bs' pv'.
Proof.
  intros HA Hex Ht Hpc.
  pose proof HA as [HI Hsz Hth Hlen' Hother Hpriv].
  pose proof (inv_flat _ _ _ _ HI) as Hflat. simpl in Hflat.
  destruct (Hth t th Ht) as [Hcall Hok].
  unfold thread_ok, pc_ok in Hok. rewrite Hpc in Hok.
  set (k := call_key (th_call th)) in *.
  destruct Hok as (Hins & HM & [v0 HM0] & nd & Hin & Hkey).
  assert (Hc0 : counting th = 0) by (unfold counting; by rewrite Hpc).
  pose proof (Apart_node _ _ _ _ _ _ _ _ _ HA Hin) as Hnode.
  destruct (Apart_entry _ _ _ _ _ _ _ _ _ HA Hin) as (Hm & vl & w & Hvl & Hw & HMk).
  pose proof Hin as Hin'. apply elem_of_concat in Hin' as (i & es & Hes & Hine).
  pose proof (inv_bucket _ _ _ _ HI i es _ Hes Hine) as Hbk. simpl in Hbk.
  destruct (concat_lookup_perm _ _ _ Hes) as (others & Hperm & Hperm').
  pose proof (fresh_None (values m)) as Hnv.
  set (nv := fresh (dom (values m))) in *.
  assert (Hvn : vl ≠ nv) by congruence.
  destruct (Apart_bucket _ _ _ _ _ _ _ (key nd) HA)
    as (p & es' & _ & _ & Hbp & Hes' & Hlk & _).
  rewrite Hbk, Hes in Hes'. injection Hes' as <-. rewrite Hbk in Hbp.
  apply list_elem_of_split in Hine as (es1 & es2 & ->).
  set (nd' := with_value nd (Some nv)).
  assert (Hp1 : concat bs ≡ₚ (e, nd) :: (es1 ++ es2 ++ others)).
  { rewrite Hperm. rewrite <-app_assoc. simpl. by rewrite <-Permutation_middle. }
  assert (Hp2 : concat (<[i := es1 ++ (e, nd') :: es2]> bs)
                ≡ₚ (e, nd') :: (es1 ++ es2 ++ others)).
  { rewrite Hperm'. rewrite <-app_assoc. simpl. by rewrite <-Permutation_middle. }
  pose proof (Flat_perm _ _ _ _ _ Hp1 Hflat) as Hflat1.
  pose proof (flat_nodup _ _ _ _ Hflat1) as Hnd1. simpl in Hnd1.
  apply NoDup_cons in Hnd1 as [Hl _].
  pose proof (flat_values _ _ _ _ Hflat1) as Hnv1. simpl in Hnv1.
  apply NoDup_cons in Hnv1 as [Hvl1 _]. rewrite Hvl in Hvl1.
  assert (Hold : Some vl ∈ chain_vals (concat bs)).
  { apply list_elem_of_fmap. by exists (e, nd). }
  assert (Hpvl : pv !! vl = None).
  { destruct (pv !! vl) as [t0|] eqn:Hp; [|done]. by destruct (Hpriv vl t0 Hp). }
  assert (Hpub : ∀ l, published bs l ↔ published (<[i := es1 ++ (e, nd') :: es2]> bs) l).
  { unfold published. intros l. by rewrite Hp1, Hp2. }
  eexists _, _, (<[k := v]> M),
    (<[i := es1 ++ (e, nd') :: es2]> bs), (<[vl := t]> pv).
  split.
  { unfold map_turn. rewrite (deref_Some _ _ _ Hnode). cbn [mbind result_bind].
    reflexivity. }
  fold nv nd'. rewrite Hvl.
  split; simpl.
  - eapply (Inv_update hasher_ (resized m M)) with (p' := p);
      [exact HI|exact Hes|apply Hperm'| | | | |]; simpl.
    + by rewrite list_insert_id.
    + by eapply linked_replace.
    + eapply Flat_perm; [|rewrite <-Hkey;
        eapply (Flat_swap_value _ _ _ _ _ _ _ _ _ _ Hflat1 Hvl Hnv)].
      * rewrite <-app_assoc. simpl. by rewrite <-Permutation_middle.
      * apply held_cons. split; [apply lookup_insert_eq|].
        apply held_insert; [done|].
        pose proof (flat_held _ _ _ _ Hflat1) as Hh. by apply held_cons in Hh as [_ ?].
    + intros e0 He0.
      assert (∃ e1, e1 ∈ es1 ++ (e, nd) :: es2 ∧ key e1.2 = key e0.2)
        as (e1 & He1 & <-).
      { apply elem_of_app in He0 as [He0|[->|He0]%elem_of_cons].
        - exists e0. split; [|done]. apply elem_of_app. by left.
        - exists (e, nd). split; [|done]. apply elem_of_app. right. by left.
        - exists e0. split; [|done]. apply elem_of_app. right. by right. }
      by apply (inv_bucket _ _ _ _ HI i _ e1 Hes).
    + done.
  - pose proof (sum_counting_insert ts t th
      (mkThread (th_call th) (TDelete (Some vl))) Ht) as Hsum.
    assert (counting (mkThread (th_call th) (TDelete (Some vl))) = 0) as Hc1 by done.
    rewrite Hc0, Hc1 in Hsum. rewrite Hsz.
    rewrite map_size_insert_Some by (rewrite HM; eauto). do 2 f_equal. lia.
  - intros t' th' Ht'. destruct (decide (t' = t)) as [->|Hne].
    + rewrite list_lookup_insert_eq in Ht' by (by eapply lookup_lt_Some).
      injection Ht' as <-. split; [done|].
      unfold thread_ok, pc_ok. simpl. fold k. exists v.
      rewrite lookup_insert_eq. split_and!; [done|done|eauto|].
      exists vl. by rewrite lookup_insert_eq.
    + rewrite list_lookup_insert_ne in Ht' by done.
      destruct (Hth t' th' Ht') as [Hcall' Hok'].
      pose proof (Apart_keys _ _ _ _ _ _ _ _ _ _ _ _ _ HA Hex Ht Ht' Hne Hins) as Hkk.
      split; [done|].
      eapply thread_ok_frame; [exact Hok'| | | | | |]; simpl.
      * by rewrite lookup_insert_ne.
      * intros e' n' Hin' Hke. rewrite Hp1 in Hin'.
        apply elem_of_cons in Hin' as [Heq|Hin'].
        { injection Heq as -> ->. congruence. }
        split; [rewrite Hp2; by right|].
        intros cell x _ Hcell. rewrite lookup_insert_ne; [done|]. congruence.
      * intros l ndl Hp Hn. split; [by apply Hpub|].
        destruct (decide (l = e)) as [->|Hle].
        -- rewrite Hnode in Hn. injection Hn as <-.
           exists nd'. by rewrite lookup_insert_eq.
        -- exists ndl. by rewrite lookup_insert_ne.
      * by rewrite Hp1, Hp2.
      * intros c Hc. rewrite lookup_insert_ne; [done|]. congruence.
      * intros new' head' vl' x Hn' Hfr' Hpv' Hval'.
        split_and!.
        -- rewrite lookup_insert_ne; [done|]. intros <-. apply Hfr'.
           apply list_elem_of_fmap. by exists (e, nd).
        -- intros Hp. by apply Hfr', Hpub.
        -- rewrite lookup_insert_ne; [done|]. congruence.
  - by rewrite length_insert.
  - intros k' Hk'. rewrite lookup_insert_ne; [by apply Hother|].
    intros <-. apply Hk'. eapply inserted_key.
    rewrite <-Hins. by eapply list_elem_of_lookup_2.
  - intros c t0 [[<- _]|[Hne Hc]]%lookup_insert_Some.
    + split.
      * rewrite lookup_insert_ne by done. eauto.
      * rewrite Hp2. simpl. apply not_elem_of_cons. split; [congruence|done].
    + destruct (Hpriv c t0 Hc) as [[x Hx] Hch]. split.
      * rewrite lookup_insert_ne; [eauto|]. congruence.
      * rewrite Hp2. rewrite Hp1 in Hch. simpl in *.
        apply not_elem_of_cons in Hch as [_ Hch].
        apply not_elem_of_cons. split; [congruence|done].
Qed.

(** The deletion of the old value object. *)
Lemma turn_delete_Apart M0 calls ts m M bs pv sp t th old :
  Apart hasher_ M0 calls ts m M bs pv →
  ts !! t = Some th → th_pc th = TDelete old →
  ∃ pc' m' pv',
    map_turn hasher_ sp (th_call th) (TDelete old) m = Ok (pc', m') ∧
    Apart hasher_ M0 calls (<[t := mkThread (th_call th) pc']> ts) m' M bs pv'.
Proof.
  intros HA Ht Hpc.
  pose proof HA as [HI Hsz Hth Hlen' Hother Hpriv].
  destruct (Hth t th Ht) as [Hcall Hok].
  unfold thread_ok, pc_ok in Hok. rewrite Hpc in Hok.
  destruct Hok as (v & Hins & HM & [v0 HM0] & c & -> & Hc).
  assert (Hc0 : counting th = 0) by (unfold counting; by rewrite Hpc).
  destruct (Hpriv c t Hc) as [[x Hx] Hch].
  eexists _, _, (delete c pv). split.
  { unfold map_turn. simpl. rewrite Hx. reflexivity. }
  split; simpl.
  - eapply Inv_frame; [exact HI|done|done| |]; simpl.
    + intros l nd Hin. by eapply Apart_node.
    + intros c' w Hc' Hin. rewrite lookup_delete_ne; [done|]. by intros <-.
  - pose proof (sum_counting_insert ts t th
      (mkThread (th_call th) (TReturn (RInsert false))) Ht) as Hsum.
    assert (counting (mkThread (th_call th) (TReturn (RInsert false))) = 0)
      as Hc1 by done.
    rewrite Hc0, Hc1 in Hsum. rewrite Hsz. do 2 f_equal. lia.
  - intros t' th' Ht'. destruct (decide (t' = t)) as [->|Hne].
    + rewrite list_lookup_insert_eq in Ht' by (by eapply lookup_lt_Some).
      injection Ht' as <-. split; [done|].
      unfold thread_ok, pc_ok. simpl. rewrite Hins. simpl.
      unfold present. rewrite HM0. split; [done|].
      rewrite Hins in HM. done.
    + rewrite list_lookup_insert_ne in Ht' by done.
      destruct (Hth t' th' Ht') as [Hcall' Hok']. split; [done|].
      eapply thread_ok_frame; [exact Hok'|done| | |done| |]; simpl.
      * apply node_kept_values. intros cell w Hcell Hw.
        rewrite lookup_delete_ne; [done|]. by intros <-.
      * apply skeleton_refl.
      * intros c' Hc'. rewrite lookup_delete_ne; [done|]. congruence.
      * intros new' head' vl' w Hn' Hfr' Hpv' Hval'. split_and!; [done|done|].
        rewrite lookup_delete_ne; [done|]. congruence.
  - by rewrite length_insert.
  - done.
  - intros c' t0 [Hne Hc']%lookup_delete_Some.
    destruct (Hpriv c' t0 Hc') as [Hal Hch']. split; [|done].
    by rewrite lookup_delete_ne.
Qed.

Lemma thread_eta th : mkThread (th_call th) (th_pc th) = th.
Proof. by destruct th. Qed.

(** Every turn of a thread is defined and keeps the invariant. *)
Lemma map_turn_Apart M0 calls ts m M bs pv sp t th :
  Apart hasher_ M0 calls ts m M bs pv → exclusive calls = true →
  ts !! t = Some th →
  ∃ pc' m' M' bs' pv',
    map_turn hasher_ sp (th_call th) (th_pc th) m = Ok (pc', m') ∧
    Apart hasher_ M0 calls (<[t := mkThread (th_call th) pc']> ts) m' M' bs' pv'.
Proof.
  intros HA Hex Ht.
  destruct (th_pc th) as [|cur|cur|e v|old|v|new head| |node|val|r] eqn:Hpc.
  - destruct (turn_find_Apart _ _ _ _ _ _ _ sp _ _ HA Ht Hpc)
      as (pc' & Hs & HA'). eauto 10.
  - destruct (turn_walk_Apart _ _ _ _ _ _ _ sp _ _ _ HA Ht Hpc)
      as (pc' & Hs & HA'). eauto 10.
  - destruct (turn_next_Apart _ _ _ _ _ _ _ sp _ _ _ HA Ht Hpc)
      as (pc' & Hs & HA'). eauto 10.
  - by eapply turn_update_Apart.
  - destruct (turn_delete_Apart _ _ _ _ _ _ _ sp _ _ _ HA Ht Hpc)
      as (pc' & m' & pv' & Hs & HA'). eauto 10.
  - destruct (turn_allocate_Apart _ _ _ _ _ _ _ sp _ _ _ HA Ht Hpc)
      as (pc' & m' & pv' & Hs & HA'). eauto 10.
  - by eapply turn_publish_Apart.
  - destruct (turn_count_Apart _ _ _ _ _ _ _ sp _ _ HA Ht Hpc)
      as (pc' & m' & Hs & HA'). eauto 10.
  - destruct (turn_value_Apart _ _ _ _ _ _ _ sp _ _ _ HA Ht Hpc)
      as (pc' & Hs & HA'). eauto 10.
  - destruct (turn_copy_Apart _ _ _ _ _ _ _ sp _ _ _ HA Ht Hpc)
      as (pc' & Hs & HA'). eauto 10.
  - exists (TReturn r), m, M, bs, pv. split; [done|].
    rewrite <-Hpc, thread_eta. by rewrite list_insert_id.
Qed.

(** The threads reach no undefined behaviour, whatever the schedule. *)
Lemma map_race_Apart M0 calls schedule ts m M bs pv :
  Apart hasher_ M0 calls ts m M bs pv → exclusive calls = true →
  ∃ ts' m' M' bs' pv',
    map_race hasher_ schedule ts m = Ok (ts', m') ∧
    Apart hasher_ M0 calls ts' m' M' bs' pv'.
Proof.
  intros HA Hex. revert ts m M bs pv HA.
  induction schedule as [|[t sp] schedule IH]; intros ts m M bs pv HA; simpl.
  - eauto 10.
  - destruct (ts !! t) as [th|] eqn:Ht; [|by eapply IH].
    destruct (map_turn_Apart _ _ _ _ _ _ _ sp _ _ HA Hex Ht)
      as (pc' & m' & M' & bs' & pv' & Hs & HA').
    rewrite Hs. simpl. by eapply IH.
Qed.

Lemma Apart_start m M0 calls :
  wf hasher_ m M0 → ∃ bs, Apart hasher_ M0 calls (calling <$> calls) m M0 bs ∅.
Proof.
  intros [bs HI]. exists bs. split.
  - eapply Inv_frame; [exact HI|done| | |done].
    + simpl. by rewrite (inv_size _ _ _ _ HI).
    + intros l nd Hin. by apply (flat_held _ _ _ _ (inv_flat _ _ _ _ HI)).
  - rewrite (inv_size _ _ _ _ HI). do 2 f_equal.
    assert (sum_list (counting <$> (calling <$> calls)) = 0) as ->; [|lia].
    induction calls as [|c calls IH]; [done|]. csimpl. by rewrite IH.
  - intros t th Ht. rewrite list_lookup_fmap in Ht.
    destruct (calls !! t) as [c|] eqn:Hc; [|done]. injection Ht as <-.
    by split.
  - by rewrite length_fmap.
  - done.
  - intros c t Hc. by rewrite lookup_empty in Hc.
Qed.

(** When every thread has returned, each call has returned what it
    returns on the map the threads started on, and the map holds what the
    calls put in. *)
Lemma Apart_done M0 calls ts m M bs pv :
  Apart hasher_ M0 calls ts m M bs pv → exclusive calls = true →
  Forall has_returned ts →
  ts = answered M0 <$> calls ∧
  M = list_to_map (inserted calls) ∪ M0 ∧
  wf hasher_ m (list_to_map (inserted calls) ∪ M0).
Proof.
  intros [HI Hsz Hth Hlen Hother Hpriv] Hex Hall.
  pose proof (exclusive_nodup _ Hex) as Hnd.
  assert (Hret : ∀ t th, ts !! t = Some th →
            calls !! t = Some (th_call th) ∧ th = answered M0 (th_call th) ∧
            match th_call th with
            | CallInsert k v => M !! k = Some v
            | _ => True
            end).
  { intros t th Ht. destruct (Hth t th Ht) as [Hcall Hok].
    rewrite Forall_forall in Hall.
    pose proof (Hall th (list_elem_of_lookup_2 _ _ _ Ht)) as Hin.
    unfold has_returned in Hin. unfold thread_ok, pc_ok in Hok.
    destruct th as [c pc]. simpl in *. destruct pc; try done.
    destruct Hok as [-> Hc]. split_and!; [done|done|]. by destruct c. }
  assert (HMeq : M = list_to_map (inserted calls) ∪ M0).
  { apply map_eq. intros k. rewrite lookup_union.
    destruct (decide (k ∈ (inserted calls).*1)) as [Hin|Hnin].
    - apply list_elem_of_fmap in Hin as ([k' v] & -> & Hin). simpl.
      pose proof Hin as Hin'. apply inserted_elem in Hin'.
      apply list_elem_of_lookup in Hin' as (t & Hc).
      destruct (lookup_lt_is_Some_2 ts t) as [th Ht].
      { rewrite Hlen. by eapply lookup_lt_Some. }
      destruct (Hret t th Ht) as (Hc' & _ & HM).
      rewrite Hc in Hc'. injection Hc' as Heq. rewrite <-Heq in HM.
      rewrite HM. erewrite (elem_of_list_to_map_1 (inserted calls) k' v); [|done|done].
      by destruct (M0 !! k').
    - rewrite (Hother k Hnin).
      rewrite (not_elem_of_list_to_map_1 (inserted calls) k) by done.
      by destruct (M0 !! k). }
  split_and!; [|done|].
  - apply list_eq. intros t. rewrite list_lookup_fmap.
    destruct (ts !! t) as [th|] eqn:Ht.
    + destruct (Hret t th Ht) as (-> & Heq & _). simpl. by rewrite <-Heq.
    + apply lookup_ge_None in Ht. rewrite Hlen in Ht.
      apply lookup_ge_None in Ht. by rewrite Ht.
  - assert (Hzero : sum_list (counting <$> ts) = 0).
    { clear -Hall. induction Hall as [|th ts Hin _ IH]; [done|]. csimpl.
      rewrite IH. unfold has_returned in Hin. unfold counting.
      by destruct (th_pc th). }
    exists bs. rewrite <-HMeq.
    eapply Inv_frame; [exact HI|done| | |done].
    + simpl. rewrite Hsz, Hzero. f_equal. lia.
    + intros l nd Hin. by apply (flat_held _ _ _ _ (inv_flat _ _ _ _ HI)).
Qed.

Lemma map_race_app s1 s2 ts m ts1 m1 :
  map_race hasher_ s1 ts m = Ok (ts1, m1) →
  map_race hasher_ (s1 ++ s2) ts m = map_race hasher_ s2 ts1 m1.
Proof.
  revert ts m. induction s1 as [|[t sp] s1 IH]; intros ts m Hr; simpl in *.
  - by injection Hr as -> ->.
  - destruct (ts !! t) as [th|]; [|by apply IH].
    destruct (map_turn _ _ _ _ _) as [[pc m0]| |]; simpl in *; try done.
    by apply IH.
Qed.

(** Threads with exclusive calls, from a map in a quiescent state. *)
Lemma map_race_spec schedule calls m M0 :
  wf hasher_ m M0 → exclusive calls = true →
  ∃ ts m',
    map_race hasher_ schedule (calling <$> calls) m = Ok (ts, m') ∧
    (Forall has_returned ts →
       ts = answered M0 <$> calls ∧
       wf hasher_ m' (list_to_map (inserted calls) ∪ M0) ∧
       base.size (list_to_map (inserted calls) ∪ M0 : gmap Key Value)
         ≤ base.size M0 + length calls).
Proof.
  intros Hwf Hex.
  destruct (Apart_start m M0 calls Hwf) as (bs & HA).
  destruct (map_race_Apart _ _ schedule _ _ _ _ _ HA Hex)
    as (ts & m' & M' & bs' & pv' & Hrun & HA').
  exists ts, m'. split; [done|]. intros Hall.
  destruct (Apart_done _ _ _ _ _ _ _ HA' Hex Hall) as (Hts & HM & Hwf').
  split_and!; [done|done|].
  rewrite <-HM. by apply (Apart_bound _ _ _ _ _ _ _ HA' Hex).
Qed.

(** *** A thread that runs alone *)

(** A turn without spurious failure brings the thread nearer to its
    return. *)
Lemma map_turn_within L c pc m pc' m' n :
  map_turn hasher_ false c pc m = Ok (pc', m') →
  within hasher_ L m (call_key c) pc (S n) →
  (∀ p, bucket_index hasher_ m (call_key c) ≫= bucket m = Ok p →
        ∃ d, d ≤ L ∧ walk (λ _, True) (nodes m) d p) →
  within hasher_ L m' (call_key c) pc' n.
Proof.
  intros Hs Hw Hchain.
  destruct pc as [|[l|]|l|e v|old|v|new head| |node|val|r]; simpl in Hs, Hw.
  - apply bind_Ok in Hs as (i & Hi & (p & Hb & Heq)%bind_Ok).
    injection Heq as <- <-. simpl.
    destruct (Hchain p) as (d & Hd & Hwalk); [by rewrite Hi|].
    exists d. split; [done|lia].
  - apply bind_Ok in Hs as (nd & Hnd & Heq).
    destruct Hw as (d & Hwalk & Hd).
    inversion Hwalk as [|d' l' nd' Hn _ Hwalk']; subst.
    unfold deref in Hnd. rewrite Hn in Hnd. injection Hnd as ->.
    destruct (negb (marked nd) && bool_decide (key nd = call_key c));
      injection Heq as <- <-; simpl.
    + destruct c; simpl; [lia|lia|done].
    + exists nd, d'. split_and!; [done|done|lia].
  - injection Hs as <- <-. destruct Hw as (d & _ & Hd).
    destruct c; simpl; [lia|done|done].
  - apply bind_Ok in Hs as (nd & Hnd & Heq). injection Heq as <- <-.
    destruct Hw as (nd' & d & Hn & Hwalk & Hd).
    unfold deref in Hnd. rewrite Hn in Hnd. injection Hnd as ->.
    simpl. exists d. split; [done|lia].
  - apply bind_Ok in Hs as (nd & Hnd & Heq). injection Heq as <- <-. simpl. lia.
  - apply bind_Ok in Hs as (vs & Hvs & Heq). by injection Heq as <- <-.
  - apply bind_Ok in Hs as (i & Hi & (head & Hb & (nd & Hnd & Heq)%bind_Ok)%bind_Ok).
    injection Heq as <- <-. right. split; [lia|].
    unfold bucket_index, bucket in *. simpl. rewrite Hi. simpl. by rewrite Hb.
  - apply bind_Ok in Hs as (i & Hi & (bhead & Hb & Hcas)%bind_Ok).
    unfold compare_exchange_weak in Hcas.
    destruct (decide (bhead = head)) as [->|Hne].
    + injection Hcas as <- <-. simpl. destruct Hw as [?|[? _]]; lia.
    + apply bind_Ok in Hcas as (nd & Hnd & Heq). injection Heq as <- <-.
      assert (3 ≤ S n) as Hn.
      { destruct Hw as [?|[_ Hhead]]; [done|].
        rewrite Hi in Hhead. simpl in Hhead. congruence. }
      right. split; [lia|].
      unfold bucket_index, bucket in *. simpl. rewrite Hi. simpl. by rewrite Hb.
  - by injection Hs as <- <-.
  - apply bind_Ok in Hs as (nd & Hnd & Heq).
    destruct (value nd); injection Heq as <- <-; simpl; [lia|done].
  - apply bind_Ok in Hs as (v & Hv & Heq). by injection Heq as <- <-.
  - by injection Hs as <- <-.
Qed.

(** Where a thread stands, it needs no more turns than twice the keys and
    five. *)
Lemma Apart_within M0 calls ts m M bs pv L t th :
  Apart hasher_ M0 calls ts m M bs pv → exclusive calls = true →
  base.size M0 + length calls ≤ L → ts !! t = Some th →
  within hasher_ L m (call_key (th_call th)) (th_pc th) (2 * L + 5).
Proof.
  intros HA Hex HL Ht.
  pose proof (Apart_bound _ _ _ _ _ _ _ HA Hex) as Hb.
  pose proof (Apart_length _ _ _ _ _ _ _ HA) as Hlen.
  destruct HA as [_ _ Hth _ _ _].
  destruct (Hth t th Ht) as [_ Hok].
  unfold thread_ok, pc_ok in Hok. unfold within.
  destruct (th_pc th) as [|cur|cur|e v|old|v|new head| |node|val|r];
    try lia; try done.
  - destruct Hok as (_ & (d & Hd & Hw) & _). exists d. split; [|lia].
    by eapply walk_weaken.
  - destruct Hok as (_ & nd & Hn & _ & (d & Hd & Hw) & _). exists nd, d.
    split_and!; [done| |lia]. by eapply walk_weaken.
Qed.

(** A thread that takes [n] turns in a row, [n] at least what it needs,
    has returned. *)
Lemma map_race_alone M0 calls L t n :
  exclusive calls = true → base.size M0 + length calls ≤ L →
  ∀ ts m M bs pv th,
    Apart hasher_ M0 calls ts m M bs pv → ts !! t = Some th →
    within hasher_ L m (call_key (th_call th)) (th_pc th) n →
    ∃ ts' m' th',
      map_race hasher_ (replicate n (t, false)) ts m = Ok (ts', m') ∧
      ts' !! t = Some th' ∧ has_returned th'.
Proof.
  intros Hex HL. induction n as [|n IH]; intros ts m M bs pv th HA Ht Hn.
  - exists ts, m, th. split_and!; [done|done|].
    unfold has_returned. unfold within in Hn.
    destruct (th_pc th); try done; try lia.
    + destruct Hn as (d & _ & ?). lia.
    + destruct Hn as (nd & d & _ & _ & ?). lia.
  - simpl. rewrite Ht.
    destruct (map_turn_Apart _ _ _ _ _ _ _ false _ _ HA Hex Ht)
      as (pc' & m' & M' & bs' & pv' & Hs & HA').
    rewrite Hs. simpl.
    eapply (IH _ _ _ _ _ (mkThread (th_call th) pc')); [exact HA'| |].
    + apply list_lookup_insert_eq. by eapply lookup_lt_Some.
    + simpl. eapply map_turn_within; [exact Hs|exact Hn|].
      intros p Hp.
      destruct (Apart_bucket _ _ _ _ _ _ _ (call_key (th_call th)) HA)
        as (p' & es & Hidx & Hb & _ & Hes & Hlk & Hheld & Hlen).
      rewrite Hidx in Hp. simpl in Hp. rewrite Hb in Hp. injection Hp as ->.
      pose proof (Apart_bound _ _ _ _ _ _ _ HA Hex) as Hbound.
      exists (length es). split; [lia|].
      eapply (walk_weaken (published bs)); [done|].
      apply walk_linked; [done|done|]. intros e He. apply elem_of_concat. eauto.
Qed.

(** From every state the threads reach, a thread that takes its turns in
    a row returns. *)
Lemma map_race_returns schedule calls m M0 L t :
  wf hasher_ m M0 → exclusive calls = true → base.size M0 + length calls ≤ L →
  t < length calls →
  ∃ ts m' th,
    map_race hasher_ (schedule ++ replicate (2 * L + 5) (t, false))
      (calling <$> calls) m = Ok (ts, m') ∧
    ts !! t = Some th ∧ has_returned th.
Proof.
  intros Hwf Hex HL Ht.
  destruct (Apart_start m M0 calls Hwf) as (bs & HA).
  destruct (map_race_Apart _ _ schedule _ _ _ _ _ HA Hex)
    as (ts1 & m1 & M1 & bs1 & pv1 & Hrun & HA1).
  destruct (lookup_lt_is_Some_2 ts1 t) as [th1 Hth1].
  { by rewrite (apart_length _ _ _ _ _ _ _ _ HA1). }
  destruct (map_race_alone M0 calls L t (2 * L + 5) Hex HL _ _ _ _ _ _ HA1 Hth1)
    as (ts & m' & th & Hrun' & Hth & Hret).
  { by eapply Apart_within. }
  exists ts, m', th. split_and!; [|done|done].
  by rewrite (map_race_app _ _ _ _ _ _ Hrun).
Qed.

End HashMapThreadsFacts.
End HashMapThreadsFacts.

(** ** The thread pool *)

Module ThreadPoolFacts.
Import ThreadPool.
Section ThreadPoolFacts.
Context {R E : Type}.
Implicit Types (ws : list worker_pc) (l : list Task) (w : wait_pc).
Implicit Types (h : gmap loc (packaged_task R E)) (c : client R E).
Implicit Types (prog : list (cmd R E)) (t : Task).

Lemma in_flight_worker l ws w i pc :
  ws !! i = Some pc →
  ∃ others,
    in_flight l ws w ≡ₚ (worker_task pc ++ l) ++ others ∧
    ∀ pc' l', in_flight l' (<[i := pc']> ws) w ≡ₚ (worker_task pc' ++ l') ++ others.
Proof.
  intros Hi.
  destruct (concat_insert_perm (worker_task <$> ws) i (worker_task pc))
    as (others & Hp & Hp').
  { by rewrite list_lookup_fmap, Hi. }
  exists (others ++ wait_task w). unfold in_flight. split.
  - rewrite Hp. rewrite <-!app_assoc. apply Permutation_app_swap_app.
  - intros pc' l'. rewrite list_fmap_insert, Hp'. rewrite <-!app_assoc.
    apply Permutation_app_swap_app.
Qed.

Lemma in_flight_wait l ws w :
  in_flight l ws w ≡ₚ (wait_task w ++ l) ++ concat (worker_task <$> ws).
Proof.
  unfold in_flight. rewrite <-app_assoc.
  rewrite (Permutation_app_comm (concat _) (wait_task w)).
  apply Permutation_app_swap_app.
Qed.

Lemma invoke_pending h t :
  pending h t →
  ∃ pt, h !! t = Some pt ∧ shared_state pt = None ∧
        invoke h t = Ok (<[t := mkTask (callable pt) (Some (callable pt tt))]> h, false).
Proof.
  intros (pt & Ht & Hs). exists pt. split_and!; [done|done|].
  unfold invoke. rewrite (deref_Some _ _ _ Ht). simpl. by rewrite Hs.
Qed.

Lemma pending_insert_ne h t x (L : list Task) :
  t ∉ L → Forall (pending h) L → Forall (pending (<[t := x]> h)) L.
Proof.
  intros Ht Hall. apply Forall_forall. intros t' Hin.
  rewrite Forall_forall in Hall. destruct (Hall t' Hin) as (pt & Hpt & Hs).
  exists pt. split; [|done]. rewrite lookup_insert_ne; [done|]. by intros ->.
Qed.

Lemma faithful_run h t (f : unit → outcome R E) :
  faithful h → faithful (<[t := mkTask f (Some (f tt))]> h).
Proof.
  intros Hf t' pt o. destruct (decide (t = t')) as [<-|Hne].
  - rewrite lookup_insert_eq. intros [= <-]. simpl. by intros [= <-].
  - rewrite lookup_insert_ne by done. apply Hf.
Qed.

Lemma futures_run h t pt o (fs : list (unit → outcome R E)) (futs : list loc) :
  h !! t = Some pt →
  Forall2 (λ f future, ∃ pt, h !! future = Some pt ∧ callable pt = f) fs futs →
  Forall2 (λ f future, ∃ pt', <[t := mkTask (callable pt) o]> h !! future = Some pt' ∧
                              callable pt' = f) fs futs.
Proof.
  intros Ht HF. eapply Forall2_impl; [exact HF|].
  intros f future (pt' & Hpt' & Hc).
  destruct (decide (t = future)) as [<-|Hne].
  - rewrite lookup_insert_eq. eexists. split; [done|]. simpl. congruence.
  - rewrite lookup_insert_ne by done. eauto.
Qed.

(** A worker moves on and the tasks in flight stay the same. *)
Lemma worker_move prog ws l h c i pc pc' l' :
  Invariant prog ws l h c → ws !! i = Some pc →
  worker_task pc ++ l ≡ₚ worker_task pc' ++ l' →
  length l' ≤ length l → pc' ≠ WDead →
  Invariant prog (<[i := pc']> ws) l' h c.
Proof.
  intros [Hnd Hpend Hlen Hf [Hw Hc] Hprog Hlog] Hi Hperm Hl Hpc.
  destruct (in_flight_worker l ws (waiting c) i pc Hi) as (others & Hp & Hp').
  assert (Hsame : in_flight l' (<[i := pc']> ws) (waiting c) ≡ₚ
                  in_flight l ws (waiting c)).
  { by rewrite Hp, Hp', Hperm. }
  split; try done.
  - by rewrite Hsame.
  - by rewrite Hsame.
  - lia.
  - split; [|done]. by apply Forall_insert.
Qed.

(** A worker runs the task it holds. *)
Lemma worker_run prog ws l h c i t :
  Invariant prog ws l h c → ws !! i = Some (WRun t) →
  ∃ pt, h !! t = Some pt ∧ shared_state pt = None ∧
        Invariant prog (<[i := WRan]> ws) l
          (<[t := mkTask (callable pt) (Some (callable pt tt))]> h) c.
Proof.
  intros [Hnd Hpend Hlen Hf [Hw Hc] Hprog Hlog] Hi.
  destruct (in_flight_worker l ws (waiting c) i _ Hi) as (others & Hp & Hp').
  simpl in Hp. rewrite Hp in Hnd, Hpend.
  apply NoDup_cons in Hnd as [Hnt Hnd]. apply Forall_cons in Hpend as [Ht Hpend].
  destruct Ht as (pt & Ht & Hs). exists pt. split_and!; [done|done|].
  split; try done.
  - rewrite Hp'. done.
  - rewrite Hp'. simpl. by apply pending_insert_ne.
  - by apply faithful_run.
  - split; [|done]. by apply Forall_insert.
  - destruct Hprog as (done & Hd & Hfut). exists done. split; [done|].
    by apply futures_run.
Qed.

Lemma submitted_app (p1 p2 : list (cmd R E)) :
  submitted (p1 ++ p2) = submitted p1 ++ submitted p2.
Proof.
  induction p1 as [|[] p1 IH]; simpl; [done|by rewrite IH|done..].
Qed.

(** The client moves on without submitting and the tasks in flight stay
    the same; a new [OGet] in its log comes from a shared state that is
    set. *)
Lemma client_move prog ws l h c l' c' :
  Invariant prog ws l h c →
  wait_task (waiting c) ++ l ≡ₚ wait_task (waiting c') ++ l' →
  length l' ≤ length l → waiting c' ≠ TDead → futures c' = futures c →
  (∃ skipped, program c = skipped ++ program c' ∧ submitted skipped = []) →
  (∀ i o, OGet i o ∈ log c' →
     OGet i o ∈ log c ∨
     ∃ future pt, futures c !! i = Some future ∧ h !! future = Some pt ∧
                  shared_state pt = Some o) →
  Invariant prog ws l' h c'.
Proof.
  intros [Hnd Hpend Hlen Hf [Hw Hc] Hprog Hlog] Hperm Hl Hw' Hfut Hskip Hlog'.
  assert (Hsame : in_flight l' ws (waiting c') ≡ₚ in_flight l ws (waiting c)).
  { by rewrite !in_flight_wait, Hperm. }
  destruct Hprog as (done & Hd & HF). destruct Hskip as (skipped & Hs & Hsub).
  split.
  - by rewrite Hsame.
  - by rewrite Hsame.
  - rewrite Hfut. lia.
  - done.
  - done.
  - exists (done ++ skipped). split.
    + by rewrite <-app_assoc, <-Hs.
    + by rewrite submitted_app, Hsub, app_nil_r, Hfut.
  - intros i o Hin. destruct (Hlog' i o Hin) as [Hold|(future & pt & Hi & Hpt & Hst)].
    { by apply Hlog. }
    destruct (Forall2_lookup_r _ _ _ _ _ HF Hi) as (f & Hfi & pt' & Hpt' & Hcall).
    exists f. split.
    + rewrite Hd, submitted_app. by apply lookup_app_l_Some.
    + rewrite Hpt in Hpt'. injection Hpt' as <-. rewrite <-Hcall. by eapply Hf.
Qed.

(** The caller of [wait] runs the task it holds. *)
Lemma client_run prog ws l h c t :
  Invariant prog ws l h c → waiting c = TRun t →
  ∃ pt, h !! t = Some pt ∧ shared_state pt = None ∧
        Invariant prog ws l
          (<[t := mkTask (callable pt) (Some (callable pt tt))]> h)
          {| program := program c; futures := futures c;
             waiting := TRan; log := log c |}.
Proof.
  intros [Hnd Hpend Hlen Hf [Hw Hc] Hprog Hlog] Hwt.
  rewrite in_flight_wait, Hwt in Hnd, Hpend. simpl in Hnd, Hpend.
  apply NoDup_cons in Hnd as [Hnt Hnd]. apply Forall_cons in Hpend as [Ht Hpend].
  destruct Ht as (pt & Ht & Hs). exists pt. split_and!; [done|done|].
  split; simpl; try done.
  - by rewrite in_flight_wait.
  - rewrite in_flight_wait. simpl. by apply pending_insert_ne.
  - by apply faithful_run.
  - destruct Hprog as (done & Hd & Hfut). exists done. split; [done|].
    by apply futures_run.
Qed.

(** The client submits a work unit. *)
Lemma client_submit prog ws l h c f p :
  Invariant prog ws l h c → program c = Submit f :: p →
  Invariant prog ws (l ++ [fresh (dom h)])
    (<[fresh (dom h) := mkTask f None]> h)
    {| program := p; futures := futures c ++ [fresh (dom h)];
       waiting := waiting c; log := log c |}.
Proof.
  intros [Hnd Hpend Hlen Hf [Hw Hc] Hprog Hlog] Hp.
  pose proof (fresh_None h) as Hfresh. set (t := fresh (dom h)) in *.
  assert (Hnew : t ∉ in_flight l ws (waiting c)).
  { intros Hin. rewrite Forall_forall in Hpend.
    destruct (Hpend t Hin) as (pt & Hpt & _). congruence. }
  assert (Hsame : in_flight (l ++ [t]) ws (waiting c) ≡ₚ
                  t :: in_flight l ws (waiting c)).
  { unfold in_flight. rewrite <-app_assoc. simpl. by rewrite <-Permutation_middle. }
  split; simpl.
  - rewrite Hsame. by apply NoDup_cons.
  - rewrite Hsame. apply Forall_cons. split.
    + exists (mkTask f None). by rewrite lookup_insert_eq.
    + by apply pending_insert_ne.
  - rewrite !length_app. simpl. lia.
  - intros t' pt o. destruct (decide (t = t')) as [<-|Hne].
    + rewrite lookup_insert_eq. by intros [= <-].
    + rewrite lookup_insert_ne by done. apply Hf.
  - done.
  - destruct Hprog as (done & Hd & HF). exists (done ++ [Submit f]). split.
    + by rewrite <-app_assoc, Hd, Hp.
    + rewrite submitted_app. simpl. apply Forall2_app.
      * eapply Forall2_impl; [exact HF|]. intros g future (pt & Hpt & Hcall).
        exists pt. split; [|done]. rewrite lookup_insert_ne; [done|]. congruence.
      * constructor; [|constructor]. eexists. by rewrite lookup_insert_eq.
  - done.
Qed.

Lemma submitted_length (p : list (cmd R E)) : length (submitted p) ≤ length p.
Proof. induction p as [|[] p IH]; simpl; lia. Qed.

(** *** Every step keeps the invariant *)

Lemma worker_step_Inv prog ws q stop active h c l i pc :
  Queue.wf q l → Invariant prog ws l h c → ws !! i = Some pc →
  ∃ pc' q' active' h' l',
    worker_step {| pool := mkPool ws q stop active; heap := h |} pc =
      Ok (pc', {| pool := mkPool ws q' stop active'; heap := h' |}) ∧
    Queue.wf q' l' ∧ Invariant prog (<[i := pc']> ws) l' h' c.
Proof.
  intros Hwf HI Hi. destruct pc as [| |t|t| | | |]; simpl.
  - exists (if stop then WExit else WDequeue), q, active, h, l.
    split_and!; [done|done|].
    eapply worker_move; [done|done|by destruct stop|done|by destruct stop].
  - destruct (QueueFacts.dequeue_spec _ _ Hwf) as (q' & -> & Hwf'). simpl.
    destruct l as [|t l]; simpl in *.
    + exists WWait, q', active, h, []. split_and!; [done|done|].
      by eapply worker_move.
    + exists (WGot t), q', active, h, l. split_and!; [done|done|].
      eapply worker_move; [done|done|done|simpl; lia|done].
  - exists (WRun t), q, (wrap (active + 1)), h, l. split_and!; [done|done|].
    by eapply worker_move.
  - destruct (worker_run _ _ _ _ _ _ _ HI Hi) as (pt & Hpt & Hs & HI').
    destruct (invoke_pending h t) as (pt' & Hpt' & _ & ->); [by exists pt|].
    rewrite Hpt in Hpt'. injection Hpt' as <-. simpl.
    eexists WRan, q, active, _, l. split_and!; [done|done|exact HI'].
  - exists WLoop, q, (wrap (active - 1)), h, l. split_and!; [done|done|].
    by eapply worker_move.
  - exists WLoop, q, active, h, l. split_and!; [done|done|].
    by eapply worker_move.
  - exists WExit, q, active, h, l. split_and!; [done|done|].
    by eapply worker_move.
  - destruct (inv_alive _ _ _ _ _ HI) as [Hw _].
    rewrite Forall_forall in Hw. destruct (Hw WDead); [|done].
    by eapply list_elem_of_lookup_2.
Qed.

Lemma client_step_Inv prog fuel ws q stop active h c l :
  length prog < fuel →
  Queue.wf q l → Invariant prog ws l h c →
  ∃ c' q' active' h' l',
    client_step fuel {| pool := mkPool ws q stop active; heap := h |} c =
      Ok (c', {| pool := mkPool ws q' stop active'; heap := h' |}) ∧
    Queue.wf q' l' ∧ Invariant prog ws l' h' c'.
Proof.
  intros Hfuel Hwf HI. unfold client_step.
  destruct (program c) as [|[f| |i| |] p] eqn:Hp.
  - exists c, q, active, h, l. by split_and!.
  - unfold submit. simpl.
    destruct (QueueFacts.enqueue_spec _ _ (fresh (dom h)) Hwf) as (q' & -> & Hwf').
    simpl. eexists _, q', active, _, _. split_and!; [done|exact Hwf'|].
    by eapply client_submit.
  - destruct (waiting c) as [| | |t|t| | |] eqn:Hw; simpl.
    + destruct (decide (active > 0)%Z).
      * eexists _, q, active, h, l. split_and!; [done|done|].
        eapply client_move; [done|by rewrite Hw|done|done|done|by exists []; rewrite Hp|by left].
      * eexists _, q, active, h, l. split_and!; [done|done|].
        eapply client_move; [done|by rewrite Hw|done|done|done|by exists []; rewrite Hp|by left].
    + rewrite (QueueFacts.empty_spec _ _ Hwf). simpl. destruct l as [|t l]; simpl.
      * eexists _, q, active, h, []. split_and!; [done|done|].
        eapply client_move; [done|by rewrite Hw|done|done|done| |]; simpl.
        { exists [Wait]. by rewrite Hp. }
        intros i o [Hin|Hin%list_elem_of_singleton]%elem_of_app; [by left|done].
      * eexists _, q, active, h, (t :: l). split_and!; [done|done|].
        eapply client_move; [done|by rewrite Hw|done|done|done|by exists []; rewrite Hp|by left].
    + destruct (QueueFacts.dequeue_spec _ _ Hwf) as (q' & -> & Hwf'). simpl.
      destruct l as [|t l]; simpl in *.
      * eexists _, q', active, h, []. split_and!; [done|done|].
        eapply client_move; [done|by rewrite Hw|done|done|done|by exists []; rewrite Hp|by left].
      * eexists _, q', active, h, l. split_and!; [done|done|].
        eapply client_move; [done|by rewrite Hw|simpl; lia|done|done
                            |by exists []; rewrite Hp|by left].
    + eexists _, q, _, h, l. split_and!; [done|done|].
      eapply client_move; [done|by rewrite Hw|done|done|done|by exists []; rewrite Hp|by left].
    + destruct (client_run _ _ _ _ _ _ HI Hw) as (pt & Hpt & Hs & HI').
      destruct (invoke_pending h t) as (pt' & Hpt' & _ & ->); [by exists pt|].
      rewrite Hpt in Hpt'. injection Hpt' as <-. simpl.
      eexists _, q, active, _, l. split_and!; [done|done|].
      rewrite Hp in HI'. exact HI'.
    + eexists _, q, _, h, l. split_and!; [done|done|].
      eapply client_move; [done|by rewrite Hw|done|done|done|by exists []; rewrite Hp|by left].
    + eexists _, q, active, h, l. split_and!; [done|done|].
      eapply client_move; [done|by rewrite Hw|done|done|done| |]; simpl.
      { exists [Wait]. by rewrite Hp. }
      intros i o [Hin|Hin%list_elem_of_singleton]%elem_of_app; [by left|done].
    + by destruct (inv_alive _ _ _ _ _ HI) as [_ ?].
  - destruct (futures c !! i) as [future|] eqn:Hfut.
    + unfold future_get. simpl. destruct (h !! future) as [pt|] eqn:Hpt.
      * destruct (shared_state pt) as [o|] eqn:Hst.
        -- eexists _, q, active, h, l. split_and!; [done|done|].
           eapply client_move; [done|done|done|apply (inv_alive _ _ _ _ _ HI)|done| |];
             simpl.
           { exists [Get i]. by rewrite Hp. }
           intros i' o' [Hin|Hin%list_elem_of_singleton]%elem_of_app; [by left|].
           injection Hin as -> ->. right. by exists future, pt.
        -- exists c, q, active, h, l. by split_and!.
      * exists c, q, active, h, l. by split_and!.
    + eexists _, q, active, h, l. split_and!; [done|done|].
      eapply client_move; [done|done|done|apply (inv_alive _ _ _ _ _ HI)|done| |];
        simpl; [|by left].
      exists [Get i]. by rewrite Hp.
  - eexists _, q, active, h, l. split_and!; [done|done|].
    eapply client_move; [done|done|done|apply (inv_alive _ _ _ _ _ HI)|done| |];
      simpl.
    { exists [ActiveTasks]. by rewrite Hp. }
    intros i o [Hin|Hin%list_elem_of_singleton]%elem_of_app; [by left|done].
  - unfold queued_tasks. simpl.
    rewrite (QueueFacts.approximate_size_spec fuel _ _ Hwf).
    2:{ pose proof (inv_length _ _ _ _ _ HI) as Hl.
        destruct (inv_program _ _ _ _ _ HI) as (done & Hd & HF).
        apply Forall2_length in HF. pose proof (submitted_length done).
        rewrite Hd, length_app in Hfuel. lia. }
    simpl. eexists _, q, active, h, l. split_and!; [done|done|].
    eapply client_move; [done|done|done|apply (inv_alive _ _ _ _ _ HI)|done| |];
      simpl.
    { exists [QueuedTasks]. by rewrite Hp. }
    intros i o [Hin|Hin%list_elem_of_singleton]%elem_of_app; [by left|done].
Qed.

Lemma step_Inv prog fuel tid sys :
  length prog < fuel → Inv prog sys →
  ∃ sys', step fuel tid sys = Ok sys' ∧ Inv prog sys'.
Proof.
  intros Hfuel (l & Hwf & HI).
  destruct sys as [[[ws q stop active] h] c]. simpl in *.
  destruct tid as [|i]; simpl.
  - destruct (client_step_Inv prog fuel ws q stop active h c l Hfuel Hwf HI)
      as (c' & q' & active' & h' & l' & -> & Hwf' & HI').
    simpl. eexists. split; [done|]. by exists l'.
  - destruct (ws !! i) as [pc|] eqn:Hi.
    + destruct (worker_step_Inv prog ws q stop active h c l i pc Hwf HI Hi)
        as (pc' & q' & active' & h' & l' & -> & Hwf' & HI').
      simpl. eexists. split; [done|]. by exists l'.
    + eexists. split; [done|]. by exists l.
Qed.

Lemma start_Inv n prog : Inv prog (start n prog).
Proof.
  exists []. split; [apply QueueFacts.new_queue_wf|].
  assert (Hc : ∀ k, concat (worker_task <$> replicate k (WLoop : worker_pc)) = []).
  { induction k; simpl; [done|]. done. }
  split; simpl.
  - unfold in_flight. simpl. rewrite Hc. constructor.
  - unfold in_flight. simpl. rewrite Hc. constructor.
  - lia.
  - intros t pt o Ht. by rewrite lookup_empty in Ht.
  - split; [|done]. apply Forall_replicate. done.
  - exists []. split; [done|]. constructor.
  - intros i o Hin. by apply elem_of_nil in Hin.
Qed.

Lemma run_Inv prog fuel schedule :
  length prog < fuel →
  ∀ sys, Inv prog sys → ∃ sys', run fuel schedule sys = Ok sys' ∧ Inv prog sys'.
Proof.
  intros Hfuel. induction schedule as [|tid schedule IH]; intros sys HI.
  - by exists sys.
  - destruct (step_Inv prog fuel tid sys Hfuel HI) as (sys1 & Hs & HI1).
    destruct (IH sys1 HI1) as (sys2 & Hr & HI2).
    exists sys2. simpl. rewrite Hs. by split.
Qed.

End ThreadPoolFacts.
End ThreadPoolFacts.

(** ** The counter of active tasks *)

Module ThreadPoolCountFacts.
Import ThreadPool ThreadPoolFacts.
Section ThreadPoolCountFacts.
Context {R E : Type}.
Implicit Types (ws : list worker_pc) (w : wait_pc) (sys : system R E).

Lemma busy_split ws i pc :
  ws !! i = Some pc →
  ∃ rest, sum_list (worker_busy <$> ws) = rest + worker_busy pc ∧
          ∀ pc', sum_list (worker_busy <$> <[i := pc']> ws) = rest + worker_busy pc'.
Proof.
  revert i. induction ws as [|x ws IH]; intros i Hi; [done|].
  destruct i as [|i]; csimpl in *.
  - injection Hi as ->. exists (sum_list (worker_busy <$> ws)).
    split; [lia|]. intros pc'. lia.
  - destruct (IH i Hi) as (rest & Hr & Hr'). exists (worker_busy x + rest).
    split; [lia|]. intros pc'. rewrite Hr'. lia.
Qed.

Lemma sum_busy_le ws : sum_list (worker_busy <$> ws) ≤ length ws.
Proof.
  induction ws as [|x ws IH]; csimpl; [done|].
  assert (worker_busy x ≤ 1) by (destruct x; simpl; lia). lia.
Qed.

Lemma wait_busy_le w : wait_busy w ≤ 1.
Proof. destruct w; simpl; lia. Qed.

Lemma wrap_nat n : (Z.of_nat n < 2 ^ SIZE_BITS)%Z → wrap (Z.of_nat n) = Z.of_nat n.
Proof. intros Hn. apply wrap_small. lia. Qed.

(** What one action of a worker does to the counter. *)
Lemma worker_step_active (s : state R E) pc pc' s' :
  worker_step s pc = Ok (pc', s') →
  workers_ (pool s') = workers_ (pool s) ∧
  ((worker_busy pc' = worker_busy pc ∧
    active_tasks_ (pool s') = active_tasks_ (pool s)) ∨
   (worker_busy pc = 0 ∧ worker_busy pc' = 1 ∧
    active_tasks_ (pool s') = wrap (active_tasks_ (pool s) + 1)) ∨
   (worker_busy pc = 1 ∧ worker_busy pc' = 0 ∧
    active_tasks_ (pool s') = wrap (active_tasks_ (pool s) - 1))).
Proof.
  destruct pc as [| |t|t| | | |]; simpl.
  - intros [= <- <-]. split; [done|]. left. by destruct (stop_ (pool s)).
  - intros ([o q] & Hd & Heq)%bind_Ok. injection Heq as <- <-. simpl.
    split; [done|]. left. by destruct o.
  - intros [= <- <-]. split; [done|]. right. left. done.
  - intros ([h thrown] & Hi & Heq)%bind_Ok. injection Heq as <- <-. simpl.
    split; [done|]. left. by destruct thrown.
  - intros [= <- <-]. split; [done|]. right. right. done.
  - intros [= <- <-]. split; [done|]. by left.
  - intros [= <- <-]. split; [done|]. by left.
  - intros [= <- <-]. split; [done|]. by left.
Qed.

Lemma wait_step_active (s : state R E) w w' s' :
  wait_step s w = Ok (w', s') →
  workers_ (pool s') = workers_ (pool s) ∧
  ((wait_busy w' = wait_busy w ∧
    active_tasks_ (pool s') = active_tasks_ (pool s)) ∨
   (wait_busy w = 0 ∧ wait_busy w' = 1 ∧
    active_tasks_ (pool s') = wrap (active_tasks_ (pool s) + 1)) ∨
   (wait_busy w = 1 ∧ wait_busy w' = 0 ∧
    active_tasks_ (pool s') = wrap (active_tasks_ (pool s) - 1))).
Proof.
  destruct w as [| | |t|t| | |]; simpl.
  - intros [= <- <-]. split; [done|]. left. by destruct (decide _).
  - intros (b & Hb & Heq)%bind_Ok. injection Heq as <- <-.
    split; [done|]. left. by destruct b.
  - intros ([o q] & Hd & Heq)%bind_Ok. injection Heq as <- <-. simpl.
    split; [done|]. left. by destruct o.
  - intros [= <- <-]. split; [done|]. right. left. done.
  - intros ([h thrown] & Hi & Heq)%bind_Ok. injection Heq as <- <-. simpl.
    split; [done|]. left. by destruct thrown.
  - intros [= <- <-]. split; [done|]. right. right. done.
  - intros [= <- <-]. split; [done|]. by left.
  - intros [= <- <-]. split; [done|]. by left.
Qed.

(** The counter follows the number of busy threads when one of them
    moves from [b] to [b']. *)
Lemma active_follows (active active' : Z) (n b b' rest : nat) :
  (Z.of_nat n < 2 ^ SIZE_BITS)%Z →
  active = Z.of_nat (rest + b) → rest + b ≤ n → rest + b' ≤ n →
  ((b' = b ∧ active' = active) ∨
   (b = 0 ∧ b' = 1 ∧ active' = wrap (active + 1)) ∨
   (b = 1 ∧ b' = 0 ∧ active' = wrap (active - 1))) →
  active' = Z.of_nat (rest + b').
Proof.
  intros Hn -> Hb Hb' [[-> ->]|[(-> & -> & ->)|(-> & -> & ->)]].
  - done.
  - replace (Z.of_nat (rest + 0) + 1)%Z with (Z.of_nat (rest + 1)) by lia.
    apply wrap_nat. lia.
  - replace (Z.of_nat (rest + 1) - 1)%Z with (Z.of_nat (rest + 0)) by lia.
    apply wrap_nat. lia.
Qed.

Lemma step_counted fuel tid sys sys' :
  (Z.of_nat (S (length (workers_ (pool (shared sys))))) < 2 ^ SIZE_BITS)%Z →
  counted sys → step fuel tid sys = Ok sys' →
  counted sys' ∧
  length (workers_ (pool (shared sys'))) = length (workers_ (pool (shared sys))).
Proof.
  intros Hn Hc. destruct sys as [s c].
  pose proof Hc as [Hact Hlog Hwait]. simpl in *. destruct tid as [|i]; simpl.
  - intros ([c' s'] & Hstep & Heq)%bind_Ok. injection Heq as <-. simpl.
    unfold client_step in Hstep.
    destruct (program c) as [|[f| |j| |] p] eqn:Hp.
    + injection Hstep as <- <-. by split.
    + apply bind_Ok in Hstep as ([future s1] & Hsub & Heq). injection Heq as <- <-.
      unfold submit in Hsub.
      apply bind_Ok in Hsub as ([b q] & Henq & Heq). injection Heq as _ <-. simpl.
      split; [|done]. split; simpl; [done|done|].
      destruct Hwait as [?|[? ?]]; [by left|done].
    + apply bind_Ok in Hstep as ([w' s1] & Hws & Heq).
      destruct (wait_step_active _ _ _ _ Hws) as [Hws_eq Hcases].
      assert (Hact' : active_tasks_ (pool s1) =
                      Z.of_nat (busy (workers_ (pool s1)) w')).
      { unfold busy in *. rewrite Hws_eq.
        eapply (active_follows _ _ (S (length (workers_ (pool s))))
                  (wait_busy (waiting c)) (wait_busy w'));
          [done|exact Hact| | |exact Hcases].
        - pose proof (sum_busy_le (workers_ (pool s))).
          pose proof (wait_busy_le (waiting c)). lia.
        - pose proof (sum_busy_le (workers_ (pool s))).
          pose proof (wait_busy_le w'). lia. }
      assert (Hlen : length (workers_ (pool s1)) = length (workers_ (pool s)))
        by (by rewrite Hws_eq).
      destruct w'; injection Heq as <- <-; simpl; (split; [|exact Hlen]);
        (split; simpl; [exact Hact'| |]);
        try (rewrite Hws_eq; exact Hlog); try (right; by eexists); try (by left).
      intros a [Hin|Hin%list_elem_of_singleton]%elem_of_app; [|done].
      rewrite Hws_eq. by apply Hlog.
    + destruct (futures c !! j) as [future|].
      * destruct (future_get s future).
        -- injection Hstep as <- <-. split; [|done]. split; simpl; [done| |].
           ++ intros a [Hin|Hin%list_elem_of_singleton]%elem_of_app;
                [by apply Hlog|done].
           ++ destruct Hwait as [?|[? ?]]; [by left|done].
        -- injection Hstep as <- <-. split; [|done]. split; simpl; [done|done|].
           rewrite Hp. destruct Hwait as [?|[? ?]]; [by left|done].
      * injection Hstep as <- <-. split; [|done]. split; simpl; [done|done|].
        destruct Hwait as [?|[? ?]]; [by left|done].
    + injection Hstep as <- <-. split; [|done]. split; simpl; [done| |].
      * intros a [Hin|Hin%list_elem_of_singleton]%elem_of_app; [by apply Hlog|].
        injection Hin as ->. unfold active_tasks. rewrite Hact.
        destruct Hwait as [->|[? ?]]; [|done]. unfold busy. simpl.
        pose proof (sum_busy_le (workers_ (pool s))). lia.
      * destruct Hwait as [?|[? ?]]; [by left|done].
    + apply bind_Ok in Hstep as (n & Hq & Heq). injection Heq as <- <-.
      split; [|done]. split; simpl; [done| |].
      * intros a [Hin|Hin%list_elem_of_singleton]%elem_of_app; [by apply Hlog|done].
      * destruct Hwait as [?|[? ?]]; [by left|done].
  - destruct (workers_ (pool s) !! i) as [pc|] eqn:Hi.
    + intros ([pc' s1] & Hws & Heq)%bind_Ok. injection Heq as <-. simpl.
      destruct (worker_step_active _ _ _ _ Hws) as [Hws_eq Hcases].
      rewrite Hws_eq, length_insert. split; [|done]. split; simpl.
      * unfold busy in *.
        destruct (busy_split _ _ _ Hi) as (rest & Hr & Hr').
        pose proof (sum_busy_le (<[i := pc']> (workers_ (pool s)))) as Hle'.
        rewrite length_insert, Hr' in Hle'.
        pose proof (sum_busy_le (workers_ (pool s))) as Hle. rewrite Hr in Hle.
        pose proof (wait_busy_le (waiting c)) as Hwl.
        rewrite Hr in Hact. rewrite Hr'.
        replace (rest + worker_busy pc' + wait_busy (waiting c))
          with ((rest + wait_busy (waiting c)) + worker_busy pc') by lia.
        eapply (active_follows _ _ (S (length (workers_ (pool s))))
                  (worker_busy pc) (worker_busy pc'));
          [done| | | |exact Hcases].
        -- rewrite Hact. f_equal. lia.
        -- lia.
        -- lia.
      * by rewrite length_insert.
      * done.
    + intros [= <-]. by split.
Qed.

Lemma start_counted n (prog : list (cmd R E)) : counted (start n prog).
Proof.
  split; simpl.
  - unfold busy. simpl.
    assert (Hz : ∀ k, sum_list (worker_busy <$> replicate k (WLoop : worker_pc)) = 0).
    { induction k; simpl; [done|]. done. }
    by rewrite Hz.
  - intros a Hin. by apply elem_of_nil in Hin.
  - by left.
Qed.

Lemma run_counted fuel schedule : ∀ sys sys',
  (Z.of_nat (S (length (workers_ (pool (shared sys))))) < 2 ^ SIZE_BITS)%Z →
  counted sys → run fuel schedule sys = Ok sys' →
  counted sys' ∧
  length (workers_ (pool (shared sys'))) = length (workers_ (pool (shared sys))).
Proof.
  induction schedule as [|tid schedule IH]; intros sys sys' Hn Hc; simpl.
  - intros [= <-]. by split.
  - intros (sys1 & Hs & Hr)%bind_Ok.
    destruct (step_counted _ _ _ _ Hn Hc Hs) as [Hc1 Hlen1].
    destruct (IH sys1 sys') as [Hc' Hlen']; [by rewrite Hlen1|done|done|].
    split; [done|]. by rewrite Hlen', Hlen1.
Qed.

End ThreadPoolCountFacts.
End ThreadPoolCountFacts.

(** ** No task is lost *)

Module ThreadPoolTrackFacts.
Import ThreadPool ThreadPoolFacts.
Section ThreadPoolTrackFacts.
Context {R E : Type}.
Implicit Types (ws : list worker_pc) (w : wait_pc) (sys : system R E)
  (h : gmap loc (packaged_task R E)) (c : client R E).

Lemma tracked_perm h (L L' : list Task) :
  L ≡ₚ L' → tracked h L → tracked h L'.
Proof. intros HL Ht t pt Hpt Hs. rewrite <-HL. by eapply Ht. Qed.

Lemma tracked_done h (L L' : list Task) t f o :
  L ≡ₚ t :: L' → tracked h L →
  tracked (<[t := mkTask f (Some o)]> h) L'.
Proof.
  intros HL Ht t' pt' Hpt' Hs. destruct (decide (t' = t)) as [->|Hne].
  - rewrite lookup_insert_eq in Hpt'. by injection Hpt' as <-.
  - rewrite lookup_insert_ne in Hpt' by done.
    pose proof (Ht _ _ Hpt' Hs) as Hin. rewrite HL in Hin.
    by apply elem_of_cons in Hin as [?|?].
Qed.

Lemma tracked_new h (L L' : list Task) t pt :
  L' ≡ₚ t :: L → tracked h L → tracked (<[t := pt]> h) L'.
Proof.
  intros HL Ht t' pt' Hpt' Hs. rewrite HL. destruct (decide (t' = t)) as [->|Hne].
  - by left.
  - rewrite lookup_insert_ne in Hpt' by done. right. by eapply Ht.
Qed.

Lemma tracked_worker_move h l l' ws w i pc pc' :
  tracked h (in_flight l ws w) → ws !! i = Some pc →
  worker_task pc ++ l ≡ₚ worker_task pc' ++ l' →
  tracked h (in_flight l' (<[i := pc']> ws) w).
Proof.
  intros Ht Hi Hperm.
  destruct (in_flight_worker l ws w i pc Hi) as (others & Hp & Hp').
  eapply tracked_perm; [|exact Ht]. by rewrite Hp, Hp', Hperm.
Qed.

Lemma tracked_worker_run h l ws w i t f o :
  tracked h (in_flight l ws w) → ws !! i = Some (WRun t) →
  tracked (<[t := mkTask f (Some o)]> h) (in_flight l (<[i := WRan]> ws) w).
Proof.
  intros Ht Hi.
  destruct (in_flight_worker l ws w i _ Hi) as (others & Hp & Hp').
  eapply tracked_done; [|exact Ht]. rewrite Hp, (Hp' WRan l). done.
Qed.

Lemma tracked_wait_move h l l' ws w w' :
  tracked h (in_flight l ws w) →
  wait_task w ++ l ≡ₚ wait_task w' ++ l' →
  tracked h (in_flight l' ws w').
Proof.
  intros Ht Hperm. eapply tracked_perm; [|exact Ht].
  by rewrite !in_flight_wait, Hperm.
Qed.

Lemma tracked_wait_run h l ws t f o :
  tracked h (in_flight l ws (TRun t)) →
  tracked (<[t := mkTask f (Some o)]> h) (in_flight l ws TRan).
Proof.
  intros Ht. eapply tracked_done; [|exact Ht].
  by rewrite !in_flight_wait.
Qed.

Lemma tracked_submit h l ws w t pt :
  tracked h (in_flight l ws w) →
  tracked (<[t := pt]> h) (in_flight (l ++ [t]) ws w).
Proof.
  intros Ht. eapply tracked_new; [|exact Ht].
  unfold in_flight. rewrite <-!app_assoc. simpl.
  by rewrite <-Permutation_middle.
Qed.

Lemma worker_step_Tracking prog ws q stop active h c l i pc :
  Queue.wf q l → Invariant prog ws l h c →
  tracked h (in_flight l ws (waiting c)) → ws !! i = Some pc →
  ∃ pc' q' active' h' l',
    worker_step {| pool := mkPool ws q stop active; heap := h |} pc =
      Ok (pc', {| pool := mkPool ws q' stop active'; heap := h' |}) ∧
    Queue.wf q' l' ∧ Invariant prog (<[i := pc']> ws) l' h' c ∧
    tracked h' (in_flight l' (<[i := pc']> ws) (waiting c)) ∧
    (l = [] → l' = []) ∧
    (pc = WExit → pc' = WExit) ∧
    (pc' = WExit → pc = WExit ∨ stop = true).
Proof.
  intros Hwf HI Ht Hi. destruct pc as [| |t|t| | | |]; simpl.
  - exists (if stop then WExit else WDequeue), q, active, h, l.
    split_and!; [done|done| | |done|done|by destruct stop; auto].
    + eapply worker_move; [done|done|by destruct stop|done|by destruct stop].
    + eapply tracked_worker_move; [done|done|by destruct stop].
  - destruct (QueueFacts.dequeue_spec _ _ Hwf) as (q' & -> & Hwf'). simpl.
    destruct l as [|t l]; simpl in *.
    + exists WWait, q', active, h, [].
      split_and!; [done|done| | |done|done|done].
      * by eapply worker_move.
      * by eapply tracked_worker_move.
    + exists (WGot t), q', active, h, l.
      split_and!; [done|done| | |done|done|done].
      * eapply worker_move; [done|done|done|simpl; lia|done].
      * by eapply tracked_worker_move.
  - exists (WRun t), q, (wrap (active + 1)), h, l.
    split_and!; [done|done| | |done|done|done].
    + by eapply worker_move.
    + by eapply tracked_worker_move.
  - destruct (worker_run _ _ _ _ _ _ _ HI Hi) as (pt & Hpt & Hs & HI').
    destruct (invoke_pending h t) as (pt' & Hpt' & _ & ->); [by exists pt|].
    rewrite Hpt in Hpt'. injection Hpt' as <-. simpl.
    eexists WRan, q, active, _, l.
    split_and!; [done|done|exact HI'| |done|done|done].
    by eapply tracked_worker_run.
  - exists WLoop, q, (wrap (active - 1)), h, l.
    split_and!; [done|done| | |done|done|done].
    + by eapply worker_move.
    + by eapply tracked_worker_move.
  - exists WLoop, q, active, h, l.
    split_and!; [done|done| | |done|done|done].
    + by eapply worker_move.
    + by eapply tracked_worker_move.
  - exists WExit, q, active, h, l.
    split_and!; [done|done| | |done|done|by left].
    + by eapply worker_move.
    + by eapply tracked_worker_move.
  - destruct (inv_alive _ _ _ _ _ HI) as [Hw _].
    rewrite Forall_forall in Hw. destruct (Hw WDead); [|done].
    by eapply list_elem_of_lookup_2.
Qed.

(** One action of [wait], whoever calls it: the client [c] is in [wait]
    at [waiting c]. *)
Lemma wait_step_Tracking prog ws q stop active h c l :
  Queue.wf q l → Invariant prog ws l h c →
  tracked h (in_flight l ws (waiting c)) →
  ∃ w' q' active' h' l',
    wait_step {| pool := mkPool ws q stop active; heap := h |} (waiting c) =
      Ok (w', {| pool := mkPool ws q' stop active'; heap := h' |}) ∧
    Queue.wf q' l' ∧
    Invariant prog ws l' h'
      {| program := program c; futures := futures c; waiting := w'; log := log c |} ∧
    tracked h' (in_flight l' ws w') ∧
    (l = [] → l' = []) ∧
    (waiting c ≠ TReturn → w' = TReturn → l' = [] ∧ h' = h) ∧
    wait_next active l (waiting c) = (w', l', active').
Proof.
  intros Hwf HI Ht.
  destruct (waiting c) as [| | |t|t| | |] eqn:Hw; simpl.
  - eexists _, q, active, h, l. split_and!; [done|done| | |done| |done].
    + eapply client_move; [done|by rewrite Hw; destruct (decide _)|done
                          |by destruct (decide _)|done|by exists []|by left].
    + eapply tracked_wait_move; [done|]. by destruct (decide _).
    + by destruct (decide _).
  - rewrite (QueueFacts.empty_spec _ _ Hwf). simpl. destruct l as [|t l]; simpl.
    + eexists _, q, active, h, []. split_and!; [done|done| | |done|done|done].
      * eapply client_move; [done|by rewrite Hw|done|done|done|by exists []|by left].
      * by eapply tracked_wait_move.
    + eexists _, q, active, h, (t :: l). split_and!; [done|done| | |done|done|done].
      * eapply client_move; [done|by rewrite Hw|done|done|done|by exists []|by left].
      * by eapply tracked_wait_move.
  - destruct (QueueFacts.dequeue_spec _ _ Hwf) as (q' & -> & Hwf'). simpl.
    destruct l as [|t l]; simpl in *.
    + eexists _, q', active, h, []. split_and!; [done|done| | |done|done|done].
      * eapply client_move; [done|by rewrite Hw|done|done|done|by exists []|by left].
      * by eapply tracked_wait_move.
    + eexists _, q', active, h, l. split_and!; [done|done| | |done|done|done].
      * eapply client_move; [done|by rewrite Hw|simpl; lia|done|done
                            |by exists []|by left].
      * by eapply tracked_wait_move.
  - eexists _, q, _, h, l. split_and!; [done|done| | |done|done|done].
    + eapply client_move; [done|by rewrite Hw|done|done|done|by exists []|by left].
    + by eapply tracked_wait_move.
  - destruct (client_run _ _ _ _ _ _ HI Hw) as (pt & Hpt & Hs & HI').
    destruct (invoke_pending h t) as (pt' & Hpt' & _ & ->); [by exists pt|].
    rewrite Hpt in Hpt'. injection Hpt' as <-. simpl.
    eexists _, q, active, _, l. split_and!; [done|done|exact HI'| |done|done|done].
    by eapply tracked_wait_run.
  - eexists _, q, _, h, l. split_and!; [done|done| | |done|done|done].
    + eapply client_move; [done|by rewrite Hw|done|done|done|by exists []|by left].
    + by eapply tracked_wait_move.
  - eexists _, q, active, h, l. split_and!; [done|done| | |done|done|done].
    + eapply client_move; [done|by rewrite Hw|done|done|done|by exists []|by left].
    + by eapply tracked_wait_move.
  - by destruct (inv_alive _ _ _ _ _ HI) as [_ ?].
Qed.

Lemma client_step_Tracking prog fuel ws q stop active h c l :
  length prog < fuel →
  Queue.wf q l → Invariant prog ws l h c →
  tracked h (in_flight l ws (waiting c)) →
  ∃ c' q' active' h' l',
    client_step fuel {| pool := mkPool ws q stop active; heap := h |} c =
      Ok (c', {| pool := mkPool ws q' stop active'; heap := h' |}) ∧
    Queue.wf q' l' ∧ Invariant prog ws l' h' c' ∧
    tracked h' (in_flight l' ws (waiting c')).
Proof.
  intros Hfuel Hwf HI Ht. unfold client_step.
  destruct (program c) as [|[f| |i| |] p] eqn:Hp.
  - exists c, q, active, h, l. by split_and!.
  - unfold submit. simpl.
    destruct (QueueFacts.enqueue_spec _ _ (fresh (dom h)) Hwf) as (q' & -> & Hwf').
    simpl. eexists _, q', active, _, _. split_and!; [done|exact Hwf'| |].
    + by eapply client_submit.
    + simpl. by apply tracked_submit.
  - destruct (wait_step_Tracking prog ws q stop active h c l Hwf HI Ht)
      as (w' & q' & active' & h' & l' & -> & Hwf' & HI' & Ht' & _).
    simpl. rewrite Hp in HI'.
    assert (Hret : w' = TReturn ∨ w' ≠ TReturn) by (destruct w'; auto).
    destruct Hret as [->|Hne].
    + eexists _, q', active', h', l'. split_and!; [done|done| |].
      * eapply client_move; [exact HI'|done|done|done|done| |]; simpl.
        { by exists [Wait]. }
        intros i o [Hin|Hin%list_elem_of_singleton]%elem_of_app; [by left|done].
      * simpl. by eapply tracked_wait_move.
    + eexists _, q', active', h', l'.
      split_and!; [by destruct w'|done|by destruct w'|by destruct w'].
  - destruct (futures c !! i) as [future|] eqn:Hfut.
    + unfold future_get. simpl. destruct (h !! future) as [pt|] eqn:Hpt.
      * destruct (shared_state pt) as [o|] eqn:Hst.
        -- eexists _, q, active, h, l. split_and!; [done|done| |done].
           eapply client_move; [done|done|done|apply (inv_alive _ _ _ _ _ HI)|done| |];
             simpl.
           { exists [Get i]. by rewrite Hp. }
           intros i' o' [Hin|Hin%list_elem_of_singleton]%elem_of_app; [by left|].
           injection Hin as -> ->. right. by exists future, pt.
        -- exists c, q, active, h, l. by split_and!.
      * exists c, q, active, h, l. by split_and!.
    + eexists _, q, active, h, l. split_and!; [done|done| |done].
      eapply client_move; [done|done|done|apply (inv_alive _ _ _ _ _ HI)|done| |];
        simpl; [|by left].
      exists [Get i]. by rewrite Hp.
  - eexists _, q, active, h, l. split_and!; [done|done| |done].
    eapply client_move; [done|done|done|apply (inv_alive _ _ _ _ _ HI)|done| |];
      simpl.
    { exists [ActiveTasks]. by rewrite Hp. }
    intros i o [Hin|Hin%list_elem_of_singleton]%elem_of_app; [by left|done].
  - unfold queued_tasks. simpl.
    rewrite (QueueFacts.approximate_size_spec fuel _ _ Hwf).
    2:{ pose proof (inv_length _ _ _ _ _ HI) as Hl.
        destruct (inv_program _ _ _ _ _ HI) as (done & Hd & HF).
        apply Forall2_length in HF. pose proof (submitted_length done).
        rewrite Hd, length_app in Hfuel. lia. }
    simpl. eexists _, q, active, h, l. split_and!; [done|done| |done].
    eapply client_move; [done|done|done|apply (inv_alive _ _ _ _ _ HI)|done| |];
      simpl.
    { exists [QueuedTasks]. by rewrite Hp. }
    intros i o [Hin|Hin%list_elem_of_singleton]%elem_of_app; [by left|done].
Qed.

Lemma step_Tracking prog fuel tid sys :
  length prog < fuel → Tracking prog sys →
  ∃ sys', step fuel tid sys = Ok sys' ∧ Tracking prog sys'.
Proof.
  intros Hfuel (l & Hwf & HI & Ht).
  destruct sys as [[[ws q stop active] h] c]. simpl in *.
  destruct tid as [|i]; simpl.
  - destruct (client_step_Tracking prog fuel ws q stop active h c l Hfuel Hwf HI Ht)
      as (c' & q' & active' & h' & l' & -> & Hwf' & HI' & Ht').
    simpl. eexists. split; [done|]. by exists l'.
  - destruct (ws !! i) as [pc|] eqn:Hi.
    + destruct (worker_step_Tracking prog ws q stop active h c l i pc Hwf HI Ht Hi)
        as (pc' & q' & active' & h' & l' & -> & Hwf' & HI' & Ht' & _).
      simpl. eexists. split; [done|]. by exists l'.
    + eexists. split; [done|]. by exists l.
Qed.

Lemma start_Tracking n (prog : list (cmd R E)) : Tracking prog (start n prog).
Proof.
  destruct (start_Inv n prog) as (l & Hwf & HI).
  exists l. split_and!; [done|done|].
  intros t pt Hpt. simpl in Hpt. by rewrite lookup_empty in Hpt.
Qed.

Lemma run_Tracking prog fuel schedule :
  length prog < fuel →
  ∀ sys, Tracking prog sys →
    ∃ sys', run fuel schedule sys = Ok sys' ∧ Tracking prog sys'.
Proof.
  intros Hfuel. induction schedule as [|tid schedule IH]; intros sys HI.
  - by exists sys.
  - destruct (step_Tracking prog fuel tid sys Hfuel HI) as (sys1 & Hs & HI1).
    destruct (IH sys1 HI1) as (sys2 & Hr & HI2).
    exists sys2. simpl. rewrite Hs. by split.
Qed.

(** What the invariants say about a future. *)
Lemma Tracking_future prog ws l h c i future :
  Invariant prog ws l h c → tracked h (in_flight l ws (waiting c)) →
  futures c !! i = Some future →
  ∃ f, submitted prog !! i = Some f ∧
       ((∃ pt, h !! future = Some pt ∧ shared_state pt = Some (f tt)) ∨
        ((∃ pt, h !! future = Some pt ∧ shared_state pt = None) ∧
         future ∈ in_flight l ws (waiting c))).
Proof.
  intros HI Ht Hfut.
  destruct (inv_program _ _ _ _ _ HI) as (done & Hd & HF).
  destruct (Forall2_lookup_r _ _ _ _ _ HF Hfut) as (f & Hf & pt & Hpt & Hcall).
  exists f. split.
  { rewrite Hd, submitted_app. by apply lookup_app_l_Some. }
  destruct (shared_state pt) as [o|] eqn:Hs.
  - left. exists pt. split; [done|].
    rewrite Hs. f_equal. rewrite <-Hcall.
    apply (inv_faithful _ _ _ _ _ HI _ _ _ Hpt Hs).
  - right. split; [by exists pt|]. by eapply Ht.
Qed.

End ThreadPoolTrackFacts.
End ThreadPoolTrackFacts.

(** ** The destructor *)

Module ThreadPoolCloseFacts.
Import ThreadPool ThreadPoolFacts ThreadPoolTrackFacts.
Section ThreadPoolCloseFacts.
Context {R E : Type}.
Implicit Types (ws : list worker_pc) (w : wait_pc) (sys : system R E)
  (h : gmap loc (packaged_task R E)).

(** The client is inside [wait] only while its next call is [Wait]. *)
Lemma client_step_resting fuel (s s' : state R E) (c c' : client R E) :
  client_step fuel s c = Ok (c', s') →
  waiting c = TActive ∨ (∃ p, program c = Wait :: p) →
  waiting c' = TActive ∨ (∃ p, program c' = Wait :: p).
Proof.
  unfold client_step. intros Hstep Hrest.
  destruct (program c) as [|[f| |j| |] p] eqn:Hp.
  - injection Hstep as <- <-. rewrite Hp. destruct Hrest as [?|[? ?]]; [by left|done].
  - apply bind_Ok in Hstep as ([future s1] & _ & Heq). injection Heq as <- <-.
    simpl. destruct Hrest as [?|[? ?]]; [by left|done].
  - apply bind_Ok in Hstep as ([w' s1] & _ & Heq).
    destruct w'; injection Heq as <- <-; simpl; try (right; by eexists). by left.
  - destruct (futures c !! j) as [future|].
    + destruct (future_get s future); injection Hstep as <- <-; simpl; rewrite ?Hp;
        (destruct Hrest as [?|[? ?]]; [by left|done]).
    + injection Hstep as <- <-. simpl. destruct Hrest as [?|[? ?]]; [by left|done].
  - injection Hstep as <- <-. simpl. destruct Hrest as [?|[? ?]]; [by left|done].
  - apply bind_Ok in Hstep as (n & _ & Heq). injection Heq as <- <-.
    simpl. destruct Hrest as [?|[? ?]]; [by left|done].
Qed.

Lemma run_resting fuel schedule : ∀ sys sys',
  run fuel schedule sys = Ok sys' →
  waiting (owner sys) = TActive ∨ (∃ p, program (owner sys) = Wait :: p) →
  waiting (owner sys') = TActive ∨ (∃ p, program (owner sys') = Wait :: p).
Proof.
  induction schedule as [|tid schedule IH]; intros sys sys'; simpl.
  - by intros [= <-].
  - intros (sys1 & Hs & Hr)%bind_Ok Hrest. apply (IH _ _ Hr).
    destruct tid as [|i]; simpl in Hs.
    + apply bind_Ok in Hs as ([c1 s1] & Hc & Heq). injection Heq as <-. simpl.
      by eapply client_step_resting.
    + destruct (workers_ (pool (shared sys)) !! i); [|by injection Hs as <-].
      apply bind_Ok in Hs as ([pc1 s1] & _ & Heq). by injection Heq as <-.
Qed.

Lemma close_Closing prog sys :
  Tracking prog sys → program (owner sys) = [] → waiting (owner sys) = TActive →
  Closing prog (futures (owner sys)) (close sys).
Proof.
  intros (l & Hwf & HI & Ht) Hp Hw. split; simpl; [|done|done].
  exists l, (log (owner sys)). split_and!; [done| |by rewrite <-Hw|done].
  destruct (owner sys) as [p futs w lg]. simpl in *. by subst.
Qed.

Lemma close_step_Closing prog futs tid (c : closing R E) :
  Closing prog futs c →
  ∃ c', close_step tid c = Ok c' ∧ Closing prog futs c'.
Proof.
  intros [(l & lg & Hwf & HI & Ht & Hl) Hnr Hj].
  destruct c as [[[ws q stop active] h] pc]. simpl in *.
  destruct tid as [|i]; simpl.
  - destruct pc as [w| | |i| |]; simpl in *.
    + destruct (wait_step_Tracking prog ws q stop active h _ l Hwf HI Ht)
        as (w' & q' & active' & h' & l' & Hstep & Hwf' & HI' & Ht' & _ & Hret & _).
      simpl in Hstep, HI', Hret. rewrite Hstep. simpl.
      assert (Hw : w ≠ TReturn) by congruence.
      destruct (inv_alive _ _ _ _ _ HI') as [_ Halive]. simpl in Halive.
      eexists. split; [done|].
      destruct w' as [| | |t|t| | |]; try done;
        try (split; simpl; [by exists l', lg|done|done]).
      destruct (Hret Hw eq_refl) as [-> ->].
      split; simpl; [|done|done]. exists [], lg. split_and!; [done| | |done].
      * eapply client_move; [exact HI'|done|done|done|done|by exists []|by left].
      * by eapply tracked_wait_move.
    + eexists. split; [done|]. split; simpl; [|done|done]. by exists l, lg.
    + eexists. split; [done|]. split; simpl; [|done|]. by exists l, lg.
      intros j Hjlt. lia.
    + destruct (ws !! i) as [pci|] eqn:Hi.
      * destruct pci; (eexists; split; [done|]); split; simpl; try done;
          try (by exists l, lg).
        intros j Hjlt. destruct (decide (j = i)) as [->|Hne]; [done|].
        apply Hj. lia.
      * eexists. split; [done|]. split; simpl; [by exists l, lg|done|].
        apply Forall_forall. intros pcj Hin.
        apply list_elem_of_lookup in Hin as [j Hjl].
        assert (j < i).
        { apply lookup_lt_Some in Hjl. apply lookup_ge_None in Hi. lia. }
        rewrite (Hj j) in Hjl by done. by injection Hjl.
    + eexists. split; [done|]. split; simpl; [|done|done]. by exists l, lg.
    + by destruct (inv_alive _ _ _ _ _ HI) as [_ ?].
  - destruct (ws !! i) as [pci|] eqn:Hi.
    + destruct (worker_step_Tracking prog ws q stop active h _ l i pci Hwf HI Ht Hi)
        as (pc' & q' & active' & h' & l' & -> & Hwf' & HI' & Ht' & Hnil & Hexit & _).
      simpl. eexists. split; [done|]. split; simpl.
      * exists l', lg. split_and!; [done|done|done|].
        destruct pc; try done; by apply Hnil.
      * done.
      * destruct pc as [w| | |k| |]; try done.
        -- intros j Hjlt. destruct (decide (j = i)) as [->|Hne].
           ++ rewrite list_lookup_insert_eq by (by eapply lookup_lt_Some).
              f_equal. apply Hexit. specialize (Hj i Hjlt). congruence.
           ++ rewrite list_lookup_insert_ne by done. by apply Hj.
        -- apply Forall_insert; [done|]. apply Hexit.
           rewrite Forall_forall in Hj. apply Hj. by eapply list_elem_of_lookup_2.
    + eexists. split; [done|]. split; simpl; [by exists l, lg|done|done].
Qed.

Lemma close_run_Closing prog futs schedule : ∀ (c : closing R E),
  Closing prog futs c →
  ∃ c', close_run schedule c = Ok c' ∧ Closing prog futs c'.
Proof.
  induction schedule as [|tid schedule IH]; intros c HC.
  - by exists c.
  - destruct (close_step_Closing prog futs tid c HC) as (c1 & Hs & HC1).
    destruct (IH c1 HC1) as (c2 & Hr & HC2).
    exists c2. simpl. rewrite Hs. by split.
Qed.

Lemma exited_hold_nothing ws :
  Forall (λ pc, pc = WExit) ws → concat (worker_task <$> ws) = [].
Proof. induction 1 as [|pc ws -> _ IH]; simpl; [done|]. exact IH. Qed.

(** When the workers are joined every task has run. *)
Lemma Closing_done prog futs (c : closing R E) :
  Closing prog futs c →
  closing_pc c ≠ DDead ∧
  Forall (λ pc, pc ≠ WDead) (workers_ (pool (closing_state c))) ∧
  (closing_pc c = DDone →
   Forall (λ pc, pc = WExit) (workers_ (pool (closing_state c))) ∧
   Forall2 (λ f future, future_get (closing_state c) future = Some (f tt))
     (submitted prog) futs).
Proof.
  intros [(l & lg & Hwf & HI & Ht & Hl) Hnr Hj]. split_and!.
  - intros Hpc. rewrite Hpc in HI.
    by destruct (inv_alive _ _ _ _ _ HI) as [_ ?].
  - apply (inv_alive _ _ _ _ _ HI).
  - intros Hpc. rewrite Hpc in *. simpl in *. subst l. split; [done|].
    destruct (inv_program _ _ _ _ _ HI) as (done & Hd & HF). simpl in Hd, HF.
    rewrite app_nil_r in Hd. subst done.
    assert (Hnone : in_flight [] (workers_ (pool (closing_state c))) TActive = []).
    { unfold in_flight. simpl. rewrite app_nil_r. by apply exited_hold_nothing. }
    rewrite Hnone in Ht.
    eapply Forall2_impl; [exact HF|]. intros f future (pt & Hpt & Hcall).
    unfold future_get. rewrite Hpt.
    destruct (shared_state pt) as [o|] eqn:Hs.
    + f_equal. rewrite <-Hcall. apply (inv_faithful _ _ _ _ _ HI _ _ _ Hpt Hs).
    + by apply (Ht _ _ Hpt), elem_of_nil in Hs.
Qed.

End ThreadPoolCloseFacts.
End ThreadPoolCloseFacts.

(** ** [wait] while no worker moves *)

Module ThreadPoolDrainFacts.
Import ThreadPool ThreadPoolFacts ThreadPoolTrackFacts.
Section ThreadPoolDrainFacts.
Context {R E : Type}.
Implicit Types (ws : list worker_pc) (w : wait_pc) (sys : system R E)
  (h : gmap loc (packaged_task R E)) (p prog : list (cmd R E)).

Lemma run_cons fuel tid schedule sys :
  run fuel (tid :: schedule) sys = step fuel tid sys ≫= run fuel schedule.
Proof. reflexivity. Qed.

Lemma step_client fuel sys :
  step fuel 0 sys =
  '(c, s) ← client_step fuel (shared sys) (owner sys);
  Ok {| shared := s; owner := c |}.
Proof. reflexivity. Qed.

Lemma run_schedule_app fuel s1 s2 : ∀ sys,
  run fuel (s1 ++ s2) sys = run fuel s1 sys ≫= run fuel s2.
Proof.
  induction s1 as [|tid s1 IH]; intros sys; simpl; [done|].
  destruct (step fuel tid sys) as [sys1| |]; simpl; [apply IH|done|done].
Qed.

Lemma client_wait_exact prog fuel ws q stop active h l p futs w lg :
  Queue.wf q l →
  Invariant prog ws l h (mkClient (Wait :: p) futs w lg) →
  tracked h (in_flight l ws w) →
  ∃ q' h',
    client_step fuel {| pool := mkPool ws q stop active; heap := h |}
        (mkClient (Wait :: p) futs w lg) =
      Ok (after_wait p futs lg (wait_next active l w).1.1,
          {| pool := mkPool ws q' stop (wait_next active l w).2; heap := h' |}) ∧
    Queue.wf q' (wait_next active l w).1.2 ∧
    Invariant prog ws (wait_next active l w).1.2 h'
      (after_wait p futs lg (wait_next active l w).1.1) ∧
    tracked h' (in_flight (wait_next active l w).1.2 ws
                  (waiting (after_wait p futs lg (wait_next active l w).1.1))).
Proof.
  intros Hwf HI Ht.
  destruct (wait_step_Tracking prog ws q stop active h _ l Hwf HI Ht)
    as (w' & q' & active' & h' & l' & Hstep & Hwf' & HI' & Ht' & _ & _ & Hnext).
  simpl in Hstep, HI', Hnext. rewrite Hnext. exists q', h'. simpl.
  unfold client_step. simpl. rewrite Hstep. simpl.
  assert (Hret : w' = TReturn ∨ w' ≠ TReturn) by (destruct w'; auto).
  destruct Hret as [->|Hne].
  - simpl. split_and!; [done|done| |].
    + eapply client_move; [exact HI'|done|done|done|done| |]; simpl.
      { by exists [Wait]. }
      intros i o [Hin|Hin%list_elem_of_singleton]%elem_of_app; [by left|done].
    + by eapply tracked_wait_move.
  - by destruct w'.
Qed.

Lemma replicate_5n1 (n : nat) :
  replicate (5 * S n + 1) 0 = 0 :: 0 :: 0 :: 0 :: 0 :: replicate (5 * n + 1) 0.
Proof. by replace (5 * S n + 1) with (S (S (S (S (S (5 * n + 1)))))) by lia. Qed.

(** The drain loop of [wait] while no other thread moves: five actions
    per queued task and one to find the queue empty. *)
Lemma wait_alone prog fuel ws stop p futs lg : ∀ l q h,
  Queue.wf q l →
  Invariant prog ws l h (mkClient (Wait :: p) futs TEmpty lg) →
  tracked h (in_flight l ws TEmpty) →
  ∃ q' h',
    run fuel (replicate (5 * length l + 1) 0)
      {| shared := {| pool := mkPool ws q stop 0; heap := h |};
         owner := mkClient (Wait :: p) futs TEmpty lg |} =
      Ok {| shared := {| pool := mkPool ws q' stop 0; heap := h' |};
            owner := mkClient p futs TActive (lg ++ [OWait]) |} ∧
    Queue.wf q' [] ∧
    Invariant prog ws [] h' (mkClient p futs TActive (lg ++ [OWait])) ∧
    tracked h' (in_flight [] ws TActive).
Proof.
  induction l as [|t l IH]; intros q h Hwf HI Ht.
  - destruct (client_wait_exact prog fuel ws q stop 0 h [] p futs TEmpty lg Hwf HI Ht)
      as (q1 & h1 & Hs1 & Hwf1 & HI1 & Ht1).
    cbn [wait_next fst snd after_wait tail waiting] in Hs1, Hwf1, HI1, Ht1.
    exists q1, h1. split; [|done].
    simpl length. simpl replicate. rewrite run_cons.
    rewrite step_client. cbn [shared owner]. rewrite Hs1. reflexivity.
  - destruct (client_wait_exact prog fuel ws q stop 0 h _ p futs TEmpty lg Hwf HI Ht)
      as (q1 & h1 & Hs1 & Hwf1 & HI1 & Ht1).
    cbn [wait_next fst snd after_wait tail waiting] in Hs1, Hwf1, HI1, Ht1.
    destruct (client_wait_exact prog fuel ws q1 stop 0 h1 _ p futs _ lg Hwf1 HI1 Ht1)
      as (q2 & h2 & Hs2 & Hwf2 & HI2 & Ht2).
    cbn [wait_next fst snd after_wait tail waiting] in Hs2, Hwf2, HI2, Ht2.
    destruct (client_wait_exact prog fuel ws q2 stop 0 h2 _ p futs _ lg Hwf2 HI2 Ht2)
      as (q3 & h3 & Hs3 & Hwf3 & HI3 & Ht3).
    cbn [wait_next fst snd after_wait tail waiting] in Hs3, Hwf3, HI3, Ht3.
    destruct (client_wait_exact prog fuel ws q3 stop (wrap (0 + 1)) h3 _ p futs _ lg Hwf3 HI3 Ht3)
      as (q4 & h4 & Hs4 & Hwf4 & HI4 & Ht4).
    cbn [wait_next fst snd after_wait tail waiting] in Hs4, Hwf4, HI4, Ht4.
    destruct (client_wait_exact prog fuel ws q4 stop (wrap (0 + 1)) h4 _ p futs _ lg Hwf4 HI4 Ht4)
      as (q5 & h5 & Hs5 & Hwf5 & HI5 & Ht5).
    cbn [wait_next fst snd after_wait tail waiting] in Hs5, Hwf5, HI5, Ht5.
    change (wrap (wrap (0 + 1) - 1)) with 0%Z in Hs5.
    destruct (IH q5 h5 Hwf5 HI5 Ht5) as (q' & h' & Hrun & Hwf' & HI' & Ht').
    exists q', h'. split; [|done].
    simpl length. rewrite replicate_5n1, !run_cons.
    rewrite ?run_cons, step_client. cbn [shared owner]. rewrite Hs1. cbn [mbind result_bind].
    rewrite ?run_cons, step_client. cbn [shared owner]. rewrite Hs2. cbn [mbind result_bind].
    rewrite ?run_cons, step_client. cbn [shared owner]. rewrite Hs3. cbn [mbind result_bind].
    rewrite ?run_cons, step_client. cbn [shared owner]. rewrite Hs4. cbn [mbind result_bind].
    rewrite ?run_cons, step_client. cbn [shared owner]. rewrite Hs5. cbn [mbind result_bind].
    exact Hrun.
Qed.

Lemma submits_alone prog fuel ws stop active w p lg : ∀ fs futs l q h,
  Queue.wf q l →
  Invariant prog ws l h (mkClient ((Submit <$> fs) ++ p) futs w lg) →
  tracked h (in_flight l ws w) →
  ∃ q' h' l' futs',
    run fuel (replicate (length fs) 0)
      {| shared := {| pool := mkPool ws q stop active; heap := h |};
         owner := mkClient ((Submit <$> fs) ++ p) futs w lg |} =
      Ok {| shared := {| pool := mkPool ws q' stop active; heap := h' |};
            owner := mkClient p futs' w lg |} ∧
    Queue.wf q' l' ∧ length l' = length l + length fs ∧
    Invariant prog ws l' h' (mkClient p futs' w lg) ∧
    tracked h' (in_flight l' ws w).
Proof.
  induction fs as [|f fs IH]; intros futs l q h Hwf HI Ht.
  - exists q, h, l, futs. simpl. split_and!; [done|done|lia|done|done].
  - destruct (QueueFacts.enqueue_spec _ _ (fresh (dom h)) Hwf) as (q1 & Hq1 & Hwf1).
    destruct (IH (futs ++ [fresh (dom h)]) (l ++ [fresh (dom h)]) q1
                (<[fresh (dom h) := mkTask f None]> h) Hwf1)
      as (q' & h' & l' & futs' & Hrun & Hwf' & Hlen & HI' & Ht').
    { by eapply (client_submit _ _ _ _ _ f _ HI). }
    { by apply tracked_submit. }
    exists q', h', l', futs'. split_and!; [|done| |done|done].
    + simpl replicate. rewrite run_cons, step_client. cbn [shared owner].
      unfold client_step. simpl. unfold submit. simpl. rewrite Hq1. simpl.
      exact Hrun.
    + rewrite Hlen, length_app. simpl. lia.
Qed.

Lemma submitted_submits (fs : list (unit → outcome R E)) p :
  submitted ((Submit <$> fs) ++ p) = fs ++ submitted p.
Proof. induction fs as [|f fs IH]; simpl; [done|]. f_equal. exact IH. Qed.

Lemma idle_hold_nothing k :
  concat (worker_task <$> replicate k (WLoop : worker_pc)) = [].
Proof. induction k; simpl; [done|]. done. Qed.

(** The calls [submit(f1) ... submit(fn); wait(); active_tasks();
    queued_tasks()] while no worker moves. *)
Lemma wait_idle_workers n fuel (fs : list (unit → outcome R E)) :
  0 < fuel →
  ∃ sys,
    run fuel (replicate (6 * length fs + 4) 0)
      (start n ((Submit <$> fs) ++ [Wait; ActiveTasks; QueuedTasks])) = Ok sys ∧
    program (owner sys) = [] ∧
    log (owner sys) = [OWait; OActive 0; OQueued 0] ∧
    workers_ (pool (shared sys)) = workers_ (new_pool n) ∧
    Forall2 (λ f future, future_get (shared sys) future = Some (f tt))
      fs (futures (owner sys)).
Proof.
  intros Hfuel.
  set (prog := (Submit <$> fs) ++ [Wait; ActiveTasks; QueuedTasks]).
  destruct (start_Tracking n prog) as (l0 & Hwf0 & HI0 & Ht0).
  assert (l0 = []) as ->.
  { pose proof (QueueFacts.empty_spec _ _ Hwf0) as He.
    pose proof (QueueFacts.empty_spec _ _ (QueueFacts.new_queue_wf (T := Task))) as He'.
    simpl in He. rewrite He' in He. by destruct l0. }
  set (ws := workers_ (new_pool n)) in *.
  destruct (submits_alone prog fuel ws false 0 TActive [Wait; ActiveTasks; QueuedTasks] []
              fs [] [] _ _ Hwf0 HI0 Ht0)
    as (q1 & h1 & l1 & futs & Hrun1 & Hwf1 & Hlen1 & HI1 & Ht1).
  simpl in Hlen1.
  destruct (client_wait_exact prog fuel ws q1 false 0 h1 l1 _ futs TActive [] Hwf1 HI1 Ht1)
    as (q2 & h2 & Hs2 & Hwf2 & HI2 & Ht2).
  cbn [wait_next fst snd after_wait tail waiting] in Hs2, Hwf2, HI2, Ht2.
  rewrite decide_False in Hs2, HI2, Ht2 by lia.
  cbn [after_wait waiting] in Hs2, HI2, Ht2.
  destruct (wait_alone prog fuel ws false _ futs [] l1 q2 h2 Hwf2 HI2 Ht2)
    as (q3 & h3 & Hrun3 & Hwf3 & HI3 & Ht3).
  eexists. split_and!.
  - replace (6 * length fs + 4)
      with (length fs + (1 + ((5 * length l1 + 1) + 2))) by lia.
    assert (Hrun1' : run fuel (replicate (length fs) 0) (start n prog) =
      Ok {| shared := {| pool := mkPool ws q1 false 0; heap := h1 |};
            owner := mkClient [Wait; ActiveTasks; QueuedTasks] futs TActive [] |})
      by exact Hrun1.
    fold prog.
    rewrite (replicate_add (length fs) _ 0), run_schedule_app, Hrun1'. cbn [mbind result_bind].
    rewrite (replicate_add 1 _ 0), run_schedule_app. simpl (replicate 1 0).
    rewrite run_cons, step_client. cbn [shared owner].
    rewrite Hs2. cbn [mbind result_bind run].
    rewrite (replicate_add (5 * length l1 + 1) 2 0), run_schedule_app, Hrun3.
    cbn [mbind result_bind]. simpl (replicate 2 0).
    rewrite run_cons, step_client. cbn [shared owner].
    unfold client_step at 1. cbn [program mbind result_bind].
    rewrite run_cons, step_client. cbn [shared owner].
    unfold client_step. cbn [program]. unfold queued_tasks. cbn [pool shared task_queue_].
    rewrite (QueueFacts.approximate_size_spec fuel _ _ Hwf3) by (simpl; lia).
    reflexivity.
  - done.
  - done.
  - done.
  - simpl.
    destruct (inv_program _ _ _ _ _ HI3) as (done & Hd & HF). simpl in Hd, HF.
    assert (done = (Submit <$> fs) ++ [Wait]) as ->.
    { unfold prog in Hd.
      change [Wait; ActiveTasks; QueuedTasks]
        with ([Wait] ++ [ActiveTasks; QueuedTasks] : list (cmd R E)) in Hd.
      rewrite app_assoc in Hd. by apply app_inv_tail in Hd. }
    rewrite submitted_submits in HF. simpl in HF. rewrite app_nil_r in HF.
    assert (Hnone : in_flight [] ws TActive = []).
    { unfold in_flight, ws. simpl. rewrite app_nil_r. apply idle_hold_nothing. }
    rewrite Hnone in Ht3.
    eapply Forall2_impl; [exact HF|]. intros f future (pt & Hpt & Hcall).
    unfold future_get. simpl. rewrite Hpt.
    destruct (shared_state pt) as [o|] eqn:Hs.
    + f_equal. rewrite <-Hcall. apply (inv_faithful _ _ _ _ _ HI3 _ _ _ Hpt Hs).
    + by apply (Ht3 _ _ Hpt), elem_of_nil in Hs.
Qed.

End ThreadPoolDrainFacts.
End ThreadPoolDrainFacts.

(** ** One worker *)

Module ThreadPoolServeFacts.
Import ThreadPool ThreadPoolFacts ThreadPoolTrackFacts.
Section ThreadPoolServeFacts.
Context {R E : Type}.
Implicit Types (ws : list worker_pc) (w : wait_pc) (sys : system R E)
  (h : gmap loc (packaged_task R E)) (c : client R E) (l : list Task)
  (prog : list (cmd R E)).

Lemma answers_app (p1 p2 : list (cmd R E)) : ∀ fs,
  answers fs (p1 ++ p2) = answers fs p1 ++ answers (fs ++ submitted p1) p2.
Proof.
  induction p1 as [|[f| |i| |] p1 IH]; intros fs; simpl.
  - by rewrite app_nil_r.
  - by rewrite IH, <-app_assoc.
  - by rewrite IH.
  - destruct (fs !! i); by rewrite IH.
  - by rewrite IH.
  - by rewrite IH.
Qed.

Lemma agree_refl (o : obs R E) : agree o o.
Proof. by destruct o. Qed.

Lemma Logged_step prog c c' cmd os :
  Logged prog c → program c = cmd :: program c' →
  log c' = log c ++ os →
  (∀ done, prog = done ++ program c →
     Forall2 agree os (answers (submitted done) [cmd])) →
  Logged prog c'.
Proof.
  intros (done & Hd & Hl) Hp Hlog Hos. exists (done ++ [cmd]). split.
  - by rewrite <-app_assoc, Hd, Hp.
  - rewrite Hlog, answers_app. apply Forall2_app; [done|]. simpl. by apply Hos.
Qed.

(** One turn of the single worker. *)
Lemma worker_turn prog fuel sys pc l :
  Serving prog sys pc l →
  ∃ sys' pc' l',
    step fuel 1 sys = Ok sys' ∧ Serving prog sys' pc' l' ∧
    owner sys' = owner sys ∧
    turns_left pc' (length l') = pred (turns_left pc (length l)).
Proof.
  intros [Hws [Hstop Hex] [Hw Htail] Hwf HI Ht Hlog].
  destruct sys as [[[ws q stop active] h] c]. simpl in *. subst ws stop.
  rewrite <-Hw in Ht.
  assert (H0 : [pc] !! 0 = Some pc) by done.
  destruct pc as [| |t|t| | | |]; simpl.
  - eexists _, WDequeue, l. split_and!; [done| |done|simpl; lia].
    split; simpl; try done.
    + by apply (worker_move _ _ _ _ _ 0 _ WDequeue l HI H0).
    + rewrite <-Hw. by apply (tracked_worker_move _ _ l _ _ 0 _ WDequeue Ht H0).
  - destruct (QueueFacts.dequeue_spec _ _ Hwf) as (q' & -> & Hwf'). simpl.
    destruct l as [|t l]; simpl in *.
    + eexists _, WWait, []. split_and!; [done| |done|done].
      split; simpl; try done.
      * by apply (worker_move _ _ _ _ _ 0 _ WWait [] HI H0).
      * rewrite <-Hw. by apply (tracked_worker_move _ _ [] _ _ 0 _ WWait Ht H0).
    + eexists _, (WGot t), l. split_and!; [done| |done|simpl; lia].
      split; simpl; try done.
      * apply (worker_move _ _ _ _ _ 0 _ (WGot t) l HI H0); [done|simpl; lia|done].
      * rewrite <-Hw. by apply (tracked_worker_move _ _ l _ _ 0 _ (WGot t) Ht H0).
  - eexists _, (WRun t), l. split_and!; [done| |done|simpl; lia].
    split; simpl; try done.
    + by apply (worker_move _ _ _ _ _ 0 _ (WRun t) l HI H0).
    + rewrite <-Hw. by apply (tracked_worker_move _ _ l _ _ 0 _ (WRun t) Ht H0).
  - destruct (worker_run _ _ _ _ _ _ _ HI H0) as (pt & Hpt & Hs & HI').
    destruct (invoke_pending h t) as (pt' & Hpt' & _ & ->); [by exists pt|].
    rewrite Hpt in Hpt'. injection Hpt' as <-. simpl.
    eexists _, WRan, l. split_and!; [done| |done|simpl; lia].
    split; simpl; try done.
    rewrite <-Hw. by apply (tracked_worker_run _ _ _ _ 0 _ _ _ Ht H0).
  - eexists _, WLoop, l. split_and!; [done| |done|simpl; lia].
    split; simpl; try done.
    + by apply (worker_move _ _ _ _ _ 0 _ WLoop l HI H0).
    + rewrite <-Hw. by apply (tracked_worker_move _ _ l _ _ 0 _ WLoop Ht H0).
  - eexists _, WLoop, l. split_and!; [done| |done|by destruct l; simpl; lia].
    split; simpl; try done.
    + by apply (worker_move _ _ _ _ _ 0 _ WLoop l HI H0).
    + rewrite <-Hw. by apply (tracked_worker_move _ _ l _ _ 0 _ WLoop Ht H0).
  - done.
  - destruct (inv_alive _ _ _ _ _ HI) as [Hal _].
    by apply Forall_cons in Hal as [? _].
Qed.

Lemma worker_turns prog fuel k : ∀ sys pc l,
  Serving prog sys pc l →
  ∃ sys' pc' l',
    run fuel (replicate k 1) sys = Ok sys' ∧ Serving prog sys' pc' l' ∧
    owner sys' = owner sys ∧
    turns_left pc' (length l') = turns_left pc (length l) - k.
Proof.
  induction k as [|k IH]; intros sys pc l HS.
  - exists sys, pc, l. split_and!; [done|done|done|lia].
  - destruct (worker_turn prog fuel sys pc l HS) as (sys1 & pc1 & l1 & Hs & HS1 & Ho & Ht).
    destruct (IH sys1 pc1 l1 HS1) as (sys2 & pc2 & l2 & Hr & HS2 & Ho2 & Ht2).
    exists sys2, pc2, l2. split_and!; [|done|congruence|lia].
    by rewrite replicate_S, ThreadPoolDrainFacts.run_cons, Hs.
Qed.

(** A worker that has no turns left holds no task and the queue is
    empty. *)
Lemma Serving_rest prog sys pc l :
  Serving prog sys pc l → turns_left pc (length l) = 0 →
  l = [] ∧ worker_task pc = [].
Proof.
  intros [_ [_ Hex] _ _ HI _ _] Hz.
  destruct (inv_alive _ _ _ _ _ HI) as [Hal _].
  apply Forall_cons in Hal as [Hd _].
  destruct pc; simpl in *; try done; destruct l; simpl in *; try done; lia.
Qed.

Lemma Serving_bound prog sys pc l :
  Serving prog sys pc l → turns_left pc (length l) ≤ 5 * length prog + 3.
Proof.
  intros [_ _ _ _ HI _ _].
  pose proof (inv_length _ _ _ _ _ HI) as Hl.
  destruct (inv_program _ _ _ _ _ HI) as (done & Hd & HF).
  apply Forall2_length in HF. pose proof (submitted_length done) as Hs.
  assert (length done ≤ length prog) by (rewrite Hd, length_app; lia).
  assert (length l ≤ length prog) by lia.
  destruct pc; simpl; try lia. destruct (length l); lia.
Qed.

(** Once the single worker is at rest every task has run. *)
Lemma Serving_done prog sys pc :
  Serving prog sys pc [] → worker_task pc = [] →
  ∃ done, prog = done ++ program (owner sys) ∧
    Forall2 (λ f future, future_get (shared sys) future = Some (f tt))
      (submitted done) (futures (owner sys)).
Proof.
  intros [_ _ _ _ HI Ht _] Hpc.
  destruct (inv_program _ _ _ _ _ HI) as (done & Hd & HF).
  exists done. split; [done|].
  eapply Forall2_impl; [exact HF|]. intros f future (pt & Hpt & Hcall).
  unfold future_get. rewrite Hpt.
  destruct (shared_state pt) as [o|] eqn:Hs.
  - f_equal. rewrite <-Hcall. apply (inv_faithful _ _ _ _ _ HI _ _ _ Hpt Hs).
  - specialize (Ht _ _ Hpt Hs). unfold in_flight in Ht. simpl in Ht.
    rewrite Hpc in Ht. by apply elem_of_nil in Ht.
Qed.

(** One turn of the client: its next call returns, unless it awaits a
    handle whose task has not run. *)
Lemma client_turn prog fuel sys pc l :
  Serving prog sys pc l →
  ∃ sys' l',
    step fuel 0 sys = Ok sys' ∧ Serving prog sys' pc l' ∧
    (program (owner sys') = program (owner sys) ∨
     program (owner sys') = tail (program (owner sys))) ∧
    (l = [] → worker_task pc = [] →
     program (owner sys') = tail (program (owner sys))).
Proof.
  intros [Hws [Hstop Hex] [Hw Htail] Hwf HI Ht Hlog].
  destruct sys as [[[ws q stop active] h] [p futs w lg]]. simpl in *. subst ws stop w.
  unfold client_step. simpl.
  destruct p as [|[f| |i| |] p]; simpl in Htail; try done.
  - eexists _, l. split_and!; [done| |by left|done]. by split.
  - unfold submit. simpl.
    destruct (QueueFacts.enqueue_spec _ _ (fresh (dom h)) Hwf) as (q' & -> & Hwf').
    simpl. eexists _, (l ++ [fresh (dom h)]). split_and!; [done| |by right|done].
    split; simpl; try done.
    + exact (client_submit prog [pc] l h (mkClient (Submit f :: p) futs TActive lg)
               f p HI eq_refl).
    + by apply (tracked_submit h l [pc] TActive).
    + eapply Logged_step; [exact Hlog|done|by rewrite app_nil_r|].
      intros done _. simpl. constructor.
  - destruct (inv_program _ _ _ _ _ HI) as (done & Hd & HF). simpl in Hd, HF.
    destruct (futs !! i) as [future|] eqn:Hfut.
    + destruct (Forall2_lookup_r _ _ _ _ _ HF Hfut) as (f & Hfi & pt & Hpt & Hcall).
      unfold future_get. simpl. rewrite Hpt.
      destruct (shared_state pt) as [o|] eqn:Hst.
      * eexists _, l. split_and!; [done| |by right|done].
        split; simpl; try done.
        -- eapply client_move; [exact HI|done|done|done|done| |]; simpl.
           { by exists [Get i]. }
           intros i' o' [Hin|Hin%list_elem_of_singleton]%elem_of_app; [by left|].
           injection Hin as -> ->. right. by exists future, pt.
        -- eapply Logged_step; [exact Hlog|done|done|].
           intros done' Hd'. simpl in Hd'.
           assert (done' = done) as ->.
           { eapply app_inv_tail. by rewrite <-Hd, <-Hd'. }
           simpl. rewrite Hfi. constructor; [|constructor].
           assert (o = f tt) as ->; [|apply agree_refl].
           rewrite <-Hcall. apply (inv_faithful _ _ _ _ _ HI _ _ _ Hpt Hst).
      * eexists _, l. split_and!; [done| |by left|].
        -- by split.
        -- intros -> Hpc. specialize (Ht _ _ Hpt Hst).
           unfold in_flight in Ht. simpl in Ht. rewrite Hpc in Ht.
           by apply elem_of_nil in Ht.
    + eexists _, l. split_and!; [done| |by right|done].
      split; simpl; try done.
      * eapply client_move; [exact HI|done|done|done|done| |]; simpl; [|by left].
        by exists [Get i].
      * eapply Logged_step; [exact Hlog|done|by rewrite app_nil_r|].
        intros done' Hd'. simpl in Hd'.
        assert (done' = done) as ->.
        { eapply app_inv_tail. by rewrite <-Hd, <-Hd'. }
        simpl.
        assert (submitted done !! i = None) as ->; [|constructor].
        apply lookup_ge_None. apply Forall2_length in HF. rewrite HF.
        by apply lookup_ge_None.
  - eexists _, l. split_and!; [done| |by right|done].
    split; simpl; try done.
    + eapply client_move; [exact HI|done|done|done|done| |]; simpl.
      { by exists [ActiveTasks]. }
      intros i o [Hin|Hin%list_elem_of_singleton]%elem_of_app; [by left|done].
    + eapply Logged_step; [exact Hlog|done|done|].
      intros done _. simpl. by repeat constructor.
Qed.

Lemma step_Serving prog fuel tid sys pc l :
  Serving prog sys pc l →
  ∃ sys' pc' l', step fuel tid sys = Ok sys' ∧ Serving prog sys' pc' l'.
Proof.
  intros HS. destruct tid as [|[|i]].
  - destruct (client_turn prog fuel sys pc l HS) as (sys' & l' & Hs & HS' & _).
    by exists sys', pc, l'.
  - destruct (worker_turn prog fuel sys pc l HS) as (sys' & pc' & l' & Hs & HS' & _).
    by exists sys', pc', l'.
  - exists sys, pc, l. split; [|done]. simpl.
    by rewrite (serving_worker _ _ _ _ HS).
Qed.

Lemma run_Serving prog fuel schedule : ∀ sys pc l,
  Serving prog sys pc l →
  ∃ sys' pc' l', run fuel schedule sys = Ok sys' ∧ Serving prog sys' pc' l'.
Proof.
  induction schedule as [|tid schedule IH]; intros sys pc l HS.
  - by exists sys, pc, l.
  - destruct (step_Serving prog fuel tid sys pc l HS) as (sys1 & pc1 & l1 & Hs & HS1).
    destruct (IH sys1 pc1 l1 HS1) as (sys2 & pc2 & l2 & Hr & HS2).
    exists sys2, pc2, l2. simpl. rewrite Hs. by split.
Qed.

Lemma start_Serving n prog :
  single_consumer n prog = true → Serving prog (start n prog) WLoop [].
Proof.
  intros [Hn Htail]%andb_true_iff. apply bool_decide_eq_true in Hn.
  assert (Hws : workers_ (new_pool n) = [WLoop]).
  { simpl. destruct (decide (n = 0)) as [->|Hne]; [done|].
    by replace n with 1 by lia. }
  destruct (start_Tracking n prog) as (l & Hwf & HI & Ht).
  assert (l = []) as ->.
  { pose proof (QueueFacts.empty_spec _ _ Hwf) as He.
    pose proof (QueueFacts.empty_spec _ _ (QueueFacts.new_queue_wf (T := Task))) as He'.
    simpl in He, He'. rewrite He' in He. by destruct l. }
  simpl pool in HI, Ht. simpl heap in HI, Ht. simpl owner in HI, Ht.
  simpl waiting in Ht. rewrite Hws in HI, Ht.
  split; try done.
  exists []. split; [done|]. constructor.
Qed.

(** The worker takes enough turns to come to rest and the client takes
    one: the next call of the client returns. *)
Lemma round_Serving prog fuel k sys pc l :
  Serving prog sys pc l → 5 * length prog + 3 ≤ k →
  ∃ sys' pc' l',
    run fuel (replicate k 1 ++ [0]) sys = Ok sys' ∧ Serving prog sys' pc' l' ∧
    program (owner sys') = tail (program (owner sys)).
Proof.
  intros HS Hk.
  destruct (worker_turns prog fuel k sys pc l HS) as (sys1 & pc1 & l1 & Hr & HS1 & Ho & Ht).
  pose proof (Serving_bound _ _ _ _ HS) as Hb.
  destruct (Serving_rest _ _ _ _ HS1) as [-> Hpc]; [lia|].
  destruct (client_turn prog fuel sys1 pc1 [] HS1) as (sys2 & l2 & Hs & HS2 & _ & Hp).
  exists sys2, pc1, l2. split_and!; [|done|].
  - rewrite ThreadPoolDrainFacts.run_schedule_app, Hr. cbn [mbind result_bind].
    by rewrite ThreadPoolDrainFacts.run_cons, Hs.
  - rewrite <-Ho. by apply Hp.
Qed.

Lemma rounds_Serving prog fuel k m : ∀ sys pc l,
  Serving prog sys pc l → 5 * length prog + 3 ≤ k →
  length (program (owner sys)) ≤ m →
  ∃ sys' pc' l',
    run fuel (concat (replicate m (replicate k 1 ++ [0]))) sys = Ok sys' ∧
    Serving prog sys' pc' l' ∧ program (owner sys') = [].
Proof.
  induction m as [|m IH]; intros sys pc l HS Hk Hm.
  - exists sys, pc, l. split_and!; [done|done|].
    destruct (program (owner sys)); [done|simpl in Hm; lia].
  - destruct (round_Serving prog fuel k sys pc l HS Hk) as (sys1 & pc1 & l1 & Hr & HS1 & Hp).
    destruct (IH sys1 pc1 l1 HS1 Hk) as (sys2 & pc2 & l2 & Hr2 & HS2 & Hp2).
    { rewrite Hp. destruct (program (owner sys)); simpl in *; lia. }
    exists sys2, pc2, l2. split_and!; [|done|done].
    rewrite replicate_S. simpl concat.
    by rewrite ThreadPoolDrainFacts.run_schedule_app, Hr.
Qed.

(** With one worker and a client that leaves the head of the queue to
    it, whatever happened so far: when the worker and the client take the
    turns of [serving_turns], every call of the client returns and every
    task runs. *)
Lemma serves n prog fuel schedule :
  single_consumer n prog = true →
  ∃ sys,
    run fuel (schedule ++ serving_turns (length prog)) (start n prog) = Ok sys ∧
    program (owner sys) = [] ∧
    alive sys ∧
    Forall2 agree (log (owner sys)) (answers [] prog) ∧
    Forall2 (λ f future, future_get (shared sys) future = Some (f tt))
      (submitted prog) (futures (owner sys)).
Proof.
  intros Hsc.
  destruct (run_Serving prog fuel schedule _ _ _ (start_Serving n prog Hsc))
    as (sys1 & pc1 & l1 & Hr1 & HS1).
  destruct (rounds_Serving prog fuel (5 * length prog + 3) (length prog) sys1 pc1 l1 HS1)
    as (sys2 & pc2 & l2 & Hr2 & HS2 & Hp2); [done| |].
  { destruct (inv_program _ _ _ _ _ (serving_inv _ _ _ _ HS1)) as (done & Hd & _).
    rewrite Hd, length_app. lia. }
  destruct (worker_turns prog fuel (5 * length prog + 3) sys2 pc2 l2 HS2)
    as (sys3 & pc3 & l3 & Hr3 & HS3 & Ho & Ht).
  pose proof (Serving_bound _ _ _ _ HS2) as Hb.
  destruct (Serving_rest _ _ _ _ HS3) as [-> Hpc]; [lia|].
  exists sys3. split_and!.
  - unfold serving_turns.
    rewrite ThreadPoolDrainFacts.run_schedule_app, Hr1. cbn [mbind result_bind].
    rewrite ThreadPoolDrainFacts.run_schedule_app, Hr2. cbn [mbind result_bind].
    exact Hr3.
  - by rewrite Ho.
  - unfold alive. rewrite (serving_worker _ _ _ _ HS3).
    apply (inv_alive _ _ _ _ _ (serving_inv _ _ _ _ HS3)).
  - destruct (serving_logged _ _ _ _ HS3) as (done & Hd & Hl).
    rewrite Ho, Hp2, app_nil_r in Hd. by subst done.
  - destruct (Serving_done _ _ _ HS3 Hpc) as (done & Hd & HF).
    rewrite Ho, Hp2, app_nil_r in Hd. by subst done.
Qed.

End ThreadPoolServeFacts.
End ThreadPoolServeFacts.

(** ** The task queue when the pool is destroyed *)

Module ThreadPoolUsedFacts.
Import ThreadPool ThreadPoolFacts ThreadPoolTrackFacts ThreadPoolCloseFacts.
Section ThreadPoolUsedFacts.
Context {R E : Type}.
Implicit Types (ws : list worker_pc) (w : wait_pc) (sys : system R E)
  (s : state R E) (c : client R E) (l : list Task) (d : nat).

Lemma dequeue_Used (q q' : Queue.LockFreeQueue Task) l d task_opt :
  Queue.store_inv q l d → Queue.dequeue q = Ok (task_opt, q') →
  (task_opt = None ∧ q' = q ∧ l = []) ∨
  (∃ t l', task_opt = Some t ∧ l = t :: l' ∧ Queue.store_inv q' l' (S d)).
Proof.
  intros [Hacc (hn & Hhn & Hdata)] Hdq. destruct l as [|t l].
  - rewrite (QueueFacts.dequeue_empty q (Queue.acc_wf _ _ _ Hacc)) in Hdq.
    injection Hdq as <- <-. by left.
  - destruct (QueueHeapFacts.dequeue_store_accounted _ _ _ Hacc)
      as (q1 & hn1 & Hdq1 & Hacc1 & Hhn1 & Hsome).
    rewrite Hdq1 in Hdq. injection Hdq as <- <-. right.
    exists t, l. split_and!; [done|done|]. split; [done|].
    exists hn1. split; [done|]. split; [|done].
    intros Hn. rewrite Hn in Hsome. by destruct Hsome.
Qed.

Lemma worker_step_Used s w i pc pc' s' l d :
  workers_ (pool s) !! i = Some pc →
  worker_step s pc = Ok (pc', s') →
  Used s w l d →
  ∃ l' d',
    Used {| pool := set_workers (pool s') (<[i := pc']> (workers_ (pool s')));
            heap := heap s' |} w l' d'.
Proof.
  intros Hi Hstep [Hq Hun].
  destruct s as [[ws q stop active] h]. simpl in *.
  assert (Hbusy : worker_idle pc → d = 0 ∨ d ≠ 0) by (intros _; lia).
  assert (Hidle : d = 0 → worker_idle pc).
  { intros Hd. destruct (Hun Hd) as (Hws & _).
    by apply (Forall_lookup_1 _ _ _ _ Hws Hi). }
  destruct pc as [| |t|t| | | |]; simpl in Hstep.
  - injection Hstep as <- <-. exists l, d. split; [done|]. intros Hd.
    destruct (Hun Hd) as (Hws & Hw & Hh). split_and!; [|done|done].
    apply Forall_insert; [done|]. by destruct stop.
  - apply bind_Ok in Hstep as ([task_opt q'] & Hdq & Heq).
    destruct (dequeue_Used _ _ _ _ _ Hq Hdq) as [(-> & -> & ->)|(t & l' & -> & -> & Hq')];
      injection Heq as <- <-; simpl.
    + exists [], d. split; [done|]. intros Hd.
      destruct (Hun Hd) as (Hws & Hw & Hh). split_and!; [|done|done].
      by apply Forall_insert.
    + exists l', (S d). by split.
  - injection Hstep as <- <-. exists l, d. split; [done|]. intros Hd.
    by destruct (Hidle Hd).
  - apply bind_Ok in Hstep as ([h' thrown] & _ & Heq). injection Heq as <- <-.
    exists l, d. split; [done|]. intros Hd. by destruct (Hidle Hd).
  - injection Hstep as <- <-. exists l, d. split; [done|]. intros Hd.
    by destruct (Hidle Hd).
  - injection Hstep as <- <-. exists l, d. split; [done|]. intros Hd.
    destruct (Hun Hd) as (Hws & Hw & Hh). split_and!; [|done|done].
    by apply Forall_insert.
  - injection Hstep as <- <-. exists l, d. split; [done|]. intros Hd.
    destruct (Hun Hd) as (Hws & Hw & Hh). split_and!; [|done|done].
    by apply Forall_insert.
  - injection Hstep as <- <-. exists l, d. split; [done|]. intros Hd.
    by destruct (Hidle Hd).
Qed.

Lemma wait_step_Used s w w' s' l d :
  wait_step s w = Ok (w', s') → Used s w l d →
  ∃ l' d', Used s' w' l' d'.
Proof.
  intros Hstep [Hq Hun].
  destruct s as [[ws q stop active] h]. simpl in *.
  assert (Hidle : d = 0 → wait_idle w).
  { intros Hd. by destruct (Hun Hd) as (_ & ? & _). }
  destruct w as [| | |t|t| | |]; simpl in Hstep.
  - injection Hstep as <- <-. exists l, d. split; [done|]. intros Hd.
    destruct (Hun Hd) as (Hws & Hw & Hh). split_and!; [done| |done].
    by destruct (decide _).
  - apply bind_Ok in Hstep as (b & _ & Heq). injection Heq as <- <-.
    exists l, d. split; [done|]. intros Hd.
    destruct (Hun Hd) as (Hws & Hw & Hh). split_and!; [done| |done].
    by destruct b.
  - apply bind_Ok in Hstep as ([task_opt q'] & Hdq & Heq).
    destruct (dequeue_Used _ _ _ _ _ Hq Hdq) as [(-> & -> & ->)|(t & l' & -> & -> & Hq')];
      injection Heq as <- <-; simpl.
    + exists [], d. split; [done|]. intros Hd.
      by destruct (Hun Hd) as (Hws & Hw & Hh).
    + exists l', (S d). by split.
  - injection Hstep as <- <-. exists l, d. split; [done|]. intros Hd.
    by destruct (Hidle Hd).
  - apply bind_Ok in Hstep as ([h' thrown] & _ & Heq). injection Heq as <- <-.
    exists l, d. split; [done|]. intros Hd. by destruct (Hidle Hd).
  - injection Hstep as <- <-. exists l, d. split; [done|]. intros Hd.
    by destruct (Hidle Hd).
  - injection Hstep as <- <-. exists l, d. by split.
  - injection Hstep as <- <-. exists l, d. by split.
Qed.

Lemma client_step_Used fuel s c c' s' l d :
  client_step fuel s c = Ok (c', s') → Used s (waiting c) l d →
  ∃ l' d', Used s' (waiting c') l' d'.
Proof.
  unfold client_step. intros Hstep HU.
  destruct (program c) as [|[f| |j| |] p] eqn:Hp.
  - injection Hstep as <- <-. by exists l, d.
  - apply bind_Ok in Hstep as ([future s1] & Hsub & Heq). injection Heq as <- <-.
    simpl. unfold submit in Hsub.
    apply bind_Ok in Hsub as ([b q'] & Henq & Heq). injection Heq as _ <-.
    destruct HU as [[Hacc (hn & Hhn & Hdata)] Hun].
    destruct (QueueHeapFacts.enqueue_accounted _ _ _ (fresh (dom (heap s))) Hacc)
      as (q1 & Henq1 & Hacc1 & _ & Hhead).
    rewrite Henq1 in Henq. injection Henq as _ <-.
    destruct (Hhead _ Hhn) as (hn' & Hhn' & Heq).
    exists (l ++ [fresh (dom (heap s))]), d. split.
    + split; [done|]. exists hn'. by rewrite Heq.
    + intros Hd. destruct (Hun Hd) as (Hws & Hw & Hh). simpl.
      split_and!; [done|done|]. intros t pt.
      destruct (decide (t = fresh (dom (heap s)))) as [->|Hne].
      * rewrite lookup_insert_eq. by intros [= <-].
      * rewrite lookup_insert_ne by done. apply Hh.
  - apply bind_Ok in Hstep as ([w' s1] & Hw & Heq).
    destruct (wait_step_Used _ _ _ _ _ _ Hw HU) as (l' & d' & [Hq' Hun']).
    exists l', d'.
    destruct w'; injection Heq as <- <-; simpl; by split.
  - destruct (futures c !! j) as [future|].
    + destruct (future_get s future); injection Hstep as <- <-; by exists l, d.
    + injection Hstep as <- <-. by exists l, d.
  - injection Hstep as <- <-. by exists l, d.
  - apply bind_Ok in Hstep as (n & _ & Heq). injection Heq as <- <-. by exists l, d.
Qed.

Lemma step_Used fuel tid sys sys' l d :
  step fuel tid sys = Ok sys' →
  Used (shared sys) (waiting (owner sys)) l d →
  ∃ l' d', Used (shared sys') (waiting (owner sys')) l' d'.
Proof.
  intros Hs HU. destruct tid as [|i]; simpl in Hs.
  - apply bind_Ok in Hs as ([c1 s1] & Hc & Heq). injection Heq as <-. simpl.
    by eapply client_step_Used.
  - destruct (workers_ (pool (shared sys)) !! i) as [pc|] eqn:Hi.
    + apply bind_Ok in Hs as ([pc1 s1] & Hw & Heq). injection Heq as <-. simpl.
      by eapply worker_step_Used.
    + injection Hs as <-. by exists l, d.
Qed.

Lemma run_Used fuel schedule : ∀ sys sys' l d,
  run fuel schedule sys = Ok sys' →
  Used (shared sys) (waiting (owner sys)) l d →
  ∃ l' d', Used (shared sys') (waiting (owner sys')) l' d'.
Proof.
  induction schedule as [|tid schedule IH]; intros sys sys' l d; simpl.
  - intros [= <-] HU. by exists l, d.
  - intros (sys1 & Hs & Hr)%bind_Ok HU.
    destruct (step_Used _ _ _ _ _ _ Hs HU) as (l1 & d1 & HU1).
    by eapply IH.
Qed.

Lemma start_Used n (prog : list (cmd R E)) :
  Used (shared (start n prog)) TActive [] 0.
Proof.
  split.
  - split; [apply QueueHeapFacts.new_queue_accounted|].
    destruct (QueueHeapFacts.new_queue_head (T := Task)) as (hn & Hhn & Hd).
    exists hn. by split.
  - intros _. split_and!; [|done|].
    + simpl. by apply Forall_replicate.
    + intros t pt. simpl. by rewrite lookup_empty.
Qed.

Lemma destroy_step_Used s pc pc' s' l d :
  destroy_step s pc = Ok (pc', s') → Used s (dtor_wait pc) l d →
  ∃ l' d', Used s' (dtor_wait pc') l' d'.
Proof.
  intros Hstep HU. destruct pc as [w| | |i| |]; simpl in Hstep.
  - apply bind_Ok in Hstep as ([w' s1] & Hw & Heq).
    destruct (wait_step_Used _ _ _ _ _ _ Hw HU) as (l' & d' & [Hq' Hun']).
    exists l', d'.
    destruct w'; injection Heq as <- <-; simpl; by split.
  - injection Hstep as <- <-. by exists l, d.
  - injection Hstep as <- <-. by exists l, d.
  - destruct (workers_ (pool s) !! i) as [[]|]; injection Hstep as <- <-;
      by exists l, d.
  - injection Hstep as <- <-. by exists l, d.
  - injection Hstep as <- <-. by exists l, d.
Qed.

Lemma close_step_Used tid (c c' : closing R E) l d :
  close_step tid c = Ok c' →
  Used (closing_state c) (dtor_wait (closing_pc c)) l d →
  ∃ l' d', Used (closing_state c') (dtor_wait (closing_pc c')) l' d'.
Proof.
  intros Hs HU. destruct tid as [|i]; simpl in Hs.
  - apply bind_Ok in Hs as ([pc1 s1] & Hd & Heq). injection Heq as <-. simpl.
    by eapply destroy_step_Used.
  - destruct (workers_ (pool (closing_state c)) !! i) as [pc|] eqn:Hi.
    + apply bind_Ok in Hs as ([pc1 s1] & Hw & Heq). injection Heq as <-. simpl.
      by eapply worker_step_Used.
    + injection Hs as <-. by exists l, d.
Qed.

Lemma close_run_Used schedule : ∀ (c c' : closing R E) l d,
  close_run schedule c = Ok c' →
  Used (closing_state c) (dtor_wait (closing_pc c)) l d →
  ∃ l' d', Used (closing_state c') (dtor_wait (closing_pc c')) l' d'.
Proof.
  induction schedule as [|tid schedule IH]; intros c c' l d; simpl.
  - intros [= <-] HU. by exists l, d.
  - intros (c1 & Hs & Hr)%bind_Ok HU.
    destruct (close_step_Used _ _ _ _ _ Hs HU) as (l1 & d1 & HU1).
    by eapply IH.
Qed.

(** Once a shared state is set, [~LockFreeQueue()] deletes a task that
    [dequeue] has deleted. *)
Lemma Used_destroy fuel s w l d t pt :
  Used s w l d → heap s !! t = Some pt → is_Some (shared_state pt) →
  length l < fuel →
  destroy_members fuel s = UB.
Proof.
  intros [[Hacc (hn & Hhn & Hdata)] Hun] Ht [o Ho] Hfuel.
  apply (QueueHeapFacts.destroy_dangling fuel _ l); [done| |done].
  exists hn. split; [done|].
  destruct (Queue.data hn) as [c|] eqn:Hc; [by eexists|].
  destruct (Hun (proj1 Hdata eq_refl)) as (_ & _ & Hh).
  rewrite (Hh _ _ Ht) in Ho. done.
Qed.

End ThreadPoolUsedFacts.
End ThreadPoolUsedFacts.

(* ===================================================================== *)
(** * The claims *)
(* ===================================================================== *)

(** ** The queue *)

(** C1. In a single-threaded execution elements leave the queue in the
    order they entered it: after the items [vs] are enqueued on a fresh
    queue, [length vs] calls of [dequeue] return them in that order, one
    more [dequeue] returns nothing and [empty] answers true; in particular
    so for the values 0..99, where 100 dequeues return some(0) ... some(99)
    and the 101st returns none. *)
Theorem queue_fifo_single_thread :
  (∀ (T : Type) (vs : list T), ∃ q1 q2 : Queue.LockFreeQueue T,
      Queue.enqueue_all Queue.new_queue vs = Ok q1 ∧
      Queue.dequeue_n (length vs) q1 = Ok (Some <$> vs, q2) ∧
      Queue.dequeue q2 = Ok (None, q2) ∧
      Queue.empty q2 = Ok true) ∧
  (∃ q1 q2 : Queue.LockFreeQueue Z,
      Queue.enqueue_all Queue.new_queue Examples.zero_to_99 = Ok q1 ∧
      Queue.dequeue_n 100 q1 = Ok (Some <$> Examples.zero_to_99, q2) ∧
      Queue.dequeue q2 = Ok (None, q2) ∧
      Queue.empty q2 = Ok true).
Proof.
  split.
  - intros T vs. apply QueueFacts.enqueue_then_dequeue.
  - apply (QueueFacts.enqueue_then_dequeue Examples.zero_to_99).
Qed.

(** C9. The queue of [lockfree_queue.hpp] and the copy whose [dequeue]
    advances the head by compare-and-swap and frees no node return the same
    results on every single-threaded sequence of [enqueue], [dequeue],
    [empty] and [approximate_size] calls, whatever compare-exchanges fail
    spuriously, once the fuel covers the sequence. *)
Theorem queue_variants_equivalent (T : Type) (fuel : nat) (ops : list (Queue.op T)) :
  Queue.fuel_covers fuel ops →
  ∃ rs q1 q2,
    Queue.run (Queue.step_store fuel) Queue.new_queue ops = Ok (rs, q1) ∧
    Queue.run (Queue.step_cas fuel) Queue.new_queue ops = Ok (rs, q2).
Proof.
  intros Hfuel.
  destruct (QueueFacts.run_store_spec fuel ops) as (q1 & Hq1); [apply Hfuel|].
  destruct (QueueFacts.run_cas_spec fuel ops Hfuel) as (q2 & Hq2).
  by exists (Queue.fifo_run [] ops).1, q1, q2.
Qed.

(** ** The hash map *)

Section HashMapClaims.
Context {Key Value : Type} `{Countable Key}.
Variable hasher_ : Key → N.
Import HashMap.

(** C2 (fails on the code). [erase] does not repeat the compare-exchange
    that unlinks a node from inside a chain, and [size_] then counts a node
    that no call finds.  After any single-threaded sequence [ops],
    [insert(k,v)] and an [insert] of an absent key [k0] of the same bucket
    put the node of [k] behind the node of [k0].  If the compare-exchange
    of [erase(k)] then fails spuriously, [erase(k)] answers false and
    leaves the node in the chain, marked: [size()] is one more than the
    number of live keys.  [contains(k)] answers false, and [insert(k,v2)]
    answers "inserted" and counts [k] again: [size()] is still one more
    than the number of live keys, [k] among them. *)
Theorem size_counts_a_marked_node (n fuel : nat) (ops : list (op Key Value))
    (k k0 : Key) (v v0 v2 : Value) (sp0 sp1 sp sp2 : list bool) :
  1 ≤ n →
  fuel_covers fuel (ops ++ [Insert sp0 k v; Insert sp1 k0 v0; Erase (true :: sp) k;
                            Contains k; Insert sp2 k v2]) →
  erase_undisturbed ops →
  k0 ≠ k → k0 ∉ live_keys ops →
  bucket_of hasher_ n k0 = bucket_of hasher_ n k →
  (Z.of_nat (length ops) + 3 < 2 ^ SIZE_BITS)%Z →
  ∃ rs b m m',
    run hasher_ fuel (new_map n)
      (ops ++ [Insert sp0 k v; Insert sp1 k0 v0; Erase (true :: sp) k]) =
      Ok (rs ++ [RInsert b; RInsert true; RErase false], m) ∧
    size m =
      (Z.of_nat (base.size (live_keys
         (ops ++ [Insert sp0 k v; Insert sp1 k0 v0; Erase (true :: sp) k]))) + 1)%Z ∧
    run hasher_ fuel m [Contains k; Insert sp2 k v2] =
      Ok ([RContains false; RInsert true], m') ∧
    size m' =
      (Z.of_nat (base.size (live_keys
         (ops ++ [Insert sp0 k v; Insert sp1 k0 v0; Erase (true :: sp) k;
                  Contains k; Insert sp2 k v2]))) + 1)%Z.
Proof.
  intros Hn [Hfuel Hsp] Her Hne Hk0 Hbucket Hlen.
  rewrite length_app in Hfuel. simpl in Hfuel.
  apply Forall_app in Hsp as [Hsp Hsp2].
  apply Forall_cons in Hsp2 as [Hs0 Hsp2]. apply Forall_cons in Hsp2 as [Hs1 Hsp2].
  apply Forall_cons in Hsp2 as [_ Hsp2]. apply Forall_cons in Hsp2 as [_ Hsp2].
  apply Forall_cons in Hsp2 as [Hs2 _].
  pose proof (HashMapFacts.map_run_size (∅ : gmap Key Value) ops) as HM.
  rewrite map_size_empty in HM. simpl in HM.
  pose proof (HashMapFacts.live_keys_dom ops (∅ : gmap Key Value)) as Hd.
  rewrite dom_empty_L in Hd. fold (live_keys ops) in Hd.
  destruct (HashMapFacts.run_new_map hasher_ n fuel ops Hn) as (m0 & Hrun & Hwf0);
    [split; [lia|done]|done|].
  set (M := (map_run ∅ ops).2) in *.
  destruct (HashMapFacts.insert_spec hasher_ fuel sp0 m0 M k v Hwf0)
    as (m1 & Hins1 & Hwf1); [lia|done|].
  assert (HM1 : base.size (<[k := v]> M) ≤ S (base.size M)).
  { apply (HashMapFacts.map_step_size M (Insert sp0 k v)). }
  assert (HMk0 : <[k := v]> M !! k0 = None).
  { rewrite lookup_insert_ne by done. apply not_elem_of_dom. by rewrite Hd. }
  destruct (HashMapFacts.insert_absent_head hasher_ fuel sp1 m1 _ k0 v0 Hwf1 HMk0)
    as (m2 & Hins2 & Hhead); [lia|done|].
  destruct (HashMapFacts.insert_spec hasher_ fuel sp1 m1 _ k0 v0 Hwf1)
    as (m2' & Hins2' & Hwf2); [lia|done|].
  rewrite Hins2 in Hins2'. injection Hins2' as _ <-.
  set (M2 := <[k0 := v0]> (<[k := v]> M)) in *.
  assert (HM2 : base.size M2 ≤ S (S (base.size M))).
  { unfold M2. rewrite map_size_insert_None by done. lia. }
  assert (Hrun2 : run hasher_ fuel (new_map n) (ops ++ [Insert sp0 k v; Insert sp1 k0 v0]) =
                  Ok ((map_run ∅ ops).1 ++ [RInsert (negb (present M k)); RInsert true], m2)).
  { rewrite HashMapFacts.run_app, Hrun. simpl. rewrite Hins1. simpl.
    by rewrite Hins2. }
  assert (Hlen2 : length (buckets_ m2) = n).
  { apply HashMapFacts.run_buckets in Hrun2. simpl in Hrun2.
    by rewrite length_replicate in Hrun2. }
  assert (Hidx : bucket_index hasher_ m2 k0 = bucket_index hasher_ m2 k).
  { destruct Hwf2 as [bs HI].
    destruct (HashMapFacts.Inv_bucket hasher_ _ _ _ k HI) as (? & ? & -> & _).
    destruct (HashMapFacts.Inv_bucket hasher_ _ _ _ k0 HI) as (? & ? & -> & _).
    by rewrite Hlen2, Hbucket. }
  assert (HMk : M2 !! k = Some v).
  { unfold M2. rewrite lookup_insert_ne by done. apply lookup_insert_eq. }
  destruct (HashMapHeapFacts.erase_spurious_inner hasher_ fuel sp m2 _ k k0 v Hwf2 HMk)
    as (m3 & Her3 & Hc3 & _ & Hsz3 & _ & _ & i & p & Hi3 & Hb3 & Hf3);
    [lia|lia|done|done|done|].
  destruct (HashMapHeapFacts.insert_unfound hasher_ fuel sp2 m3 i p k v2 Hi3 Hb3 Hf3 Hs2)
    as (m4 & Hins4 & Hsz4 & _).
  assert (Hin : k ∈ dom M2) by (apply elem_of_dom; by eexists).
  assert (Hpos : 1 ≤ base.size M2).
  { rewrite <-size_dom. destruct (decide (base.size (dom M2) = 0)) as [Hz|]; [|lia].
    apply size_empty_inv in Hz. by rewrite Hz in Hin; apply elem_of_empty in Hin. }
  assert (Hsize2 : size m2 = Z.of_nat (base.size M2)).
  { rewrite (HashMapFacts.wf_size _ _ _ Hwf2). apply wrap_small. lia. }
  assert (Hlive3 : live_keys (ops ++ [Insert sp0 k v; Insert sp1 k0 v0;
                     Erase (true :: sp) k]) = dom M2 ∖ {[k]}).
  { unfold live_keys at 1. rewrite foldl_app. fold (live_keys ops). simpl.
    unfold M2. by rewrite !dom_insert_L, Hd. }
  assert (Hlive5 : live_keys (ops ++ [Insert sp0 k v; Insert sp1 k0 v0;
                     Erase (true :: sp) k; Contains k; Insert sp2 k v2]) = dom M2).
  { unfold live_keys at 1. rewrite foldl_app. fold (live_keys ops). simpl.
    unfold M2. rewrite !dom_insert_L, Hd.
    apply set_eq. intros x.
    rewrite !elem_of_union, elem_of_difference, !elem_of_union, !elem_of_singleton.
    destruct (decide (x = k)); tauto. }
  exists (map_run ∅ ops).1, (negb (present M k)), m3, m4. split_and!.
  - rewrite HashMapFacts.run_app, Hrun. simpl. rewrite Hins1. simpl.
    rewrite Hins2. simpl. by rewrite Her3.
  - rewrite Hsz3, Hsize2, Hlive3.
    rewrite size_difference by (by apply singleton_subseteq_l).
    rewrite size_singleton, size_dom. lia.
  - simpl. rewrite Hc3. simpl. by rewrite Hins4.
  - rewrite Hsz4, Hsz3, Hsize2, Hlive5, size_dom. apply wrap_small. lia.
Qed.

(** C3. In a single-threaded execution, after [insert(k,v)] a [get(k)]
    returns [v]; after [insert(k,v1)] and [insert(k,v2)] it returns [v2],
    the second insert answers "updated" (false) and the first answers
    "inserted" (true) when [k] was not live before, as on a fresh map. *)
Theorem insert_then_get (n fuel : nat) (ops : list (op Key Value))
    (k : Key) (v v1 v2 : Value) (sp sp1 sp2 : list bool) :
  1 ≤ n →
  fuel_covers fuel (ops ++ [Insert sp k v; Insert sp1 k v1; Insert sp2 k v2]) →
  erase_undisturbed ops →
  (∃ rs b m,
     run hasher_ fuel (new_map n) (ops ++ [Insert sp k v; Get k]) =
       Ok (rs ++ [RInsert b; RGet (Some v)], m)) ∧
  (∃ rs b m,
     run hasher_ fuel (new_map n) (ops ++ [Insert sp1 k v1; Insert sp2 k v2; Get k]) =
       Ok (rs ++ [RInsert b; RInsert false; RGet (Some v2)], m) ∧
     (k ∉ live_keys ops → b = true)).
Proof.
  intros Hn [Hfuel Hsp] Her.
  rewrite length_app in Hfuel. simpl in Hfuel.
  apply Forall_app in Hsp as [Hsp Hsp3].
  apply Forall_cons in Hsp3 as [Hs0 Hsp3]. apply Forall_cons in Hsp3 as [Hs1 Hsp3].
  apply Forall_cons in Hsp3 as [Hs2 _].
  split.
  - destruct (HashMapFacts.run_new_map hasher_ n fuel (ops ++ [Insert sp k v; Get k]) Hn)
      as (m & Hrun & _).
    { split; [rewrite length_app; simpl; lia|].
      apply Forall_app. split; [done|]. by repeat constructor. }
    { apply Forall_app. split; [done|]. by repeat constructor. }
    rewrite HashMapFacts.map_run_app in Hrun. simpl in Hrun.
    rewrite lookup_insert_eq in Hrun. by eauto.
  - destruct (HashMapFacts.run_new_map hasher_ n fuel
                (ops ++ [Insert sp1 k v1; Insert sp2 k v2; Get k]) Hn)
      as (m & Hrun & _).
    { split; [rewrite length_app; simpl; lia|].
      apply Forall_app. split; [done|]. by repeat constructor. }
    { apply Forall_app. split; [done|]. by repeat constructor. }
    rewrite HashMapFacts.map_run_app in Hrun. simpl in Hrun.
    unfold present in Hrun at 2. rewrite !lookup_insert_eq in Hrun. simpl in Hrun.
    eexists _, _, m. split; [exact Hrun|].
    intros Hk. unfold present.
    destruct ((map_run ∅ ops).2 !! k) eqn:HM; [|done].
    exfalso. apply Hk. unfold live_keys.
    pose proof (HashMapFacts.live_keys_dom ops (∅ : gmap Key Value)) as Hd.
    rewrite dom_empty_L in Hd. rewrite <-Hd. apply elem_of_dom. by eexists.
Qed.

(** C4 (fails on the code). After [insert(k,v)] an [erase(k)] can answer
    false.  After any single-threaded sequence [ops], an [insert] of [k],
    an [insert] of an absent key [k0] of the same bucket and [insert(k,v)],
    which answers "updated", [get(k)] returns [v].  If the compare-exchange
    of [erase(k)] that unlinks the node of [k] from behind the node of [k0]
    fails spuriously, [erase(k)] answers false; [contains(k)] answers false
    afterwards, the node being marked and still in the chain. *)
Theorem erase_misses_after_insert (n fuel : nat) (ops : list (op Key Value))
    (k k0 : Key) (v0 v1 v : Value) (sp0 sp1 sp2 sp : list bool) :
  1 ≤ n →
  fuel_covers fuel (ops ++ [Insert sp0 k v0; Insert sp1 k0 v1; Insert sp2 k v]) →
  erase_undisturbed ops →
  k0 ≠ k → k0 ∉ live_keys ops →
  bucket_of hasher_ n k0 = bucket_of hasher_ n k →
  ∃ rs b m,
    run hasher_ fuel (new_map n)
      (ops ++ [Insert sp0 k v0; Insert sp1 k0 v1; Insert sp2 k v; Get k;
               Erase (true :: sp) k; Contains k]) =
      Ok (rs ++ [RInsert b; RInsert true; RInsert false; RGet (Some v);
                 RErase false; RContains false], m).
Proof.
  intros Hn [Hfuel Hsp] Her Hne Hk0 Hbucket.
  rewrite length_app in Hfuel. simpl in Hfuel.
  apply Forall_app in Hsp as [Hsp Hsp2].
  apply Forall_cons in Hsp2 as [Hs0 Hsp2]. apply Forall_cons in Hsp2 as [Hs1 Hsp2].
  apply Forall_cons in Hsp2 as [Hs2 _].
  pose proof (HashMapFacts.map_run_size (∅ : gmap Key Value) ops) as HM.
  rewrite map_size_empty in HM. simpl in HM.
  pose proof (HashMapFacts.live_keys_dom ops (∅ : gmap Key Value)) as Hd.
  rewrite dom_empty_L in Hd. fold (live_keys ops) in Hd.
  destruct (HashMapFacts.run_new_map hasher_ n fuel ops Hn) as (m0 & Hrun & Hwf0);
    [split; [lia|done]|done|].
  set (M := (map_run ∅ ops).2) in *.
  destruct (HashMapFacts.insert_spec hasher_ fuel sp0 m0 M k v0 Hwf0)
    as (m1 & Hins1 & Hwf1); [lia|done|].
  assert (HM1 : base.size (<[k := v0]> M) ≤ S (base.size M)).
  { apply (HashMapFacts.map_step_size M (Insert sp0 k v0)). }
  assert (HMk0 : <[k := v0]> M !! k0 = None).
  { rewrite lookup_insert_ne by done. apply not_elem_of_dom. by rewrite Hd. }
  destruct (HashMapFacts.insert_absent_head hasher_ fuel sp1 m1 _ k0 v1 Hwf1 HMk0)
    as (m2 & Hins2 & Hhead); [lia|done|].
  destruct (HashMapFacts.insert_spec hasher_ fuel sp1 m1 _ k0 v1 Hwf1)
    as (m2' & Hins2' & Hwf2); [lia|done|].
  rewrite Hins2 in Hins2'. injection Hins2' as _ <-.
  set (M2 := <[k0 := v1]> (<[k := v0]> M)) in *.
  assert (HM2 : base.size M2 ≤ S (S (base.size M))).
  { unfold M2. rewrite map_size_insert_None by done. lia. }
  assert (HMk : M2 !! k = Some v0).
  { unfold M2. rewrite lookup_insert_ne by done. apply lookup_insert_eq. }
  destruct (HashMapHeapFacts.insert_present_head hasher_ fuel sp2 m2 M2 k k0 v v0 Hwf2 HMk Hhead)
    as (m3 & Hins3 & Hwf3 & Hhead3); [lia|done|].
  set (M3 := <[k := v]> M2) in *.
  assert (HM3 : base.size M3 = base.size M2).
  { unfold M3. by rewrite map_size_insert_Some. }
  assert (HMk3 : M3 !! k = Some v) by apply lookup_insert_eq.
  assert (Hrun3 : run hasher_ fuel (new_map n)
                    (ops ++ [Insert sp0 k v0; Insert sp1 k0 v1; Insert sp2 k v]) =
                  Ok ((map_run ∅ ops).1 ++
                      [RInsert (negb (present M k)); RInsert true; RInsert false], m3)).
  { rewrite HashMapFacts.run_app, Hrun. simpl. rewrite Hins1. simpl.
    rewrite Hins2. simpl. by rewrite Hins3. }
  assert (Hlen3 : length (buckets_ m3) = n).
  { apply HashMapFacts.run_buckets in Hrun3. simpl in Hrun3.
    by rewrite length_replicate in Hrun3. }
  assert (Hidx : bucket_index hasher_ m3 k0 = bucket_index hasher_ m3 k).
  { destruct Hwf3 as [bs HI].
    destruct (HashMapFacts.Inv_bucket hasher_ _ _ _ k HI) as (? & ? & -> & _).
    destruct (HashMapFacts.Inv_bucket hasher_ _ _ _ k0 HI) as (? & ? & -> & _).
    by rewrite Hlen3, Hbucket. }
  destruct (HashMapHeapFacts.erase_spurious_inner hasher_ fuel sp m3 _ k k0 v Hwf3 HMk3)
    as (m4 & Her4 & Hc4 & _); [lia|lia|done|done|done|].
  exists (map_run ∅ ops).1, (negb (present M k)), m4.
  rewrite HashMapFacts.run_app, Hrun. simpl. rewrite Hins1. simpl.
  rewrite Hins2. simpl. rewrite Hins3. simpl.
  rewrite (HashMapFacts.get_spec hasher_ fuel m3 M3 k Hwf3) by lia.
  rewrite HMk3. simpl. rewrite Her4. simpl. by rewrite Hc4.
Qed.

(** C10. On a map built with [bucket_count >= 1], after any sequence of
    public operations the divisor [buckets_.size()] of the bucket index is
    still [bucket_count], so the index is below the number of buckets and
    the bucket access is in range.  The constructor accepts
    [bucket_count = 0]: the vector is then empty, the index computation
    divides by zero, and so does every public operation. *)
Theorem bucket_index_in_range (n fuel : nat) (ops : list (op Key Value))
    (rs : list (ret Value)) (m : LockFreeHashMap Key Value) (k : Key) :
  1 ≤ n →
  run hasher_ fuel (new_map n) ops = Ok (rs, m) →
  (length (buckets_ m) = n ∧
   ∃ i p, bucket_index hasher_ m k = Ok i ∧ i < n ∧ bucket m i = Ok p) ∧
  (let m0 : LockFreeHashMap Key Value := new_map 0 in
   buckets_ m0 = [] ∧
   bucket_index hasher_ m0 k = UB ∧
   ∀ fuel' sp v,
     insert hasher_ fuel' sp m0 k v = UB ∧
     get hasher_ fuel' m0 k = UB ∧
     erase hasher_ fuel' sp m0 k = UB ∧
     contains hasher_ fuel' m0 k = UB).
Proof.
  intros Hn Hrun. split.
  - apply HashMapFacts.run_buckets in Hrun. simpl in Hrun.
    rewrite length_replicate in Hrun. split; [done|].
    destruct (HashMapFacts.bucket_index_ok hasher_ m k) as (i & p & Hi & Hlt & Hp); [lia|].
    exists i, p. split_and!; [done|lia|done].
  - split_and!; [done|done|]. intros fuel' sp v. by split_and!.
Qed.

(** C5 (fails on the code). Two threads insert the same absent key [k]
    into a fresh map; each looks the key up before the other publishes its
    node.  Both calls answer "inserted", the chain of the bucket holds two
    unmarked nodes with key [k], and [size()] is 2. *)
Theorem concurrent_insert_duplicates (n fuel : nat) (k : Key) (v1 v2 : Value) :
  ∃ (m : LockFreeHashMap Key Value) i n1 n2 nd1 nd2,
    interleave hasher_ (S fuel) racing_schedule
      [mkInserter k v1 IFind; mkInserter k v2 IFind] (new_map (S n)) =
      Ok ([mkInserter k v1 (IReturn true); mkInserter k v2 (IReturn true)], m) ∧
    bucket_index hasher_ m k = Ok i ∧
    bucket m i = Ok (Some n2) ∧
    nodes m !! n2 = Some nd2 ∧ next nd2 = Some n1 ∧
    nodes m !! n1 = Some nd1 ∧ next nd1 = None ∧
    n1 ≠ n2 ∧
    key nd1 = k ∧ key nd2 = k ∧ marked nd1 = false ∧ marked nd2 = false ∧
    size m = 2%Z.
Proof.
  set (m0 := new_map (S n) : LockFreeHashMap Key Value).
  assert (Hlen0 : length (buckets_ m0) = S n) by apply length_replicate.
  destruct (HashMapFacts.bucket_index_ok hasher_ m0 k) as (i & p & Hi & Hlt & Hp);
    [lia|].
  rewrite Hlen0 in Hlt.
  assert (p = None) as ->.
  { unfold bucket in Hp. change (buckets_ m0) with (replicate (S n) (None : ptr)) in Hp.
    rewrite lookup_replicate_2 in Hp by done. by injection Hp. }
  unfold racing_schedule.
  erewrite HashMapFacts.interleave_cons;
    [|done|by eapply (HashMapFacts.step_find _ _ _ _ _ _ _ _ None)].
  cbn [list_insert ins_key ins_value].
  erewrite HashMapFacts.interleave_cons;
    [|done|by eapply (HashMapFacts.step_find _ _ _ _ _ _ _ _ None)].
  cbn [list_insert ins_key ins_value].
  erewrite HashMapFacts.interleave_cons;
    [|done|by eapply HashMapFacts.step_allocate].
  cbn [list_insert ins_key ins_value].
  set (a1 := fresh (dom (nodes m0))). set (c1 := fresh (dom (values m0))).
  erewrite HashMapFacts.interleave_cons;
    [|done|by eapply HashMapFacts.step_publish].
  cbn [list_insert ins_key ins_value].
  erewrite HashMapFacts.interleave_cons; [|done|reflexivity].
  cbn [list_insert ins_key ins_value].
  match goal with |- context [interleave _ _ _ _ ?m] => set (m3 := m) end.
  assert (Hi3 : bucket_index hasher_ m3 k = Ok i).
  { rewrite <-Hi. apply HashMapFacts.bucket_index_length.
    change (buckets_ m3) with (<[i := Some a1]> (buckets_ m0)).
    by rewrite length_insert. }
  assert (Hb3 : bucket m3 i = Ok (Some a1)).
  { unfold bucket. change (buckets_ m3) with (<[i := Some a1]> (buckets_ m0)).
    rewrite list_lookup_insert_eq; [done|]. by rewrite Hlen0. }
  erewrite HashMapFacts.interleave_cons;
    [|done|by eapply HashMapFacts.step_allocate].
  cbn [list_insert ins_key ins_value].
  set (a2 := fresh (dom (nodes m3))). set (c2 := fresh (dom (values m3))).
  match goal with |- context [interleave _ _ _ _ ?m] => set (m4 := m) end.
  assert (Hi4 : bucket_index hasher_ m4 k = Ok i) by done.
  assert (Hb4 : bucket m4 i = Ok (Some a1)) by done.
  erewrite HashMapFacts.interleave_cons;
    [|done|by eapply HashMapFacts.step_publish].
  cbn [list_insert ins_key ins_value].
  erewrite HashMapFacts.interleave_cons; [|done|reflexivity].
  cbn [list_insert ins_key ins_value interleave].
  assert (Ha : a1 ≠ a2).
  { intros Heq. pose proof (fresh_None (nodes m3)) as Hf. fold a2 in Hf.
    rewrite <-Heq in Hf. simpl in Hf. by rewrite lookup_insert_eq in Hf. }
  eexists _, i, a1, a2, (mkNode k (Some c1) None false),
    (mkNode k (Some c2) (Some a1) false).
  split_and!; [reflexivity| | | |done| |done|done|done|done|done|done|done].
  - rewrite <-Hi. apply HashMapFacts.bucket_index_length.
    cbn [buckets_ set_bucket]. change (buckets_ m4) with (<[i := Some a1]> (buckets_ m0)).
    by rewrite !length_insert.
  - unfold bucket. cbn [buckets_ set_bucket].
    change (buckets_ m4) with (<[i := Some a1]> (buckets_ m0)).
    rewrite list_lookup_insert_eq; [done|]. by rewrite length_insert, Hlen0.
  - simpl. apply lookup_insert_eq.
  - simpl. rewrite lookup_insert_ne by done. apply lookup_insert_eq.
Qed.

End HashMapClaims.

(** ** The thread pool *)

Section ThreadPoolClaims.
Context {R E : Type}.
Import ThreadPool.

(** C6 (fails on the code). A pool with one worker; the client submits a
    work unit and calls [wait].  If the worker has taken the unit from the
    queue but not yet counted it in [active_tasks_], [wait] sees no active
    task and an empty queue and returns, [active_tasks()] and
    [queued_tasks()] answer 0, and the unit has not run: its handle is
    empty.  If the worker takes and counts the unit between the two loops
    of [wait], [wait] returns while [active_tasks()] is 1. *)
Theorem wait_returns_before_the_work_is_done (f : unit → outcome R E) :
  (∃ sys future,
     run 2 early_wait_schedule
       (start 1 [Submit f; Wait; ActiveTasks; QueuedTasks]) = Ok sys ∧
     program (owner sys) = [] ∧
     log (owner sys) = [OWait; OActive 0; OQueued 0] ∧
     futures (owner sys) = [future] ∧
     future_get (shared sys) future = None ∧
     workers_ (pool (shared sys)) = [WGot future]) ∧
  (∃ sys,
     run 2 late_count_schedule
       (start 1 [Submit f; Wait; ActiveTasks]) = Ok sys ∧
     program (owner sys) = [] ∧
     log (owner sys) = [OWait; OActive 1]).
Proof.
  split.
  - eexists _, _. split; [vm_compute; reflexivity|]. by split_and!.
  - eexists. split; [vm_compute; reflexivity|]. by split_and!.
Qed.

(** C7 (fails on the code). A pool with two workers; the client submits
    a work unit, whatever it does, and each worker passes the test of
    [stop_]: both workers are at their call of [task_queue_.dequeue()]
    while the queue holds the task and the handle is empty.  Nothing keeps
    the two calls apart.  Their accesses can interleave so that both
    workers move the same task out of the queue, after which each of them
    deletes it, or so that the second worker moves the task out of the
    object the first has deleted: undefined behaviour of [dequeue]. *)
Theorem two_workers_take_one_task (fuel : nat) (f : unit → outcome R E)
    (prog : list (cmd R E)) :
  ∃ sys future,
    run fuel Examples.crowding_schedule (start 2 (Submit f :: prog)) = Ok sys ∧
    futures (owner sys) = [future] ∧
    future_get (shared sys) future = None ∧
    workers_ (pool (shared sys)) = [WDequeue; WDequeue] ∧
    (∃ head next data q,
       QueueThreads.race_store QueueThreads.sharing_schedule
         [QueueThreads.SHead; QueueThreads.SHead]
         (task_queue_ (pool (shared sys))) =
         Ok ([QueueThreads.SDelete head next data future;
              QueueThreads.SDelete head next data future], q)) ∧
    QueueThreads.race_store (QueueThreads.sharing_schedule ++ [0; 1])
      [QueueThreads.SHead; QueueThreads.SHead]
      (task_queue_ (pool (shared sys))) = UB ∧
    QueueThreads.race_store QueueThreads.colliding_schedule
      [QueueThreads.SHead; QueueThreads.SHead]
      (task_queue_ (pool (shared sys))) = UB.
Proof.
  eexists _, _. split; [vm_compute; reflexivity|].
  split_and!; [reflexivity|reflexivity|reflexivity| | |].
  - eexists _, _, _, _. vm_compute. reflexivity.
  - vm_compute. reflexivity.
  - vm_compute. reflexivity.
Qed.

(** C8. A pool asked for 0 workers has one worker, and a pool has at
    least one worker whatever it is asked for.  On the pool asked for 0
    workers a submitted work unit is run and its handle yields its result.
    Under every schedule no thread dies and the handle yields nothing but
    that result; and whatever the schedule was so far, once the worker and
    the client have taken the turns of [serving_turns 2] (thirteen turns of
    the worker and one of the client, twice, and thirteen more of the
    worker) the call of [get] has returned the result of the unit.  The
    worker is the only thread at the head of the task queue. *)
Theorem zero_workers_become_one (fuel : nat) (f : unit → outcome R E)
    (schedule : list nat) :
  length (workers_ (new_pool 0 : ThreadPool)) = 1 ∧
  (∀ n, 1 ≤ length (workers_ (new_pool n : ThreadPool))) ∧
  (∃ sys,
     run fuel serving_schedule (start 0 [Submit f; Get 0]) = Ok sys ∧
     program (owner sys) = [] ∧
     log (owner sys) = [OGet 0 (f tt)] ∧
     alive sys) ∧
  (∃ sys,
     run (3 + fuel) schedule (start 0 [Submit f; Get 0]) = Ok sys ∧
     alive sys ∧
     ∀ i o, OGet i o ∈ log (owner sys) → i = 0 ∧ o = f tt) ∧
  (∃ sys future,
     run fuel (schedule ++ serving_turns 2) (start 0 [Submit f; Get 0]) = Ok sys ∧
     program (owner sys) = [] ∧
     log (owner sys) = [OGet 0 (f tt)] ∧
     futures (owner sys) = [future] ∧
     future_get (shared sys) future = Some (f tt) ∧
     alive sys).
Proof.
  split_and!.
  - done.
  - intros n. unfold new_pool. simpl. rewrite length_replicate.
    destruct (decide (n = 0)); lia.
  - eexists. split; [vm_compute; reflexivity|]. split_and!; [done|done|].
    split; [by repeat constructor|done].
  - destruct (ThreadPoolFacts.run_Inv [Submit f; Get 0] (3 + fuel) schedule)
      with (sys := start 0 [Submit f; Get 0]) as (sys & Hrun & l & _ & HI).
    { simpl. lia. }
    { apply ThreadPoolFacts.start_Inv. }
    exists sys. split_and!; [done|apply HI|].
    intros i o Hin. destruct (inv_log _ _ _ _ _ HI i o Hin) as (g & Hg & ->).
    destruct i as [|[|i]]; simpl in Hg; [by injection Hg as <-|done|done].
  - destruct (ThreadPoolServeFacts.serves 0 [Submit f; Get 0] fuel schedule)
      as (sys & Hrun & Hp & Hal & Hlog & Hfut); [done|].
    simpl in Hlog, Hfut.
    apply Forall2_cons_inv_r in Hlog as (o & lg & Ho & Hlg & Hlog).
    apply Forall2_nil_inv_r in Hlg as ->.
    apply Forall2_cons_inv_l in Hfut as (future & futs & Hf & Hfs & Hfut).
    apply Forall2_nil_inv_l in Hfs as ->.
    exists sys, future. split_and!; try done.
    rewrite Hlog. by destruct o; simpl in Ho; try done; rewrite Ho.
Qed.

End ThreadPoolClaims.

(** ** The claims at concrete inputs *)

Lemma queue_variants_equivalent_witness :
  Queue.fuel_covers 10 Examples.queue_ops ∧
  ∃ rs q1 q2,
    Queue.run (Queue.step_store 10) Queue.new_queue Examples.queue_ops = Ok (rs, q1) ∧
    Queue.run (Queue.step_cas 10) Queue.new_queue Examples.queue_ops = Ok (rs, q2).
Proof.
  assert (Hc : Queue.fuel_covers 10 Examples.queue_ops).
  { split; [simpl; lia|]. repeat constructor; simpl; lia. }
  split; [exact Hc|]. exact (queue_variants_equivalent Z 10 Examples.queue_ops Hc).
Defined.

Lemma size_counts_a_marked_node_witness :
  1 ≤ 4 ∧
  HashMap.fuel_covers 10
    ([] ++ [HashMap.Insert [] 1 100; HashMap.Insert [] 5 500; HashMap.Erase [true] 1;
            HashMap.Contains 1; HashMap.Insert [] 1 7]) ∧
  HashMap.erase_undisturbed ([] : list (HashMap.op nat nat)) ∧
  5 ≠ 1 ∧
  (5 ∉ HashMap.live_keys ([] : list (HashMap.op nat nat))) ∧
  HashMap.bucket_of Examples.hash_nat 4 5 = HashMap.bucket_of Examples.hash_nat 4 1 ∧
  (Z.of_nat (length ([] : list (HashMap.op nat nat))) + 3 < 2 ^ SIZE_BITS)%Z ∧
  ∃ rs b m m',
    HashMap.run Examples.hash_nat 10 (HashMap.new_map 4)
      ([] ++ [HashMap.Insert [] 1 100; HashMap.Insert [] 5 500;
              HashMap.Erase [true] 1]) =
      Ok (rs ++ [HashMap.RInsert b; HashMap.RInsert true; HashMap.RErase false], m) ∧
    HashMap.size m =
      (Z.of_nat (base.size (HashMap.live_keys
         ([] ++ [HashMap.Insert [] 1 100; HashMap.Insert [] 5 500;
                 HashMap.Erase [true] 1]))) + 1)%Z ∧
    HashMap.run Examples.hash_nat 10 m [HashMap.Contains 1; HashMap.Insert [] 1 7] =
      Ok ([HashMap.RContains false; HashMap.RInsert true], m') ∧
    HashMap.size m' =
      (Z.of_nat (base.size (HashMap.live_keys
         ([] ++ [HashMap.Insert [] 1 100; HashMap.Insert [] 5 500;
                 HashMap.Erase [true] 1; HashMap.Contains 1;
                 HashMap.Insert [] 1 7]))) + 1)%Z.
Proof.
  assert (H1 : 1 ≤ 4) by lia.
  assert (H2 : HashMap.fuel_covers 10
    ([] ++ [HashMap.Insert [] 1 100; HashMap.Insert [] 5 500; HashMap.Erase [true] 1;
            HashMap.Contains 1; HashMap.Insert [] 1 7])).
  { split; [simpl; lia|]. repeat constructor; simpl; lia. }
  assert (H3 : HashMap.erase_undisturbed ([] : list (HashMap.op nat nat))).
  { constructor. }
  assert (H4 : 5 ≠ 1) by lia.
  assert (H5 : 5 ∉ HashMap.live_keys ([] : list (HashMap.op nat nat))).
  { vm_compute. intros Hin. discriminate Hin. }
  assert (H6 : HashMap.bucket_of Examples.hash_nat 4 5 =
               HashMap.bucket_of Examples.hash_nat 4 1) by reflexivity.
  assert (H7 : (Z.of_nat (length ([] : list (HashMap.op nat nat))) + 3 < 2 ^ SIZE_BITS)%Z).
  { vm_compute. reflexivity. }
  split_and!; [exact H1|exact H2|exact H3|exact H4|exact H5|exact H6|exact H7|].
  exact (size_counts_a_marked_node Examples.hash_nat 4 10 [] 1 5 100 500 7
           [] [] [] [] H1 H2 H3 H4 H5 H6 H7).
Defined.

Lemma insert_then_get_witness :
  1 ≤ 4 ∧
  HashMap.fuel_covers 10
    (Examples.map_ops ++
     [HashMap.Insert [true] 1 7; HashMap.Insert [] 1 8; HashMap.Insert [true; true] 1 9]) ∧
  HashMap.erase_undisturbed Examples.map_ops ∧
  (∃ rs b m,
     HashMap.run Examples.hash_nat 10 (HashMap.new_map 4)
       (Examples.map_ops ++ [HashMap.Insert [true] 1 7; HashMap.Get 1]) =
       Ok (rs ++ [HashMap.RInsert b; HashMap.RGet (Some 7)], m)) ∧
  (∃ rs b m,
     HashMap.run Examples.hash_nat 10 (HashMap.new_map 4)
       (Examples.map_ops ++
        [HashMap.Insert [] 1 8; HashMap.Insert [true; true] 1 9; HashMap.Get 1]) =
       Ok (rs ++ [HashMap.RInsert b; HashMap.RInsert false; HashMap.RGet (Some 9)], m) ∧
     (1 ∉ HashMap.live_keys Examples.map_ops → b = true)).
Proof.
  assert (H1 : 1 ≤ 4) by lia.
  assert (H2 : HashMap.fuel_covers 10
    (Examples.map_ops ++
     [HashMap.Insert [true] 1 7; HashMap.Insert [] 1 8; HashMap.Insert [true; true] 1 9])).
  { split; [simpl; lia|]. repeat constructor; simpl; lia. }
  assert (H3 : HashMap.erase_undisturbed Examples.map_ops).
  { repeat constructor. }
  split_and!; [exact H1|exact H2|exact H3| |];
    apply (insert_then_get Examples.hash_nat 4 10 Examples.map_ops 1 7 8 9
             [true] [] [true; true] H1 H2 H3).
Defined.

Lemma erase_misses_after_insert_witness :
  1 ≤ 4 ∧
  HashMap.fuel_covers 10
    ([] ++ [HashMap.Insert [] 1 100; HashMap.Insert [] 5 500; HashMap.Insert [] 1 7]) ∧
  HashMap.erase_undisturbed ([] : list (HashMap.op nat nat)) ∧
  5 ≠ 1 ∧
  (5 ∉ HashMap.live_keys ([] : list (HashMap.op nat nat))) ∧
  HashMap.bucket_of Examples.hash_nat 4 5 = HashMap.bucket_of Examples.hash_nat 4 1 ∧
  ∃ rs b m,
    HashMap.run Examples.hash_nat 10 (HashMap.new_map 4)
      ([] ++ [HashMap.Insert [] 1 100; HashMap.Insert [] 5 500; HashMap.Insert [] 1 7;
              HashMap.Get 1; HashMap.Erase [true] 1; HashMap.Contains 1]) =
      Ok (rs ++ [HashMap.RInsert b; HashMap.RInsert true; HashMap.RInsert false;
                 HashMap.RGet (Some 7); HashMap.RErase false;
                 HashMap.RContains false], m).
Proof.
  assert (H1 : 1 ≤ 4) by lia.
  assert (H2 : HashMap.fuel_covers 10
    ([] ++ [HashMap.Insert [] 1 100; HashMap.Insert [] 5 500; HashMap.Insert [] 1 7])).
  { split; [simpl; lia|]. repeat constructor; simpl; lia. }
  assert (H3 : HashMap.erase_undisturbed ([] : list (HashMap.op nat nat))).
  { constructor. }
  assert (H4 : 5 ≠ 1) by lia.
  assert (H5 : 5 ∉ HashMap.live_keys ([] : list (HashMap.op nat nat))).
  { vm_compute. intros Hin. discriminate Hin. }
  assert (H6 : HashMap.bucket_of Examples.hash_nat 4 5 =
               HashMap.bucket_of Examples.hash_nat 4 1) by reflexivity.
  split_and!; [exact H1|exact H2|exact H3|exact H4|exact H5|exact H6|].
  exact (erase_misses_after_insert Examples.hash_nat 4 10 [] 1 5 100 500 7
           [] [] [] [] H1 H2 H3 H4 H5 H6).
Defined.

Lemma bucket_index_in_range_witness :
  1 ≤ 4 ∧
  (∃ rs m,
     HashMap.run Examples.hash_nat 10 (HashMap.new_map 4) Examples.map_ops = Ok (rs, m) ∧
     length (HashMap.buckets_ m) = 4 ∧
     ∃ i p, HashMap.bucket_index Examples.hash_nat m 13 = Ok i ∧ i < 4 ∧
            HashMap.bucket m i = Ok p).
Proof.
  split; [lia|].
  eexists _, _. split; [vm_compute; reflexivity|].
  refine (proj1 (bucket_index_in_range Examples.hash_nat 4 10 Examples.map_ops
                   _ _ 13 _ _)); [lia|vm_compute; reflexivity].
Defined.

(** ** A spurious failure inside [erase]

    The loop that unlinks the head of a chain repeats its compare-exchange;
    the unlinking of a node inside a chain leaves on a failed
    compare-exchange and [erase] searches again, but the node is marked by
    then and is not found: [erase] answers false for a key that was live,
    the marked node stays in the chain and [size_] still counts it. *)
Remark erase_disturbed_inside_a_chain :
  ∃ m,
    HashMap.run Examples.hash_nat 10 (HashMap.new_map 4) Examples.disturbed_ops =
      Ok ([HashMap.RInsert true; HashMap.RInsert true; HashMap.RErase false;
           HashMap.RContains false; HashMap.RInsert true], m) ∧
    HashMap.size m = 3%Z ∧
    base.size (HashMap.live_keys Examples.disturbed_ops) = 2.
Proof. eexists. split; [vm_compute; reflexivity|]. split; [done|]. by vm_compute. Qed.

(* ===================================================================== *)
(** * Further properties *)
(* ===================================================================== *)

(** ** The queue *)

(** X1. The queue of [lockfree_queue.hpp], used by one thread, is a
    first-in first-out queue: on every sequence of calls from a fresh
    queue each call returns what the list model returns; [enqueue] true,
    [dequeue] the oldest element still queued or nothing, [empty] whether
    nothing is queued, [approximate_size] the number of queued elements
    (modulo 2^64). *)
Theorem store_queue_is_fifo (T : Type) (fuel : nat) (ops : list (Queue.op T)) :
  length ops < fuel →
  ∃ q, Queue.run (Queue.step_store fuel) Queue.new_queue ops =
         Ok ((Queue.fifo_run [] ops).1, q).
Proof. apply QueueFacts.run_store_spec. Qed.

(** X2. So is the second copy of the queue, whatever compare-exchanges of
    its [dequeue] fail spuriously. *)
Theorem cas_queue_is_fifo (T : Type) (fuel : nat) (ops : list (Queue.op T)) :
  Queue.fuel_covers fuel ops →
  ∃ q, Queue.run (Queue.step_cas fuel) Queue.new_queue ops =
         Ok ((Queue.fifo_run [] ops).1, q).
Proof. apply QueueFacts.run_cas_spec. Qed.

(** X3. The queue of [lockfree_queue.hpp] frees what it dequeues: after
    every sequence of calls the heap holds one element object per
    [enqueue] that no [dequeue] has returned yet, and one node more than
    element objects (the dummy node). *)
Theorem store_queue_heap (T : Type) (fuel : nat) (ops : list (Queue.op T)) :
  length ops < fuel →
  ∃ rs q,
    Queue.run (Queue.step_store fuel) Queue.new_queue ops = Ok (rs, q) ∧
    base.size (Queue.cells q) + Queue.served rs = Queue.enqueued ops ∧
    base.size (Queue.nodes q) = S (base.size (Queue.cells q)).
Proof.
  intros Hfuel.
  destruct (QueueHeapFacts.run_store_inv fuel ops Hfuel) as (q & Hrun & [Hacc _]).
  pose proof (QueueHeapFacts.fifo_run_count ops []) as Hcount.
  destruct Hacc as [_ Hns Hcs].
  exists (Queue.fifo_run [] ops).1, q. split_and!; [done| |]; simpl in *; lia.
Qed.

(** X4. The second copy of the queue frees the element objects it
    dequeues but no node: after every sequence of calls the heap holds one
    node per [enqueue] and the first dummy node. *)
Theorem cas_queue_heap (T : Type) (fuel : nat) (ops : list (Queue.op T)) :
  Queue.fuel_covers fuel ops →
  ∃ rs q,
    Queue.run (Queue.step_cas fuel) Queue.new_queue ops = Ok (rs, q) ∧
    base.size (Queue.cells q) + Queue.served rs = Queue.enqueued ops ∧
    base.size (Queue.nodes q) = S (Queue.enqueued ops).
Proof.
  intros Hfuel.
  destruct (QueueHeapFacts.run_cas_inv fuel ops Hfuel) as (q & Hrun & [Hacc _]).
  pose proof (QueueHeapFacts.fifo_run_count ops []) as Hcount.
  destruct Hacc as [_ Hns Hcs].
  exists (Queue.fifo_run [] ops).1, q. split_and!; [done| |]; simpl in *; lia.
Qed.

(** X5. The destructor of the queue of [lockfree_queue.hpp], on a queue
    from which no [dequeue] has returned an element, frees every node and
    every element object. *)
Theorem store_queue_destroy_clean (T : Type) (fuel : nat) (ops : list (Queue.op T)) :
  length ops < fuel →
  ∃ rs q,
    Queue.run (Queue.step_store fuel) Queue.new_queue ops = Ok (rs, q) ∧
    (Queue.served rs = 0 → Queue.destroy fuel q = Ok (∅, ∅)).
Proof.
  intros Hfuel.
  destruct (QueueHeapFacts.run_store_inv fuel ops Hfuel)
    as (q & Hrun & [Hacc (hn & Hhn & Hdata)]).
  pose proof (QueueHeapFacts.fifo_run_count ops []) as Hcount.
  exists (Queue.fifo_run [] ops).1, q. split; [done|]. intros Hnone.
  destruct (QueueHeapFacts.destroy_clean fuel q _ 0 Hacc) as (ns & Hd & Hsz).
  - exists hn. split; [done|]. by apply Hdata.
  - pose proof (QueueHeapFacts.enqueued_le ops). simpl in *. lia.
  - apply map_size_empty_inv in Hsz. by rewrite Hsz in Hd.
Qed.

(** X6. [dequeue] of [lockfree_queue.hpp] deletes the element object and
    leaves its address in the node that becomes the dummy node; the
    destructor deletes the [data] of every node from [head_].  So once a
    [dequeue] has returned an element, the destructor deletes an object
    that is deleted already, whatever calls were made in between. *)
Theorem store_queue_destroy_twice (T : Type) (fuel : nat) (ops : list (Queue.op T)) :
  length ops < fuel →
  ∃ rs q,
    Queue.run (Queue.step_store fuel) Queue.new_queue ops = Ok (rs, q) ∧
    (Queue.served rs ≠ 0 → Queue.destroy fuel q = UB).
Proof.
  intros Hfuel.
  destruct (QueueHeapFacts.run_store_inv fuel ops Hfuel)
    as (q & Hrun & [Hacc (hn & Hhn & Hdata)]).
  pose proof (QueueHeapFacts.fifo_run_count ops []) as Hcount.
  exists (Queue.fifo_run [] ops).1, q. split; [done|]. intros Hsome.
  apply (QueueHeapFacts.destroy_dangling fuel q _ Hacc).
  - exists hn. split; [done|]. destruct (Queue.data hn); [done|].
    exfalso. by apply Hsome, Hdata.
  - pose proof (QueueHeapFacts.enqueued_le ops). simpl in *. lia.
Qed.

(** X7. The destructor of the second copy of the queue deletes no object
    twice and frees every element object, but it starts at [head_]: the
    nodes that [dequeue] has passed, one per element returned, are never
    freed. *)
Theorem cas_queue_destroy (T : Type) (fuel : nat) (ops : list (Queue.op T)) :
  Queue.fuel_covers fuel ops →
  ∃ rs q ns,
    Queue.run (Queue.step_cas fuel) Queue.new_queue ops = Ok (rs, q) ∧
    Queue.destroy fuel q = Ok (ns, ∅) ∧
    base.size ns = Queue.served rs.
Proof.
  intros Hfuel.
  destruct (QueueHeapFacts.run_cas_inv fuel ops Hfuel) as (q & Hrun & [Hacc Hhead]).
  pose proof (QueueHeapFacts.fifo_run_count ops []) as Hcount.
  destruct (QueueHeapFacts.destroy_clean fuel q _ _ Hacc Hhead) as (ns & Hd & Hsz).
  - destruct Hfuel as [Hfuel _].
    pose proof (QueueHeapFacts.enqueued_le ops). simpl in *. lia.
  - by exists (Queue.fifo_run [] ops).1, q, ns.
Qed.

(** X16. The second copy of the queue is safe for any number of threads
    that each run one [enqueue] or [dequeue], under every interleaving of
    their atomic actions and whatever compare-exchanges fail spuriously:
    no action is undefined, and once every call has returned the elements
    dequeued are the [k] oldest of the queue, each handed out once, where
    the queue is what it held before followed by the enqueued items in
    some order; what is left is queued in that order for the calls that
    follow. *)
Theorem cas_queue_threads (T : Type) (fuel : nat) (ops : list (Queue.op T))
    (calls : list (QueueThreads.call T)) (schedule : list (nat * bool)) :
  Queue.fuel_covers fuel ops →
  ∃ rs q ts q',
    Queue.run (Queue.step_cas fuel) Queue.new_queue ops = Ok (rs, q) ∧
    QueueThreads.race schedule (QueueThreads.start <$> calls) q = Ok (ts, q') ∧
    (Forall QueueThreads.returned ts →
     ∃ order k,
       order ≡ₚ QueueThreads.items calls ∧
       QueueThreads.dequeued ts ≡ₚ take k ((Queue.fifo_run [] ops).2 ++ order) ∧
       ∀ fuel' ops',
         Queue.fuel_covers fuel' ops' →
         length (drop k ((Queue.fifo_run [] ops).2 ++ order)) + length ops' < fuel' →
         ∃ q'', Queue.run (Queue.step_cas fuel') q' ops' =
                  Ok ((Queue.fifo_run (drop k ((Queue.fifo_run [] ops).2 ++ order)) ops').1,
                      q'')).
Proof.
  intros Hcov.
  destruct (QueueHeapFacts.run_cas_inv fuel ops Hcov) as (q & Hrun & [[Hwf _ _] _]).
  destruct (QueueThreadsFacts.race_spec calls schedule q _ Hwf)
    as (ts & q' & Hrace & Hquiet).
  exists (Queue.fifo_run [] ops).1, q, ts, q'. split_and!; [done|done|]. intros Hret.
  destruct (Hquiet Hret) as (order & k & Hperm & Hdeq & Hwf').
  exists order, k. split_and!; [done|done|]. intros fuel' ops' [Hlen Hsp] Hfuel.
  destruct (QueueFacts.run_refines_fifo (T := T) (Queue.step_cas fuel')
    (λ o, match o with Queue.Dequeue sp => length sp < fuel' | _ => True end) fuel') with
    (ops := ops') (q := q') (l := drop k ((Queue.fifo_run [] ops).2 ++ order))
    as (q'' & Hq'' & _); try done.
  - intros q0 l o Hwf0 Hl Ho. by apply QueueFacts.step_cas_spec.
  - by exists q''.
Qed.

(** X17. The second copy of the queue is obstruction-free: from every
    state the threads can reach, a thread that takes ten turns in a row
    without a spurious failure of its compare-exchange has returned from
    its call. *)
Theorem cas_queue_obstruction_free (T : Type) (fuel : nat) (ops : list (Queue.op T))
    (calls : list (QueueThreads.call T)) (schedule : list (nat * bool)) (t : nat) :
  Queue.fuel_covers fuel ops → t < length calls →
  ∃ rs q ts q' pc,
    Queue.run (Queue.step_cas fuel) Queue.new_queue ops = Ok (rs, q) ∧
    QueueThreads.race (schedule ++ replicate 10 (t, false))
      (QueueThreads.start <$> calls) q = Ok (ts, q') ∧
    ts !! t = Some pc ∧ QueueThreads.returned pc.
Proof.
  intros Hcov Ht.
  destruct (QueueHeapFacts.run_cas_inv fuel ops Hcov) as (q & Hrun & [[Hwf _ _] _]).
  destruct (QueueThreadsFacts.Race_start calls q _ Hwf) as (g & HR).
  destruct (QueueThreadsFacts.race_Race calls _ schedule _ _ _ HR)
    as (ts1 & q1 & g1 & Hrace1 & HR1).
  destruct (lookup_lt_is_Some_2 ts1 t) as [pc1 Hpc1].
  { by rewrite (QueueThreads.race_calls _ _ _ _ _ HR1). }
  destruct (QueueThreadsFacts.race_alone calls _ t 10 ts1 q1 g1 pc1 HR1 Hpc1)
    as (pc & q' & g' & Hrace & _ & Hret).
  { apply QueueThreadsFacts.budget_le. }
  exists (Queue.fifo_run [] ops).1, q, (<[t := pc]> ts1), q', pc.
  split_and!; [done| | |done].
  - by rewrite (QueueThreadsFacts.race_app _ _ _ _ _ _ Hrace1).
  - apply list_lookup_insert_eq. by eapply lookup_lt_Some.
Qed.

(** X18. [dequeue] of [lockfree_queue.hpp] is not safe for two consumers:
    on every queue that holds an element, when two threads call [dequeue]
    and both load the [data] pointer of the first element before one of
    them deletes the element, the other moves out of a deleted object. *)
Theorem store_queue_consumers_collide (T : Type) (fuel : nat) (ops : list (Queue.op T)) :
  length ops < fuel → (Queue.fifo_run [] ops).2 ≠ [] →
  ∃ rs q,
    Queue.run (Queue.step_store fuel) Queue.new_queue ops = Ok (rs, q) ∧
    QueueThreads.race_store QueueThreads.colliding_schedule
      [QueueThreads.SHead; QueueThreads.SHead] q = UB.
Proof.
  intros Hfuel Hne.
  destruct (QueueHeapFacts.run_store_inv fuel ops Hfuel) as (q & Hrun & [[Hwf _ _] _]).
  exists (Queue.fifo_run [] ops).1, q. split; [done|].
  destruct (Queue.fifo_run [] ops).2 as [|v vs]; [done|].
  by eapply QueueThreadsFacts.dequeue_collision.
Qed.

(** X19. A [dequeue] of the second copy can return nothing although the
    queue is never empty during the call: on a queue that holds [a], [b]
    and more, a thread that loads [head_], is overtaken by a complete
    [dequeue] of another thread (which returns [a]) and goes on, finds the
    [data] pointer of the next node cleared and returns nothing, while [b]
    is still queued. *)
Theorem dequeue_overtaken_misses (T : Type) (fuel : nat) (ops : list (Queue.op T))
    (a b : T) (vs : list T) :
  Queue.fuel_covers fuel ops → (Queue.fifo_run [] ops).2 = a :: b :: vs →
  ∃ rs q q' q'',
    Queue.run (Queue.step_cas fuel) Queue.new_queue ops = Ok (rs, q) ∧
    QueueThreads.race QueueThreads.overtaking_schedule
      [QueueThreads.QHead; QueueThreads.QHead] q =
      Ok ([QueueThreads.QDequeued (Some a); QueueThreads.QDequeued None], q') ∧
    Queue.dequeue_cas 1 [] q' = Ok (Some b, q'').
Proof.
  intros Hcov Hl.
  destruct (QueueHeapFacts.run_cas_inv fuel ops Hcov) as (q & Hrun & [[Hwf _ _] _]).
  rewrite Hl in Hwf.
  destruct (QueueThreadsFacts.dequeue_overtaken q a b vs Hwf) as (q' & Hrace & Hwf').
  destruct (QueueFacts.dequeue_cas_spec 1 [] q' _ ltac:(simpl; lia) Hwf') as (q'' & Hq'' & _).
  by exists (Queue.fifo_run [] ops).1, q, q', q''.
Qed.

(** X20. An [enqueue] that has returned can stay invisible: on an empty
    queue, while a thread is between the exchange on [tail_] and the store
    that links its node, the [enqueue] of a second thread runs to its
    return, and a [dequeue] that starts after that return finds nothing. *)
Theorem enqueue_hidden_behind_stalled (T : Type) (fuel : nat) (ops : list (Queue.op T))
    (v1 v2 : T) :
  Queue.fuel_covers fuel ops → (Queue.fifo_run [] ops).2 = [] →
  ∃ rs q prev new q',
    Queue.run (Queue.step_cas fuel) Queue.new_queue ops = Ok (rs, q) ∧
    QueueThreads.race QueueThreads.stalling_schedule
      [QueueThreads.QAllocate v1; QueueThreads.QAllocate v2; QueueThreads.QHead] q =
      Ok ([QueueThreads.QLink prev new; QueueThreads.QEnqueued true;
           QueueThreads.QDequeued None], q').
Proof.
  intros Hcov Hl.
  destruct (QueueHeapFacts.run_cas_inv fuel ops Hcov) as (q & Hrun & [[Hwf _ _] _]).
  rewrite Hl in Hwf.
  destruct (QueueThreadsFacts.enqueue_stalled q v1 v2 Hwf) as (prev & new & q' & Hrace).
  by exists (Queue.fifo_run [] ops).1, q, prev, new, q'.
Qed.

(** X29. The queue of [lockfree_queue.hpp] is safe and wait-free for one
    producer and one consumer.  On every queue one thread can make, while
    one thread calls [enqueue] for each of [items] and another calls
    [dequeue] [calls] times, their atomic actions interleaved in any
    order: no action is undefined; the elements the [dequeue]s have returned so far
    are the first of the elements queued at the start followed by
    [items], in this order; once every call has returned there are
    [calls] answers and the queue is well formed and holds the other
    elements in order; and every call has returned once the producer has
    had three turns per [enqueue] and the consumer seven per
    [dequeue]. *)
Theorem one_producer_one_consumer (T : Type) (fuel : nat) (ops : list (Queue.op T))
    (items : list T) (calls : nat) (schedule : list bool) :
  length ops < fuel →
  ∃ rs q d q',
    Queue.run (Queue.step_store fuel) Queue.new_queue ops = Ok (rs, q) ∧
    QueueDuet.duet_race schedule (QueueDuet.duet_start items calls) q = Ok (d, q') ∧
    QueueDuet.taken d `prefix_of` (Queue.fifo_run [] ops).2 ++ items ∧
    (QueueDuet.duet_done d = true →
     length (QueueDuet.took d) = calls ∧
     ∃ l, Queue.wf q' l ∧ QueueDuet.taken d ++ l = (Queue.fifo_run [] ops).2 ++ items) ∧
    (3 * length items ≤ QueueDuet.turns true schedule →
     7 * calls ≤ QueueDuet.turns false schedule → QueueDuet.duet_done d = true).
Proof. apply QueueDuetFacts.duet_spec. Qed.

(** ** The hash map *)

Section HashMapMore.
Context {Key Value : Type} `{Countable Key}.
Variable hasher_ : Key → N.
Import HashMap.

(** X8. Used by one thread, with no spurious failure inside [erase], the
    map is a finite map: on every sequence of calls from a fresh map with
    at least one bucket each call returns what the finite map returns;
    [insert] whether the key was absent, [get] the value last inserted for
    the key if it was not erased since, [erase] and [contains] whether the
    key is present. *)
Theorem map_is_finite_map (n fuel : nat) (ops : list (op Key Value)) :
  1 ≤ n → fuel_covers fuel ops → erase_undisturbed ops →
  ∃ m, run hasher_ fuel (new_map n) ops = Ok ((map_run ∅ ops).1, m).
Proof.
  intros Hn Hfuel Her.
  destruct (HashMapFacts.run_new_map hasher_ n fuel ops Hn Hfuel Her) as (m & Hrun & _).
  by exists m.
Qed.

(** X9. A call about one key changes nothing for another key, also when
    both keys lie in one bucket: [get(k')] returns the same with and
    without a call [o] about a key other than [k'] before it.  The calls
    are those of one thread, with no spurious failure inside an
    [erase]. *)
Theorem other_keys_untouched (n fuel : nat) (ops : list (op Key Value))
    (o : op Key Value) (k' : Key) :
  1 ≤ n → fuel_covers fuel (ops ++ [o; Get k']) → erase_undisturbed (ops ++ [o]) →
  op_key o ≠ k' →
  ∃ rs r r' m m',
    run hasher_ fuel (new_map n) (ops ++ [Get k']) = Ok (rs ++ [RGet r], m) ∧
    run hasher_ fuel (new_map n) (ops ++ [o; Get k']) = Ok (rs ++ [r'; RGet r], m').
Proof.
  intros Hn [Hfuel Hsp] Her Hk.
  rewrite length_app in Hfuel. simpl in Hfuel.
  apply Forall_app in Hsp as [Hsp Hspo]. apply Forall_cons in Hspo as [Hspo _].
  apply Forall_app in Her as [Her Hero]. apply Forall_cons in Hero as [Hero _].
  destruct (HashMapFacts.run_new_map hasher_ n fuel (ops ++ [Get k']) Hn)
    as (m & Hrun & _).
  { split; [rewrite length_app; simpl; lia|].
    apply Forall_app. split; [done|]. by repeat constructor. }
  { apply Forall_app. split; [done|]. by repeat constructor. }
  destruct (HashMapFacts.run_new_map hasher_ n fuel (ops ++ [o; Get k']) Hn)
    as (m' & Hrun' & _).
  { split; [rewrite length_app; simpl; lia|].
    apply Forall_app. split; [done|]. by repeat constructor. }
  { apply Forall_app. split; [done|]. by repeat constructor. }
  rewrite HashMapFacts.map_run_app in Hrun, Hrun'. simpl in Hrun, Hrun'.
  set (M := (map_run ∅ ops).2) in *.
  assert (Hsame : (map_step M o).2 !! k' = M !! k').
  { destruct o as [sp k v|k|sp k|k]; simpl in *; try done.
    - by rewrite lookup_insert_ne.
    - by rewrite lookup_delete_ne. }
  destruct (map_step M o) as [r' M'] eqn:Hstep. simpl in *.
  rewrite Hsame in Hrun'. by eexists _, _, _, _, _.
Qed.

(** X10. The map frees what it replaces and what it erases: after every
    such sequence of calls the heap holds one node and one value object
    per live key. *)
Theorem map_heap_exact (n fuel : nat) (ops : list (op Key Value)) :
  1 ≤ n → fuel_covers fuel ops → erase_undisturbed ops →
  ∃ rs m,
    run hasher_ fuel (new_map n) ops = Ok (rs, m) ∧
    base.size (nodes m) = base.size (live_keys ops) ∧
    base.size (values m) = base.size (live_keys ops).
Proof.
  intros Hn [Hfuel Hsp] Her.
  destruct (HashMapHeapFacts.run_tight hasher_ fuel ops (new_map n) ∅)
    as (m & Hrun & [_ Hns Hvs]).
  - by apply HashMapHeapFacts.new_map_tight.
  - rewrite map_size_empty. simpl. lia.
  - done.
  - done.
  - exists (map_run ∅ ops).1, m.
    by rewrite HashMapFacts.live_keys_size.
Qed.

(** X11. [erase] does not repeat the compare-exchange that unlinks a node
    from inside a chain.  After [insert(k,v)] and an [insert] of an absent
    key [k0] of the same bucket, the node of [k] is behind the node of
    [k0]; if the compare-exchange of [erase(k)] then fails spuriously,
    [erase(k)] returns false, [k] is not found any more and [size()] is
    what it was. *)
Theorem erase_misses_behind_head (n fuel : nat) (ops : list (op Key Value))
    (k k0 : Key) (v v0 : Value) (sp0 sp1 sp : list bool) :
  1 ≤ n →
  fuel_covers fuel (ops ++ [Insert sp0 k v; Insert sp1 k0 v0]) →
  erase_undisturbed ops →
  k0 ≠ k → k0 ∉ live_keys ops →
  bucket_of hasher_ n k0 = bucket_of hasher_ n k →
  ∃ rs b m m',
    run hasher_ fuel (new_map n) (ops ++ [Insert sp0 k v; Insert sp1 k0 v0]) =
      Ok (rs ++ [RInsert b; RInsert true], m) ∧
    contains hasher_ fuel m k = Ok true ∧
    erase hasher_ fuel (true :: sp) m k = Ok (false, m') ∧
    contains hasher_ fuel m' k = Ok false ∧
    get hasher_ fuel m' k = Ok None ∧
    size m' = size m.
Proof.
  intros Hn [Hfuel Hsp] Her Hne Hk0 Hbucket.
  rewrite length_app in Hfuel. simpl in Hfuel.
  apply Forall_app in Hsp as [Hsp Hsp2].
  apply Forall_cons in Hsp2 as [Hs0 Hsp2]. apply Forall_cons in Hsp2 as [Hs1 _].
  pose proof (HashMapFacts.map_run_size (∅ : gmap Key Value) ops) as HM.
  rewrite map_size_empty in HM. simpl in HM.
  pose proof (HashMapFacts.live_keys_dom ops (∅ : gmap Key Value)) as Hd.
  rewrite dom_empty_L in Hd. fold (live_keys ops) in Hd.
  destruct (HashMapFacts.run_new_map hasher_ n fuel ops Hn) as (m0 & Hrun & Hwf0);
    [split; [lia|done]|done|].
  set (M := (map_run ∅ ops).2) in *.
  destruct (HashMapFacts.insert_spec hasher_ fuel sp0 m0 M k v Hwf0)
    as (m1 & Hins1 & Hwf1); [lia|done|].
  assert (HM1 : base.size (<[k := v]> M) ≤ S (base.size M)).
  { apply (HashMapFacts.map_step_size M (Insert sp0 k v)). }
  assert (HMk0 : <[k := v]> M !! k0 = None).
  { rewrite lookup_insert_ne by done. apply not_elem_of_dom. by rewrite Hd. }
  destruct (HashMapFacts.insert_absent_head hasher_ fuel sp1 m1 _ k0 v0 Hwf1 HMk0)
    as (m2 & Hins2 & Hhead); [lia|done|].
  destruct (HashMapFacts.insert_spec hasher_ fuel sp1 m1 _ k0 v0 Hwf1)
    as (m2' & Hins2' & Hwf2); [lia|done|].
  rewrite Hins2 in Hins2'. injection Hins2' as _ <-.
  assert (HM2 : base.size (<[k0 := v0]> (<[k := v]> M)) ≤ S (S (base.size M))).
  { rewrite map_size_insert_None by done. lia. }
  assert (Hrun2 : run hasher_ fuel (new_map n) (ops ++ [Insert sp0 k v; Insert sp1 k0 v0]) =
                  Ok ((map_run ∅ ops).1 ++ [RInsert (negb (present M k)); RInsert true], m2)).
  { rewrite HashMapFacts.run_app, Hrun. simpl. rewrite Hins1. simpl.
    by rewrite Hins2. }
  assert (Hlen : length (buckets_ m2) = n).
  { apply HashMapFacts.run_buckets in Hrun2. simpl in Hrun2.
    by rewrite length_replicate in Hrun2. }
  assert (Hidx : bucket_index hasher_ m2 k0 = bucket_index hasher_ m2 k).
  { destruct Hwf2 as [bs HI].
    destruct (HashMapFacts.Inv_bucket hasher_ _ _ _ k HI) as (? & ? & -> & _).
    destruct (HashMapFacts.Inv_bucket hasher_ _ _ _ k0 HI) as (? & ? & -> & _).
    by rewrite Hlen, Hbucket. }
  assert (HMk : <[k0 := v0]> (<[k := v]> M) !! k = Some v).
  { rewrite lookup_insert_ne by done. apply lookup_insert_eq. }
  destruct (HashMapHeapFacts.erase_spurious_inner hasher_ fuel sp m2 _ k k0 v Hwf2 HMk)
    as (m' & Her' & Hc & Hg & Hsz & _); [lia|lia|done|done|done|].
  exists (map_run ∅ ops).1, (negb (present M k)), m2, m'.
  split_and!; try done.
  rewrite (HashMapFacts.contains_spec hasher_ _ _ _ _ Hwf2) by lia.
  unfold present. by rewrite HMk.
Qed.

(** X22. [get] is not safe against an [insert] that replaces the value of
    the same key: on every map that holds the key, a [get] that has loaded
    the pointer to the value object and is overtaken by a complete
    [insert] of that key copies a deleted object. *)
Theorem get_copies_deleted_value (n fuel : nat) (ops : list (op Key Value))
    (k : Key) (v : Value) :
  1 ≤ n → fuel_covers fuel ops → erase_undisturbed ops →
  is_Some ((map_run ∅ ops).2 !! k) →
  ∃ rs m node val m',
    run hasher_ fuel (new_map n) ops = Ok (rs, m) ∧
    get_step hasher_ fuel k GFind m = Ok (GValue node) ∧
    get_step hasher_ fuel k (GValue node) m = Ok (GCopy val) ∧
    insert hasher_ fuel [] m k v = Ok (false, m') ∧
    get_step hasher_ fuel k (GCopy val) m' = UB.
Proof.
  intros Hn Hcov Her [v0 HM].
  destruct (HashMapFacts.run_new_map hasher_ n fuel ops Hn Hcov Her) as (m & Hrun & Hwf).
  pose proof (HashMapFacts.map_run_size (∅ : gmap Key Value) ops) as Hsz.
  rewrite map_size_empty in Hsz. destruct Hcov as [Hlen _].
  destruct (HashMapReadersFacts.get_after_update hasher_ fuel m _ k v0 v Hwf ltac:(lia) HM)
    as (node & val & m' & H1 & H2 & H3 & H4).
  by exists (map_run ∅ ops).1, m, node, val, m'.
Qed.

(** X23. [erase] frees the node although other threads may hold its
    address: on every map that holds the key, a [get] or an [insert] that
    has found the node of the key and is overtaken by a complete [erase]
    of that key loads from, or exchanges on, a deleted node. *)
Theorem erase_frees_under_readers (n fuel : nat) (ops : list (op Key Value))
    (k : Key) (v : Value) :
  1 ≤ n → fuel_covers fuel ops → erase_undisturbed ops →
  is_Some ((map_run ∅ ops).2 !! k) →
  ∃ rs m l m',
    run hasher_ fuel (new_map n) ops = Ok (rs, m) ∧
    get_step hasher_ fuel k GFind m = Ok (GValue (Some l)) ∧
    insert_step hasher_ fuel false k v IFind m = Ok (IUpdate l, m) ∧
    erase hasher_ fuel [] m k = Ok (true, m') ∧
    get_step hasher_ fuel k (GValue (Some l)) m' = UB ∧
    insert_step hasher_ fuel false k v (IUpdate l) m' = UB.
Proof.
  intros Hn [Hlen Hsp] Her [v0 HM].
  destruct (HashMapHeapFacts.run_tight hasher_ fuel ops (new_map n) ∅)
    as (m & Hrun & Ht).
  { by apply HashMapHeapFacts.new_map_tight. }
  { rewrite map_size_empty. simpl. lia. }
  { done. }
  { done. }
  pose proof (HashMapFacts.map_run_size (∅ : gmap Key Value) ops) as Hsz.
  rewrite map_size_empty in Hsz.
  destruct (HashMapReadersFacts.node_after_erase hasher_ fuel m _ k v0 v Ht ltac:(lia) HM)
    as (l & m' & H1 & H2 & H3 & H4 & H5).
  by exists (map_run ∅ ops).1, m, l, m'.
Qed.

(** X24. [insert], [get] and [contains] are safe for any number of
    threads whose calls are exclusive, on a map left by the calls of one
    thread with no spurious failure inside an [erase]: no two threads
    insert the same key, and none reads or looks for a key that another
    inserts.
    Under every interleaving of their accesses to shared objects, and
    whatever compare-exchanges fail spuriously, no access is undefined;
    and once every call has returned, each has returned what it returns
    on the map as it was before the threads started, [size()] is the
    number of keys, and the map holds the pairs inserted over what it
    held: the calls that follow return what the finite map returns. *)
Theorem exclusive_calls_are_safe (n fuel : nat) (ops : list (op Key Value))
    (calls : list (HashMapThreads.call Key Value)) (schedule : list (nat * bool)) :
  1 ≤ n → fuel_covers fuel ops → erase_undisturbed ops →
  HashMapThreads.exclusive calls = true →
  ∃ rs m ts m',
    run hasher_ fuel (new_map n) ops = Ok (rs, m) ∧
    HashMapThreads.map_race hasher_ schedule
      (HashMapThreads.calling <$> calls) m = Ok (ts, m') ∧
    (Forall HashMapThreads.has_returned ts →
     ts = HashMapThreads.answered (map_run ∅ ops).2 <$> calls ∧
     size m' = wrap (Z.of_nat (base.size
                 (list_to_map (HashMapThreads.inserted calls) ∪ (map_run ∅ ops).2))) ∧
     ∀ fuel' ops',
       fuel_covers fuel' ops' → erase_undisturbed ops' →
       length ops + length calls + length ops' < fuel' →
       ∃ m'', run hasher_ fuel' m' ops' =
                Ok ((map_run (list_to_map (HashMapThreads.inserted calls) ∪
                              (map_run ∅ ops).2) ops').1, m'')).
Proof.
  intros Hn Hcov Her Hex.
  destruct (HashMapFacts.run_new_map hasher_ n fuel ops Hn Hcov Her) as (m & Hrun & Hwf).
  pose proof (HashMapFacts.map_run_size (∅ : gmap Key Value) ops) as Hsize.
  rewrite map_size_empty in Hsize.
  destruct (HashMapThreadsFacts.map_race_spec hasher_ schedule calls m _ Hwf Hex)
    as (ts & m' & Hthreads & Hquiet).
  exists (map_run ∅ ops).1, m, ts, m'. split_and!; [done|done|]. intros Hret.
  destruct (Hquiet Hret) as (Hts & Hwf' & Hsize').
  split_and!; [done|exact (HashMapFacts.wf_size hasher_ _ _ Hwf')|].
  intros fuel' ops' [Hlen Hsp] Her' Hfuel'.
  destruct (HashMapFacts.run_refines hasher_ fuel' ops' m' _ Hwf') as (m'' & Hrun' & _);
    [lia|done|done|].
  by exists m''.
Qed.

(** X25. Among threads with exclusive calls, on a map left by the calls
    of one thread with no spurious failure inside an [erase], [insert],
    [get] and [contains] are obstruction-free: from every state the threads
    can reach, a thread that takes its turns in a row, without a spurious
    failure of its compare-exchange, has returned from its call after at
    most two turns for every key that can be in the map and five more. *)
Theorem exclusive_calls_obstruction_free (n fuel : nat) (ops : list (op Key Value))
    (calls : list (HashMapThreads.call Key Value)) (schedule : list (nat * bool))
    (t : nat) :
  1 ≤ n → fuel_covers fuel ops → erase_undisturbed ops →
  HashMapThreads.exclusive calls = true → t < length calls →
  ∃ rs m ts m' th,
    run hasher_ fuel (new_map n) ops = Ok (rs, m) ∧
    HashMapThreads.map_race hasher_
      (schedule ++ replicate (2 * (length ops + length calls) + 5) (t, false))
      (HashMapThreads.calling <$> calls) m = Ok (ts, m') ∧
    ts !! t = Some th ∧ HashMapThreads.has_returned th.
Proof.
  intros Hn Hcov Her Hex Ht.
  destruct (HashMapFacts.run_new_map hasher_ n fuel ops Hn Hcov Her) as (m & Hrun & Hwf).
  pose proof (HashMapFacts.map_run_size (∅ : gmap Key Value) ops) as Hsize.
  rewrite map_size_empty in Hsize.
  destruct (HashMapThreadsFacts.map_race_returns hasher_ schedule calls m _
              (length ops + length calls) t Hwf Hex)
    as (ts & m' & th & Hthreads & Hth & Hret); [lia|done|].
  by exists (map_run ∅ ops).1, m, ts, m', th.
Qed.

(** X27. As long as no compare-exchange fails spuriously inside an
    [erase], [size()] counts the live keys: after a single-threaded
    sequence [ops] of such calls on a map built with at least one bucket,
    [size()] is the number of live keys and [empty()] holds exactly when
    [size()] is 0; one more call [o] changes [size()] by +1 when it is an
    insert that answers "inserted", by -1 when it is an erase that answers
    true, and not at all otherwise (an insert of a present key, a failed
    erase, a get, a contains).  The sequence is shorter than 2^64. *)
Theorem size_counts_live_keys (n fuel : nat) (ops : list (op Key Value))
    (o : op Key Value) :
  1 ≤ n →
  fuel_covers fuel (ops ++ [o]) →
  erase_undisturbed (ops ++ [o]) →
  (Z.of_nat (length ops) < 2 ^ SIZE_BITS - 1)%Z →
  ∃ rs m r m',
    run hasher_ fuel (new_map n) ops = Ok (rs, m) ∧
    size m = Z.of_nat (base.size (live_keys ops)) ∧
    (empty m = true ↔ size m = 0%Z) ∧
    step hasher_ fuel m o = Ok (r, m') ∧
    size m' = (size m + match r with
                        | RInsert true => 1
                        | RErase true => -1
                        | _ => 0
                        end)%Z.
Proof.
  intros Hn [Hfuel Hsp] Her Hlen.
  rewrite length_app in Hfuel. simpl in Hfuel.
  apply Forall_app in Hsp as [Hsp Hspo]. apply Forall_app in Her as [Her Hero].
  rewrite Forall_singleton in Hspo, Hero.
  destruct (HashMapFacts.run_new_map hasher_ n fuel ops Hn) as (m & Hrun & Hwf);
    [split; [lia|done]|done|].
  set (M := (map_run ∅ ops).2) in *.
  pose proof (HashMapFacts.map_run_size (∅ : gmap Key Value) ops) as HM.
  fold M in HM. rewrite map_size_empty in HM. simpl in HM.
  destruct (HashMapFacts.step_spec hasher_ fuel m M o Hwf) as (m' & Hstep & Hwf').
  { lia. }
  { by destruct o. }
  pose proof (HashMapFacts.map_step_size M o) as HM'.
  assert (Hsize : size m = Z.of_nat (base.size M)).
  { rewrite (HashMapFacts.wf_size _ _ _ Hwf). apply wrap_small. lia. }
  assert (Hsize' : size m' = Z.of_nat (base.size (map_step M o).2)).
  { rewrite (HashMapFacts.wf_size _ _ _ Hwf'). apply wrap_small. lia. }
  exists (map_run ∅ ops).1, m, (map_step M o).1, m'. split_and!.
  - done.
  - by rewrite Hsize, HashMapFacts.live_keys_size.
  - unfold empty. apply bool_decide_eq_true.
  - done.
  - rewrite Hsize, Hsize'. clear -H. unfold present.
    destruct o as [sp k v|k|sp k|k]; simpl; try lia; unfold present;
      destruct (M !! k) eqn:Hk; simpl.
    + rewrite map_size_insert_Some by done. lia.
    + rewrite map_size_insert_None by done. lia.
    + rewrite map_size_delete_Some by done.
      assert (base.size M ≠ 0); [|lia].
      intros Hz%map_size_empty_inv. by rewrite Hz, lookup_empty in Hk.
    + rewrite map_size_delete_None by done. lia.
Qed.

(** X28. After [insert(k,v)] an [erase(k)] whose first compare-exchange
    does not fail spuriously returns true, and so does any [erase(k)] when
    [k] was not live before the insert (its node is the head of the chain,
    where the compare-exchange is repeated); then [contains(k)] returns
    false and a second [erase(k)] returns false.  An erase of a key [k']
    that is not live returns false and leaves [size()] as it was, whatever
    fails spuriously.  The calls before are single-threaded, with no
    spurious failure inside an [erase]. *)
Theorem insert_then_erase (n fuel : nat) (ops : list (op Key Value))
    (k k' : Key) (v : Value) (sp sp1 sp2 sp' : list bool) :
  1 ≤ n →
  fuel_covers fuel (ops ++ [Insert sp k v; Erase sp1 k]) →
  length sp1 < fuel →
  erase_undisturbed ops →
  k ∉ live_keys ops ∨ List.hd false sp1 = false →
  k' ∉ live_keys ops →
  (∃ rs b m1 m2 m3,
     run hasher_ fuel (new_map n) (ops ++ [Insert sp k v]) = Ok (rs ++ [RInsert b], m1) ∧
     erase hasher_ fuel sp1 m1 k = Ok (true, m2) ∧
     contains hasher_ fuel m2 k = Ok false ∧
     erase hasher_ fuel sp2 m2 k = Ok (false, m3) ∧
     size m3 = size m2) ∧
  (∃ rs m m',
     run hasher_ fuel (new_map n) ops = Ok (rs, m) ∧
     erase hasher_ fuel sp' m k' = Ok (false, m') ∧
     size m' = size m).
Proof.
  intros Hn [Hfuel Hsp] Hsp1 Her Hdis Hk'.
  rewrite length_app in Hfuel. simpl in Hfuel.
  apply Forall_app in Hsp as [Hsp Hsp2]. apply Forall_cons in Hsp2 as [Hs0 _].
  pose proof (HashMapFacts.map_run_size (∅ : gmap Key Value) ops) as HM.
  rewrite map_size_empty in HM. simpl in HM.
  pose proof (HashMapFacts.live_keys_dom ops (∅ : gmap Key Value)) as Hd.
  rewrite dom_empty_L in Hd. fold (live_keys ops) in Hd.
  destruct (HashMapFacts.run_new_map hasher_ n fuel ops Hn) as (m & Hrun & Hwf);
    [split; [lia|done]|done|].
  set (M := (map_run ∅ ops).2) in *.
  split.
  - destruct (HashMapFacts.insert_spec hasher_ fuel sp m M k v Hwf)
      as (m1 & Hins & Hwf1); [lia|done|].
    assert (HM1 : base.size (<[k := v]> M) ≤ S (base.size M)).
    { apply (HashMapFacts.map_step_size M (Insert sp k v)). }
    assert (Hhead : List.hd false sp1 = false ∨ key_at_head hasher_ m1 k).
    { destruct Hdis as [Hk|?]; [|by left]. right.
      assert (HMk : M !! k = None).
      { apply not_elem_of_dom. by rewrite Hd. }
      destruct (HashMapFacts.insert_absent_head hasher_ fuel sp m M k v Hwf HMk)
        as (m1' & Hins' & Hh); [lia|done|].
      rewrite Hins in Hins'. by injection Hins' as _ ->. }
    destruct (HashMapFacts.erase_spec_general hasher_ fuel sp1 m1 _ k Hwf1)
      as (m2 & He & Hwf2); [lia|done|done|].
    unfold present in He. rewrite lookup_insert_eq in He.
    rewrite delete_insert_eq in Hwf2.
    assert (HM2 : base.size (delete k M) ≤ base.size M).
    { destruct (M !! k) eqn:Hk.
      - rewrite map_size_delete_Some by done. lia.
      - rewrite map_size_delete_None by done. lia. }
    exists (map_run ∅ ops).1, (negb (present M k)), m1, m2, m2. split_and!.
    + rewrite HashMapFacts.run_app, Hrun. simpl. by rewrite Hins.
    + done.
    + rewrite (HashMapFacts.contains_spec _ _ _ _ _ Hwf2) by lia.
      unfold present. by rewrite lookup_delete_eq.
    + apply (HashMapFacts.erase_absent _ _ _ _ _ _ Hwf2); [apply lookup_delete_eq|lia].
    + done.
  - exists (map_run ∅ ops).1, m, m. split_and!; [done| |done].
    apply (HashMapFacts.erase_absent _ _ _ _ _ _ Hwf); [|lia].
    apply not_elem_of_dom. by rewrite Hd.
Qed.

End HashMapMore.

(** ** The thread pool *)

Section ThreadPoolMore.
Context {R E : Type}.
Import ThreadPool.

(** X12. In a pool with one worker whose client calls [submit], [get]
    and [active_tasks] only, under every schedule [active_tasks_] is 1
    while the worker is between its increment and its decrement and 0
    otherwise: it never wraps around, and every value [active_tasks()]
    returned is 0 or 1. *)
Theorem active_tasks_counts_running (n fuel : nat) (prog : list (cmd R E))
    (schedule : list nat) :
  single_consumer n prog = true →
  ∃ sys pc,
    run fuel schedule (start n prog) = Ok sys ∧
    workers_ (pool (shared sys)) = [pc] ∧
    active_tasks (shared sys) = Z.of_nat (worker_busy pc) ∧
    (0 ≤ active_tasks (shared sys) ≤ 1)%Z ∧
    ∀ a, OActive a ∈ log (owner sys) → (0 ≤ a ≤ 1)%Z.
Proof.
  intros Hsc.
  destruct (ThreadPoolServeFacts.run_Serving prog fuel schedule _ _ _
              (ThreadPoolServeFacts.start_Serving n prog Hsc))
    as (sys & pc & l & Hrun & [Hws _ [Hw _] _ _ _ _]).
  assert (Hlen : length (workers_ (new_pool n)) = 1).
  { apply andb_true_iff in Hsc as [Hn _]. apply bool_decide_eq_true in Hn.
    simpl. rewrite length_replicate. destruct (decide (n = 0)); lia. }
  destruct (ThreadPoolCountFacts.run_counted fuel schedule (start n prog) sys)
    as [[Hact Hlog _] Hlen'];
    [|apply ThreadPoolCountFacts.start_counted|done|].
  { simpl pool. rewrite Hlen. unfold SIZE_BITS. lia. }
  rewrite Hws in Hact, Hlog. rewrite Hw in Hact.
  unfold busy in Hact. simpl in Hact, Hlog. rewrite !Nat.add_0_r in Hact.
  exists sys, pc. do 3 (split; [done|]). split; [|done].
  unfold active_tasks. rewrite Hact. destruct pc; simpl; lia.
Qed.

(** X13. No task is lost in a pool with one worker whose client calls
    [submit], [get] and [active_tasks] only: under every schedule, a work
    unit that was submitted has either run, and then its handle holds what
    the unit returned or threw, or its handle is empty and it is still in
    the queue or in the hands of the worker. *)
Theorem no_task_is_lost (n fuel : nat) (prog : list (cmd R E))
    (schedule : list nat) :
  single_consumer n prog = true →
  ∃ sys l pc,
    run fuel schedule (start n prog) = Ok sys ∧
    Queue.wf (task_queue_ (pool (shared sys))) l ∧
    workers_ (pool (shared sys)) = [pc] ∧
    ∀ i future, futures (owner sys) !! i = Some future →
      ∃ f, submitted prog !! i = Some f ∧
           (future_get (shared sys) future = Some (f tt) ∨
            (future_get (shared sys) future = None ∧
             future ∈ l ++ worker_task pc)).
Proof.
  intros Hsc.
  destruct (ThreadPoolServeFacts.run_Serving prog fuel schedule _ _ _
              (ThreadPoolServeFacts.start_Serving n prog Hsc))
    as (sys & pc & l & Hrun & [Hws _ [Hw _] Hwf HI Ht _]).
  exists sys, l, pc. split_and!; [done|done|done|]. intros i future Hfut.
  rewrite <-Hw in Ht.
  destruct (ThreadPoolTrackFacts.Tracking_future _ _ _ _ _ _ _ HI Ht Hfut)
    as (f & Hf & [(pt & Hpt & Hs)|[(pt & Hpt & Hs) Hin]]).
  - exists f. split; [done|]. left. unfold future_get. by rewrite Hpt.
  - exists f. split; [done|]. right. split.
    + unfold future_get. by rewrite Hpt.
    + rewrite Hw in Hin. unfold in_flight in Hin. simpl in Hin.
      by rewrite !app_nil_r in Hin.
Qed.

(** X14. While no worker moves, [wait] does the work of the queue on the
    calling thread: after [submit(f1) ... submit(fn)], [wait()] returns
    after five actions per work unit and two more, every handle holds what
    its unit returned or threw, and [active_tasks()] and [queued_tasks()]
    return 0. *)
Theorem wait_with_idle_workers (n fuel : nat) (fs : list (unit → outcome R E)) :
  0 < fuel →
  ∃ sys,
    run fuel (replicate (6 * length fs + 4) 0)
      (start n ((Submit <$> fs) ++ [Wait; ActiveTasks; QueuedTasks])) = Ok sys ∧
    program (owner sys) = [] ∧
    log (owner sys) = [OWait; OActive 0; OQueued 0] ∧
    Forall2 (λ f future, future_get (shared sys) future = Some (f tt))
      fs (futures (owner sys)).
Proof.
  intros Hfuel.
  destruct (ThreadPoolDrainFacts.wait_idle_workers n fuel fs Hfuel)
    as (sys & Hrun & Hp & Hlog & _ & Hfut).
  by exists sys.
Qed.

(** X15. Destroying a pool that has run a task deletes a task twice.
    [dequeue] of [lockfree_queue.hpp] deletes the task object and leaves
    the pointer to it in the node that becomes the dummy node; when the
    body of [~ThreadPool()] has returned, [~LockFreeQueue()] deletes that
    object again.  For every program that submits a work unit, every run
    of its calls and every run of the destructor and the workers, the
    calls on the queue not overlapping: once the workers are joined the
    destruction of [task_queue_] is undefined. *)
Theorem destructor_deletes_a_task_twice (n fuel : nat) (prog : list (cmd R E))
    (schedule schedule' : list nat) (sys : system R E) (c : closing R E) :
  length prog < fuel →
  submitted prog ≠ [] →
  run fuel schedule (start n prog) = Ok sys →
  program (owner sys) = [] →
  close_run schedule' (close sys) = Ok c →
  closing_pc c = DDone →
  destroy_members fuel (closing_state c) = UB.
Proof.
  intros Hfuel Hsub Hrun Hp Hclose Hpc.
  destruct (ThreadPoolTrackFacts.run_Tracking prog fuel schedule Hfuel _
              (ThreadPoolTrackFacts.start_Tracking n prog))
    as (sys0 & Hrun0 & HT).
  rewrite Hrun in Hrun0. injection Hrun0 as <-.
  assert (Hw : waiting (owner sys) = TActive).
  { destruct (ThreadPoolCloseFacts.run_resting fuel schedule _ _ Hrun) as [?|[p Hp']];
      [by left|done|]. by rewrite Hp in Hp'. }
  destruct (ThreadPoolCloseFacts.close_run_Closing prog (futures (owner sys))
              schedule' (close sys)) as (c0 & Hclose0 & HC).
  { by apply ThreadPoolCloseFacts.close_Closing. }
  rewrite Hclose in Hclose0. injection Hclose0 as <-.
  destruct (ThreadPoolCloseFacts.Closing_done _ _ _ HC) as (_ & _ & Hdone).
  destruct (Hdone Hpc) as [_ Hfut].
  destruct (ThreadPoolUsedFacts.run_Used fuel schedule _ _ [] 0 Hrun
              (ThreadPoolUsedFacts.start_Used n prog)) as (l1 & d1 & HU1).
  destruct (ThreadPoolUsedFacts.close_run_Used schedule' (close sys) c l1 d1 Hclose)
    as (l2 & d2 & HU2).
  { simpl. by rewrite <-Hw. }
  assert (l2 = []) as ->.
  { destruct HC as [(l & lg & Hwf & _ & _ & Hl) _ _]. rewrite Hpc in Hl. subst l.
    destruct HU2 as [[[Hwf2 _ _] _] _].
    pose proof (QueueFacts.empty_spec _ _ Hwf) as He.
    rewrite (QueueFacts.empty_spec _ _ Hwf2) in He. by destruct l2. }
  destruct (submitted prog) as [|f fs] eqn:Hfs; [done|].
  apply Forall2_cons_inv_l in Hfut as (future & futs & Hf & _ & _).
  unfold future_get in Hf.
  destruct (heap (closing_state c) !! future) as [pt|] eqn:Hpt; [|done].
  apply (ThreadPoolUsedFacts.Used_destroy fuel _ _ _ _ future pt HU2 Hpt);
    [by rewrite Hf|simpl; lia].
Qed.

(** X21. Nothing in the pool keeps two threads out of [dequeue] at the
    same time: in every state the pool reaches, when two workers are at
    their call of [dequeue] and the queue is not empty, the two calls can
    run as in X18, where the second one moves out of a deleted task. *)
Theorem pool_consumers_collide (n fuel : nat) (prog : list (cmd R E))
    (schedule : list nat) :
  length prog < fuel →
  ∃ sys,
    run fuel schedule (start n prog) = Ok sys ∧
    ∀ i j, i ≠ j →
      workers_ (pool (shared sys)) !! i = Some WDequeue →
      workers_ (pool (shared sys)) !! j = Some WDequeue →
      Queue.empty (task_queue_ (pool (shared sys))) = Ok false →
      QueueThreads.race_store QueueThreads.colliding_schedule
        [QueueThreads.SHead; QueueThreads.SHead]
        (task_queue_ (pool (shared sys))) = UB.
Proof.
  intros Hfuel.
  destruct (ThreadPoolFacts.run_Inv prog fuel schedule Hfuel _
              (ThreadPoolFacts.start_Inv n prog)) as (sys & Hrun & l & Hwf & _).
  exists sys. split; [done|]. intros i j _ _ _ Hempty.
  rewrite (QueueFacts.empty_spec _ _ Hwf) in Hempty.
  destruct l as [|t l]; [done|].
  by eapply QueueThreadsFacts.dequeue_collision.
Qed.


End ThreadPoolMore.

(** ** The further properties at concrete inputs *)

Lemma store_queue_is_fifo_witness :
  length Examples.queue_ops < 10 ∧
  ∃ q, Queue.run (Queue.step_store 10) Queue.new_queue Examples.queue_ops =
         Ok ([Queue.REnqueue true; Queue.REnqueue true; Queue.RSize 2;
              Queue.RDequeue (Some 1%Z); Queue.REmpty false;
              Queue.RDequeue (Some 2%Z); Queue.RDequeue None; Queue.REmpty true;
              Queue.RSize 0], q).
Proof.
  assert (H : length Examples.queue_ops < 10) by (simpl; lia).
  split; [exact H|]. exact (store_queue_is_fifo Z 10 Examples.queue_ops H).
Defined.

Lemma cas_queue_is_fifo_witness :
  Queue.fuel_covers 10 Examples.queue_ops ∧
  ∃ q, Queue.run (Queue.step_cas 10) Queue.new_queue Examples.queue_ops =
         Ok ([Queue.REnqueue true; Queue.REnqueue true; Queue.RSize 2;
              Queue.RDequeue (Some 1%Z); Queue.REmpty false;
              Queue.RDequeue (Some 2%Z); Queue.RDequeue None; Queue.REmpty true;
              Queue.RSize 0], q).
Proof.
  assert (H : Queue.fuel_covers 10 Examples.queue_ops).
  { split; [simpl; lia|]. repeat constructor; simpl; lia. }
  split; [exact H|]. exact (cas_queue_is_fifo Z 10 Examples.queue_ops H).
Defined.

Lemma store_queue_heap_witness :
  length Examples.queue_ops < 10 ∧
  ∃ rs q,
    Queue.run (Queue.step_store 10) Queue.new_queue Examples.queue_ops = Ok (rs, q) ∧
    base.size (Queue.cells q) + Queue.served rs = Queue.enqueued Examples.queue_ops ∧
    base.size (Queue.nodes q) = S (base.size (Queue.cells q)).
Proof.
  assert (H : length Examples.queue_ops < 10) by (simpl; lia).
  split; [exact H|]. exact (store_queue_heap Z 10 Examples.queue_ops H).
Defined.

Lemma cas_queue_heap_witness :
  Queue.fuel_covers 10 Examples.queue_ops ∧
  ∃ rs q,
    Queue.run (Queue.step_cas 10) Queue.new_queue Examples.queue_ops = Ok (rs, q) ∧
    base.size (Queue.cells q) + Queue.served rs = Queue.enqueued Examples.queue_ops ∧
    base.size (Queue.nodes q) = S (Queue.enqueued Examples.queue_ops).
Proof.
  assert (H : Queue.fuel_covers 10 Examples.queue_ops).
  { split; [simpl; lia|]. repeat constructor; simpl; lia. }
  split; [exact H|]. exact (cas_queue_heap Z 10 Examples.queue_ops H).
Defined.

Lemma store_queue_destroy_clean_witness :
  length Examples.refill_ops < 10 ∧
  ∃ rs q,
    Queue.run (Queue.step_store 10) Queue.new_queue Examples.refill_ops = Ok (rs, q) ∧
    Queue.served rs = 0 ∧
    Queue.destroy 10 q = Ok (∅, ∅).
Proof.
  assert (H : length Examples.refill_ops < 10) by (simpl; lia).
  split; [exact H|].
  destruct (store_queue_destroy_clean Z 10 Examples.refill_ops H)
    as (rs & q & Hrun & Hd).
  exists rs, q. split; [exact Hrun|].
  assert (Hs : Queue.served rs = 0).
  { vm_compute in Hrun. injection Hrun as Hrs _. by rewrite <-Hrs. }
  split; [exact Hs|exact (Hd Hs)].
Defined.

Lemma store_queue_destroy_twice_witness :
  length Examples.queue_ops < 10 ∧
  ∃ rs q,
    Queue.run (Queue.step_store 10) Queue.new_queue Examples.queue_ops = Ok (rs, q) ∧
    Queue.served rs ≠ 0 ∧
    Queue.destroy 10 q = UB.
Proof.
  assert (H : length Examples.queue_ops < 10) by (simpl; lia).
  split; [exact H|].
  destruct (store_queue_destroy_twice Z 10 Examples.queue_ops H)
    as (rs & q & Hrun & Hd).
  exists rs, q. split; [exact Hrun|].
  assert (Hs : Queue.served rs ≠ 0).
  { vm_compute in Hrun. injection Hrun as Hrs _. by rewrite <-Hrs. }
  split; [exact Hs|exact (Hd Hs)].
Defined.

Lemma cas_queue_destroy_witness :
  Queue.fuel_covers 10 Examples.queue_ops ∧
  ∃ rs q ns,
    Queue.run (Queue.step_cas 10) Queue.new_queue Examples.queue_ops = Ok (rs, q) ∧
    Queue.destroy 10 q = Ok (ns, ∅) ∧
    base.size ns = Queue.served rs.
Proof.
  assert (H : Queue.fuel_covers 10 Examples.queue_ops).
  { split; [simpl; lia|]. repeat constructor; simpl; lia. }
  split; [exact H|]. exact (cas_queue_destroy Z 10 Examples.queue_ops H).
Defined.

Lemma map_is_finite_map_witness :
  1 ≤ 4 ∧
  HashMap.fuel_covers 10 Examples.map_ops ∧
  HashMap.erase_undisturbed Examples.map_ops ∧
  ∃ m, HashMap.run Examples.hash_nat 10 (HashMap.new_map 4) Examples.map_ops =
         Ok ([HashMap.RInsert true; HashMap.RInsert true; HashMap.RGet (Some 500);
              HashMap.RInsert true; HashMap.RErase true; HashMap.RContains true], m).
Proof.
  assert (H1 : 1 ≤ 4) by lia.
  assert (H2 : HashMap.fuel_covers 10 Examples.map_ops).
  { split; [simpl; lia|]. repeat constructor; simpl; lia. }
  assert (H3 : HashMap.erase_undisturbed Examples.map_ops).
  { repeat constructor. }
  split_and!; [exact H1|exact H2|exact H3|].
  exact (map_is_finite_map Examples.hash_nat 4 10 Examples.map_ops H1 H2 H3).
Defined.

Lemma other_keys_untouched_witness :
  1 ≤ 4 ∧
  HashMap.fuel_covers 10 (Examples.map_ops ++ [HashMap.Erase [] 1; HashMap.Get 9]) ∧
  HashMap.erase_undisturbed (Examples.map_ops ++ [HashMap.Erase [] 1]) ∧
  HashMap.op_key (HashMap.Erase [] 1 : HashMap.op nat nat) ≠ 9 ∧
  ∃ rs r r' m m',
    HashMap.run Examples.hash_nat 10 (HashMap.new_map 4)
      (Examples.map_ops ++ [HashMap.Get 9]) = Ok (rs ++ [HashMap.RGet r], m) ∧
    HashMap.run Examples.hash_nat 10 (HashMap.new_map 4)
      (Examples.map_ops ++ [HashMap.Erase [] 1; HashMap.Get 9]) =
      Ok (rs ++ [r'; HashMap.RGet r], m').
Proof.
  assert (H1 : 1 ≤ 4) by lia.
  assert (H2 : HashMap.fuel_covers 10
                 (Examples.map_ops ++ [HashMap.Erase [] 1; HashMap.Get 9])).
  { split; [simpl; lia|]. repeat constructor; simpl; lia. }
  assert (H3 : HashMap.erase_undisturbed (Examples.map_ops ++ [HashMap.Erase [] 1])).
  { repeat constructor. }
  assert (H4 : HashMap.op_key (HashMap.Erase [] 1 : HashMap.op nat nat) ≠ 9).
  { simpl. lia. }
  split_and!; [exact H1|exact H2|exact H3|exact H4|].
  exact (other_keys_untouched Examples.hash_nat 4 10 Examples.map_ops
           (HashMap.Erase [] 1) 9 H1 H2 H3 H4).
Defined.

Lemma map_heap_exact_witness :
  1 ≤ 4 ∧
  HashMap.fuel_covers 10 Examples.map_ops ∧
  HashMap.erase_undisturbed Examples.map_ops ∧
  ∃ rs m,
    HashMap.run Examples.hash_nat 10 (HashMap.new_map 4) Examples.map_ops = Ok (rs, m) ∧
    base.size (HashMap.nodes m) = base.size (HashMap.live_keys Examples.map_ops) ∧
    base.size (HashMap.values m) = base.size (HashMap.live_keys Examples.map_ops).
Proof.
  assert (H1 : 1 ≤ 4) by lia.
  assert (H2 : HashMap.fuel_covers 10 Examples.map_ops).
  { split; [simpl; lia|]. repeat constructor; simpl; lia. }
  assert (H3 : HashMap.erase_undisturbed Examples.map_ops).
  { repeat constructor. }
  split_and!; [exact H1|exact H2|exact H3|].
  exact (map_heap_exact Examples.hash_nat 4 10 Examples.map_ops H1 H2 H3).
Defined.

Lemma erase_misses_behind_head_witness :
  1 ≤ 4 ∧
  HashMap.fuel_covers 10
    (Examples.map_ops ++ [HashMap.Insert [] 13 7; HashMap.Insert [true] 17 8]) ∧
  HashMap.erase_undisturbed Examples.map_ops ∧
  17 ≠ 13 ∧
  (17 ∉ HashMap.live_keys Examples.map_ops) ∧
  HashMap.bucket_of Examples.hash_nat 4 17 = HashMap.bucket_of Examples.hash_nat 4 13 ∧
  ∃ rs b m m',
    HashMap.run Examples.hash_nat 10 (HashMap.new_map 4)
      (Examples.map_ops ++ [HashMap.Insert [] 13 7; HashMap.Insert [true] 17 8]) =
      Ok (rs ++ [HashMap.RInsert b; HashMap.RInsert true], m) ∧
    HashMap.contains Examples.hash_nat 10 m 13 = Ok true ∧
    HashMap.erase Examples.hash_nat 10 [true; false] m 13 = Ok (false, m') ∧
    HashMap.contains Examples.hash_nat 10 m' 13 = Ok false ∧
    HashMap.get Examples.hash_nat 10 m' 13 = Ok None ∧
    HashMap.size m' = HashMap.size m.
Proof.
  assert (H1 : 1 ≤ 4) by lia.
  assert (H2 : HashMap.fuel_covers 10
    (Examples.map_ops ++ [HashMap.Insert [] 13 7; HashMap.Insert [true] 17 8])).
  { split; [simpl; lia|]. repeat constructor; simpl; lia. }
  assert (H3 : HashMap.erase_undisturbed Examples.map_ops).
  { repeat constructor. }
  assert (H4 : 17 ≠ 13) by lia.
  assert (H5 : 17 ∉ HashMap.live_keys Examples.map_ops).
  { vm_compute. intros Hin. discriminate Hin. }
  assert (H6 : HashMap.bucket_of Examples.hash_nat 4 17 =
               HashMap.bucket_of Examples.hash_nat 4 13) by reflexivity.
  split_and!; [exact H1|exact H2|exact H3|exact H4|exact H5|exact H6|].
  exact (erase_misses_behind_head Examples.hash_nat 4 10 Examples.map_ops
           13 17 7 8 [] [true] [false] H1 H2 H3 H4 H5 H6).
Defined.

Lemma size_counts_live_keys_witness :
  1 ≤ 4 ∧
  HashMap.fuel_covers 10 (Examples.map_ops ++ [HashMap.Erase [] 1]) ∧
  HashMap.erase_undisturbed (Examples.map_ops ++ [HashMap.Erase [] 1]) ∧
  (Z.of_nat (length Examples.map_ops) < 2 ^ SIZE_BITS - 1)%Z ∧
  ∃ rs m r m',
    HashMap.run Examples.hash_nat 10 (HashMap.new_map 4) Examples.map_ops = Ok (rs, m) ∧
    HashMap.size m = Z.of_nat (base.size (HashMap.live_keys Examples.map_ops)) ∧
    (HashMap.empty m = true ↔ HashMap.size m = 0%Z) ∧
    HashMap.step Examples.hash_nat 10 m (HashMap.Erase [] 1) = Ok (r, m') ∧
    HashMap.size m' = (HashMap.size m + match r with
                                        | HashMap.RInsert true => 1
                                        | HashMap.RErase true => -1
                                        | _ => 0
                                        end)%Z.
Proof.
  assert (H1 : 1 ≤ 4) by lia.
  assert (H2 : HashMap.fuel_covers 10 (Examples.map_ops ++ [HashMap.Erase [] 1])).
  { split; [simpl; lia|]. repeat constructor; simpl; lia. }
  assert (H3 : HashMap.erase_undisturbed (Examples.map_ops ++ [HashMap.Erase [] 1])).
  { repeat constructor. }
  assert (H4 : (Z.of_nat (length Examples.map_ops) < 2 ^ SIZE_BITS - 1)%Z).
  { vm_compute. reflexivity. }
  split_and!; [exact H1|exact H2|exact H3|exact H4|].
  exact (size_counts_live_keys Examples.hash_nat 4 10 Examples.map_ops
           (HashMap.Erase [] 1) H1 H2 H3 H4).
Defined.

Lemma insert_then_erase_witness :
  1 ≤ 4 ∧
  HashMap.fuel_covers 10
    (Examples.map_ops ++ [HashMap.Insert [true] 13 7; HashMap.Erase [true; true] 13]) ∧
  length [true; true] < 10 ∧
  HashMap.erase_undisturbed Examples.map_ops ∧
  (13 ∉ HashMap.live_keys Examples.map_ops ∨ List.hd false [true; true] = false) ∧
  (17 ∉ HashMap.live_keys Examples.map_ops) ∧
  (∃ rs b m1 m2 m3,
     HashMap.run Examples.hash_nat 10 (HashMap.new_map 4)
       (Examples.map_ops ++ [HashMap.Insert [true] 13 7]) =
       Ok (rs ++ [HashMap.RInsert b], m1) ∧
     HashMap.erase Examples.hash_nat 10 [true; true] m1 13 = Ok (true, m2) ∧
     HashMap.contains Examples.hash_nat 10 m2 13 = Ok false ∧
     HashMap.erase Examples.hash_nat 10 [true] m2 13 = Ok (false, m3) ∧
     HashMap.size m3 = HashMap.size m2) ∧
  (∃ rs m m',
     HashMap.run Examples.hash_nat 10 (HashMap.new_map 4) Examples.map_ops = Ok (rs, m) ∧
     HashMap.erase Examples.hash_nat 10 [true; false] m 17 = Ok (false, m') ∧
     HashMap.size m' = HashMap.size m).
Proof.
  assert (H1 : 1 ≤ 4) by lia.
  assert (H2 : HashMap.fuel_covers 10
    (Examples.map_ops ++ [HashMap.Insert [true] 13 7; HashMap.Erase [true; true] 13])).
  { split; [simpl; lia|]. repeat constructor; simpl; lia. }
  assert (H3 : length [true; true] < 10) by (simpl; lia).
  assert (H4 : HashMap.erase_undisturbed Examples.map_ops).
  { repeat constructor. }
  assert (H5 : 13 ∉ HashMap.live_keys Examples.map_ops ∨
               List.hd false [true; true] = false).
  { left. vm_compute. intros Hin. discriminate Hin. }
  assert (H6 : 17 ∉ HashMap.live_keys Examples.map_ops).
  { vm_compute. intros Hin. discriminate Hin. }
  split_and!; [exact H1|exact H2|exact H3|exact H4|exact H5|exact H6| |];
    apply (insert_then_erase Examples.hash_nat 4 10 Examples.map_ops 13 17 7
             [true] [true; true] [true] [true; false] H1 H2 H3 H4 H5 H6).
Defined.

Lemma active_tasks_counts_running_witness :
  ThreadPool.single_consumer 1 Examples.counting_tasks = true ∧
  ∃ sys pc,
    ThreadPool.run 6 Examples.counting_schedule
      (ThreadPool.start 1 Examples.counting_tasks) = Ok sys ∧
    ThreadPool.workers_ (ThreadPool.pool (ThreadPool.shared sys)) = [pc] ∧
    ThreadPool.active_tasks (ThreadPool.shared sys) =
      Z.of_nat (ThreadPool.worker_busy pc) ∧
    (0 ≤ ThreadPool.active_tasks (ThreadPool.shared sys) ≤ 1)%Z ∧
    ∀ a, ThreadPool.OActive a ∈ ThreadPool.log (ThreadPool.owner sys) →
      (0 ≤ a ≤ 1)%Z.
Proof.
  assert (H1 : ThreadPool.single_consumer 1 Examples.counting_tasks = true).
  { vm_compute. reflexivity. }
  split; [exact H1|].
  exact (active_tasks_counts_running 1 6 Examples.counting_tasks
           Examples.counting_schedule H1).
Defined.

Lemma no_task_is_lost_witness :
  ThreadPool.single_consumer 1 Examples.two_tasks = true ∧
  ∃ sys l pc,
    ThreadPool.run 5 Examples.taking_schedule
      (ThreadPool.start 1 Examples.two_tasks) = Ok sys ∧
    Queue.wf (ThreadPool.task_queue_ (ThreadPool.pool (ThreadPool.shared sys))) l ∧
    ThreadPool.workers_ (ThreadPool.pool (ThreadPool.shared sys)) = [pc] ∧
    ∀ i future, ThreadPool.futures (ThreadPool.owner sys) !! i = Some future →
      ∃ f, ThreadPool.submitted Examples.two_tasks !! i = Some f ∧
           (ThreadPool.future_get (ThreadPool.shared sys) future = Some (f tt) ∨
            (ThreadPool.future_get (ThreadPool.shared sys) future = None ∧
             future ∈ l ++ ThreadPool.worker_task pc)).
Proof.
  assert (H1 : ThreadPool.single_consumer 1 Examples.two_tasks = true).
  { vm_compute. reflexivity. }
  split; [exact H1|].
  exact (no_task_is_lost 1 5 Examples.two_tasks Examples.taking_schedule H1).
Defined.

Lemma wait_with_idle_workers_witness :
  0 < 5 ∧
  ∃ sys,
    ThreadPool.run 5 (replicate 16 0)
      (ThreadPool.start 2
         ((ThreadPool.Submit <$> [Examples.failure; Examples.answer]) ++
          [ThreadPool.Wait; ThreadPool.ActiveTasks; ThreadPool.QueuedTasks])) = Ok sys ∧
    ThreadPool.program (ThreadPool.owner sys) = [] ∧
    ThreadPool.log (ThreadPool.owner sys) =
      [ThreadPool.OWait; ThreadPool.OActive 0; ThreadPool.OQueued 0] ∧
    Forall2 (λ f future,
               ThreadPool.future_get (ThreadPool.shared sys) future = Some (f tt))
      [Examples.failure; Examples.answer] (ThreadPool.futures (ThreadPool.owner sys)).
Proof.
  assert (H1 : 0 < 5) by lia.
  split; [exact H1|].
  exact (wait_with_idle_workers 2 5 [Examples.failure; Examples.answer] H1).
Defined.

Lemma destructor_deletes_a_task_twice_witness :
  length [ThreadPool.Submit Examples.answer] < 5 ∧
  ThreadPool.submitted [ThreadPool.Submit Examples.answer] ≠ [] ∧
  ∃ sys c,
    ThreadPool.run 5 [0] (ThreadPool.start 1 [ThreadPool.Submit Examples.answer]) =
      Ok sys ∧
    ThreadPool.program (ThreadPool.owner sys) = [] ∧
    ThreadPool.close_run Examples.joining_schedule (ThreadPool.close sys) = Ok c ∧
    ThreadPool.closing_pc c = ThreadPool.DDone ∧
    ThreadPool.destroy_members 5 (ThreadPool.closing_state c) = UB.
Proof.
  assert (H1 : length [ThreadPool.Submit Examples.answer] < 5) by (simpl; lia).
  assert (H2 : ThreadPool.submitted [ThreadPool.Submit Examples.answer] ≠ []) by done.
  split_and!; [exact H1|exact H2|].
  assert (Hr : ∃ sys,
    ThreadPool.run 5 [0] (ThreadPool.start 1 [ThreadPool.Submit Examples.answer]) =
      Ok sys ∧
    ThreadPool.program (ThreadPool.owner sys) = [] ∧
    ∃ c, ThreadPool.close_run Examples.joining_schedule (ThreadPool.close sys) = Ok c ∧
         ThreadPool.closing_pc c = ThreadPool.DDone).
  { eexists. split; [vm_compute; reflexivity|]. split; [reflexivity|].
    eexists. split; [vm_compute; reflexivity|]. reflexivity. }
  destruct Hr as (sys & Hrun & Hp & c & Hc & Hpc).
  exists sys, c. split_and!; [exact Hrun|exact Hp|exact Hc|exact Hpc|].
  exact (destructor_deletes_a_task_twice 1 5 [ThreadPool.Submit Examples.answer]
           [0] Examples.joining_schedule sys c H1 H2 Hrun Hp Hc Hpc).
Defined.

Lemma cas_queue_threads_witness :
  Queue.fuel_covers 10 Examples.filling_ops ∧
  ∃ rs q ts q',
    Queue.run (Queue.step_cas 10) Queue.new_queue Examples.filling_ops = Ok (rs, q) ∧
    QueueThreads.race Examples.thread_schedule
      (QueueThreads.start <$> Examples.thread_calls) q = Ok (ts, q') ∧
    ts = [QueueThreads.QEnqueued true; QueueThreads.QDequeued (Some 2%Z);
          QueueThreads.QDequeued (Some 3%Z)] ∧
    ∃ order k,
      order ≡ₚ [4%Z] ∧
      QueueThreads.dequeued ts ≡ₚ take k ([2%Z; 3%Z] ++ order) ∧
      ∀ fuel' ops',
        Queue.fuel_covers fuel' ops' →
        length (drop k ([2%Z; 3%Z] ++ order)) + length ops' < fuel' →
        ∃ q'', Queue.run (Queue.step_cas fuel') q' ops' =
                 Ok ((Queue.fifo_run (drop k ([2%Z; 3%Z] ++ order)) ops').1, q'').
Proof.
  assert (H : Queue.fuel_covers 10 Examples.filling_ops).
  { split; [simpl; lia|]. repeat constructor; simpl; lia. }
  split; [exact H|].
  destruct (cas_queue_threads Z 10 Examples.filling_ops Examples.thread_calls
              Examples.thread_schedule H) as (rs & q & ts & q' & Hrun & Hrace & Hquiet).
  exists rs, q, ts, q'. split; [exact Hrun|]. split; [exact Hrace|].
  assert (Hts : ts = [QueueThreads.QEnqueued true; QueueThreads.QDequeued (Some 2%Z);
                      QueueThreads.QDequeued (Some 3%Z)]).
  { vm_compute in Hrun. injection Hrun as _ <-.
    vm_compute in Hrace. injection Hrace as <- _. reflexivity. }
  split; [exact Hts|]. apply Hquiet. rewrite Hts. repeat constructor.
Defined.

Lemma cas_queue_obstruction_free_witness :
  Queue.fuel_covers 10 Examples.filling_ops ∧ 2 < length Examples.thread_calls ∧
  ∃ rs q ts q' pc,
    Queue.run (Queue.step_cas 10) Queue.new_queue Examples.filling_ops = Ok (rs, q) ∧
    QueueThreads.race (Examples.stale_schedule ++ replicate 10 (2, false))
      (QueueThreads.start <$> Examples.thread_calls) q = Ok (ts, q') ∧
    ts !! 2 = Some pc ∧ QueueThreads.returned pc.
Proof.
  assert (H : Queue.fuel_covers 10 Examples.filling_ops).
  { split; [simpl; lia|]. repeat constructor; simpl; lia. }
  assert (Ht : 2 < length Examples.thread_calls) by (simpl; lia).
  split; [exact H|]. split; [exact Ht|].
  exact (cas_queue_obstruction_free Z 10 Examples.filling_ops Examples.thread_calls
           Examples.stale_schedule 2 H Ht).
Defined.

Lemma store_queue_consumers_collide_witness :
  length Examples.filling_ops < 10 ∧ (Queue.fifo_run [] Examples.filling_ops).2 ≠ [] ∧
  ∃ rs q,
    Queue.run (Queue.step_store 10) Queue.new_queue Examples.filling_ops = Ok (rs, q) ∧
    QueueThreads.race_store QueueThreads.colliding_schedule
      [QueueThreads.SHead; QueueThreads.SHead] q = UB.
Proof.
  assert (H : length Examples.filling_ops < 10) by (simpl; lia).
  assert (Hne : (Queue.fifo_run [] Examples.filling_ops).2 ≠ []) by (simpl; discriminate).
  split; [exact H|]. split; [exact Hne|].
  exact (store_queue_consumers_collide Z 10 Examples.filling_ops H Hne).
Defined.

Lemma one_producer_one_consumer_witness :
  length Examples.filling_ops < 10 ∧
  ∃ rs q d q',
    Queue.run (Queue.step_store 10) Queue.new_queue Examples.filling_ops = Ok (rs, q) ∧
    QueueDuet.duet_race Examples.duet_schedule (QueueDuet.duet_start [4%Z; 5%Z] 3) q =
      Ok (d, q') ∧
    QueueDuet.taken d `prefix_of` (Queue.fifo_run [] Examples.filling_ops).2 ++ [4%Z; 5%Z] ∧
    (QueueDuet.duet_done d = true →
     length (QueueDuet.took d) = 3 ∧
     ∃ l, Queue.wf q' l ∧
          QueueDuet.taken d ++ l = (Queue.fifo_run [] Examples.filling_ops).2 ++ [4%Z; 5%Z]) ∧
    (3 * length [4%Z; 5%Z] ≤ QueueDuet.turns true Examples.duet_schedule →
     7 * 3 ≤ QueueDuet.turns false Examples.duet_schedule → QueueDuet.duet_done d = true).
Proof.
  assert (H : length Examples.filling_ops < 10) by (simpl; lia).
  split; [exact H|].
  exact (one_producer_one_consumer Z 10 Examples.filling_ops [4%Z; 5%Z] 3
           Examples.duet_schedule H).
Defined.

Lemma dequeue_overtaken_misses_witness :
  Queue.fuel_covers 10 Examples.filling_ops ∧
  (Queue.fifo_run [] Examples.filling_ops).2 = [2%Z; 3%Z] ∧
  ∃ rs q q' q'',
    Queue.run (Queue.step_cas 10) Queue.new_queue Examples.filling_ops = Ok (rs, q) ∧
    QueueThreads.race QueueThreads.overtaking_schedule
      [QueueThreads.QHead; QueueThreads.QHead] q =
      Ok ([QueueThreads.QDequeued (Some 2%Z); QueueThreads.QDequeued None], q') ∧
    Queue.dequeue_cas 1 [] q' = Ok (Some 3%Z, q'').
Proof.
  assert (H : Queue.fuel_covers 10 Examples.filling_ops).
  { split; [simpl; lia|]. repeat constructor; simpl; lia. }
  assert (Hl : (Queue.fifo_run [] Examples.filling_ops).2 = [2%Z; 3%Z]) by reflexivity.
  split; [exact H|]. split; [exact Hl|].
  exact (dequeue_overtaken_misses Z 10 Examples.filling_ops 2%Z 3%Z [] H Hl).
Defined.

Lemma enqueue_hidden_behind_stalled_witness :
  Queue.fuel_covers 10 Examples.queue_ops ∧
  (Queue.fifo_run [] Examples.queue_ops).2 = [] ∧
  ∃ rs q prev new q',
    Queue.run (Queue.step_cas 10) Queue.new_queue Examples.queue_ops = Ok (rs, q) ∧
    QueueThreads.race QueueThreads.stalling_schedule
      [QueueThreads.QAllocate 5%Z; QueueThreads.QAllocate 6%Z; QueueThreads.QHead] q =
      Ok ([QueueThreads.QLink prev new; QueueThreads.QEnqueued true;
           QueueThreads.QDequeued None], q').
Proof.
  assert (H : Queue.fuel_covers 10 Examples.queue_ops).
  { split; [simpl; lia|]. repeat constructor; simpl; lia. }
  assert (Hl : (Queue.fifo_run [] Examples.queue_ops).2 = []) by reflexivity.
  split; [exact H|]. split; [exact Hl|].
  exact (enqueue_hidden_behind_stalled Z 10 Examples.queue_ops 5%Z 6%Z H Hl).
Defined.

Lemma get_copies_deleted_value_witness :
  1 ≤ 4 ∧
  HashMap.fuel_covers 10 Examples.map_ops ∧
  HashMap.erase_undisturbed Examples.map_ops ∧
  is_Some ((HashMap.map_run ∅ Examples.map_ops).2 !! 9) ∧
  ∃ rs m node val m',
    HashMap.run Examples.hash_nat 10 (HashMap.new_map 4) Examples.map_ops = Ok (rs, m) ∧
    HashMap.get_step Examples.hash_nat 10 9 HashMap.GFind m =
      Ok (HashMap.GValue node) ∧
    HashMap.get_step Examples.hash_nat 10 9 (HashMap.GValue node) m =
      Ok (HashMap.GCopy val) ∧
    HashMap.insert Examples.hash_nat 10 [] m 9 901 = Ok (false, m') ∧
    HashMap.get_step Examples.hash_nat 10 9 (HashMap.GCopy val) m' = UB.
Proof.
  assert (H1 : 1 ≤ 4) by lia.
  assert (H2 : HashMap.fuel_covers 10 Examples.map_ops).
  { split; [simpl; lia|]. repeat constructor; simpl; lia. }
  assert (H3 : HashMap.erase_undisturbed Examples.map_ops).
  { repeat constructor. }
  assert (H4 : is_Some ((HashMap.map_run ∅ Examples.map_ops).2 !! 9)).
  { exists 900. by vm_compute. }
  split_and!; [exact H1|exact H2|exact H3|exact H4|].
  exact (get_copies_deleted_value Examples.hash_nat 4 10 Examples.map_ops 9 901 H1 H2 H3 H4).
Defined.

Lemma erase_frees_under_readers_witness :
  1 ≤ 4 ∧
  HashMap.fuel_covers 10 Examples.map_ops ∧
  HashMap.erase_undisturbed Examples.map_ops ∧
  is_Some ((HashMap.map_run ∅ Examples.map_ops).2 !! 9) ∧
  ∃ rs m l m',
    HashMap.run Examples.hash_nat 10 (HashMap.new_map 4) Examples.map_ops = Ok (rs, m) ∧
    HashMap.get_step Examples.hash_nat 10 9 HashMap.GFind m =
      Ok (HashMap.GValue (Some l)) ∧
    HashMap.insert_step Examples.hash_nat 10 false 9 901 HashMap.IFind m =
      Ok (HashMap.IUpdate l, m) ∧
    HashMap.erase Examples.hash_nat 10 [] m 9 = Ok (true, m') ∧
    HashMap.get_step Examples.hash_nat 10 9 (HashMap.GValue (Some l)) m' = UB ∧
    HashMap.insert_step Examples.hash_nat 10 false 9 901 (HashMap.IUpdate l) m' = UB.
Proof.
  assert (H1 : 1 ≤ 4) by lia.
  assert (H2 : HashMap.fuel_covers 10 Examples.map_ops).
  { split; [simpl; lia|]. repeat constructor; simpl; lia. }
  assert (H3 : HashMap.erase_undisturbed Examples.map_ops).
  { repeat constructor. }
  assert (H4 : is_Some ((HashMap.map_run ∅ Examples.map_ops).2 !! 9)).
  { exists 900. by vm_compute. }
  split_and!; [exact H1|exact H2|exact H3|exact H4|].
  exact (erase_frees_under_readers Examples.hash_nat 4 10 Examples.map_ops 9 901 H1 H2 H3 H4).
Defined.

Lemma pool_consumers_collide_witness :
  length [ThreadPool.Submit Examples.answer] < 5 ∧
  ∃ sys,
    ThreadPool.run 5 Examples.crowding_schedule
      (ThreadPool.start 2 [ThreadPool.Submit Examples.answer]) = Ok sys ∧
    0 ≠ 1 ∧
    ThreadPool.workers_ (ThreadPool.pool (ThreadPool.shared sys)) !! 0 =
      Some ThreadPool.WDequeue ∧
    ThreadPool.workers_ (ThreadPool.pool (ThreadPool.shared sys)) !! 1 =
      Some ThreadPool.WDequeue ∧
    Queue.empty (ThreadPool.task_queue_ (ThreadPool.pool (ThreadPool.shared sys))) =
      Ok false ∧
    QueueThreads.race_store QueueThreads.colliding_schedule
      [QueueThreads.SHead; QueueThreads.SHead]
      (ThreadPool.task_queue_ (ThreadPool.pool (ThreadPool.shared sys))) = UB.
Proof.
  assert (H1 : length [ThreadPool.Submit Examples.answer] < 5) by (simpl; lia).
  split; [exact H1|].
  destruct (pool_consumers_collide 2 5 [ThreadPool.Submit Examples.answer]
              Examples.crowding_schedule H1) as (sys & Hrun & Hcollide).
  exists sys. split; [exact Hrun|].
  assert (Hne : 0 ≠ 1) by lia.
  assert (Hstate :
    ThreadPool.workers_ (ThreadPool.pool (ThreadPool.shared sys)) !! 0 =
      Some ThreadPool.WDequeue ∧
    ThreadPool.workers_ (ThreadPool.pool (ThreadPool.shared sys)) !! 1 =
      Some ThreadPool.WDequeue ∧
    Queue.empty (ThreadPool.task_queue_ (ThreadPool.pool (ThreadPool.shared sys))) =
      Ok false).
  { vm_compute in Hrun. injection Hrun as <-. by vm_compute. }
  destruct Hstate as (Hw0 & Hw1 & Hempty).
  split_and!; [exact Hne|exact Hw0|exact Hw1|exact Hempty|].
  exact (Hcollide 0 1 Hne Hw0 Hw1 Hempty).
Defined.

Lemma exclusive_calls_are_safe_witness :
  1 ≤ 4 ∧
  HashMap.fuel_covers 10 Examples.map_ops ∧
  HashMap.erase_undisturbed Examples.map_ops ∧
  HashMapThreads.exclusive Examples.exclusive_calls = true ∧
  ∃ rs m ts m',
    HashMap.run Examples.hash_nat 10 (HashMap.new_map 4) Examples.map_ops = Ok (rs, m) ∧
    HashMapThreads.map_race Examples.hash_nat Examples.exclusive_schedule
      (HashMapThreads.calling <$> Examples.exclusive_calls) m = Ok (ts, m') ∧
    (Forall HashMapThreads.has_returned ts →
     ts = HashMapThreads.answered (HashMap.map_run ∅ Examples.map_ops).2
            <$> Examples.exclusive_calls ∧
     HashMap.size m' =
       wrap (Z.of_nat (base.size
               (list_to_map (HashMapThreads.inserted Examples.exclusive_calls) ∪
                (HashMap.map_run ∅ Examples.map_ops).2))) ∧
     ∀ fuel' ops',
       HashMap.fuel_covers fuel' ops' → HashMap.erase_undisturbed ops' →
       length Examples.map_ops + length Examples.exclusive_calls + length ops' < fuel' →
       ∃ m'', HashMap.run Examples.hash_nat fuel' m' ops' =
                Ok ((HashMap.map_run
                       (list_to_map (HashMapThreads.inserted Examples.exclusive_calls) ∪
                        (HashMap.map_run ∅ Examples.map_ops).2) ops').1, m'')).
Proof.
  assert (H1 : 1 ≤ 4) by lia.
  assert (H2 : HashMap.fuel_covers 10 Examples.map_ops).
  { split; [simpl; lia|]. repeat constructor; simpl; lia. }
  assert (H3 : HashMap.erase_undisturbed Examples.map_ops).
  { repeat constructor. }
  assert (H4 : HashMapThreads.exclusive Examples.exclusive_calls = true).
  { by vm_compute. }
  split_and!; [exact H1|exact H2|exact H3|exact H4|].
  exact (exclusive_calls_are_safe Examples.hash_nat 4 10 Examples.map_ops
           Examples.exclusive_calls Examples.exclusive_schedule H1 H2 H3 H4).
Defined.

Lemma exclusive_calls_obstruction_free_witness :
  1 ≤ 4 ∧
  HashMap.fuel_covers 10 Examples.map_ops ∧
  HashMap.erase_undisturbed Examples.map_ops ∧
  HashMapThreads.exclusive Examples.exclusive_calls = true ∧
  1 < length Examples.exclusive_calls ∧
  ∃ rs m ts m' th,
    HashMap.run Examples.hash_nat 10 (HashMap.new_map 4) Examples.map_ops = Ok (rs, m) ∧
    HashMapThreads.map_race Examples.hash_nat
      (take 22 Examples.exclusive_schedule ++
       replicate (2 * (length Examples.map_ops + length Examples.exclusive_calls) + 5)
         (1, false))
      (HashMapThreads.calling <$> Examples.exclusive_calls) m = Ok (ts, m') ∧
    ts !! 1 = Some th ∧ HashMapThreads.has_returned th.
Proof.
  assert (H1 : 1 ≤ 4) by lia.
  assert (H2 : HashMap.fuel_covers 10 Examples.map_ops).
  { split; [simpl; lia|]. repeat constructor; simpl; lia. }
  assert (H3 : HashMap.erase_undisturbed Examples.map_ops).
  { repeat constructor. }
  assert (H4 : HashMapThreads.exclusive Examples.exclusive_calls = true).
  { by vm_compute. }
  assert (H5 : 1 < length Examples.exclusive_calls).
  { simpl. lia. }
  split_and!; [exact H1|exact H2|exact H3|exact H4|exact H5|].
  exact (exclusive_calls_obstruction_free Examples.hash_nat 4 10 Examples.map_ops
           Examples.exclusive_calls (take 22 Examples.exclusive_schedule) 1
           H1 H2 H3 H4 H5).
Defined.

